(** * MDLog: the metadata journal of the metadata server

    A shallow embedding of [MDLog.cc] (the second document of
    [src/tools/crushtool.cc]): event submission and segment rotation,
    trimming and expiry, journal-pointer recovery, journal reformat and
    replay.  Collaborators whose code is elsewhere in the repository
    ([Journaler], [JournalPointer], [MDCache], [LogSegment], [LogEvent],
    the inline helpers of [MDLog.h]) are modelled from the specification
    and marked as such.  Of the first document, crushtool's [main], the
    part that builds a map in layers is embedded in [Crushtool]. *)

From stdpp Require Import base decidable option list sorting gmap strings.
From Stdlib Require Import ZArith Lia.

Local Open Scope Z_scope.

(** ** Outcomes of fallible code *)

(** An [assert] that fails, a division by zero or a dereference of a
    pointer that is not there ends the process: [Abort].  [OutOfFuel] is
    only for the fuel of the mutually recursive submit path; it is shown
    never to occur with the fuel the entry points use. *)
Inductive outcome (A : Type) : Type :=
  | Done (a : A)
  | Abort
  | OutOfFuel.
Arguments Done {A} a.
Arguments Abort {A}.
Arguments OutOfFuel {A}.

#[global] Instance outcome_ret : MRet outcome := λ A a, Done a.
#[global] Instance outcome_bind : MBind outcome := λ A B k m,
  match m with
  | Done a => k a
  | Abort => Abort
  | OutOfFuel => OutOfFuel
  end.

Definition assert (b : bool) : outcome unit := if b then Done tt else Abort.

(** ** Events *)

Inductive EventType : Type :=
  | EVENT_SUBTREEMAP
  | EVENT_IMPORTFINISH
  | EVENT_RESETJOURNAL
  | EVENT_SUBTREEMAP_TEST
  | EVENT_OTHER.

#[global] Instance EventType_eq_dec : EqDecision EventType.
Proof. solve_decision. Defined.

(** A [LogEvent] object.  [ev_payload] is the length in bytes of the
    encoded body, which is opaque to the journal. *)
Record LogEvent : Type := mkLogEvent {
  ev_type : EventType;
  ev_payload : nat;
  ev_start_off : Z;
  ev_stamp : Z;
}.

#[global] Instance LogEvent_eq_dec : EqDecision LogEvent.
Proof. solve_decision. Defined.

Definition set_start_off (pos : Z) (e : LogEvent) : LogEvent :=
  mkLogEvent (ev_type e) (ev_payload e) pos (ev_stamp e).
Definition set_stamp (t : Z) (e : LogEvent) : LogEvent :=
  mkLogEvent (ev_type e) (ev_payload e) (ev_start_off e) t.
Definition set_type (ty : EventType) (e : LogEvent) : LogEvent :=
  mkLogEvent ty (ev_payload e) (ev_start_off e) (ev_stamp e).

(** Modelled from the spec: the encoded form of an event
    ([LogEvent::encode_with_header] and [LogEvent::decode] are not in the
    sources).  The wire format is [length (u32) | type-tag (u32) |
    payload]; a buffer whose tag cannot be read does not decode. *)
Record bufferlist : Type := mkBl {
  bl_tag : option EventType;
  bl_body : nat;
}.

Definition bl_length (bl : bufferlist) : Z := 4 + Z.of_nat (bl_body bl).

Definition encode_with_header (e : LogEvent) : bufferlist :=
  mkBl (Some (ev_type e)) (ev_payload e).

Definition LogEvent_decode (bl : bufferlist) : option LogEvent :=
  match bl_tag bl with
  | Some ty => Some (mkLogEvent ty (bl_body bl) 0 0)
  | None => None
  end.

(** ** Contexts (completion callbacks) *)

Definition Context := nat.

(** ** Journaler *)

(** What the backend hands to a reader next. *)
Inductive incoming : Type :=
  | InEntry (bl : bufferlist)      (* a readable entry *)
  | InReadFail (err : Z)           (* readable, but try_read_entry fails *)
  | InError (err : Z).             (* the journaler reports an error *)

(** Modelled from the spec: the [ObjectJournal] collaborator
    ([osdc/Journaler] is not in the sources).  An append-only stream with
    the positions [expire_pos], [read_pos], [safe_pos], [write_pos]; every
    record is length-prefixed, so a record of [n] bytes moves a position
    by [4 + n]. *)
Record Journaler : Type := mkJournaler {
  j_ino : Z;
  j_readonly : bool;
  j_write_pos : Z;
  j_read_pos : Z;
  j_expire_pos : Z;
  j_safe_pos : Z;
  j_layout_period : Z;
  j_stream_format : Z;
  j_error : Z;
  j_written : list (Z * bufferlist);   (* appended records, oldest first *)
  j_unread : list incoming;   (* what a reader will see *)
  j_flush_waiters : list Context;
  j_head_writes : list Z;   (* expire_pos of each written head *)
  j_head_reads : nat;   (* re-reads of the head *)
  j_flushes : nat;
}.

Definition framed (bl : bufferlist) : Z := 4 + bl_length bl.

Definition j_with_write (wp : Z) (w : list (Z * bufferlist)) (j : Journaler) : Journaler :=
  mkJournaler (j_ino j) (j_readonly j) (wp) (j_read_pos j) (j_expire_pos j) (j_safe_pos j)
    (j_layout_period j) (j_stream_format j) (j_error j) (w) (j_unread j)
    (j_flush_waiters j) (j_head_writes j) (j_head_reads j) (j_flushes j).
Definition j_with_read (rp : Z) (u : list incoming) (err : Z) (j : Journaler) : Journaler :=
  mkJournaler (j_ino j) (j_readonly j) (j_write_pos j) (rp) (j_expire_pos j) (j_safe_pos
    j) (j_layout_period j) (j_stream_format j) (err) (j_written j) (u) (j_flush_waiters
    j) (j_head_writes j) (j_head_reads j) (j_flushes j).
Definition set_expire_pos (ep : Z) (j : Journaler) : Journaler :=
  mkJournaler (j_ino j) (j_readonly j) (j_write_pos j) (j_read_pos j) (ep) (j_safe_pos j)
    (j_layout_period j) (j_stream_format j) (j_error j) (j_written j) (j_unread j)
    (j_flush_waiters j) (j_head_writes j) (j_head_reads j) (j_flushes j).
Definition set_read_pos (rp : Z) (j : Journaler) : Journaler :=
  j_with_read rp (j_unread j) (j_error j) j.
Definition j_with_readonly (ro : bool) (j : Journaler) : Journaler :=
  mkJournaler (j_ino j) (ro) (j_write_pos j) (j_read_pos j) (j_expire_pos j) (j_safe_pos
    j) (j_layout_period j) (j_stream_format j) (j_error j) (j_written j) (j_unread j)
    (j_flush_waiters j) (j_head_writes j) (j_head_reads j) (j_flushes j).
Definition set_writeable := j_with_readonly false.
Definition set_readonly := j_with_readonly true.
Definition j_wait_for_flush (c : Context) (j : Journaler) : Journaler :=
  mkJournaler (j_ino j) (j_readonly j) (j_write_pos j) (j_read_pos j) (j_expire_pos j)
    (j_safe_pos j) (j_layout_period j) (j_stream_format j) (j_error j) (j_written j)
    (j_unread j) (j_flush_waiters j ++ [c]) (j_head_writes j) (j_head_reads j)
    (j_flushes j).
Definition j_write_head (j : Journaler) : Journaler :=
  mkJournaler (j_ino j) (j_readonly j) (j_write_pos j) (j_read_pos j) (j_expire_pos j)
    (j_safe_pos j) (j_layout_period j) (j_stream_format j) (j_error j) (j_written j)
    (j_unread j) (j_flush_waiters j) (j_head_writes j ++ [j_expire_pos j]) (j_head_reads
    j) (j_flushes j).
Definition j_flush (j : Journaler) : Journaler :=
  mkJournaler (j_ino j) (j_readonly j) (j_write_pos j) (j_read_pos j) (j_expire_pos j)
    (j_safe_pos j) (j_layout_period j) (j_stream_format j) (j_error j) (j_written j)
    (j_unread j) (j_flush_waiters j) (j_head_writes j) (j_head_reads j) (S (j_flushes
    j)).
(** [reread_head]: the positions come from the head as it is now. *)
Definition j_reread_head (wp ep : Z) (j : Journaler) : Journaler :=
  mkJournaler (j_ino j) (j_readonly j) (wp) (j_read_pos j) (ep) (j_safe_pos j)
    (j_layout_period j) (j_stream_format j) (j_error j) (j_written j) (j_unread j)
    (j_flush_waiters j) (j_head_writes j) (S (j_head_reads j)) (j_flushes j).

(** [append_entry]: only a writeable journaler appends; the record goes
    at [write_pos], which moves past it. *)
Definition append_entry (bl : bufferlist) (j : Journaler) : outcome Journaler :=
  _ ← assert (negb (j_readonly j));
  Done (j_with_write (j_write_pos j + framed bl)
          (j_written j ++ [(j_write_pos j, bl)]) j).

Definition get_write_pos := j_write_pos.
Definition get_read_pos := j_read_pos.
Definition get_expire_pos := j_expire_pos.
Definition get_write_safe_pos := j_safe_pos.
Definition get_layout_period := j_layout_period.
Definition get_stream_format := j_stream_format.
Definition is_readonly := j_readonly.

(** ** Log segments and the segment index *)

(** Modelled from the spec: [LogSegment] (its header is not in the
    sources): start offset, end offset and event count; a new segment is
    empty and ends where it starts.  [ls_addr] is the address of the
    object, which is what the sets of expiring and expired segments
    hold. *)
Record LogSegment : Type := mkLogSegment {
  ls_addr : nat;
  ls_offset : Z;
  ls_end : Z;
  ls_num_events : Z;
}.

Definition new_LogSegment (addr : nat) (pos : Z) : LogSegment :=
  mkLogSegment addr pos pos 0.

(** [map<uint64_t,LogSegment*> segments].  Every entry is put there as
    [segments[pos] = new LogSegment(pos)], so the key of an entry is the
    [offset] of its segment: the index is the list of its segments in
    ascending order of [ls_offset], one per offset. *)
Definition segmap := list LogSegment.

(** [segments[ls->offset] = ls]: a new key goes to its place in the
    order; an existing key gets the new object, and the result also
    gives the object that was there (nothing deletes it). *)
Fixpoint seg_assign (v : LogSegment) (m : segmap) : segmap * option LogSegment :=
  match m with
  | [] => ([v], None)
  | v' :: r =>
      if ls_offset v <? ls_offset v' then (v :: m, None)
      else if ls_offset v =? ls_offset v' then (v :: r, Some v')
      else let '(r', old) := seg_assign v r in (v' :: r', old)
  end.

(** [segments.erase(k)] *)
Fixpoint seg_erase (k : Z) (m : segmap) : segmap :=
  match m with
  | [] => []
  | v :: r => if ls_offset v =? k then r else v :: seg_erase k r
  end.

(** [segments.begin()] and [segments.rbegin()] *)
Definition seg_begin (m : segmap) : option LogSegment := head m.
Definition seg_rbegin (m : segmap) : option LogSegment := last m.

(** A write through [segments.rbegin()->second]. *)
Fixpoint seg_update_last (f : LogSegment → LogSegment) (m : segmap) : segmap :=
  match m with
  | [] => []
  | [v] => [f v]
  | v :: r => v :: seg_update_last f r
  end.

Definition sum_events (m : segmap) : Z :=
  foldr (λ ls acc, ls_num_events ls + acc) 0 m.

(** ** Configuration, the metadata server and its cache *)

Record md_config : Type := mkConf {
  mds_log : bool;
  mds_debug_subtrees : bool;
  mds_log_max_segments : Z;
  mds_log_max_events : Z;
  mds_log_max_expiring : Z;
  mds_journal_format : Z;
  mds_log_skip_corrupt_events : bool;
}.

(** What an operation sees of the server around it: the configuration,
    the server's state, the clock, and the answers of collaborators the
    journal only calls ([ceph_clock_now] is the [n]-th reading of the
    clock; [gather_has_subs n] tells whether the [n]-th call of
    [LogSegment::try_to_expire] left sub-operations in its gather;
    [subtree_map_payload] is the size of the subtree map the cache
    builds; [reread_head_err], [reread_head_write_pos] and
    [reread_head_expire_pos] are what a re-read of the journal head
    brings: its status and the positions the active writer has recorded
    there).  Times are in nanoseconds. *)
Record Env : Type := mkEnv {
  g_conf : md_config;
  is_any_replay : bool;
  is_resolve : bool;
  clock : nat → Z;
  gather_has_subs : nat → bool;
  subtree_map_payload : nat;
  reread_head_err : Z;
  reread_head_write_pos : Z;
  reread_head_expire_pos : Z;
}.

(** Modelled from the spec: the [MetadataSource] collaborator ([MDCache]
    is not in the sources), as far as the journal drives it: a stray
    directory pointer that [advance_stray] moves, and the calls of
    [trim]. *)
Record MDCache : Type := mkMDCache {
  mc_stray : nat;
  mc_trims : list Z;
}.
Definition advance_stray (c : MDCache) : MDCache := mkMDCache (S (mc_stray c)) (mc_trims c).
Definition mdcache_trim (m : Z) (c : MDCache) : MDCache := mkMDCache (mc_stray c) (mc_trims c ++ [m]).

(** ** Performance counters *)

Inductive l_mdl : Type :=
  | l_mdl_evadd | l_mdl_evex | l_mdl_evtrm | l_mdl_ev | l_mdl_evexg | l_mdl_evexd
  | l_mdl_segadd | l_mdl_segex | l_mdl_segtrm | l_mdl_seg | l_mdl_segexg | l_mdl_segexd
  | l_mdl_expos | l_mdl_wrpos | l_mdl_rdpos | l_mdl_jlat.

#[global] Instance l_mdl_eq_dec : EqDecision l_mdl.
Proof. solve_decision. Defined.

Definition PerfCounters := l_mdl → Z.
Definition pc_set (i : l_mdl) (v : Z) (p : PerfCounters) : PerfCounters :=
  λ j, if decide (j = i) then v else p j.
Definition pc_inc_by (i : l_mdl) (d : Z) (p : PerfCounters) : PerfCounters :=
  pc_set i (p i + d) p.
Definition pc_inc (i : l_mdl) := pc_inc_by i 1.

(** ** The state of MDLog *)

Record MDLog : Type := mkMDLog {
  journaler : Journaler;
  logger : PerfCounters;
  mdcache : MDCache;
  segments : segmap;
  leaked : list LogSegment;   (* objects replaced in the index, never deleted *)
  expiring_segments : gset nat;   (* set<LogSegment*>, by address *)
  expired_segments : gset nat;
  expiring_events : Z;
  expired_events : Z;
  num_events : Z;
  unflushed : Z;
  capped : bool;
  already_replayed : bool;
  cur_event : option LogEvent;
  waitfor_replay : list Context;
  completed : list (Context * Z);   (* callbacks completed, with their status *)
  next_addr : nat;   (* the allocator of LogSegment objects *)
  clock_reads : nat;
  expire_calls : nat;
}.

Definition with_journaler (j : Journaler) (s : MDLog) : MDLog :=
  mkMDLog (j) (logger s) (mdcache s) (segments s) (leaked s) (expiring_segments s)
    (expired_segments s) (expiring_events s) (expired_events s) (num_events s)
    (unflushed s) (capped s) (already_replayed s) (cur_event s) (waitfor_replay s)
    (completed s) (next_addr s) (clock_reads s) (expire_calls s).
Definition with_logger (l : PerfCounters) (s : MDLog) : MDLog :=
  mkMDLog (journaler s) (l) (mdcache s) (segments s) (leaked s) (expiring_segments s)
    (expired_segments s) (expiring_events s) (expired_events s) (num_events s)
    (unflushed s) (capped s) (already_replayed s) (cur_event s) (waitfor_replay s)
    (completed s) (next_addr s) (clock_reads s) (expire_calls s).
Definition with_mdcache (c : MDCache) (s : MDLog) : MDLog :=
  mkMDLog (journaler s) (logger s) (c) (segments s) (leaked s) (expiring_segments s)
    (expired_segments s) (expiring_events s) (expired_events s) (num_events s)
    (unflushed s) (capped s) (already_replayed s) (cur_event s) (waitfor_replay s)
    (completed s) (next_addr s) (clock_reads s) (expire_calls s).
Definition with_segments (m : segmap) (s : MDLog) : MDLog :=
  mkMDLog (journaler s) (logger s) (mdcache s) (m) (leaked s) (expiring_segments s)
    (expired_segments s) (expiring_events s) (expired_events s) (num_events s)
    (unflushed s) (capped s) (already_replayed s) (cur_event s) (waitfor_replay s)
    (completed s) (next_addr s) (clock_reads s) (expire_calls s).
Definition with_leaked (l : list LogSegment) (s : MDLog) : MDLog :=
  mkMDLog (journaler s) (logger s) (mdcache s) (segments s) (l) (expiring_segments s)
    (expired_segments s) (expiring_events s) (expired_events s) (num_events s)
    (unflushed s) (capped s) (already_replayed s) (cur_event s) (waitfor_replay s)
    (completed s) (next_addr s) (clock_reads s) (expire_calls s).
Definition with_num_events (n : Z) (s : MDLog) : MDLog :=
  mkMDLog (journaler s) (logger s) (mdcache s) (segments s) (leaked s) (expiring_segments
    s) (expired_segments s) (expiring_events s) (expired_events s) (n) (unflushed s)
    (capped s) (already_replayed s) (cur_event s) (waitfor_replay s) (completed s)
    (next_addr s) (clock_reads s) (expire_calls s).
Definition with_unflushed (n : Z) (s : MDLog) : MDLog :=
  mkMDLog (journaler s) (logger s) (mdcache s) (segments s) (leaked s) (expiring_segments
    s) (expired_segments s) (expiring_events s) (expired_events s) (num_events s) (n)
    (capped s) (already_replayed s) (cur_event s) (waitfor_replay s) (completed s)
    (next_addr s) (clock_reads s) (expire_calls s).
Definition with_capped (b : bool) (s : MDLog) : MDLog :=
  mkMDLog (journaler s) (logger s) (mdcache s) (segments s) (leaked s) (expiring_segments
    s) (expired_segments s) (expiring_events s) (expired_events s) (num_events s)
    (unflushed s) (b) (already_replayed s) (cur_event s) (waitfor_replay s) (completed
    s) (next_addr s) (clock_reads s) (expire_calls s).
Definition with_already_replayed (b : bool) (s : MDLog) : MDLog :=
  mkMDLog (journaler s) (logger s) (mdcache s) (segments s) (leaked s) (expiring_segments
    s) (expired_segments s) (expiring_events s) (expired_events s) (num_events s)
    (unflushed s) (capped s) (b) (cur_event s) (waitfor_replay s) (completed s)
    (next_addr s) (clock_reads s) (expire_calls s).
Definition with_cur_event (e : option LogEvent) (s : MDLog) : MDLog :=
  mkMDLog (journaler s) (logger s) (mdcache s) (segments s) (leaked s) (expiring_segments
    s) (expired_segments s) (expiring_events s) (expired_events s) (num_events s)
    (unflushed s) (capped s) (already_replayed s) (e) (waitfor_replay s) (completed s)
    (next_addr s) (clock_reads s) (expire_calls s).
Definition with_waitfor_replay (l : list Context) (s : MDLog) : MDLog :=
  mkMDLog (journaler s) (logger s) (mdcache s) (segments s) (leaked s) (expiring_segments
    s) (expired_segments s) (expiring_events s) (expired_events s) (num_events s)
    (unflushed s) (capped s) (already_replayed s) (cur_event s) (l) (completed s)
    (next_addr s) (clock_reads s) (expire_calls s).
Definition with_completed (l : list (Context * Z)) (s : MDLog) : MDLog :=
  mkMDLog (journaler s) (logger s) (mdcache s) (segments s) (leaked s) (expiring_segments
    s) (expired_segments s) (expiring_events s) (expired_events s) (num_events s)
    (unflushed s) (capped s) (already_replayed s) (cur_event s) (waitfor_replay s) (l)
    (next_addr s) (clock_reads s) (expire_calls s).
Definition with_next_addr (n : nat) (s : MDLog) : MDLog :=
  mkMDLog (journaler s) (logger s) (mdcache s) (segments s) (leaked s) (expiring_segments
    s) (expired_segments s) (expiring_events s) (expired_events s) (num_events s)
    (unflushed s) (capped s) (already_replayed s) (cur_event s) (waitfor_replay s)
    (completed s) (n) (clock_reads s) (expire_calls s).
Definition with_clock_reads (n : nat) (s : MDLog) : MDLog :=
  mkMDLog (journaler s) (logger s) (mdcache s) (segments s) (leaked s) (expiring_segments
    s) (expired_segments s) (expiring_events s) (expired_events s) (num_events s)
    (unflushed s) (capped s) (already_replayed s) (cur_event s) (waitfor_replay s)
    (completed s) (next_addr s) (n) (expire_calls s).
Definition with_expire_calls (n : nat) (s : MDLog) : MDLog :=
  mkMDLog (journaler s) (logger s) (mdcache s) (segments s) (leaked s) (expiring_segments
    s) (expired_segments s) (expiring_events s) (expired_events s) (num_events s)
    (unflushed s) (capped s) (already_replayed s) (cur_event s) (waitfor_replay s)
    (completed s) (next_addr s) (clock_reads s) (n).
Definition with_expiring (x : gset nat) (n : Z) (s : MDLog) : MDLog :=
  mkMDLog (journaler s) (logger s) (mdcache s) (segments s) (leaked s) (x)
    (expired_segments s) (n) (expired_events s) (num_events s) (unflushed s) (capped s)
    (already_replayed s) (cur_event s) (waitfor_replay s) (completed s) (next_addr s)
    (clock_reads s) (expire_calls s).
Definition with_expired (x : gset nat) (n : Z) (s : MDLog) : MDLog :=
  mkMDLog (journaler s) (logger s) (mdcache s) (segments s) (leaked s) (expiring_segments
    s) (x) (expiring_events s) (n) (num_events s) (unflushed s) (capped s)
    (already_replayed s) (cur_event s) (waitfor_replay s) (completed s) (next_addr s)
    (clock_reads s) (expire_calls s).

(** [c->complete(r)] *)
Definition complete (c : Context) (r : Z) (s : MDLog) : MDLog :=
  with_completed (completed s ++ [(c, r)]) s.

(** [ceph_clock_now] *)
Definition ceph_clock_now (e : Env) (s : MDLog) : Z * MDLog :=
  (clock e (clock_reads s), with_clock_reads (S (clock_reads s)) s).

(** ** Inline helpers of MDLog.h *)

(** Modelled from the spec: the accessors of the segment index that
    [MDLog.h] defines inline (the header is not in the sources).  The
    segment with the greatest key is the current segment;
    [get_last_segment_offset] is that key. *)
Definition peek_current_segment (s : MDLog) : option LogSegment :=
  seg_rbegin (segments s).
Definition get_current_segment (s : MDLog) : outcome LogSegment :=
  match seg_rbegin (segments s) with
  | Some ls => Done ls
  | None => Abort
  end.
Definition get_last_segment_offset (s : MDLog) : outcome Z :=
  match seg_rbegin (segments s) with
  | Some ls => Done (ls_offset ls)
  | None => Abort
  end.
Definition have_any_segments (s : MDLog) : bool :=
  match segments s with [] => false | _ => true end.
Definition get_oldest_segment (s : MDLog) : option LogSegment :=
  seg_begin (segments s).
(** Modelled from the spec: [remove_oldest_segment], also of [MDLog.h].
    Standby trim is to "remove each such segment from the index": the
    oldest segment leaves the index, and that is all. *)
Definition remove_oldest_segment (s : MDLog) : MDLog :=
  with_segments (tail (segments s)) s.

(** [MDLog::start_entry]: no entry is in progress; the event becomes
    the entry in progress and starts at the write position. *)
Definition start_entry (le : LogEvent) (s : MDLog) : outcome (LogEvent * MDLog) :=
  _ ← assert (bool_decide (cur_event s = None));
  let le' := set_start_off (get_write_pos (journaler s)) le in
  Done (le', with_cur_event (Some le') s).

(** Modelled from the spec: [MetadataSource::create_subtree_map() ->
    event] ([MDCache] is not in the sources).  The event comes back
    started, as the assertion [le == cur_event] of [submit_entry] needs:
    it is the entry in progress and starts at the write position. *)
Definition create_subtree_map (e : Env) (s : MDLog) : outcome (LogEvent * MDLog) :=
  start_entry (mkLogEvent EVENT_SUBTREEMAP (subtree_map_payload e) 0 0) s.

(** ** Submitting events *)

(** The rotation rule's first test: a subtree map, or an import finish
    while the server is in resolve, never rotates. *)
Definition suppress_rotation (e : Env) (le : LogEvent) : bool :=
  bool_decide (ev_type le = EVENT_SUBTREEMAP)
  || (bool_decide (ev_type le = EVENT_IMPORTFINISH) && is_resolve e).

Definition wait_for_safe (e : Env) (c : Context) (s : MDLog) : MDLog :=
  if mds_log (g_conf e) then
    with_journaler (j_wait_for_flush c (journaler s)) s
  else
    complete c 0 s.

Definition flush (s : MDLog) : MDLog :=
  with_unflushed 0
    (if bool_decide (unflushed s ≠ 0)
     then with_journaler (j_flush (journaler s)) s else s).

Definition cap (s : MDLog) : MDLog := with_capped true s.

(** [segments[pos] = new LogSegment(pos)] *)
Definition insert_new_segment (pos : Z) (s : MDLog) : MDLog :=
  let '(m, old) := seg_assign (new_LogSegment (next_addr s) pos) (segments s) in
  let s := with_next_addr (S (next_addr s)) (with_segments m s) in
  match old with
  | Some ls => with_leaked (ls :: leaked s) s
  | None => s
  end.

Definition prepare_new_segment (s : MDLog) : MDLog :=
  let s := insert_new_segment (get_write_pos (journaler s)) s in
  let s := with_logger
             (pc_set l_mdl_seg (Z.of_nat (length (segments s)))
                (pc_inc l_mdl_segadd (logger s))) s in
  with_mdcache (advance_stray (mdcache s)) s.

Definition ls_inc_events (ls : LogSegment) : LogSegment :=
  mkLogSegment (ls_addr ls) (ls_offset ls) (ls_end ls) (ls_num_events ls + 1).
Definition ls_set_end (pos : Z) (ls : LogSegment) : LogSegment :=
  mkLogSegment (ls_addr ls) (ls_offset ls) pos (ls_num_events ls).

(** The part of [submit_entry] between the [mds_log] test and the
    rotation rule: the event joins the current segment and is appended to
    the journal. *)
Definition journal_entry (e : Env) (le : LogEvent) (c : option Context)
    (s : MDLog) : outcome (LogEvent * MDLog) :=
  _ ← assert (have_any_segments s);
  let s := with_segments (seg_update_last ls_inc_events (segments s)) s in
  let '(now, s) := ceph_clock_now e s in
  let le := set_stamp now le in
  let s := with_num_events (num_events s + 1) s in
  _ ← assert (negb (capped s));
  j ← append_entry (encode_with_header le) (journaler s);
  let s := with_journaler j s in
  let s := with_segments
             (seg_update_last (ls_set_end (get_write_pos j)) (segments s)) s in
  let s := with_logger
             (pc_set l_mdl_wrpos (get_write_pos j)
                (pc_set l_mdl_ev (num_events s)
                   (pc_inc l_mdl_evadd (logger s)))) s in
  let s := with_unflushed (unflushed s + 1) s in
  let s := match c with
           | Some c => with_journaler (j_wait_for_flush c (journaler s)) s
           | None => s
           end in
  Done (le, s).

Section Submit.
Variable e : Env.

Section WithSubmit.
(** [submit_entry], [start_new_segment] and
    [journal_segment_subtree_map] call each other; the recursive call
    of [submit_entry] is a parameter here. *)
Variable submit : LogEvent → option Context → MDLog → outcome MDLog.

Definition journal_segment_subtree_map_with (s : MDLog) : outcome MDLog :=
  '(le, s) ← create_subtree_map e s;
  submit le None s.

Definition start_new_segment_with (onsync : option Context) (s : MDLog)
    : outcome MDLog :=
  s ← journal_segment_subtree_map_with (prepare_new_segment s);
  match onsync with
  | Some c => Done (flush (wait_for_safe e c s))
  | None => Done s
  end.

Definition submit_entry_with (le : LogEvent) (c : option Context) (s : MDLog)
    : outcome MDLog :=
  _ ← assert (negb (is_any_replay e));
  _ ← assert (bool_decide (cur_event s = Some le));
  let s := with_cur_event None s in
  if negb (mds_log (g_conf e)) then
    (* hack: log is disabled. *)
    Done (match c with Some c => complete c 0 s | None => s end)
  else
    '(le, s) ← journal_entry e le c s;
    (* start a new segment? *)
    last_seg ← get_last_segment_offset s;
    let period := get_layout_period (journaler s) in
    if suppress_rotation e le then
      Done s
    else
      _ ← assert (bool_decide (period ≠ 0));
      if bool_decide (get_write_pos (journaler s) / period ≠ last_seg / period) then
        start_new_segment_with None s
      else if mds_debug_subtrees (g_conf e)
              && bool_decide (ev_type le ≠ EVENT_SUBTREEMAP_TEST) then
        (* debug: journal this every time to catch subtree replay bugs. *)
        '(sle, s) ← create_subtree_map e s;
        let sle := set_type EVENT_SUBTREEMAP_TEST sle in
        submit sle None (with_cur_event (Some sle) s)
      else
        Done s.
End WithSubmit.

Fixpoint submit_entry_fuel (fuel : nat) (le : LogEvent) (c : option Context)
    (s : MDLog) : outcome MDLog :=
  match fuel with
  | O => OutOfFuel
  | S fuel => submit_entry_with (submit_entry_fuel fuel) le c s
  end.

(** The calls nest at most three deep: an event, the test subtree map
    the debug mode injects after it, and the subtree map of the segment
    that one starts. *)
Definition submit_entry := submit_entry_fuel 3.
Definition start_new_segment := start_new_segment_with (submit_entry_fuel 2).
Definition journal_segment_subtree_map :=
  journal_segment_subtree_map_with (submit_entry_fuel 2).
End Submit.

(** ** Trimming and expiry *)

(** Modelled from the spec: the message priorities between which [trim]
    interpolates ([include/msgr.h] is not in the sources). *)
Definition CEPH_MSG_PRIO_LOW : Z := 64.
Definition CEPH_MSG_PRIO_HIGH : Z := 196.

(** [set<LogSegment*>::count] *)
Definition count (ls : LogSegment) (x : gset nat) : bool :=
  bool_decide (ls_addr ls ∈ x).

Definition _expired (ls : LogSegment) (s : MDLog) : MDLog :=
  let s :=
    if negb (capped s)
       && bool_decide (ls_addr <$> peek_current_segment s = Some (ls_addr ls)) then
      s
    else
      let s := with_expired ({[ls_addr ls]} ∪ expired_segments s)
                 (expired_events s + ls_num_events ls) s in
      with_logger (pc_inc l_mdl_segex
                     (pc_inc_by l_mdl_evex (ls_num_events ls) (logger s))) s in
  with_logger
    (pc_set l_mdl_segexd (Z.of_nat (size (expired_segments s)))
       (pc_set l_mdl_seg (Z.of_nat (length (segments s)))
          (pc_set l_mdl_evexd (expired_events s)
             (pc_set l_mdl_ev (num_events s) (logger s))))) s.

Definition try_expire (e : Env) (ls : LogSegment) (op_prio : Z) (s : MDLog)
    : outcome MDLog :=
  let has_subs := gather_has_subs e (expire_calls s) in
  let s := with_expire_calls (S (expire_calls s)) s in
  s ← (if has_subs then
         _ ← assert (negb (count ls (expiring_segments s)));
         Done (with_expiring ({[ls_addr ls]} ∪ expiring_segments s)
                 (expiring_events s + ls_num_events ls) s)
       else
         Done (_expired ls s));
  Done (with_logger
          (pc_set l_mdl_evexg (expiring_events s)
             (pc_set l_mdl_segexg (Z.of_nat (size (expiring_segments s)))
                (logger s))) s).

(** [*ls] for a pointer that a callback has kept: the object is in the
    index, or was replaced there and lives on; a deleted one is gone. *)
Definition deref (a : nat) (s : MDLog) : outcome LogSegment :=
  match list_find (λ ls, ls_addr ls = a) (segments s ++ leaked s) with
  | Some (_, ls) => Done ls
  | None => Abort
  end.

Definition _maybe_expired (e : Env) (a : nat) (op_prio : Z) (s : MDLog)
    : outcome MDLog :=
  ls ← deref a s;
  _ ← assert (count ls (expiring_segments s));
  let s := with_expiring (expiring_segments s ∖ {[ls_addr ls]})
             (expiring_events s - ls_num_events ls) s in
  try_expire e ls op_prio s.

(** One round of the loop of [_trim_expired_segments]; [None] is its
    [break] and the end of its condition. *)
Definition trim_expired_step (s : MDLog) : option (LogSegment * MDLog) :=
  match seg_begin (segments s) with
  | None => None
  | Some ls =>
      if negb (count ls (expired_segments s)) then None
      else
        let s := with_expired (expired_segments s ∖ {[ls_addr ls]})
                   (expired_events s - ls_num_events ls) s in
        let s := with_num_events (num_events s - ls_num_events ls) s in
        let s := if bool_decide (get_expire_pos (journaler s) < ls_offset ls)
                 then with_journaler (set_expire_pos (ls_offset ls) (journaler s)) s
                 else s in
        let s := with_logger
                   (pc_inc_by l_mdl_evtrm (ls_num_events ls)
                      (pc_inc l_mdl_segtrm
                         (pc_set l_mdl_expos (ls_offset ls) (logger s)))) s in
        Some (ls, with_segments (seg_erase (ls_offset ls) (segments s)) s)
  end.

(** The loop, with the segments it removed (oldest first). *)
Fixpoint trim_expired_loop (fuel : nat) (s : MDLog) : list LogSegment * MDLog :=
  match fuel with
  | O => ([], s)
  | S fuel =>
      match trim_expired_step s with
      | None => ([], s)
      | Some (ls, s) =>
          let '(removed, s) := trim_expired_loop fuel s in
          (ls :: removed, s)
      end
  end.

(** Every round erases the first segment, so the length of the index
    bounds the rounds. *)
Definition trimmed_segments (s : MDLog) : list LogSegment :=
  (trim_expired_loop (length (segments s)) s).1.

Definition _trim_expired_segments (s : MDLog) : MDLog :=
  let '(removed, s) := trim_expired_loop (length (segments s)) s in
  if bool_decide (removed ≠ [])
  then with_journaler (j_write_head (journaler s)) s
  else s.

(** Why the loop of [trim] ended. *)
Inductive trim_stop : Type :=
  | StopEnd            (* p == segments.end() *)
  | StopWithinBounds   (* neither count is above its maximum *)
  | StopTime           (* the two seconds are over *)
  | StopMaxExpiring    (* too many segments are expiring *)
  | StopUnflushed.     (* ls->end is beyond the safe position *)

#[global] Instance trim_stop_eq_dec : EqDecision trim_stop.
Proof. solve_decision. Defined.

(** The unsigned arithmetic of the segment test: [size_t] is 64 bits
    wide, and [max_segments] is cast to [unsigned]. *)
Definition live_segments (s : MDLog) : Z :=
  (Z.of_nat (length (segments s)) - Z.of_nat (size (expiring_segments s))
   - Z.of_nat (size (expired_segments s))) `mod` 2 ^ 64.
Definition live_events (s : MDLog) : Z :=
  num_events s - expiring_events s - expired_events s.

Definition over_limits (max_events max_segments : Z) (s : MDLog) : bool :=
  (bool_decide (0 ≤ max_events) && bool_decide (max_events < live_events s))
  || (bool_decide (0 ≤ max_segments)
      && bool_decide (max_segments `mod` 2 ^ 32 < live_segments s)).

(** What a round of the loop of [trim] ends in. *)
Inductive trim_step : Type :=
  | TrimStop (why : trim_stop) (s : MDLog)
  | TrimNext (s : MDLog).

(** One round of the loop of [trim]: its condition and its body.  [p] is
    the iterator, the segments from it to the end of the index. *)
Definition trim_round (e : Env) (max_events max_segments stop : Z) (p : segmap)
    (s : MDLog) : outcome trim_step :=
  match p with
  | [] => Done (TrimStop StopEnd s)
  | ls :: _ =>
      if negb (over_limits max_events max_segments s) then
        Done (TrimStop StopWithinBounds s)
      else
        let '(now, s) := ceph_clock_now e s in
        if bool_decide (stop < now) then Done (TrimStop StopTime s)
        else
          let num_expiring_segments := Z.of_nat (size (expiring_segments s)) in
          if bool_decide (mds_log_max_expiring (g_conf e) ≤ num_expiring_segments)
          then Done (TrimStop StopMaxExpiring s)
          else
            let op_prio :=
              CEPH_MSG_PRIO_LOW
              + ((CEPH_MSG_PRIO_HIGH - CEPH_MSG_PRIO_LOW) * num_expiring_segments)
                `quot` mds_log_max_expiring (g_conf e) in
            (* look at first segment *)
            if bool_decide (get_write_safe_pos (journaler s) < ls_end ls) then
              Done (TrimStop StopUnflushed s)
            else
              s ← (if count ls (expiring_segments s) then Done s
                   else if count ls (expired_segments s) then Done s
                   else try_expire e ls op_prio s);
              Done (TrimNext s)
  end.

(** The loop of [trim].  It gives the reason it ended for, the segments
    the iterator has passed, in that order, and the state. *)
Fixpoint trim_loop (e : Env) (max_events max_segments stop : Z) (p : segmap)
    (s : MDLog) {struct p} : outcome (trim_stop * list LogSegment * MDLog) :=
  step ← trim_round e max_events max_segments stop p s;
  match step, p with
  | TrimStop StopUnflushed s, ls :: _ => Done (StopUnflushed, [ls], s)
  | TrimStop why s, _ => Done (why, [], s)
  | TrimNext s, ls :: p =>
      '(why, seen, s) ← trim_loop e max_events max_segments stop p s;
      Done (why, ls :: seen, s)
  | TrimNext s, [] => Done (StopEnd, [], s)
  end.

(** When a round of the loop of [trim] ends the loop. *)
Definition trim_stop_cond (e : Env) (max_events max_segments stop : Z) (p : segmap)
    (s : MDLog) : Prop :=
  p = []
  ∨ over_limits max_events max_segments s = false
  ∨ stop < clock e (clock_reads s)
  ∨ mds_log_max_expiring (g_conf e) ≤ Z.of_nat (size (expiring_segments s))
  ∨ ∃ ls p', p = ls :: p' ∧ get_write_safe_pos (journaler s) < ls_end ls.

(** The loop of [trim] as the claim has it: from [p] and the state [s]
    the iterator passes the segments [visited], one round of the loop
    for each, none of them under the stop condition, and comes to
    [rest] in the state [s'], where the stop condition holds. *)
Inductive trim_visits (e : Env) (max_events max_segments stop : Z)
    : segmap → MDLog → list LogSegment → segmap → MDLog → Prop :=
  | trim_visits_stop p s :
      trim_stop_cond e max_events max_segments stop p s →
      trim_visits e max_events max_segments stop p s [] p s
  | trim_visits_next ls p s s1 visited rest s' :
      ¬ trim_stop_cond e max_events max_segments stop (ls :: p) s →
      trim_round e max_events max_segments stop (ls :: p) s = Done (TrimNext s1) →
      trim_visits e max_events max_segments stop p s1 visited rest s' →
      trim_visits e max_events max_segments stop (ls :: p) s (ls :: visited) rest s'.

Definition two_seconds : Z := 2 * 1000000000.

Definition trim (e : Env) (m : Z) (s : MDLog) : outcome MDLog :=
  let max_segments := mds_log_max_segments (g_conf e) in
  let max_events := if bool_decide (0 ≤ m) then m else mds_log_max_events (g_conf e) in
  if negb (have_any_segments s) then Done s
  else
    (* hack: only trim for a few seconds at a time *)
    let '(now, s) := ceph_clock_now e s in
    let stop := now + two_seconds in
    '(_, _, s) ← trim_loop e max_events max_segments stop (segments s) s;
    (* discard expired segments *)
    Done (_trim_expired_segments s).

(** ** Standby trim *)

(** The loop of [standby_trim_segments]; clearing the dirty lists of a
    segment touches the cache only. *)
Fixpoint standby_trim_loop (fuel : nat) (expire_pos : Z) (removed_segment : bool)
    (s : MDLog) : bool * MDLog :=
  match fuel with
  | O => (removed_segment, s)
  | S fuel =>
      match get_oldest_segment s with
      | None => (removed_segment, s)
      | Some seg =>
          if bool_decide (expire_pos < ls_end seg) then (removed_segment, s)
          else standby_trim_loop fuel expire_pos true (remove_oldest_segment s)
      end
  end.

Definition standby_trim_segments (s : MDLog) : MDLog :=
  let expire_pos := get_expire_pos (journaler s) in
  let '(removed_segment, s) :=
    standby_trim_loop (length (segments s)) expire_pos false s in
  if removed_segment then with_mdcache (mdcache_trim (-1) (mdcache s)) s else s.

(** ** Replay *)

Definition ENOENT : Z := 2.
Definition EAGAIN : Z := 11.
Definition EINVAL : Z := 22.

(** [finish_contexts(waitfor_replay, r)] *)
Definition finish_contexts (r : Z) (s : MDLog) : MDLog :=
  with_waitfor_replay []
    (with_completed (completed s ++ ((λ c, (c, r)) <$> waitfor_replay s)) s).

(** The branch of [_replay_thread] for a journaler in error [err]: the
    status replay ends with.  A failed re-read of the head ends in
    [suicide]: the process is over. *)
Definition replay_error (e : Env) (err : Z) (s : MDLog) : outcome (Z * MDLog) :=
  let j := journaler s in
  if bool_decide (err = - ENOENT) then
    (* journal has been trimmed by somebody else? *)
    _ ← assert (is_readonly j);
    Done (- EAGAIN, s)
  else if bool_decide (err = - EINVAL) then
    if bool_decide (get_read_pos j < get_expire_pos j) then
      (* this should only happen if you're following somebody else *)
      _ ← assert (is_readonly j);
      Done (- EAGAIN, s)
    else
      (* re-read head and check it *)
      let s := with_journaler
                 (j_reread_head (reread_head_write_pos e) (reread_head_expire_pos e) j) s in
      _ ← assert (bool_decide (reread_head_err e = 0));
      let s := standby_trim_segments s in
      if bool_decide (get_read_pos (journaler s) < get_expire_pos (journaler s))
      then Done (- EAGAIN, s)
      else Done (err, s)
  else
    Done (err, s).

(** What [_replay_thread] does with an entry it has read at [pos]. *)
Definition replay_entry (e : Env) (pos : Z) (bl : bufferlist) (s : MDLog)
    : outcome MDLog :=
  match LogEvent_decode bl with
  | None =>
      _ ← assert (mds_log_skip_corrupt_events (g_conf e));
      Done s
  | Some le =>
      let le := set_start_off pos le in
      (* new segment? *)
      let s :=
        if bool_decide (ev_type le = EVENT_SUBTREEMAP)
           || bool_decide (ev_type le = EVENT_RESETJOURNAL) then
          let s := insert_new_segment pos s in
          with_logger (pc_set l_mdl_seg (Z.of_nat (length (segments s))) (logger s)) s
        else s in
      (* have we seen an import map yet? *)
      let s :=
        if negb (have_any_segments s) then s
        else
          let s := with_segments
                     (seg_update_last
                        (λ ls, ls_set_end (get_read_pos (journaler s)) (ls_inc_events ls))
                        (segments s)) s in
          with_num_events (num_events s + 1) s in
      Done (with_logger (pc_set l_mdl_rdpos pos (logger s)) s)
  end.

Inductive loop_step : Type :=
  | Continue (s : MDLog)
  | Break (r : Z) (s : MDLog)
  | Blocked (s : MDLog).      (* waits for the backend, which brings nothing *)

(** The backend reports an error: [get_error] gives it from then on. *)
Definition j_receive (j : Journaler) : Journaler :=
  match j_unread j with
  | InError err :: u =>
      if bool_decide (j_error j = 0) then j_with_read (j_read_pos j) u err j else j
  | _ => j
  end.
Definition get_error := j_error.

(** [is_readable]: the next record is there, whole. *)
Definition is_readable (j : Journaler) : bool :=
  match j_unread j with
  | InEntry bl :: _ => bool_decide (j_read_pos j + framed bl ≤ j_write_pos j)
  | InReadFail _ :: _ => true
  | _ => false
  end.

(** [try_read_entry] on a readable journaler: the record, or an error. *)
Definition try_read_entry (j : Journaler) : option bufferlist * Journaler :=
  match j_unread j with
  | InEntry bl :: u => (Some bl, j_with_read (j_read_pos j + framed bl) u (j_error j) j)
  | InReadFail err :: u => (None, j_with_read (j_read_pos j) u err j)
  | _ => (None, j)
  end.

(** One round of the [while (1)] of [_replay_thread].  Its inner loop
    waits while the journaler is not readable, has more to read and has
    no error; the backend then brings what it has ([j_receive]), and
    when that is nothing the thread waits for ever. *)
Definition replay_round (e : Env) (s : MDLog) : outcome loop_step :=
  let j := j_receive (journaler s) in
  let s := with_journaler j s in
  if bool_decide (get_error j ≠ 0) then
    '(r, s) ← replay_error e (get_error j) s;
    Done (Break r s)
  else if negb (is_readable j) then
    if bool_decide (get_read_pos j = get_write_pos j) then Done (Break 0 s)
    else if bool_decide (get_read_pos j < get_write_pos j) then Done (Blocked s)
    else Abort
  else
    (* read it *)
    let pos := get_read_pos j in
    let '(r, j) := try_read_entry j in
    let s := with_journaler j s in
    match r with
    | None =>
        _ ← assert (bool_decide (get_error j ≠ 0));
        Done (Continue s)
    | Some bl =>
        s ← replay_entry e pos bl s;
        Done (Continue s)
    end.

Inductive replay_result : Type :=
  | Replayed (r : Z) (s : MDLog)
  | Stuck (s : MDLog).

Fixpoint replay_loop (fuel : nat) (e : Env) (s : MDLog) : outcome replay_result :=
  match fuel with
  | O => OutOfFuel
  | S fuel =>
      step ← replay_round e s;
      match step with
      | Continue s => replay_loop fuel e s
      | Blocked s => Done (Stuck s)
      | Break r s =>
          (* done! *)
          _ ← assert (bool_decide (r ≠ 0)
                      || bool_decide (get_read_pos (journaler s) = get_write_pos (journaler s)));
          let s := if bool_decide (r = 0)
                   then with_logger
                          (pc_set l_mdl_expos (get_expire_pos (journaler s)) (logger s)) s
                   else s in
          Done (Replayed r (finish_contexts r s))
      end
  end.

(** Every round that continues takes one item from what the backend has
    to deliver. *)
Definition _replay_thread (e : Env) (s : MDLog) : outcome replay_result :=
  replay_loop (S (S (length (j_unread (journaler s))))) e s.

(** [MDLog::replay] and the thread it starts.  The journaler of the
    model is one that has been recovered, so [is_active] holds. *)
Definition replay (e : Env) (c : option Context) (s : MDLog) : outcome replay_result :=
  let j := journaler s in
  _ ← assert (is_readonly j);
  (* empty? *)
  if bool_decide (get_read_pos j = get_write_pos j) then
    Done (Replayed 0 (match c with Some c => complete c 0 s | None => s end))
  else
    let s := match c with
             | Some c => with_waitfor_replay (waitfor_replay s ++ [c]) s
             | None => s
             end in
    _ ← assert (bool_decide (num_events s = 0) || already_replayed s);
    _replay_thread e (with_already_replayed true s).

(** [MDLog::append] *)
Definition append (s : MDLog) : MDLog :=
  let j := journaler s in
  let j := set_writeable (set_expire_pos (get_write_pos j) (set_read_pos (get_write_pos j) j)) in
  with_logger (pc_set l_mdl_expos (get_write_pos j) (logger s)) (with_journaler j s).

(** ** Recovery of the journal pointer and reformat *)

Module Recovery.

(** Modelled from the spec: [JournalPointer] (its code is not in the
    sources): two inode numbers, [front] for the active journal and
    [back], which is 0 unless a reformat is under way; it is null when
    both are 0. *)
Record JournalPointer : Type := mkJP {
  front : Z;
  back : Z;
}.
Definition is_null (jp : JournalPointer) : bool :=
  bool_decide (front jp = 0) && bool_decide (back jp = 0).

(** What the threads ask of the object store, in order. *)
Inductive io : Type :=
  | IoLoad
  | IoSave (jp : JournalPointer)
  | IoRecover (ino : Z)
  | IoErase (ino : Z)
  | IoWriteHead (ino : Z) (format : Z)
  | IoFlush (ino : Z)
  | IoComplete (r : Z).

#[global] Instance JournalPointer_eq_dec : EqDecision JournalPointer.
Proof. solve_decision. Defined.
#[global] Instance io_eq_dec : EqDecision io.
Proof. solve_decision. Defined.

(** The server and the answers of the object store: the inode numbers
    of the two journals of this node ([MDS_INO_LOG_OFFSET] and
    [MDS_INO_LOG_BACKUP_OFFSET] are not in the sources), the configured
    format, and the status of each request ([save_result n] for the
    [n]-th save of the pointer; 0 is success). *)
Record Server : Type := mkServer {
  nodeid : Z;
  MDS_INO_LOG_OFFSET : Z;
  MDS_INO_LOG_BACKUP_OFFSET : Z;
  journal_format : Z;
  load_fault : Z;
  save_result : nat → Z;
  recover_result : Z → Z;
  erase_fault : Z → Z;
}.

(** The metadata pool and the MDLog fields the threads set. *)
Record World : Type := mkWorld {
  pointer_object : option JournalPointer;   (* the stored pointer *)
  journals : gmap Z Journaler;              (* the stored journals, by inode *)
  saves : nat;
  trace : list io;
  the_journaler : option Journaler;         (* MDLog::journaler *)
}.

Definition log (x : io) (w : World) : World :=
  mkWorld (pointer_object w) (journals w) (saves w) (trace w ++ [x]) (the_journaler w).
Definition with_journals (m : gmap Z Journaler) (w : World) : World :=
  mkWorld (pointer_object w) m (saves w) (trace w) (the_journaler w).
Definition install (j : Journaler) (w : World) : World :=
  mkWorld (pointer_object w) (journals w) (saves w) (trace w) (Some j).

(** [Journaler(ino, ...)]: read-only, nothing known yet. *)
Definition new_Journaler (ino : Z) : Journaler :=
  mkJournaler ino true 0 0 0 0 0 0 0 [] [] [] [] 0 0.

(** [jp.load]: [-ENOENT] when there is no pointer object. *)
Definition jp_load (sv : Server) (w : World) : Z * JournalPointer * World :=
  let w := log IoLoad w in
  if bool_decide (load_fault sv ≠ 0) then (load_fault sv, mkJP 0 0, w)
  else match pointer_object w with
       | Some jp => (0, jp, w)
       | None => (- ENOENT, mkJP 0 0, w)
       end.

(** [jp.save]: the pointer is stored unless the store refuses. *)
Definition jp_save (sv : Server) (jp : JournalPointer) (w : World) : Z * World :=
  let r := save_result sv (saves w) in
  let w := log (IoSave jp) w in
  (r, mkWorld (if bool_decide (0 ≤ r) then Some jp else pointer_object w)
        (journals w) (S (saves w)) (trace w) (the_journaler w)).

(** [recover]: the journaler takes the stored journal's header, and
    what was written there is there to read; with no objects there it
    stays empty. *)
Definition recovered (j st : Journaler) : Journaler :=
  mkJournaler (j_ino j) (j_readonly j) (j_write_pos st) (j_read_pos st) (j_expire_pos st)
    (j_safe_pos st) (j_layout_period st) (j_stream_format st) 0 []
    (j_unread st ++ ((λ x, InEntry x.2) <$> j_written st)) [] [] 0 0.
Definition recover (sv : Server) (j : Journaler) (w : World) : Z * Journaler * World :=
  let w := log (IoRecover (j_ino j)) w in
  let r := recover_result sv (j_ino j) in
  if bool_decide (r ≠ 0) then (r, j, w)
  else (0, from_option (recovered j) j (journals w !! j_ino j), w).

(** [erase]: the objects of the journal go, unless the store fails;
    with nothing to erase the status is [-ENOENT]. *)
Definition erase (sv : Server) (j : Journaler) (w : World) : Z * World :=
  let w := log (IoErase (j_ino j)) w in
  if bool_decide (erase_fault sv (j_ino j) ≠ 0) then (erase_fault sv (j_ino j), w)
  else match journals w !! j_ino j with
       | Some _ => (0, with_journals (delete (j_ino j) (journals w)) w)
       | None => (- ENOENT, w)
       end.

(** [create(layout, format)] and [write_head] *)
Definition create (period format : Z) (j : Journaler) : Journaler :=
  mkJournaler (j_ino j) (j_readonly j) 0 0 0 0 period format 0 [] [] [] [] 0 0.
Definition write_head (j : Journaler) (w : World) : Journaler * World :=
  let w := log (IoWriteHead (j_ino j) (j_stream_format j)) w in
  let j := j_write_head j in
  (j, with_journals (<[j_ino j := j]> (journals w)) w).
(** [flush] with a waiter: what was appended is safe and stored. *)
Definition flush_wait (j : Journaler) (w : World) : Journaler * World :=
  let w := log (IoFlush (j_ino j)) w in
  let j := mkJournaler (j_ino j) (j_readonly j) (j_write_pos j) (j_read_pos j)
             (j_expire_pos j) (j_write_pos j) (j_layout_period j) (j_stream_format j)
             (j_error j) (j_written j) (j_unread j) (j_flush_waiters j)
             (j_head_writes j) (j_head_reads j) (S (j_flushes j)) in
  (j, with_journals (<[j_ino j := j]> (journals w)) w).

(** How a thread ends: it completes, or it waits for a backend that
    brings nothing more. *)
Inductive thread_end : Type :=
  | Finished (w : World)
  | Waiting (w : World).

(** The transcription loop of [_reformat_journal]: every record read
    from the old journal is appended to the new one.  It gives the
    status [r], the number of records transcribed and both journalers,
    or [None] when the loop waits for ever. *)
Fixpoint transcribe (fuel : nat) (events_transcribed : Z) (old_journal new_journal : Journaler)
    : outcome (option (Z * Z * Journaler * Journaler)) :=
  match fuel with
  | O => OutOfFuel
  | S fuel =>
      let old_journal := j_receive old_journal in
      if bool_decide (get_error old_journal ≠ 0) then
        Done (Some (get_error old_journal, events_transcribed, old_journal, new_journal))
      else if negb (is_readable old_journal) then
        if bool_decide (get_read_pos old_journal = get_write_pos old_journal) then
          Done (Some (0, events_transcribed, old_journal, new_journal))
        else if bool_decide (get_read_pos old_journal < get_write_pos old_journal) then
          Done None
        else Abort
      else
        (* Read one serialized LogEvent *)
        let '(r, old_journal) := try_read_entry old_journal in
        match r with
        | None =>
            _ ← assert (bool_decide (get_error old_journal ≠ 0));
            transcribe fuel events_transcribed old_journal new_journal
        | Some bl =>
            (* Write (buffered, synchronous) one serialized LogEvent *)
            new_journal ← append_entry bl new_journal;
            transcribe fuel ((events_transcribed + 1) `mod` 2 ^ 32) old_journal new_journal
        end
  end.

Definition _reformat_journal (sv : Server) (jp_in : JournalPointer)
    (old_journal : Journaler) (w : World) : outcome thread_end :=
  _ ← assert (negb (is_null jp_in));
  (* Set JournalPointer.back to the location we will write the new journal *)
  let primary_ino := MDS_INO_LOG_OFFSET sv + nodeid sv in
  let secondary_ino := MDS_INO_LOG_BACKUP_OFFSET sv + nodeid sv in
  let jp := mkJP (front jp_in)
              (if bool_decide (front jp_in = primary_ino)
               then secondary_ino else primary_ino) in
  let '(write_result, w) := jp_save sv jp w in
  _ ← assert (bool_decide (write_result = 0));
  (* Create the new Journaler file *)
  let new_journal := new_Journaler (back jp) in
  let new_journal := set_writeable new_journal in
  let new_journal := create (get_layout_period old_journal) (journal_format sv) new_journal in
  (* Write the new journal header to RADOS *)
  let '(new_journal, w) := write_head new_journal w in
  (* Read in the old journal, and whenever we have readable events,
     write them to the new journal. *)
  t ← transcribe (S (S (length (j_unread old_journal)))) 0 old_journal new_journal;
  match t with
  | None => Done (Waiting w)
  | Some (r, _, old_journal, new_journal) =>
      let '(new_journal, w) := flush_wait new_journal w in
      (* If failed to rewrite journal, leave the part written journal
         as garbage to be cleaned up next startup. *)
      _ ← assert (bool_decide (r = 0));
      (* Now that the new journal is safe, we can flip the pointers *)
      let jp := mkJP (back jp) (front jp) in
      let '(write_result, w) := jp_save sv jp w in
      _ ← assert (bool_decide (write_result = 0));
      (* Delete the old journal to free space *)
      let '(erase_result, w) := erase sv old_journal w in
      _ ← assert (bool_decide (erase_result = 0));
      (* Update the pointer to reflect we're back in clean single journal state. *)
      let jp := mkJP (front jp) 0 in
      let '(write_result, w) := jp_save sv jp w in
      _ ← assert (bool_decide (write_result = 0));
      (* Reset the Journaler object to its default state *)
      let w := install (set_readonly new_journal) w in
      (* Trigger completion *)
      Done (Finished (log (IoComplete 0) w))
  end.

(** The blocks of [_recovery_thread].  First, read the pointer object;
    if it is not present, create it with front = default ino and
    back = null. *)
Definition load_pointer (sv : Server) (w : World) : outcome (JournalPointer * World) :=
  let '(read_result, jp, w) := jp_load sv w in
  if bool_decide (read_result = - ENOENT) then
    let jp := mkJP (MDS_INO_LOG_OFFSET sv + nodeid sv) (back jp) in
    let '(write_result, w) := jp_save sv jp w in
    _ ← assert (bool_decide (0 ≤ write_result));
    Done (jp, w)
  else
    _ ← assert (bool_decide (read_result = 0));
    Done (jp, w).

(** If the back pointer is non-null, that means that a journal rewrite
    failed part way through.  Erase the back journal to clean up. *)
Definition erase_back_journal (sv : Server) (jp : JournalPointer) (w : World)
    : outcome (JournalPointer * World) :=
  if bool_decide (back jp ≠ 0) then
    let back_journal := new_Journaler (back jp) in
    (* Read all about this journal (header + extents) *)
    let '(recovery_result, back_journal, w) := recover sv back_journal w in
    _ ← assert (bool_decide (recovery_result = 0));
    (* We could read journal, so we can erase it. *)
    let '(erase_result, w) := erase sv back_journal w in
    (* If we are successful, or find no data, we can update the
       JournalPointer to reflect that the back journal is gone. *)
    if bool_decide (erase_result ≠ 0) && bool_decide (erase_result ≠ - ENOENT) then
      Done (jp, w)
    else
      let jp := mkJP (front jp) 0 in
      let '(write_result, w) := jp_save sv jp w in
      _ ← assert (bool_decide (0 ≤ write_result));
      Done (jp, w)
  else Done (jp, w).

(** Read the header from the front journal, and install it or hand it
    to the reformat routine. *)
Definition open_front_journal (sv : Server) (jp : JournalPointer) (w : World)
    : outcome thread_end :=
  let front_journal := new_Journaler (front jp) in
  let '(recovery_result, front_journal, w) := recover sv front_journal w in
  if bool_decide (recovery_result ≠ 0) then
    Done (Finished (log (IoComplete recovery_result) w))
  else if bool_decide (journal_format sv ≤ get_stream_format front_journal) then
    (* Great, the journal is of current format and ready to rock *)
    Done (Finished (log (IoComplete 0) (install front_journal w)))
  else
    (* Hand off to reformat routine *)
    _reformat_journal sv jp front_journal w.

Definition _recovery_thread (sv : Server) (w : World) : outcome thread_end :=
  _ ← assert (bool_decide (the_journaler w = None));
  '(jp, w) ← load_pointer sv w;
  '(jp, w) ← erase_back_journal sv jp w;
  open_front_journal sv jp w.

(** The status of erasing the journal at [ino] in the store of [w]. *)
Definition erase_status (sv : Server) (ino : Z) (w : World) : Z :=
  if bool_decide (erase_fault sv ino ≠ 0) then erase_fault sv ino
  else match journals w !! ino with
       | Some _ => 0
       | None => - ENOENT
       end.

Definition world_of (t : thread_end) : World :=
  match t with Finished w => w | Waiting w => w end.

(** A node 0 with its journals at inodes 512 and 768, configured for
    format 1, and a store that does what it is asked. *)
Definition sample_server : Server :=
  mkServer 0 512 768 1 0 (λ _, 0) (λ _, 0) (λ _, 0).
(** The same, with a store that fails to erase: status -5. *)
Definition failing_server : Server :=
  mkServer 0 512 768 1 0 (λ _, 0) (λ _, 0) (λ _, -5).

(** A journal of the old format 0 at inode 512 with two records. *)
Definition old_format_journal : Journaler :=
  mkJournaler 512 true 216 0 0 216 4096 0 0 []
    [InEntry (mkBl (Some EVENT_SUBTREEMAP) 100); InEntry (mkBl (Some EVENT_OTHER) 100)]
    [] [] 0 0.
Definition old_format_world : World :=
  mkWorld (Some (mkJP 512 0)) {[ 512 := old_format_journal ]} 0 [] None.

(** A store left by a reformat that crashed: the pointer has a back
    journal, 768, beside the front journal 512 of the current format. *)
Definition current_journal : Journaler :=
  mkJournaler 512 true 216 0 0 216 4096 1 0 [] [] [] [] 0 0.
Definition crashed_world : World :=
  mkWorld (Some (mkJP 512 768))
    {[ 512 := current_journal; 768 := new_Journaler 768 ]} 0 [] None.

End Recovery.

(** ** Well-formed indexes *)

(** The index is a map: its keys are in strictly ascending order. *)
Definition index_sorted (s : MDLog) : Prop :=
  StronglySorted Z.lt (ls_offset <$> segments s).

(** No segment starts beyond the write position. *)
Definition index_behind (s : MDLog) : Prop :=
  Forall (λ ls, ls_offset ls ≤ j_write_pos (journaler s)) (segments s).

(** ** Runs of the log *)

(** What is done to the log, from outside: events are submitted,
    segments started, the log trimmed; gathers of expiries finish; a
    journal is replayed; the log is capped, positioned for appending
    ([MDLog::append]), flushed; and the backend reports that all it was
    given is safe.  The callers of [MDLog] are not in the sources: [step]
    and [run] are the server around the log, not code of [MDLog].  The
    server starts segments only in a journal it is writing, and a run
    ends ([Abort]) where it would start one over a read-only journaler;
    [start_new_segment] itself makes no such test
    ([start_new_segment_readonly_breaks_order]). *)
Inductive op : Type :=
  | OpSubmit (le : LogEvent) (c : option Context)
  | OpStartNewSegment (onsync : option Context)
  | OpTrim (m : Z)
  | OpMaybeExpired (a : nat) (op_prio : Z)
  | OpReplay (c : option Context)
  | OpCap
  | OpAppend
  | OpFlush
  | OpWaitForSafe (c : Context)
  | OpSafe.

Definition j_all_safe (j : Journaler) : Journaler :=
  mkJournaler (j_ino j) (j_readonly j) (j_write_pos j) (j_read_pos j) (j_expire_pos j)
    (j_write_pos j) (j_layout_period j) (j_stream_format j) (j_error j) (j_written j)
    (j_unread j) [] (j_head_writes j) (j_head_reads j) (j_flushes j).

Definition step (e : Env) (o : op) (s : MDLog) : outcome MDLog :=
  match o with
  | OpSubmit le c => '(le, s) ← start_entry le s; submit_entry e le c s
  | OpStartNewSegment onsync =>
      (* the server starts segments in a journal it is writing *)
      _ ← assert (negb (is_readonly (journaler s)));
      start_new_segment e onsync s
  | OpTrim m => trim e m s
  | OpMaybeExpired a op_prio => _maybe_expired e a op_prio s
  | OpReplay c =>
      r ← replay e c s;
      match r with
      | Replayed _ s => Done s
      | Stuck s => Done s
      end
  | OpCap => Done (cap s)
  | OpAppend => Done (append s)
  | OpFlush => Done (flush s)
  | OpWaitForSafe c => Done (wait_for_safe e c s)
  | OpSafe =>
      Done (with_journaler (j_all_safe (journaler s))
              (with_completed (completed s ++ ((λ c, (c, 0)) <$> j_flush_waiters (journaler s))) s))
  end.

(** A run: each operation in the server's circumstances of its time. *)
Fixpoint run (l : list (Env * op)) (s : MDLog) : outcome MDLog :=
  match l with
  | [] => Done s
  | (e, o) :: l => s ← step e o s; run l s
  end.

Definition is_entry (x : incoming) : bool :=
  match x with InEntry _ => true | _ => false end.

(** A log just made, over a journal that reads without error: no
    segment, no event, nothing expiring or expired, not capped. *)
Definition initial (s : MDLog) : bool :=
  bool_decide (segments s = []) && bool_decide (leaked s = [])
  && bool_decide (expiring_segments s = ∅) && bool_decide (expired_segments s = ∅)
  && bool_decide (num_events s = 0) && negb (capped s)
  && bool_decide (j_error (journaler s) = 0)
  && forallb is_entry (j_unread (journaler s))
  && bool_decide (j_read_pos (journaler s) ≤ j_write_pos (journaler s)).

(** Where the next segment would start: at the read position while the
    journal is replayed, at the write position once it is written. *)
Definition ins_pos (s : MDLog) : Z :=
  if j_readonly (journaler s) then j_read_pos (journaler s)
  else j_write_pos (journaler s).

(** What holds of the log throughout a run. *)
Record wf (s : MDLog) : Prop := mkWf {
  wf_count : num_events s = sum_events (segments s);
  wf_current :
    capped s = false →
    ∀ cur, peek_current_segment s = Some cur → ls_addr cur ∉ expired_segments s;
  wf_sorted : StronglySorted Z.lt (ls_offset <$> segments s);
  wf_behind :
    Forall (λ ls, ls_offset ls ≤ ins_pos s
                  ∧ (ls_num_events ls ≠ 0 → ls_offset ls < ins_pos s)) (segments s);
  wf_positions : j_read_pos (journaler s) ≤ j_write_pos (journaler s);
  wf_addrs : Forall (λ ls, (ls_addr ls < next_addr s)%nat) (segments s ++ leaked s);
  wf_expired_addrs : ∀ a, a ∈ expired_segments s → (a < next_addr s)%nat;
  wf_no_error : j_error (journaler s) = 0;
  wf_entries : forallb is_entry (j_unread (journaler s)) = true;
}.

(** [wf] looks at these parts of the state only. *)
Definition same_core (s s' : MDLog) : Prop :=
  j_readonly (journaler s') = j_readonly (journaler s)
  ∧ j_read_pos (journaler s') = j_read_pos (journaler s)
  ∧ j_write_pos (journaler s') = j_write_pos (journaler s)
  ∧ j_error (journaler s') = j_error (journaler s)
  ∧ j_unread (journaler s') = j_unread (journaler s)
  ∧ segments s' = segments s
  ∧ leaked s' = leaked s
  ∧ expired_segments s' = expired_segments s
  ∧ num_events s' = num_events s
  ∧ capped s' = capped s
  ∧ next_addr s' = next_addr s.

(** A fresh log over an empty writeable journal at position 0. *)
Definition empty_log : MDLog :=
  mkMDLog (mkJournaler 512 false 0 0 0 0 4096 1 0 [] [] [] [] 0 0)
    (λ _, 0) (mkMDCache 0 []) [] [] ∅ ∅ 0 0 0 0 false false None [] [] 0 0 0.

(** A log that takes events: it has a current segment, is not capped,
    and its journal is writeable, with a layout period. *)
Definition ready (s : MDLog) : Prop :=
  have_any_segments s = true ∧ capped s = false
  ∧ j_readonly (journaler s) = false ∧ get_layout_period (journaler s) ≠ 0.

(** ** Sample data *)

(** A writeable journal of period 4096 with its write position at
    5000, and a log with one segment at offset 0 holding two events. *)
Definition sample_journaler : Journaler :=
  mkJournaler 512 false 5000 0 0 5000 4096 1 0 [] [] [] [] 0 0.
Definition sample_event : LogEvent := mkLogEvent EVENT_OTHER 100 5000 0.
Definition sample_log : MDLog :=
  mkMDLog sample_journaler (λ _, 0) (mkMDCache 0 [])
    [mkLogSegment 0 0 5000 2] [] ∅ ∅ 0 0 2 0 false false
    (Some sample_event) [] [] 1 0 0.
Definition sample_conf (log debug : bool) : md_config :=
  mkConf log debug 2 (-1) 20 1 false.
Definition sample_env (log debug : bool) : Env :=
  mkEnv (sample_conf log debug) false false (λ n, Z.of_nat n) (λ _, false) 40 0 0 0.

Definition sample_idle : MDLog := with_cur_event None sample_log.

(** A log whose one segment starts at 4096, with the write position at
    8150, 42 bytes before the end of the period, and an event of 28
    bytes in the journal, which does not reach it. *)
Definition boundary_event : LogEvent := mkLogEvent EVENT_OTHER 20 8150 0.
Definition boundary_log : MDLog :=
  mkMDLog (mkJournaler 512 false 8150 0 0 8150 4096 1 0 [] [] [] [] 0 0)
    (λ _, 0) (mkMDCache 0 [])
    [mkLogSegment 0 4096 8150 2] [] ∅ ∅ 0 0 2 0 false false
    (Some boundary_event) [] [] 1 0 0.

(** A log of two segments, all safe, whose older segment is expired. *)
Definition expired_log : MDLog :=
  mkMDLog (mkJournaler 512 false 200 0 0 200 4096 1 0 [] [] [] [] 0 0)
    (λ _, 0) (mkMDCache 0 [])
    [mkLogSegment 0 0 100 2; mkLogSegment 1 100 200 1] [] ∅ {[0%nat]} 0 2 3 0
    false false None [] [] 2 0 0.

(** A configuration that allows no segment at all, and a clock that
    stands still. *)
Definition tight_env : Env :=
  mkEnv (mkConf true false 0 (-1) 20 1 false) false false (λ _, 0) (λ _, false) 40 0 0 0.

(** A standby that follows an active writer: its journaler is read-only
    and in error [-EINVAL], its read position 100 is behind the expire
    position 6000, and its one segment ends before that; context 3 waits
    for the replay. *)
Definition standby_log : MDLog :=
  mkMDLog (mkJournaler 512 true 9000 100 6000 9000 4096 1 (- EINVAL) [] [] [] [] 0 0)
    (λ _, 0) (mkMDCache 0 []) [mkLogSegment 0 0 5000 2] [] ∅ ∅ 0 0 2 0 false true
    None [3%nat] [] 1 0 0.

(** A standby about to replay the journal of an active writer: four
    records, two segments of two events each, and then the backend
    reports [-EINVAL]; context 3 waits for the replay.  The head, when
    re-read, has the expire position 300, past the end (216) of the first
    segment. *)
Definition following_log : MDLog :=
  mkMDLog
    (mkJournaler 512 true 1000 0 0 1000 4096 1 0 []
       [InEntry (mkBl (Some EVENT_SUBTREEMAP) 100); InEntry (mkBl (Some EVENT_OTHER) 100);
        InEntry (mkBl (Some EVENT_SUBTREEMAP) 100); InEntry (mkBl (Some EVENT_OTHER) 100);
        InError (- EINVAL)] [] [] 0 0)
    (λ _, 0) (mkMDCache 0 []) [] [] ∅ ∅ 0 0 0 0 false false None [] [] 0 0 0.
Definition following_env : Env :=
  mkEnv (sample_conf true false) true false (λ _, 0) (λ _, false) 40 0 1000 300.

(** A recursive call that answers without running out of fuel. *)
Definition answers (submit : LogEvent → option Context → MDLog → outcome MDLog)
    (P : EventType → Prop) : Prop :=
  ∀ le c s, P (ev_type le) → submit le c s ≠ OutOfFuel.

(** ** Records in the journal *)

(** The records [bls] written one after the other from [pos] on: each
    with the position it starts at, and the position after the last. *)
Fixpoint lay_out (pos : Z) (bls : list bufferlist) : list (Z * bufferlist) :=
  match bls with
  | [] => []
  | bl :: bls => (pos, bl) :: lay_out (pos + framed bl) bls
  end.

Definition laid_end (pos : Z) (bls : list bufferlist) : Z :=
  foldl (λ p bl, p + framed bl) pos bls.

(** ** Restarting the server *)

(** The process ends and starts again over the same store: what is in
    the metadata pool stays, and [MDLog::journaler] is null again. *)
Definition restart (w : Recovery.World) : Recovery.World :=
  Recovery.mkWorld (Recovery.pointer_object w) (Recovery.journals w) (Recovery.saves w)
    (Recovery.trace w) None.

(** ** The index that a journal's records describe *)

(** What the index records of a segment: where it starts, where it ends
    and how many events it holds. *)
Definition shape (ls : LogSegment) : Z * Z * Z :=
  (ls_offset ls, ls_end ls, ls_num_events ls).

(** A record that decodes, and one that opens a segment when it is
    replayed. *)
Definition decodes (bl : bufferlist) : bool :=
  match LogEvent_decode bl with Some _ => true | None => false end.

Definition starts_segment (bl : bufferlist) : bool :=
  match LogEvent_decode bl with
  | Some le =>
      bool_decide (ev_type le = EVENT_SUBTREEMAP)
      || bool_decide (ev_type le = EVENT_RESETJOURNAL)
  | None => false
  end.

(** The records from the first one that opens a segment on. *)
Fixpoint from_first_start (bls : list bufferlist) : list bufferlist :=
  match bls with
  | [] => []
  | bl :: r => if starts_segment bl then bl :: r else from_first_start r
  end.

Fixpoint update_last {A} (f : A → A) (m : list A) : list A :=
  match m with
  | [] => []
  | [v] => [f v]
  | v :: r => v :: update_last f r
  end.

(** The shapes of the segments after one more record [bl] at [pos]: a
    record that opens a segment adds one that starts there, and a record
    that decodes is counted in the last segment, if there is one, which
    then ends after the record. *)
Definition rebuild_step (st : list (Z * Z * Z) * Z) (bl : bufferlist)
    : list (Z * Z * Z) * Z :=
  let '(idx, pos) := st in
  let next := pos + framed bl in
  let idx := if starts_segment bl then idx ++ [(pos, pos, 0)] else idx in
  let idx := if decodes bl
             then update_last (λ t, (t.1.1, next, t.2 + 1)) idx
             else idx in
  (idx, next).

(** The events that shapes count. *)
Definition counts (idx : list (Z * Z * Z)) : Z := foldr (λ t acc, t.2 + acc) 0 idx.

Definition rebuild (st : list (Z * Z * Z) * Z) (bls : list bufferlist)
    : list (Z * Z * Z) * Z :=
  foldl rebuild_step st bls.

(** The operations of a server that writes its journal, with [mds_log]
    on: it submits events (subtree maps and journal resets are not
    submitted from outside: the log writes the subtree maps itself),
    starts segments, flushes, and hears from the backend. *)
Definition writer_op (x : Env * op) : bool :=
  mds_log (g_conf x.1)
  && match x.2 with
     | OpSubmit le _ =>
         negb (bool_decide (ev_type le = EVENT_SUBTREEMAP))
         && negb (bool_decide (ev_type le = EVENT_RESETJOURNAL))
     | OpStartNewSegment _ | OpFlush | OpWaitForSafe _ | OpSafe => true
     | _ => false
     end.

(** From [s] to [s'] the records [new] have been written, and the index
    has changed as they describe. *)
Definition writes_records (s s' : MDLog) (new : list bufferlist) : Prop :=
  j_written (journaler s')
  = j_written (journaler s) ++ lay_out (j_write_pos (journaler s)) new
  ∧ j_write_pos (journaler s') = laid_end (j_write_pos (journaler s)) new
  ∧ shape <$> segments s'
    = (rebuild (shape <$> segments s, j_write_pos (journaler s)) new).1
  ∧ Forall (λ bl, decodes bl = true) new
  ∧ Forall (λ ls, ls_offset ls < j_write_pos (journaler s')) (segments s')
  ∧ j_read_pos (journaler s') = j_read_pos (journaler s)
  ∧ j_unread (journaler s') = j_unread (journaler s)
  ∧ j_expire_pos (journaler s') = j_expire_pos (journaler s)
  ∧ j_layout_period (journaler s') = j_layout_period (journaler s)
  ∧ j_stream_format (journaler s') = j_stream_format (journaler s).

(** Modelled from the spec: [safe_pos] is the highest offset guaranteed
    durable.  What the store holds of a journal that is being written:
    the records that end at or before the safe position, under a head
    whose write position is the safe position. *)
Definition durable (j : Journaler) : Journaler :=
  mkJournaler (j_ino j) (j_readonly j) (j_safe_pos j) (j_read_pos j) (j_expire_pos j)
    (j_safe_pos j) (j_layout_period j) (j_stream_format j) (j_error j)
    (filter (λ x, x.1 + framed x.2 ≤ j_safe_pos j) (j_written j)) (j_unread j)
    (j_flush_waiters j) (j_head_writes j) (j_head_reads j) (j_flushes j).

(** A standby's log before it replays: fresh, over a journaler that
    reads what is in [j]. *)
Definition reader_log (j : Journaler) : MDLog :=
  mkMDLog j (λ _, 0) (mkMDCache 0 []) [] [] ∅ ∅ 0 0 0 0 false false None [] [] 0 0 0.

(** ** Making a new log *)

(** [MDLog::init_journaler]: the journaler of this node's log inode,
    read-only until it is made writeable. *)
Definition init_journaler (sv : Recovery.Server) (s : MDLog) : outcome MDLog :=
  (* inode *)
  let ino := Recovery.MDS_INO_LOG_OFFSET sv + Recovery.nodeid sv in
  (* log streamer *)
  let j := Recovery.new_Journaler ino in
  _ ← assert (is_readonly j);
  Done (with_journaler j s).

(** [MDLog::create]: an empty, writeable journal with the cache's
    default layout ([default_log_layout] is its period) and the
    configured format.  The callback goes to the journaler with the
    head, which completes it when the head is stored: it comes back with
    the state, not yet completed. *)
Definition mdlog_create (sv : Recovery.Server) (e : Env) (default_log_layout : Z)
    (c : Context) (s : MDLog) : outcome (MDLog * Context) :=
  s ← init_journaler sv s;
  let j := set_writeable (journaler s) in
  let j := Recovery.create default_log_layout (mds_journal_format (g_conf e)) j in
  let j := j_write_head j in
  let s := with_journaler j s in
  let s := with_logger (pc_set l_mdl_expos (get_expire_pos j) (logger s)) s in
  let s := with_logger (pc_set l_mdl_wrpos (get_write_pos j) (logger s)) s in
  Done (s, c).

(** * crushtool: building a map in layers

    The first document of [src/tools/crushtool.cc]: of its [main], the
    part that builds a CRUSH map from [--num-osds] devices and the layers
    given on the command line.  The CRUSH library itself
    ([crush_make_bucket], [crush_add_bucket], [CrushWrapper]) is not in
    the sources: its two calls that [main] depends on are variables of
    the model, which keeps what [main] hands to them.  Here
    [exit(EXIT_FAILURE)], [exit(1)] and a failed [assert] are [Abort], and
    a loop that does not end is [OutOfFuel] whatever the fuel. *)

Module Crushtool.

(** The bucket algorithms that [bucket_types] names.  The constants
    [CRUSH_BUCKET_*] are of [crush/crush.h], which is not in the sources;
    the model takes none of them to be negative, as the test
    [buckettype < 0] for an unknown type presumes. *)
Inductive bucket_alg : Type :=
  | CRUSH_BUCKET_UNIFORM
  | CRUSH_BUCKET_LIST
  | CRUSH_BUCKET_STRAW
  | CRUSH_BUCKET_TREE.

Definition bucket_types : list (string * bucket_alg) :=
  [ ("uniform", CRUSH_BUCKET_UNIFORM);
    ("list", CRUSH_BUCKET_LIST);
    ("straw", CRUSH_BUCKET_STRAW);
    ("tree", CRUSH_BUCKET_TREE) ]%string.

Record layer_t : Type := mkLayer {
  name : string;
  buckettype : string;
  size : Z;
}.

(** [int] arithmetic, as two's complement wraps it. *)
Definition int32 (z : Z) : Z := (z + 2 ^ 31) `mod` 2 ^ 32 - 2 ^ 31.

(** The sum of [int]s, as the loop adds them up. *)
Definition int_sum (ws : list Z) : Z := foldl (λ a w, int32 (a + w)) 0 ws.

(** The sum of weights in exact arithmetic, to compare [int_sum] with. *)
Definition total (ws : list Z) : Z := foldr Z.add 0 ws.

(** The search of [bucket_types] for the layer's bucket type; [None] is
    the -1 that [buckettype] starts with. *)
Fixpoint find_bucket_type (table : list (string * bucket_alg)) (bt : string)
    : option bucket_alg :=
  match table with
  | [] => None
  | (n, t) :: table => if String.eqb bt n then Some t else find_bucket_type table bt
  end.

(** What [main] hands to [crush_make_bucket], with the id that
    [crush_add_bucket] gives the bucket. *)
Record bucket : Type := mkBucket {
  b_id : Z;
  b_alg : bucket_alg;
  b_type : Z;
  b_size : Z;
  b_items : list Z;
  b_weights : list Z;
}.

Section Build.
(** [crush_make_bucket(buckettype, CRUSH_HASH_DEFAULT, type, j, items,
    weights)]: whether the library returns a bucket; [assert(b)] stops
    the tool when it does not. *)
Variable crush_make_bucket : bucket_alg → Z → Z → list Z → list Z → bool.
(** [crush_add_bucket(crush.crush, 0, b, &id)]: the id that the map
    gives to a bucket added when it holds [n] buckets, [None] when the
    call fails ([r < 0]): [main] then goes on with an [id] that was never
    set, and the model does not follow it further ([Abort]). *)
Variable crush_add_bucket : nat → option Z.
Variable num_osds : Z.

(** The [for] loop that fills one bucket from [lower_items] and
    [lower_weights] (kept here as one list of pairs, from [lower_pos]
    on).  [items] and [weights] are arrays of [num_osds] ints: a write
    beyond them is [Abort]. *)
Fixpoint fill (size j : Z) (lower : list (Z * Z)) (items weights : list Z) (weight : Z)
    : outcome (Z * list Z * list Z * Z * list (Z * Z)) :=
  if (j <? size) || (size =? 0) then
    match lower with
    | [] => Done (j, items, weights, weight, [])
    | (item, w) :: rest =>
        _ ← assert (bool_decide (0 ≤ j < num_osds));
        fill size (int32 (j + 1)) rest (items ++ [item]) (weights ++ [w])
          (int32 (weight + w))
    end
  else Done (j, items, weights, weight, lower).

(** The [while (1)] loop of one layer: buckets are made until the lower
    items are used up.  [crush] is the buckets of the map, [cur] the
    [cur_items] and [cur_weights].  (The names the buckets get are left
    to the map.) *)
Fixpoint layer_loop (fuel : nat) (alg : bucket_alg) (type size : Z)
    (lower : list (Z * Z)) (crush : list bucket) (cur : list (Z * Z))
    : outcome (list bucket * list (Z * Z)) :=
  match fuel with
  | O => OutOfFuel
  | S fuel =>
      match lower with
      | [] => Done (crush, cur)
      | _ =>
          '(j, items, weights, weight, rest) ← fill size 0 lower [] [] 0;
          _ ← assert (crush_make_bucket alg type j items weights);
          match crush_add_bucket (length crush) with
          | None => Abort
          | Some id =>
              let b := mkBucket id alg type j items weights in
              layer_loop fuel alg type size rest (crush ++ [b]) (cur ++ [(id, weight)])
          end
      end
  end.

(** The loop over the layers, from type 1 on. *)
Fixpoint build_layers (layers : list layer_t) (type : Z) (crush : list bucket)
    (lower : list (Z * Z)) : outcome (list bucket * list (Z * Z)) :=
  match layers with
  | [] => Done (crush, lower)
  | l :: layers =>
      match find_bucket_type bucket_types (buckettype l) with
      | None => Abort
      | Some alg =>
          '(crush, cur) ← layer_loop (S (length lower)) alg type (size l) lower crush [];
          build_layers layers (int32 (type + 1)) crush cur
      end
  end.

(** [--build]: the buckets made and the items of the top layer. *)
Definition build (layers : list layer_t) : outcome (list bucket * list (Z * Z)) :=
  match layers with
  | [] => Abort
  | _ =>
      let lower := (λ i : nat, (Z.of_nat i, 65536)) <$> seq 0 (Z.to_nat num_osds) in
      build_layers layers 1 [] lower
  end.

End Build.

(** Buckets of two devices each under one root. *)
Definition sample_layers : list layer_t :=
  [mkLayer "host" "straw" 2; mkLayer "root" "straw" 0]%string.

(** A library that makes every bucket and numbers them downwards from
    -1. *)
Definition sample_make : bucket_alg → Z → Z → list Z → list Z → bool :=
  λ _ _ _ _ _, true.
Definition sample_add : nat → option Z := λ n, Some (-1 - Z.of_nat n).

End Crushtool.

(** * Properties *)

#[local] Arguments insert_new_segment : simpl never.
#[local] Arguments _expired : simpl never.
#[local] Arguments prepare_new_segment : simpl never.
#[local] Arguments submit_entry_fuel : simpl never.

(** ** Outcomes *)

Lemma bind_Done {A B} (m : outcome A) (k : A → outcome B) (b : B) :
  m ≫= k = Done b → ∃ a, m = Done a ∧ k a = Done b.
Proof. destruct m; simpl; intros H; try discriminate. eauto. Qed.

Lemma assert_Done (b : bool) (u : unit) : assert b = Done u → b = true.
Proof. destruct b; simpl; [done | discriminate]. Qed.

Lemma assert_true (b : bool) : b = true → assert b = Done tt.
Proof. intros ->. done. Qed.

(** Take a [Done] hypothesis apart, bind after bind. *)
Tactic Notation "inv_done" hyp(H) :=
  let a := fresh "a" in
  let Ha := fresh "Ha" in
  apply bind_Done in H as (a & Ha & H);
  try (apply assert_Done in Ha).
Tactic Notation "inv_done" hyp(H) "as" simple_intropattern(a) ident(Ha) :=
  apply bind_Done in H as (a & Ha & H); try (apply assert_Done in Ha).

Lemma framed_pos bl : 0 < framed bl.
Proof. unfold framed, bl_length. lia. Qed.

(** ** The segment index *)

Lemma seg_update_last_length f m : length (seg_update_last f m) = length m.
Proof.
  induction m as [|v [|v' r] IH]; simpl in *; [done | done | by rewrite IH].
Qed.

Lemma seg_update_last_snoc f m v : seg_update_last f (m ++ [v]) = m ++ [f v].
Proof.
  induction m as [|v' r IH]; simpl; [done|].
  rewrite IH. destruct r; simpl; done.
Qed.

Lemma seg_rbegin_snoc (m : segmap) v : seg_rbegin (m ++ [v]) = Some v.
Proof. unfold seg_rbegin. apply last_snoc. Qed.

Lemma seg_rbegin_inv (m : segmap) v :
  seg_rbegin m = Some v → ∃ m', m = m' ++ [v].
Proof.
  unfold seg_rbegin. intros H.
  destruct m as [|x r] using rev_ind; [discriminate|].
  rewrite last_snoc in H. injection H as ->. eauto.
Qed.

Lemma have_any_segments_rbegin s :
  have_any_segments s = true → ∃ m v, segments s = m ++ [v].
Proof.
  unfold have_any_segments. destruct (segments s) as [|x r] eqn:E; [discriminate|].
  intros _. destruct (seg_rbegin (x :: r)) as [v|] eqn:L.
  - apply seg_rbegin_inv in L as [m' ->]. eauto.
  - unfold seg_rbegin in L. apply last_None in L. discriminate.
Qed.

Lemma sum_events_app m1 m2 : sum_events (m1 ++ m2) = sum_events m1 + sum_events m2.
Proof. unfold sum_events. induction m1 as [|v r IH]; simpl; lia. Qed.

(** ** Journalling one event *)

(** What [journal_entry] does to the state: the event is counted in the
    current segment, which now ends at the new write position, and is
    appended at the old one; nothing else of the index changes. *)
Lemma journal_entry_Done e le c s le' s' :
  journal_entry e le c s = Done (le', s') →
  ∃ m v,
    segments s = m ++ [v]
    ∧ capped s = false
    ∧ j_readonly (journaler s) = false
    ∧ le' = set_stamp (clock e (clock_reads s)) le
    ∧ segments s' =
        m ++ [mkLogSegment (ls_addr v) (ls_offset v)
                (j_write_pos (journaler s) + framed (encode_with_header le'))
                (ls_num_events v + 1)]
    ∧ num_events s' = num_events s + 1
    ∧ j_write_pos (journaler s') =
        j_write_pos (journaler s) + framed (encode_with_header le')
    ∧ j_written (journaler s') =
        j_written (journaler s) ++ [(j_write_pos (journaler s), encode_with_header le')]
    ∧ j_readonly (journaler s') = false
    ∧ j_read_pos (journaler s') = j_read_pos (journaler s)
    ∧ j_expire_pos (journaler s') = j_expire_pos (journaler s)
    ∧ j_layout_period (journaler s') = j_layout_period (journaler s)
    ∧ expiring_segments s' = expiring_segments s
    ∧ expired_segments s' = expired_segments s
    ∧ expiring_events s' = expiring_events s
    ∧ expired_events s' = expired_events s
    ∧ capped s' = false
    ∧ leaked s' = leaked s
    ∧ next_addr s' = next_addr s
    ∧ mdcache s' = mdcache s
    ∧ cur_event s' = cur_event s
    ∧ unflushed s' = unflushed s + 1
    ∧ j_error (journaler s') = j_error (journaler s)
    ∧ j_unread (journaler s') = j_unread (journaler s).
Proof.
  unfold journal_entry, ceph_clock_now, append_entry. intros H.
  inv_done H. apply have_any_segments_rbegin in Ha as (m & v & Hm).
  simpl in H. destruct (capped s) eqn:Hcap; simpl in H; [discriminate|].
  destruct (j_readonly (journaler s)) eqn:Hro; simpl in H; [discriminate|].
  exists m, v. rewrite Hm in H. rewrite seg_update_last_snoc in H.
  destruct c; simpl in H; rewrite seg_update_last_snoc in H;
    injection H as <- <-; simpl; rewrite ?Hro; repeat split; done.
Qed.

Lemma journal_entry_type e le c s le' s' :
  journal_entry e le c s = Done (le', s') → ev_type le' = ev_type le.
Proof.
  intros H. apply journal_entry_Done in H as (m & v & _ & _ & _ & -> & _). done.
Qed.

(** [journal_entry] never runs out of fuel: it has none. *)
Lemma journal_entry_fuel e le c s : journal_entry e le c s ≠ OutOfFuel.
Proof.
  unfold journal_entry.
  destruct (have_any_segments s); simpl; [|discriminate].
  destruct (capped s); simpl; [discriminate|].
  unfold append_entry. destruct (j_readonly (journaler s)); simpl; [discriminate|].
  destruct c; discriminate.
Qed.

(** ** The submit path ends *)

Section SubmitFuel.
Variable e : Env.
#[local] Arguments submit_entry_fuel : simpl never.

Lemma create_subtree_map_type s le s' :
  create_subtree_map e s = Done (le, s') → ev_type le = EVENT_SUBTREEMAP.
Proof.
  unfold create_subtree_map, start_entry. intros H. inv_done H.
  injection H as <- <-. done.
Qed.

Lemma create_subtree_map_fuel s : create_subtree_map e s ≠ OutOfFuel.
Proof.
  unfold create_subtree_map, start_entry.
  destruct (bool_decide _); simpl; discriminate.
Qed.

Lemma start_new_segment_with_answers submit onsync s :
  answers submit (λ ty, ty = EVENT_SUBTREEMAP) →
  start_new_segment_with e submit onsync s ≠ OutOfFuel.
Proof.
  intros Hs. unfold start_new_segment_with, journal_segment_subtree_map_with.
  destruct (create_subtree_map e (prepare_new_segment s)) as [[le s1]| |] eqn:E; simpl.
  - pose proof (create_subtree_map_type _ _ _ E) as Hty.
    pose proof (Hs le None s1 Hty).
    destruct (submit le None s1); simpl; try done. destruct onsync; done.
  - discriminate.
  - by apply create_subtree_map_fuel in E.
Qed.

Lemma submit_entry_with_answers submit le c s :
  answers submit (λ ty, ty = EVENT_SUBTREEMAP) →
  (ev_type le ≠ EVENT_SUBTREEMAP → ev_type le ≠ EVENT_SUBTREEMAP_TEST →
   answers submit (λ ty, ty = EVENT_SUBTREEMAP_TEST)) →
  submit_entry_with e submit le c s ≠ OutOfFuel.
Proof.
  intros Hmap Htest. unfold submit_entry_with.
  destruct (negb (is_any_replay e)); simpl; [|discriminate].
  destruct (bool_decide (cur_event s = Some le)); simpl; [|discriminate].
  destruct (negb (mds_log (g_conf e))); [discriminate|].
  destruct (journal_entry e le c (with_cur_event None s)) as [[le1 s1]| |] eqn:E; simpl;
    [|discriminate|by apply journal_entry_fuel in E].
  apply journal_entry_type in E.
  unfold get_last_segment_offset.
  destruct (seg_rbegin (segments s1)); simpl; [|discriminate].
  unfold suppress_rotation. rewrite E.
  destruct (bool_decide (ev_type le = EVENT_SUBTREEMAP)) eqn:Hm; simpl; [discriminate|].
  apply bool_decide_eq_false in Hm.
  destruct (bool_decide (ev_type le = EVENT_IMPORTFINISH) && is_resolve e); [discriminate|].
  destruct (bool_decide (get_layout_period (journaler s1) ≠ 0)); simpl; [|discriminate].
  destruct (bool_decide (_ / _ ≠ _ / _)).
  { by apply start_new_segment_with_answers. }
  destruct (mds_debug_subtrees (g_conf e)); simpl; [|discriminate].
  destruct (bool_decide (ev_type le ≠ EVENT_SUBTREEMAP_TEST)) eqn:Ht; [|discriminate].
  apply bool_decide_eq_true in Ht.
  destruct (create_subtree_map e s1) as [[sle s2]| |] eqn:E2; simpl;
    [|discriminate|by apply create_subtree_map_fuel in E2].
  apply Htest; done.
Qed.

Lemma submit_entry_fuel_1 : answers (submit_entry_fuel e 1) (λ ty, ty = EVENT_SUBTREEMAP).
Proof.
  intros le c s Hty.
  change (submit_entry_with e (submit_entry_fuel e 0) le c s ≠ OutOfFuel).
  unfold submit_entry_with.
  destruct (negb (is_any_replay e)); simpl; [|discriminate].
  destruct (bool_decide (cur_event s = Some le)); simpl; [|discriminate].
  destruct (negb (mds_log (g_conf e))); [discriminate|].
  destruct (journal_entry e le c (with_cur_event None s)) as [[le1 s1]| |] eqn:E; simpl;
    [|discriminate|by apply journal_entry_fuel in E].
  apply journal_entry_type in E.
  unfold get_last_segment_offset.
  destruct (seg_rbegin (segments s1)); simpl; [|discriminate].
  unfold suppress_rotation. rewrite E, Hty. simpl. discriminate.
Qed.

(** More fuel does not change an answer. *)
Lemma submit_entry_fuel_S n le c s :
  submit_entry_fuel e n le c s ≠ OutOfFuel →
  submit_entry_fuel e (S n) le c s = submit_entry_fuel e n le c s.
Proof.
  revert le c s. induction n as [|n IH]; intros le c s H; [done|].
  change (submit_entry_with e (submit_entry_fuel e (S n)) le c s
          = submit_entry_with e (submit_entry_fuel e n) le c s).
  change (submit_entry_with e (submit_entry_fuel e n) le c s ≠ OutOfFuel) in H.
  revert H. unfold submit_entry_with.
  destruct (assert (negb (is_any_replay e))); simpl; [|done..].
  destruct (assert (bool_decide (cur_event s = Some le))); simpl; [|done..].
  destruct (negb (mds_log (g_conf e))); [done|].
  destruct (journal_entry e le c (with_cur_event None s)) as [[le1 s1]| |]; simpl; [|done..].
  destruct (get_last_segment_offset s1); simpl; [|done..].
  destruct (suppress_rotation e le1); [done|].
  destruct (assert _); simpl; [|done..].
  destruct (bool_decide (_ / _ ≠ _ / _)).
  { unfold start_new_segment_with, journal_segment_subtree_map_with.
    destruct (create_subtree_map e (prepare_new_segment s1)) as [[sle s2]| |]; simpl; [|done..].
    intros H. rewrite IH; [done|]. intros E. by rewrite E in H. }
  destruct (_ && _); [|done].
  destruct (create_subtree_map e s1) as [[sle s2]| |]; simpl; [|done..].
  intros H. by apply IH.
Qed.

Lemma submit_entry_fuel_2 :
  answers (submit_entry_fuel e 2)
    (λ ty, ty = EVENT_SUBTREEMAP ∨ ty = EVENT_SUBTREEMAP_TEST).
Proof.
  intros le c s Hty.
  change (submit_entry_with e (submit_entry_fuel e 1) le c s ≠ OutOfFuel).
  apply submit_entry_with_answers; [apply submit_entry_fuel_1|].
  intros H1 H2. by destruct Hty.
Qed.

(** [submit_entry] always answers, and so do [start_new_segment] and
    [journal_segment_subtree_map]. *)
Lemma submit_entry_answers le c s : submit_entry e le c s ≠ OutOfFuel.
Proof.
  change (submit_entry_with e (submit_entry_fuel e 2) le c s ≠ OutOfFuel).
  apply submit_entry_with_answers.
  - intros le' c' s' H. apply submit_entry_fuel_2. by left.
  - intros _ _ le' c' s' H. apply submit_entry_fuel_2. by right.
Qed.

Lemma start_new_segment_answers onsync s : start_new_segment e onsync s ≠ OutOfFuel.
Proof.
  apply start_new_segment_with_answers.
  intros le c s' H. apply submit_entry_fuel_2. by left.
Qed.

Lemma submit_entry_fuel_ge n le c s :
  submit_entry_fuel e (3 + n) le c s = submit_entry e le c s.
Proof.
  induction n as [|n IH]; [done|].
  replace (3 + S n)%nat with (S (3 + n)) by lia.
  rewrite submit_entry_fuel_S; [done|]. rewrite IH. apply submit_entry_answers.
Qed.

(** A subtree map is done with one unit of fuel, so the fuel of the
    subtree map of a new segment does not matter. *)
Lemma submit_subtree_map_fuel n le c s :
  ev_type le = EVENT_SUBTREEMAP →
  submit_entry_fuel e (S n) le c s = submit_entry_fuel e 1 le c s.
Proof.
  intros Hty. induction n as [|n IH]; [done|].
  rewrite submit_entry_fuel_S; [done|]. rewrite IH. by apply submit_entry_fuel_1.
Qed.

End SubmitFuel.

(** ** submit_entry with the log disabled *)

(** C10.  With [mds_log] false, [submit_entry] completes [on_safe] at
    once with status 0 and returns: nothing is appended to the journal,
    no segment gets the event, no counter moves (only the entry in
    progress is reset); and [wait_for_safe] completes its callback at once
    with 0 and registers no flush waiter. *)
Theorem submit_entry_log_disabled e le c s :
  mds_log (g_conf e) = false →
  let s0 := with_cur_event None s in
  let s1 := match c with Some c => complete c 0 s0 | None => s0 end in
  (is_any_replay e = false → cur_event s = Some le →
   submit_entry e le c s = Done s1)
  ∧ (∀ s', submit_entry e le c s = Done s' → s' = s1)
  ∧ journaler s1 = journaler s
  ∧ segments s1 = segments s
  ∧ num_events s1 = num_events s
  ∧ unflushed s1 = unflushed s
  ∧ logger s1 = logger s
  ∧ completed s1 = completed s ++ match c with Some c => [(c, 0)] | None => [] end
  ∧ (∀ c', wait_for_safe e c' s = complete c' 0 s
           ∧ journaler (wait_for_safe e c' s) = journaler s
           ∧ completed (wait_for_safe e c' s) = completed s ++ [(c', 0)]).
Proof.
  intros Hlog s0 s1.
  assert (Hsub : ∀ s', submit_entry e le c s = Done s' → s' = s1).
  { intros s'. unfold submit_entry.
    change (submit_entry_fuel e 3 le c s)
      with (submit_entry_with e (submit_entry_fuel e 2) le c s).
    unfold submit_entry_with. rewrite Hlog. simpl.
    intros H. inv_done H. inv_done H. by injection H as <-. }
  split; [|split; [exact Hsub|]].
  - intros Hrep Hcur. unfold submit_entry.
    change (submit_entry_fuel e 3 le c s)
      with (submit_entry_with e (submit_entry_fuel e 2) le c s).
    unfold submit_entry_with. rewrite Hlog, Hrep. simpl.
    rewrite bool_decide_eq_true_2 by done. done.
  - subst s0 s1. destruct c; simpl; rewrite ?app_nil_r; repeat split; try done;
      unfold wait_for_safe; rewrite Hlog; done.
Qed.

Lemma submit_entry_log_disabled_witness :
  mds_log (g_conf (sample_env false false)) = false
  ∧ submit_entry (sample_env false false) sample_event (Some 7%nat) sample_log
    = Done (complete 7%nat 0 (with_cur_event None sample_log)).
Proof.
  split; [reflexivity|].
  apply (submit_entry_log_disabled (sample_env false false) sample_event
           (Some 7%nat) sample_log); reflexivity.
Defined.

(** ** The rotation rule *)

Lemma suppress_rotation_type e le le' :
  ev_type le' = ev_type le → suppress_rotation e le' = suppress_rotation e le.
Proof. unfold suppress_rotation. by intros ->. Qed.

(** [submit_entry] with the log enabled, one level deep. *)
Lemma submit_entry_with_enabled e submit le c s s' :
  mds_log (g_conf e) = true →
  submit_entry_with e submit le c s = Done s' →
  is_any_replay e = false ∧ cur_event s = Some le ∧
  ∃ le1 s1 cur,
    journal_entry e le c (with_cur_event None s) = Done (le1, s1)
    ∧ seg_rbegin (segments s1) = Some cur
    ∧ if suppress_rotation e le then s' = s1
      else
        get_layout_period (journaler s1) ≠ 0
        ∧ if bool_decide (get_write_pos (journaler s1) / get_layout_period (journaler s1)
                          ≠ ls_offset cur / get_layout_period (journaler s1))
          then start_new_segment_with e submit None s1 = Done s'
          else if mds_debug_subtrees (g_conf e)
                  && bool_decide (ev_type le ≠ EVENT_SUBTREEMAP_TEST)
          then ∃ sle s2,
                 create_subtree_map e s1 = Done (sle, s2)
                 ∧ submit (set_type EVENT_SUBTREEMAP_TEST sle) None
                     (with_cur_event (Some (set_type EVENT_SUBTREEMAP_TEST sle)) s2)
                   = Done s'
          else s' = s1.
Proof.
  intros Hlog. unfold submit_entry_with. rewrite Hlog. simpl. intros H.
  inv_done H as ? Hrep. apply negb_true_iff in Hrep.
  inv_done H as ? Hcur. apply bool_decide_eq_true in Hcur.
  inv_done H as [le1 s1] Hj.
  inv_done H as last Hlast. unfold get_last_segment_offset in Hlast.
  destruct (seg_rbegin (segments s1)) as [cur|] eqn:Hrb; [|discriminate].
  injection Hlast as <-.
  split; [done|]. split; [done|]. exists le1, s1, cur. split; [done|]. split; [done|].
  pose proof (journal_entry_type _ _ _ _ _ _ Hj) as Hty.
  rewrite (suppress_rotation_type e le le1 Hty) in H. rewrite Hty in H.
  destruct (suppress_rotation e le); [by injection H|].
  inv_done H as ? Hper. apply bool_decide_eq_true in Hper. split; [done|].
  destruct (bool_decide (_ / _ ≠ _ / _)); [done|].
  destruct (_ && _); [|by injection H].
  inv_done H as [sle s2] Hsle. eauto.
Qed.

(** A subtree map, submitted with the log enabled: it is journalled and
    that is all. *)
Lemma submit_subtree_map_enabled e n le c s s' :
  mds_log (g_conf e) = true →
  ev_type le = EVENT_SUBTREEMAP →
  submit_entry_fuel e (S n) le c s = Done s' →
  ∃ le1, journal_entry e le c (with_cur_event None s) = Done (le1, s').
Proof.
  intros Hlog Hty H.
  change (submit_entry_with e (submit_entry_fuel e n) le c s = Done s') in H.
  apply submit_entry_with_enabled in H as (_ & _ & le1 & s1 & cur & Hj & _ & H); [|done].
  unfold suppress_rotation in H. rewrite Hty in H. simpl in H. subst s'. eauto.
Qed.

Lemma create_subtree_map_Done e s le s' :
  create_subtree_map e s = Done (le, s') →
  cur_event s = None
  ∧ le = mkLogEvent EVENT_SUBTREEMAP (subtree_map_payload e)
           (get_write_pos (journaler s)) 0
  ∧ s' = with_cur_event (Some le) s.
Proof.
  unfold create_subtree_map, start_entry. intros H. inv_done H.
  apply bool_decide_eq_true in Ha. injection H as <- <-. done.
Qed.

(** [segments[pos] = new LogSegment(pos)] with [pos] not below any key of
    a sorted index: the new segment is the last one, and what was before
    it stays. *)
Lemma seg_assign_last v m :
  StronglySorted Z.lt (ls_offset <$> m) →
  Forall (λ ls, ls_offset ls ≤ ls_offset v) m →
  ∃ m' rest, (seg_assign v m).1 = m' ++ [v] ∧ m = m' ++ rest
             ∧ Forall (λ ls, ls_offset ls < ls_offset v) m'
             ∧ (seg_assign v m).2 = head rest
             ∧ Forall (λ ls, ls_offset ls = ls_offset v) rest.
Proof.
  induction m as [|v' r IH]; intros Hs Hle; simpl.
  { exists [], []. repeat split; constructor. }
  rewrite fmap_cons in Hs. apply StronglySorted_inv in Hs as [Hs Hhd].
  apply Forall_cons in Hle as [Hv' Hle].
  destruct (Z.ltb_spec (ls_offset v) (ls_offset v')); [lia|].
  destruct (Z.eqb_spec (ls_offset v) (ls_offset v')) as [Heq|Hne].
  - assert (r = []) as ->.
    { destruct r as [|x r]; [done|]. exfalso.
      rewrite fmap_cons in Hhd. apply Forall_cons in Hhd as [Hx _].
      apply Forall_cons in Hle as [Hx' _]. lia. }
    exists [], [v']. simpl. repeat split; try constructor; done.
  - destruct (IH Hs Hle) as (m' & rest & E1 & E2 & F1 & E3 & F2).
    destruct (seg_assign v r) as [r' old]. simpl in *. subst r' r old.
    exists (v' :: m'), rest. repeat split; try done.
    constructor; [lia | done].
Qed.

(** ** Starting a segment *)

Lemma insert_new_segment_proj pos s :
  let s' := insert_new_segment pos s in
  segments s' = (seg_assign (new_LogSegment (next_addr s) pos) (segments s)).1
  ∧ leaked s' = match (seg_assign (new_LogSegment (next_addr s) pos) (segments s)).2 with
                | Some ls => ls :: leaked s
                | None => leaked s
                end
  ∧ next_addr s' = S (next_addr s)
  ∧ journaler s' = journaler s
  ∧ num_events s' = num_events s
  ∧ expiring_segments s' = expiring_segments s
  ∧ expired_segments s' = expired_segments s
  ∧ expiring_events s' = expiring_events s
  ∧ expired_events s' = expired_events s
  ∧ capped s' = capped s
  ∧ cur_event s' = cur_event s
  ∧ mdcache s' = mdcache s.
Proof.
  unfold insert_new_segment.
  destruct (seg_assign _ _) as [m [old|]]; simpl; repeat split; done.
Qed.

Lemma prepare_new_segment_proj s :
  let s' := prepare_new_segment s in
  let v := new_LogSegment (next_addr s) (get_write_pos (journaler s)) in
  segments s' = (seg_assign v (segments s)).1
  ∧ leaked s' = match (seg_assign v (segments s)).2 with
                | Some ls => ls :: leaked s
                | None => leaked s
                end
  ∧ next_addr s' = S (next_addr s)
  ∧ journaler s' = journaler s
  ∧ num_events s' = num_events s
  ∧ expiring_segments s' = expiring_segments s
  ∧ expired_segments s' = expired_segments s
  ∧ expiring_events s' = expiring_events s
  ∧ expired_events s' = expired_events s
  ∧ capped s' = capped s
  ∧ cur_event s' = cur_event s
  ∧ mc_stray (mdcache s') = S (mc_stray (mdcache s)).
Proof.
  unfold prepare_new_segment. cbv zeta. simpl.
  pose proof (insert_new_segment_proj (get_write_pos (journaler s)) s) as H.
  cbv zeta in H. destruct H as (-> & -> & -> & -> & -> & -> & -> & -> & -> & -> & -> & ->).
  repeat split; done.
Qed.

(** [start_new_segment] taken apart: the segment is prepared, the cache
    makes a subtree map, which is submitted. *)
Lemma start_new_segment_with_Done e submit onsync s s' :
  start_new_segment_with e submit onsync s = Done s' →
  ∃ le s2,
    create_subtree_map e (prepare_new_segment s) = Done (le, with_cur_event (Some le) (prepare_new_segment s))
    ∧ submit le None (with_cur_event (Some le) (prepare_new_segment s)) = Done s2
    ∧ s' = match onsync with
           | Some c => flush (wait_for_safe e c s2)
           | None => s2
           end.
Proof.
  unfold start_new_segment_with, journal_segment_subtree_map_with. intros H.
  inv_done H as s2 H2. inv_done H2 as [le s1] Hc.
  pose proof (create_subtree_map_Done _ _ _ _ Hc) as (_ & _ & ->).
  exists le, s2. split; [done|]. split; [done|].
  destruct onsync; by injection H.
Qed.

Lemma flush_wait_for_safe_proj e c s :
  let s' := flush (wait_for_safe e c s) in
  segments s' = segments s
  ∧ num_events s' = num_events s
  ∧ mdcache s' = mdcache s
  ∧ next_addr s' = next_addr s
  ∧ leaked s' = leaked s
  ∧ expiring_segments s' = expiring_segments s
  ∧ expired_segments s' = expired_segments s
  ∧ expiring_events s' = expiring_events s
  ∧ expired_events s' = expired_events s
  ∧ capped s' = capped s
  ∧ j_written (journaler s') = j_written (journaler s)
  ∧ j_write_pos (journaler s') = j_write_pos (journaler s)
  ∧ j_read_pos (journaler s') = j_read_pos (journaler s)
  ∧ j_expire_pos (journaler s') = j_expire_pos (journaler s)
  ∧ j_readonly (journaler s') = j_readonly (journaler s).
Proof.
  unfold flush, wait_for_safe.
  destruct (mds_log (g_conf e)); simpl; destruct (bool_decide _); simpl;
    repeat split; done.
Qed.

Lemma seg_assign_nonempty v m : (seg_assign v m).1 ≠ [].
Proof.
  destruct m as [|v' r]; simpl; [done|].
  destruct (_ <? _); [done|]. destruct (_ =? _); [done|].
  by destruct (seg_assign v r).
Qed.

Lemma journal_entry_total e le c s :
  have_any_segments s = true → capped s = false → j_readonly (journaler s) = false →
  ∃ le' s', journal_entry e le c s = Done (le', s').
Proof.
  intros Hany Hcap Hro. unfold journal_entry, ceph_clock_now, append_entry.
  rewrite Hany. cbn. rewrite Hcap, Hro. cbn. by eexists _, _.
Qed.

Lemma journal_entry_ready e le c s le' s' :
  journal_entry e le c s = Done (le', s') →
  get_layout_period (journaler s) ≠ 0 → ready s' ∧ cur_event s' = cur_event s.
Proof.
  intros H Hper. apply journal_entry_Done in H
    as (m & v & _ & _ & _ & _ & Hseg & _ & _ & _ & Hro & _ & _ & Hlp & _ & _ & _ & _
        & Hcap & _ & _ & _ & Hcur & _).
  split; [|done]. unfold ready, have_any_segments, get_layout_period.
  rewrite Hseg, Hlp. split; [by destruct m|]. done.
Qed.

(** A subtree map goes through on a log that takes events. *)
Lemma submit_subtree_map_total e n le c s :
  mds_log (g_conf e) = true → is_any_replay e = false →
  cur_event s = Some le → ev_type le = EVENT_SUBTREEMAP → ready s →
  ∃ s', submit_entry_fuel e (S n) le c s = Done s'.
Proof.
  intros Hlog Hrep Hcur Hty (Hany & Hcap & Hro & Hper).
  change (submit_entry_fuel e (S n) le c s)
    with (submit_entry_with e (submit_entry_fuel e n) le c s).
  unfold submit_entry_with. rewrite Hlog, Hrep. cbn.
  rewrite bool_decide_eq_true_2 by done. cbn.
  destruct (journal_entry_total e le c (with_cur_event None s)) as (le1 & s1 & Hj);
    [done..|].
  rewrite Hj. cbn.
  pose proof (journal_entry_type _ _ _ _ _ _ Hj) as Hty1.
  apply journal_entry_ready in Hj as [(Hany1 & _) _]; [|done].
  unfold get_last_segment_offset, have_any_segments, seg_rbegin in *.
  destruct (segments s1) as [|x r] eqn:E; [discriminate|].
  destruct (last (x :: r)) eqn:L; [|by apply last_None in L].
  cbn. unfold suppress_rotation. rewrite Hty1, Hty. cbn. by eexists.
Qed.

Lemma start_new_segment_with_total e n onsync s :
  mds_log (g_conf e) = true → is_any_replay e = false →
  cur_event s = None → capped s = false → j_readonly (journaler s) = false →
  get_layout_period (journaler s) ≠ 0 →
  ∃ s', start_new_segment_with e (submit_entry_fuel e (S n)) onsync s = Done s'.
Proof.
  intros Hlog Hrep Hcur Hcap Hro Hper.
  pose proof (prepare_new_segment_proj s) as P. cbv zeta in P.
  destruct P as (Ps & _ & _ & Pj & _ & _ & _ & _ & _ & Pcap & Pcur & _).
  unfold start_new_segment_with, journal_segment_subtree_map_with,
    create_subtree_map, start_entry.
  rewrite Pcur, Hcur. cbn.
  match goal with
  | |- context [submit_entry_fuel e (S n) ?le None ?s1] =>
      destruct (submit_subtree_map_total e n le None s1) as [s' Hs']; try done
  end.
  { unfold ready, have_any_segments, get_layout_period. cbn.
    rewrite Ps, Pj, Pcap.
    pose proof (seg_assign_nonempty
                  (new_LogSegment (next_addr s) (get_write_pos (journaler s)))
                  (segments s)) as Hne.
    destruct (seg_assign _ _).1; done. }
  rewrite Hs'. cbn. destruct onsync; by eexists.
Qed.

(** A subtree map creates no segment, whatever the configuration. *)
Lemma submit_subtree_map_next_addr e n le c s s' :
  ev_type le = EVENT_SUBTREEMAP →
  submit_entry_fuel e (S n) le c s = Done s' →
  next_addr s' = next_addr s.
Proof.
  intros Hty H. destruct (mds_log (g_conf e)) eqn:Hlog.
  - apply submit_subtree_map_enabled in H as [le1 Hj]; [|done..].
    apply journal_entry_Done in Hj. destruct Hj as (m & v & Hj).
    destruct Hj as (_&_&_&_&_&_&_&_&_&_&_&_&_&_&_&_&_&_&Hn&_). done.
  - change (submit_entry_with e (submit_entry_fuel e n) le c s = Done s') in H.
    unfold submit_entry_with in H. rewrite Hlog in H. simpl in H.
    inv_done H. inv_done H. injection H as <-. by destruct c.
Qed.

Lemma start_new_segment_next_addr e onsync s s' :
  start_new_segment e onsync s = Done s' → next_addr s' = S (next_addr s).
Proof.
  intros H. apply start_new_segment_with_Done in H as (le & s2 & Hc & Hsub & ->).
  pose proof (create_subtree_map_Done _ _ _ _ Hc) as (_ & Hle & _).
  apply submit_subtree_map_next_addr in Hsub; [|by rewrite Hle].
  pose proof (prepare_new_segment_proj s) as (_ & _ & Pn & _). cbn in Hsub.
  destruct onsync as [c|].
  - pose proof (flush_wait_for_safe_proj e c s2) as (_ & _ & _ & -> & _). congruence.
  - congruence.
Qed.

(** A subtree map, submitted with the log disabled: the entry in
    progress is dropped, and that is all. *)
Lemma submit_entry_fuel_disabled e n le s s' :
  mds_log (g_conf e) = false →
  submit_entry_fuel e (S n) le None s = Done s' →
  s' = with_cur_event None s.
Proof.
  intros Hlog H.
  change (submit_entry_with e (submit_entry_fuel e n) le None s = Done s') in H.
  unfold submit_entry_with in H. rewrite Hlog in H. cbn in H.
  inv_done H. inv_done H. by injection H as <-.
Qed.

(** What a call of [start_new_segment] that returns has done, with the
    log enabled or not. *)
Lemma start_new_segment_inserts e onsync s s' :
  index_sorted s → index_behind s →
  start_new_segment e onsync s = Done s' →
  let wp := get_write_pos (journaler s) in
  let bl := mkBl (Some EVENT_SUBTREEMAP) (subtree_map_payload e) in
  ∃ m rest,
    segments s = m ++ rest
    ∧ Forall (λ ls, ls_offset ls < wp) m
    ∧ Forall (λ ls, ls_offset ls = wp) rest
    ∧ segments (prepare_new_segment s) = m ++ [new_LogSegment (next_addr s) wp]
    ∧ mc_stray (mdcache s') = S (mc_stray (mdcache s))
    ∧ next_addr s' = S (next_addr s)
    ∧ if mds_log (g_conf e) then
        segments s' = m ++ [mkLogSegment (next_addr s) wp (wp + framed bl) 1]
        ∧ j_written (journaler s') = j_written (journaler s) ++ [(wp, bl)]
        ∧ j_write_pos (journaler s') = wp + framed bl
        ∧ num_events s' = num_events s + 1
      else
        segments s' = m ++ [new_LogSegment (next_addr s) wp]
        ∧ j_written (journaler s') = j_written (journaler s)
        ∧ j_write_pos (journaler s') = wp
        ∧ num_events s' = num_events s.
Proof.
  intros Hsorted Hbehind H. cbv zeta.
  pose proof (start_new_segment_next_addr _ _ _ _ H) as Hnext.
  apply start_new_segment_with_Done in H as (le & s2 & Hc & Hsub & ->).
  pose proof (create_subtree_map_Done _ _ _ _ Hc) as (_ & Hle & _).
  pose proof (prepare_new_segment_proj s)
    as (Ps & _ & _ & Pj & Pn & _ & _ & _ & _ & _ & _ & Pstray).
  cbv zeta in Ps.
  destruct (seg_assign_last (new_LogSegment (next_addr s) (get_write_pos (journaler s)))
              (segments s))
    as (m & rest & E1 & E2 & F1 & _ & F2); [done|done|].
  exists m, rest. split; [done|]. split; [done|]. split; [done|].
  split; [by rewrite Ps, E1|].
  assert (∀ c, mc_stray (mdcache (flush (wait_for_safe e c s2))) = mc_stray (mdcache s2)
               ∧ segments (flush (wait_for_safe e c s2)) = segments s2
               ∧ j_written (journaler (flush (wait_for_safe e c s2)))
                 = j_written (journaler s2)
               ∧ j_write_pos (journaler (flush (wait_for_safe e c s2)))
                 = j_write_pos (journaler s2)
               ∧ num_events (flush (wait_for_safe e c s2)) = num_events s2) as Hfw.
  { intros c. pose proof (flush_wait_for_safe_proj e c s2)
      as (-> & -> & -> & _ & _ & _ & _ & _ & _ & _ & -> & -> & _). done. }
  assert (mc_stray (mdcache s2) = S (mc_stray (mdcache s))
          ∧ if mds_log (g_conf e) then
              segments s2
              = m ++ [mkLogSegment (next_addr s) (get_write_pos (journaler s))
                        (get_write_pos (journaler s)
                         + framed (mkBl (Some EVENT_SUBTREEMAP) (subtree_map_payload e))) 1]
              ∧ j_written (journaler s2)
                = j_written (journaler s)
                  ++ [(get_write_pos (journaler s),
                       mkBl (Some EVENT_SUBTREEMAP) (subtree_map_payload e))]
              ∧ j_write_pos (journaler s2)
                = get_write_pos (journaler s)
                  + framed (mkBl (Some EVENT_SUBTREEMAP) (subtree_map_payload e))
              ∧ num_events s2 = num_events s + 1
            else
              segments s2 = m ++ [new_LogSegment (next_addr s) (get_write_pos (journaler s))]
              ∧ j_written (journaler s2) = j_written (journaler s)
              ∧ j_write_pos (journaler s2) = get_write_pos (journaler s)
              ∧ num_events s2 = num_events s) as [Hst Hs2].
  { destruct (mds_log (g_conf e)) eqn:Hlog.
    - apply submit_subtree_map_enabled in Hsub as [le1 Hj]; [|done|by rewrite Hle].
      apply journal_entry_Done in Hj
        as (m0 & v & Hm & _ & _ & Hle1 & Hseg & Hnum & Hwp & Hwr & _ & _ & _ & _ & _ & _
            & _ & _ & _ & _ & _ & Hmc & _).
      cbn in Hm, Hseg, Hnum, Hwr, Hmc, Hwp.
      rewrite Ps, E1 in Hm. apply app_inj_tail in Hm as [<- <-].
      assert (encode_with_header le1
              = mkBl (Some EVENT_SUBTREEMAP) (subtree_map_payload e)) as Hbl.
      { rewrite Hle1, Hle. done. }
      rewrite Hbl, Pj in Hseg, Hwr, Hwp. rewrite Pn in Hnum. cbn in Hseg.
      rewrite Hmc. repeat split; done.
    - apply submit_entry_fuel_disabled in Hsub; [|done]. subst s2. cbn.
      rewrite Ps, E1, Pj, Pn. repeat split; done. }
  split.
  { destruct onsync as [c|]; [|done]. destruct (Hfw c) as (-> & _). done. }
  split; [done|].
  destruct onsync as [c|]; [|exact Hs2].
  destruct (Hfw c) as (_ & -> & -> & -> & ->). exact Hs2.
Qed.

(** With the log disabled [start_new_segment] only needs the server to
    be out of replay and no entry to be in progress. *)
Lemma start_new_segment_disabled_total e onsync s :
  mds_log (g_conf e) = false → is_any_replay e = false → cur_event s = None →
  ∃ s', start_new_segment e onsync s = Done s'.
Proof.
  intros Hlog Hrep Hcur.
  pose proof (prepare_new_segment_proj s) as P. cbv zeta in P.
  destruct P as (_ & _ & _ & _ & _ & _ & _ & _ & _ & _ & Pcur & _).
  unfold start_new_segment, start_new_segment_with, journal_segment_subtree_map_with,
    create_subtree_map, start_entry.
  rewrite Pcur, Hcur. cbn.
  match goal with
  | |- context [submit_entry_fuel e 2 ?le None ?s1] =>
      change (submit_entry_fuel e 2 le None s1)
        with (submit_entry_with e (submit_entry_fuel e 1) le None s1)
  end.
  unfold submit_entry_with. rewrite Hlog, Hrep. cbn.
  rewrite bool_decide_eq_true_2 by done. cbn. destruct onsync; by eexists.
Qed.

(** The amended C2.  A call of [start_new_segment] returns when the
    server is not in replay and no entry is in progress and, if the log is
    enabled, the log is not capped and its journaler is writeable.
    Every call that returns, on a well-formed index, has put a new
    [LogSegment] at the write position, behind all the others (in the
    place of one that was at that position), and has advanced the cache's
    stray directory by one.  With the log enabled that segment holds
    exactly one event when the call returns, the subtree map just made:
    the one record appended, at the segment's offset, and the segment ends
    where the record ends.  With the log disabled nothing is appended and
    the segment is empty. *)
Theorem start_new_segment_subtree_map e onsync s :
  index_sorted s → index_behind s →
  (is_any_replay e = false → cur_event s = None →
   (mds_log (g_conf e) = true →
    capped s = false ∧ j_readonly (journaler s) = false
    ∧ get_layout_period (journaler s) ≠ 0) →
   ∃ s', start_new_segment e onsync s = Done s')
  ∧ ∀ s', start_new_segment e onsync s = Done s' →
    let wp := get_write_pos (journaler s) in
    let bl := mkBl (Some EVENT_SUBTREEMAP) (subtree_map_payload e) in
    ∃ m rest,
      segments s = m ++ rest
      ∧ Forall (λ ls, ls_offset ls < wp) m
      ∧ Forall (λ ls, ls_offset ls = wp) rest
      ∧ segments (prepare_new_segment s) = m ++ [new_LogSegment (next_addr s) wp]
      ∧ mc_stray (mdcache s') = S (mc_stray (mdcache s))
      ∧ next_addr s' = S (next_addr s)
      ∧ if mds_log (g_conf e) then
          segments s' = m ++ [mkLogSegment (next_addr s) wp (wp + framed bl) 1]
          ∧ j_written (journaler s') = j_written (journaler s) ++ [(wp, bl)]
          ∧ j_write_pos (journaler s') = wp + framed bl
          ∧ num_events s' = num_events s + 1
        else
          segments s' = m ++ [new_LogSegment (next_addr s) wp]
          ∧ j_written (journaler s') = j_written (journaler s)
          ∧ j_write_pos (journaler s') = wp
          ∧ num_events s' = num_events s.
Proof.
  intros Hsorted Hbehind. split.
  - intros Hrep Hcur Hen. destruct (mds_log (g_conf e)) eqn:Hlog.
    + destruct Hen as (Hcap & Hro & Hper); [done|].
      by apply start_new_segment_with_total.
    + by apply start_new_segment_disabled_total.
  - intros s' H. by apply (start_new_segment_inserts e onsync).
Qed.

Lemma start_new_segment_subtree_map_witness :
  index_sorted sample_idle
  ∧ index_behind sample_idle
  ∧ (∃ s', start_new_segment (sample_env true false) None sample_idle = Done s'
           ∧ mc_stray (mdcache s') = 1%nat
           ∧ segments s' = [mkLogSegment 0 0 5000 2; mkLogSegment 1 5000 5048 1]
           ∧ j_written (journaler s') = [(5000, mkBl (Some EVENT_SUBTREEMAP) 40)])
  ∧ (∃ s', start_new_segment (sample_env false false) None sample_idle = Done s'
           ∧ mc_stray (mdcache s') = 1%nat
           ∧ segments s' = [mkLogSegment 0 0 5000 2; mkLogSegment 1 5000 5000 0]
           ∧ j_written (journaler s') = []).
Proof.
  assert (Hs : index_sorted sample_idle) by (repeat constructor).
  assert (Hb : index_behind sample_idle) by (repeat constructor; done).
  split; [exact Hs|]. split; [exact Hb|]. split.
  - destruct (start_new_segment_subtree_map (sample_env true false) None sample_idle
                Hs Hb) as [Htot Hspec].
    destruct Htot as [s' E]; [reflexivity|reflexivity| |].
    { intros _. repeat split. discriminate. }
    exists s'. split; [done|].
    destruct (Hspec s' E) as (m & rest & Hm & _ & Heq & _ & Hstray & _ & Hseg & Hwr & _).
    split; [exact Hstray|].
    assert (m = [mkLogSegment 0 0 5000 2]) as ->.
    { destruct rest as [|r rest]; [by rewrite app_nil_r in Hm|].
      apply Forall_cons in Heq as [Heq _].
      destruct m as [|x m]; cbn in Hm; injection Hm as <- Hm; [discriminate Heq|].
      by destruct m. }
    split; [exact Hseg | exact Hwr].
  - destruct (start_new_segment_subtree_map (sample_env false false) None sample_idle
                Hs Hb) as [Htot Hspec].
    destruct Htot as [s' E]; [reflexivity|reflexivity| |].
    { intros H. discriminate H. }
    exists s'. split; [done|].
    destruct (Hspec s' E) as (m & rest & Hm & _ & Heq & _ & Hstray & _ & Hseg & Hwr & _).
    split; [exact Hstray|].
    assert (m = [mkLogSegment 0 0 5000 2]) as ->.
    { destruct rest as [|r rest]; [by rewrite app_nil_r in Hm|].
      apply Forall_cons in Heq as [Heq _].
      destruct m as [|x m]; cbn in Hm; injection Hm as <- Hm; [discriminate Heq|].
      by destruct m. }
    split; [exact Hseg | exact Hwr].
Defined.

(** C2 as stated fails: with [mds_log] false the subtree map is not
    journalled, and the new segment is empty when the call returns. *)
Lemma start_new_segment_log_disabled_empty :
  ∃ s', start_new_segment (sample_env false false) None sample_idle = Done s'
        ∧ seg_rbegin (segments s') = Some (new_LogSegment 1 5000)
        ∧ ls_num_events (new_LogSegment 1 5000) = 0
        ∧ j_written (journaler s') = [].
Proof. eexists. split; [vm_compute; reflexivity|]. done. Qed.

Lemma submit_entry_with_total e submit le c s :
  mds_log (g_conf e) = true → is_any_replay e = false →
  cur_event s = Some le → ready s →
  (∀ s1, cur_event s1 = None → ready s1 →
         ∃ s', start_new_segment_with e submit None s1 = Done s') →
  (ev_type le ≠ EVENT_SUBTREEMAP_TEST →
   ∀ sle s2, cur_event s2 = Some sle → ev_type sle = EVENT_SUBTREEMAP_TEST → ready s2 →
             ∃ s', submit sle None s2 = Done s') →
  ∃ s', submit_entry_with e submit le c s = Done s'.
Proof.
  intros Hlog Hrep Hcur (Hany & Hcap & Hro & Hper) Hstart Htest.
  unfold submit_entry_with. rewrite Hlog, Hrep. cbn.
  rewrite bool_decide_eq_true_2 by done. cbn.
  destruct (journal_entry_total e le c (with_cur_event None s)) as (le1 & s1 & Hj);
    [done..|].
  rewrite Hj. cbn.
  pose proof (journal_entry_type _ _ _ _ _ _ Hj) as Hty1.
  apply journal_entry_ready in Hj as [Hready1 Hcur1]; [|done].
  pose proof Hready1 as (Hany1 & Hcap1 & Hro1 & Hper1).
  unfold get_last_segment_offset.
  destruct (seg_rbegin (segments s1)) as [cur|] eqn:L.
  2:{ unfold have_any_segments, seg_rbegin in *.
      destruct (segments s1); [discriminate|]. by apply last_None in L. }
  cbn. destruct (suppress_rotation e le1); [by eexists|].
  rewrite (bool_decide_eq_true_2 (get_layout_period (journaler s1) ≠ 0)) by done. cbn.
  case_bool_decide; [by apply Hstart|].
  rewrite Hty1.
  destruct (mds_debug_subtrees (g_conf e)); cbn; [|by eexists].
  case_bool_decide; cbn; [|by eexists].
  unfold create_subtree_map, start_entry. rewrite Hcur1. cbn.
  apply Htest; done.
Qed.

(** [submit_entry] goes through on a log that takes events. *)
Lemma submit_entry_total e le c s :
  mds_log (g_conf e) = true → is_any_replay e = false →
  cur_event s = Some le → ready s →
  ∃ s', submit_entry e le c s = Done s'.
Proof.
  intros Hlog Hrep Hcur Hready. unfold submit_entry.
  change (submit_entry_fuel e 3 le c s)
    with (submit_entry_with e (submit_entry_fuel e 2) le c s).
  apply submit_entry_with_total; try done.
  - intros s1 Hc (_ & ? & ? & ?). by apply start_new_segment_with_total.
  - intros _ sle s2 Hc2 Hty2 Hready2.
    change (submit_entry_fuel e 2 sle None s2)
      with (submit_entry_with e (submit_entry_fuel e 1) sle None s2).
    apply submit_entry_with_total; try done.
    intros s1 Hc (_ & ? & ? & ?). by apply start_new_segment_with_total.
Qed.

(** The subtree map of a new segment is done with one level of the
    recursion: the fuel of [start_new_segment] does not matter. *)
Lemma start_new_segment_with_fuel e n onsync s :
  start_new_segment_with e (submit_entry_fuel e (S n)) onsync s
  = start_new_segment_with e (submit_entry_fuel e 1) onsync s.
Proof.
  unfold start_new_segment_with, journal_segment_subtree_map_with.
  destruct (create_subtree_map e (prepare_new_segment s)) as [[le s1]| |] eqn:E; [|done..].
  cbn [mbind outcome_bind].
  rewrite (submit_subtree_map_fuel e n); [done|].
  by apply create_subtree_map_type in E.
Qed.

(** The amended C1.  With the log enabled, [submit_entry] goes through
    on a log that takes events.  It first appends the event
    ([journal_entry], which creates no segment) and then decides on
    rotation from the write position after the append and the offset of
    the last segment of the index, the one with the greatest key: for a
    subtree map, or an import finish during resolve, nothing more
    happens; otherwise it calls [start_new_segment], which creates
    exactly one segment, if and only if the two positions are in
    different periods.  When they are not, it ends there, unless
    [mds_debug_subtrees] is set and the event is no test subtree map: it
    then appends a test subtree map (which creates no segment either) and
    calls [start_new_segment] if and only if the write position after
    that append and the offset of the last segment are in different
    periods.  No call starts more than one segment. *)
Theorem submit_entry_rotation e le c s :
  mds_log (g_conf e) = true →
  (is_any_replay e = false → cur_event s = Some le → ready s →
   ∃ s', submit_entry e le c s = Done s')
  ∧ ∀ s', submit_entry e le c s = Done s' →
    ∃ le1 s1 cur,
      journal_entry e le c (with_cur_event None s) = Done (le1, s1)
      ∧ next_addr s1 = next_addr s
      ∧ seg_rbegin (segments s1) = Some cur
      ∧ let write_pos := get_write_pos (journaler s1) in
        let layout_period := get_layout_period (journaler s1) in
        let last_segment_offset := ls_offset cur in
        if suppress_rotation e le then s' = s1
        else if bool_decide (write_pos / layout_period
                             ≠ last_segment_offset / layout_period) then
          start_new_segment e None s1 = Done s' ∧ next_addr s' = S (next_addr s1)
        else if mds_debug_subtrees (g_conf e)
                && bool_decide (ev_type le ≠ EVENT_SUBTREEMAP_TEST) then
          ∃ sle s2 le2 s3,
            create_subtree_map e s1 = Done (sle, s2)
            ∧ journal_entry e (set_type EVENT_SUBTREEMAP_TEST sle) None
                (with_cur_event None s2) = Done (le2, s3)
            ∧ ev_type le2 = EVENT_SUBTREEMAP_TEST
            ∧ next_addr s3 = next_addr s1
            ∧ seg_rbegin (segments s3)
              = Some (ls_set_end (get_write_pos (journaler s3)) (ls_inc_events cur))
            ∧ get_layout_period (journaler s3) = layout_period
            ∧ if bool_decide (get_write_pos (journaler s3) / layout_period
                              ≠ last_segment_offset / layout_period) then
                start_new_segment e None s3 = Done s'
                ∧ next_addr s' = S (next_addr s1)
              else s' = s3
        else s' = s1.
Proof.
  intros Hlog. split; [intros; by apply submit_entry_total|].
  intros s' H. unfold submit_entry in H.
  change (submit_entry_with e (submit_entry_fuel e 2) le c s = Done s') in H.
  apply submit_entry_with_enabled in H
    as (_ & _ & le1 & s1 & cur & Hj & Hcur & H); [|done].
  exists le1, s1, cur. split; [done|]. split.
  { apply journal_entry_Done in Hj. destruct Hj as (m & v & Hj).
    destruct Hj as (_&_&_&_&_&_&_&_&_&_&_&_&_&_&_&_&_&_&Hn&_). done. }
  split; [done|]. cbv zeta.
  destruct (suppress_rotation e le); [done|]. destruct H as [_ H].
  destruct (bool_decide (_ / _ ≠ _ / _)).
  { split; [exact H|]. by apply start_new_segment_next_addr in H. }
  destruct (_ && _); [|done].
  destruct H as (sle & s2 & Hc & H).
  pose proof (create_subtree_map_Done _ _ _ _ Hc) as (Hc1 & Hsle & Hs2).
  change (submit_entry_with e (submit_entry_fuel e 1)
            (set_type EVENT_SUBTREEMAP_TEST sle) None
            (with_cur_event (Some (set_type EVENT_SUBTREEMAP_TEST sle)) s2) = Done s') in H.
  apply submit_entry_with_enabled in H
    as (_ & _ & le2 & s3 & cur2 & Hj2 & Hcur2 & H); [|done].
  assert (with_cur_event None (with_cur_event (Some (set_type EVENT_SUBTREEMAP_TEST sle)) s2)
          = with_cur_event None s2) as Ews by done.
  rewrite Ews in Hj2.
  exists sle, s2, le2, s3. split; [done|]. split; [done|].
  pose proof (journal_entry_type _ _ _ _ _ _ Hj2) as Hty2. cbn in Hty2.
  split; [done|].
  apply journal_entry_Done in Hj2 as (m & v & Hm & Hj2).
  destruct Hj2 as (_&_&Hle2&Hseg&_&Hwp&_&_&_&_&Hper&_&_&_&_&_&_&Hn&_).
  subst s2. cbn in Hm, Hn, Hper, Hwp, Hseg.
  unfold seg_rbegin in Hcur. rewrite Hm, last_snoc in Hcur. injection Hcur as ->.
  split; [done|].
  assert (seg_rbegin (segments s3)
          = Some (ls_set_end (get_write_pos (journaler s3)) (ls_inc_events cur))) as Hrb.
  { unfold seg_rbegin. rewrite Hseg, last_snoc. unfold get_write_pos.
    rewrite Hwp. done. }
  split; [done|]. split; [done|].
  rewrite Hrb in Hcur2. injection Hcur2 as <-.
  unfold suppress_rotation in H. cbn in H.
  destruct H as [_ H]. unfold get_layout_period in *. rewrite Hper in H.
  cbn [ls_offset ls_set_end ls_inc_events] in H.
  destruct (bool_decide (_ / _ ≠ _ / _)).
  - assert (start_new_segment e None s3 = Done s') as H'.
    { unfold start_new_segment. by rewrite start_new_segment_with_fuel. }
    split; [done|]. apply start_new_segment_next_addr in H'. congruence.
  - rewrite andb_false_r in H. done.
Qed.

Lemma submit_entry_rotation_witness :
  mds_log (g_conf (sample_env true false)) = true
  ∧ (∃ s', submit_entry (sample_env true false) sample_event None sample_log = Done s'
           ∧ ls_offset <$> segments s' = [0; 5108])
  ∧ (∃ s', submit_entry (sample_env true true) boundary_event None boundary_log = Done s'
           ∧ (8150 + framed (encode_with_header boundary_event)) / 4096 = 4096 / 4096
           ∧ ls_offset <$> segments s' = [4096; 8226]).
Proof.
  split; [reflexivity|]. split.
  - destruct (submit_entry_rotation (sample_env true false) sample_event None sample_log
                eq_refl) as [Htot Hspec].
    destruct Htot as [s' E]; [reflexivity..| |].
    { repeat split; done. }
    exists s'. split; [done|].
    destruct (Hspec s' E) as (le1 & s1 & cur & Hj & _ & Hcur & H).
    vm_compute in Hj. injection Hj as <- <-.
    vm_compute in Hcur. injection Hcur as <-.
    vm_compute in H. destruct H as [H _]. by injection H as <-.
  - destruct (submit_entry_rotation (sample_env true true) boundary_event None
                boundary_log eq_refl) as [Htot Hspec].
    destruct Htot as [s' E]; [reflexivity..| |].
    { repeat split; done. }
    exists s'. split; [done|]. split; [reflexivity|].
    destruct (Hspec s' E) as (le1 & s1 & cur & Hj & _ & Hcur & H).
    vm_compute in Hj. injection Hj as <- <-.
    vm_compute in Hcur. injection Hcur as <-.
    cbv zeta in H.
    destruct H as (sle & s2 & le2 & s3 & Hc & Hj2 & _ & _ & _ & _ & H).
    vm_compute in Hc. injection Hc as <- <-.
    vm_compute in Hj2. injection Hj2 as <- <-.
    vm_compute in H. destruct H as [H _]. by injection H as <-.
Defined.

(** C1 as stated fails: with [mds_log] false, [submit_entry] returns
    before the rotation rule.  Here the event is neither a subtree map nor
    an import finish, the write position 5000 and the last segment's
    offset 0 are in different periods of 4096 bytes, and no segment is
    started. *)
Lemma submit_entry_log_disabled_no_rotation :
  ∃ s', submit_entry (sample_env false false) sample_event None sample_log = Done s'
        ∧ suppress_rotation (sample_env false false) sample_event = false
        ∧ get_last_segment_offset s' = Done 0
        ∧ get_write_pos (journaler s') / get_layout_period (journaler s') ≠ 0 / get_layout_period (journaler s')
        ∧ segments s' = segments sample_log
        ∧ next_addr s' = next_addr sample_log.
Proof. eexists. split; [vm_compute; reflexivity|]. done. Qed.

(** ** Trimming expired segments *)

Lemma seg_erase_head ls r : seg_erase (ls_offset ls) (ls :: r) = r.
Proof. simpl. by rewrite Z.eqb_refl. Qed.

(** One round of [_trim_expired_segments]. *)
Lemma trim_expired_step_Some s ls s1 :
  trim_expired_step s = Some (ls, s1) →
  ∃ r,
    segments s = ls :: r
    ∧ ls_addr ls ∈ expired_segments s
    ∧ segments s1 = r
    ∧ expired_segments s1 = expired_segments s ∖ {[ls_addr ls]}
    ∧ expired_events s1 = expired_events s - ls_num_events ls
    ∧ num_events s1 = num_events s - ls_num_events ls
    ∧ j_expire_pos (journaler s1) = Z.max (j_expire_pos (journaler s)) (ls_offset ls)
    ∧ j_head_writes (journaler s1) = j_head_writes (journaler s)
    ∧ j_write_pos (journaler s1) = j_write_pos (journaler s)
    ∧ j_read_pos (journaler s1) = j_read_pos (journaler s)
    ∧ j_readonly (journaler s1) = j_readonly (journaler s)
    ∧ expiring_segments s1 = expiring_segments s
    ∧ expiring_events s1 = expiring_events s
    ∧ capped s1 = capped s
    ∧ leaked s1 = leaked s
    ∧ next_addr s1 = next_addr s
    ∧ j_error (journaler s1) = j_error (journaler s)
    ∧ j_unread (journaler s1) = j_unread (journaler s).
Proof.
  unfold trim_expired_step, seg_begin, count.
  destruct (segments s) as [|v r] eqn:Hm; simpl; [discriminate|].
  destruct (bool_decide (ls_addr v ∈ expired_segments s)) eqn:Hin; simpl; [|discriminate].
  apply bool_decide_eq_true in Hin.
  unfold get_expire_pos.
  destruct (bool_decide (j_expire_pos (journaler s) < ls_offset v)) eqn:Hlt;
    [apply bool_decide_eq_true in Hlt | apply bool_decide_eq_false in Hlt];
    intros H; injection H as <- <-; exists r; simpl; rewrite ?Hm, ?seg_erase_head;
    repeat split; try done; lia.
Qed.

Lemma trim_expired_step_None s :
  trim_expired_step s = None →
  match seg_begin (segments s) with
  | Some ls => ls_addr ls ∉ expired_segments s
  | None => True
  end.
Proof.
  unfold trim_expired_step, count. destruct (seg_begin (segments s)) as [ls|]; [|done].
  destruct (bool_decide (ls_addr ls ∈ expired_segments s)) eqn:Hin; simpl; [discriminate|].
  by apply bool_decide_eq_false in Hin.
Qed.

(** The loop, run for at least as many rounds as there are segments. *)
Lemma trim_expired_loop_spec n s removed s' :
  trim_expired_loop n s = (removed, s') →
  (length (segments s) ≤ n)%nat →
  segments s = removed ++ segments s'
  ∧ Forall (λ ls, ls_addr ls ∈ expired_segments s) removed
  ∧ match seg_begin (segments s') with
    | Some ls => ls_addr ls ∉ expired_segments s'
    | None => True
    end
  ∧ expired_segments s' = expired_segments s ∖ list_to_set (ls_addr <$> removed)
  ∧ expired_events s' = expired_events s - sum_events removed
  ∧ num_events s' = num_events s - sum_events removed
  ∧ j_expire_pos (journaler s')
    = foldl (λ pos ls, Z.max pos (ls_offset ls)) (j_expire_pos (journaler s)) removed
  ∧ j_head_writes (journaler s') = j_head_writes (journaler s)
  ∧ j_write_pos (journaler s') = j_write_pos (journaler s)
  ∧ j_read_pos (journaler s') = j_read_pos (journaler s)
  ∧ j_readonly (journaler s') = j_readonly (journaler s)
  ∧ expiring_segments s' = expiring_segments s
  ∧ expiring_events s' = expiring_events s
  ∧ capped s' = capped s
  ∧ leaked s' = leaked s
  ∧ next_addr s' = next_addr s
  ∧ j_error (journaler s') = j_error (journaler s)
  ∧ j_unread (journaler s') = j_unread (journaler s).
Proof.
  revert s removed s'. induction n as [|n IH]; intros s removed s' H Hlen.
  { simpl in H. injection H as <- <-.
    destruct (segments s) eqn:Hm; [|simpl in Hlen; lia].
    simpl. repeat split; try done; try (unfold sum_events; simpl; lia).
    by rewrite difference_empty_L. }
  simpl in H. destruct (trim_expired_step s) as [[ls s1]|] eqn:Hstep.
  - destruct (trim_expired_loop n s1) as [removed1 s2] eqn:Hloop.
    injection H as <- <-.
    apply trim_expired_step_Some in Hstep
      as (r & Hm & Hin & Hr & Hexp & Hee & Hnum & Hpos & Hhw & Hwp & Hrp & Hro
          & Hxs & Hxe & Hcap & Hlk & Hna & Hje & Hju).
    apply IH in Hloop; [|rewrite Hr; rewrite Hm in Hlen; simpl in Hlen; lia].
    destruct Hloop as (L1 & L2 & L3 & L4 & L5 & L6 & L7 & L8 & L9 & L10 & L11 & L12
                       & L13 & L14 & L15 & L16 & L17 & L18).
    split; [rewrite Hm; simpl; f_equal; by rewrite <- Hr|].
    split.
    { constructor; [done|]. eapply Forall_impl; [exact L2|].
      intros x Hx. rewrite Hexp in Hx. by apply elem_of_difference in Hx as [Hx _]. }
    split; [done|].
    split; [rewrite L4, Hexp, fmap_cons, list_to_set_cons; apply difference_difference_l_L|].
    unfold sum_events in *. simpl.
    repeat split; try congruence; try lia.
  - injection H as <- <-. apply trim_expired_step_None in Hstep.
    simpl. repeat split; try done; try (unfold sum_events; simpl; lia).
    by rewrite difference_empty_L.
Qed.

(** C4.  [_trim_expired_segments] removes a prefix of the index, oldest
    first: every segment removed was in the expired set, and the first one
    that stays is not; each removed segment leaves the index and the
    expired set, its events are taken off [num_events] (and
    [expired_events]), and the journal's expire position moves up to its
    offset (it never moves back); the journal head is written, once, if
    and only if a segment was removed. *)
Theorem trim_expired_segments_spec s :
  let removed := trimmed_segments s in
  let s' := _trim_expired_segments s in
  segments s = removed ++ segments s'
  ∧ Forall (λ ls, ls_addr ls ∈ expired_segments s) removed
  ∧ match seg_begin (segments s') with
    | Some ls => ls_addr ls ∉ expired_segments s'
    | None => True
    end
  ∧ expired_segments s' = expired_segments s ∖ list_to_set (ls_addr <$> removed)
  ∧ expired_events s' = expired_events s - sum_events removed
  ∧ num_events s' = num_events s - sum_events removed
  ∧ j_expire_pos (journaler s')
    = foldl (λ pos ls, Z.max pos (ls_offset ls)) (j_expire_pos (journaler s)) removed
  ∧ j_head_writes (journaler s')
    = j_head_writes (journaler s)
      ++ (if bool_decide (removed ≠ []) then [j_expire_pos (journaler s')] else []).
Proof.
  unfold trimmed_segments, _trim_expired_segments.
  destruct (trim_expired_loop (length (segments s)) s) as [removed s1] eqn:Hloop.
  apply trim_expired_loop_spec in Hloop; [|done].
  destruct Hloop as (L1 & L2 & L3 & L4 & L5 & L6 & L7 & L8 & _).
  simpl. destruct (bool_decide (removed ≠ [])); simpl;
    rewrite ?app_nil_r; repeat split; try done. by rewrite L8.
Qed.

(** ** The loop of trim *)

Lemma _expired_proj ls s :
  let s' := _expired ls s in
  segments s' = segments s
  ∧ journaler s' = journaler s
  ∧ num_events s' = num_events s
  ∧ expiring_segments s' = expiring_segments s
  ∧ expiring_events s' = expiring_events s
  ∧ capped s' = capped s
  ∧ leaked s' = leaked s
  ∧ next_addr s' = next_addr s
  ∧ cur_event s' = cur_event s
  ∧ clock_reads s' = clock_reads s
  ∧ expired_segments s' =
      (if negb (capped s)
          && bool_decide (ls_addr <$> peek_current_segment s = Some (ls_addr ls))
       then expired_segments s
       else {[ls_addr ls]} ∪ expired_segments s).
Proof.
  unfold _expired. destruct (_ && _); cbn; repeat split; done.
Qed.

(** [try_expire] on a segment that is not expiring goes through. *)
Lemma try_expire_Done e ls op_prio s :
  ls_addr ls ∉ expiring_segments s →
  ∃ s', try_expire e ls op_prio s = Done s'
        ∧ segments s' = segments s
        ∧ journaler s' = journaler s
        ∧ num_events s' = num_events s
        ∧ capped s' = capped s
        ∧ leaked s' = leaked s
        ∧ next_addr s' = next_addr s
        ∧ cur_event s' = cur_event s
        ∧ clock_reads s' = clock_reads s.
Proof.
  intros Hnot. unfold try_expire, count. simpl.
  destruct (gather_has_subs e (expire_calls s)); simpl.
  - rewrite bool_decide_eq_false_2 by done. simpl.
    eexists. split; [done|]. simpl. repeat split; done.
  - eexists. split; [done|]. cbn.
    pose proof (_expired_proj ls (with_expire_calls (S (expire_calls s)) s)) as H.
    cbv zeta in H. destruct H as (-> & -> & -> & _ & _ & -> & -> & -> & -> & -> & _).
    repeat split; done.
Qed.

(** A round of the loop of [trim] never aborts, and leaves the index and
    the journal as they are. *)
Lemma trim_round_total e me ms stop p s :
  ∃ step, trim_round e me ms stop p s = Done step
          ∧ let s' := match step with TrimStop _ s' => s' | TrimNext s' => s' end in
            segments s' = segments s ∧ journaler s' = journaler s
            ∧ num_events s' = num_events s.
Proof.
  unfold trim_round. destruct p as [|ls p]; [by eexists|].
  destruct (negb _); [by eexists|].
  unfold ceph_clock_now. cbv zeta. simpl.
  destruct (bool_decide (stop < _)); [by eexists|].
  destruct (bool_decide (_ ≤ _)); [by eexists|].
  destruct (bool_decide (_ < ls_end ls)); [by eexists|].
  unfold count at 1. simpl.
  destruct (bool_decide (ls_addr ls ∈ expiring_segments s)) eqn:Hing; simpl;
    [by eexists|].
  destruct (count ls _); simpl; [by eexists|].
  apply bool_decide_eq_false in Hing.
  destruct (try_expire_Done e ls
              (CEPH_MSG_PRIO_LOW
               + ((CEPH_MSG_PRIO_HIGH - CEPH_MSG_PRIO_LOW)
                  * Z.of_nat (size (expiring_segments s)))
                 `quot` mds_log_max_expiring (g_conf e))
              (with_clock_reads (S (clock_reads s)) s))
    as (s' & -> & Hs & Hj & Hn & _); [done|].
  simpl. eexists. split; [done|]. simpl. rewrite Hs, Hj, Hn. done.
Qed.

(** A round ends the loop exactly under [trim_stop_cond]. *)
Lemma trim_round_stop_iff e me ms stop p s :
  (∃ why s', trim_round e me ms stop p s = Done (TrimStop why s'))
  ↔ trim_stop_cond e me ms stop p s.
Proof.
  unfold trim_round, trim_stop_cond. destruct p as [|ls p].
  { split; [by left | by eexists _, _]. }
  destruct (over_limits me ms s) eqn:Hover; simpl;
    [|split; [by right; left | by eexists _, _]].
  unfold ceph_clock_now. cbv zeta. simpl.
  destruct (bool_decide (stop < clock e (clock_reads s))) eqn:Htime;
    [apply bool_decide_eq_true in Htime; split;
       [by right; right; left | by eexists _, _]|].
  apply bool_decide_eq_false in Htime.
  destruct (bool_decide (_ ≤ _)) eqn:Hexp;
    [apply bool_decide_eq_true in Hexp; split;
       [by right; right; right; left | by eexists _, _]|].
  apply bool_decide_eq_false in Hexp.
  unfold get_write_safe_pos. simpl.
  destruct (bool_decide (j_safe_pos (journaler s) < ls_end ls)) eqn:Hsafe;
    [apply bool_decide_eq_true in Hsafe; split;
       [by right; right; right; right; exists ls, p | by eexists _, _]|].
  apply bool_decide_eq_false in Hsafe.
  split.
  - intros (why & s' & H). exfalso.
    destruct (if count ls _ then _ else _); simpl in H; discriminate.
  - intros [H|[H|[H|[H|(ls' & p' & H & H')]]]]; try done.
    injection H as <- <-. done.
Qed.

(** The loop ends, never aborts, and passes over the index in its order. *)
Lemma trim_loop_total e me ms stop p s :
  ∃ why seen s', trim_loop e me ms stop p s = Done (why, seen, s')
                 ∧ (∃ rest, p = seen ++ rest)
                 ∧ (why = StopEnd → seen = p)
                 ∧ segments s' = segments s.
Proof.
  revert s. induction p as [|ls p IH]; intros s.
  { exists StopEnd, [], s. repeat split; try done. by exists []. }
  destruct (trim_round_total e me ms stop (ls :: p) s) as (step & Hstep & Hseg & _).
  assert (Hnoend : ∀ s1, step ≠ TrimStop StopEnd s1).
  { intros s1 ->. unfold trim_round in Hstep.
    destruct (negb _); [discriminate|]. unfold ceph_clock_now in Hstep. cbv zeta in Hstep.
    simpl in Hstep.
    repeat (match type of Hstep with
            | context [bool_decide ?P] => destruct (bool_decide P); [discriminate|]
            end).
    destruct (if count ls _ then _ else _); discriminate. }
  cbn [trim_loop]. rewrite Hstep. cbn [mbind outcome_bind]. destruct step as [why s1|s1].
  - destruct why; try (eexists _, [], s1; split; [done|]; split; [by eexists|];
                       split; [done|exact Hseg]).
    + by destruct (Hnoend s1).
    + exists StopUnflushed, [ls], s1. split; [done|]. split; [by exists p|]. done.
  - destruct (IH s1) as (why & seen & s2 & -> & [rest ->] & Hend & Hs2).
    simpl. exists why, (ls :: seen), s2. split; [done|]. split; [by exists rest|].
    split; [intros H; by rewrite (Hend H) at 1|]. simpl in Hseg. congruence.
Qed.

(** What a round that goes on has done: the clock was read, and the
    segment under the iterator was handed to [try_expire] unless it is
    expiring or expired already. *)
Lemma trim_round_next e me ms stop p s s1 :
  trim_round e me ms stop p s = Done (TrimNext s1) →
  ∃ ls p', p = ls :: p'
    ∧ let s0 := with_clock_reads (S (clock_reads s)) s in
      let op_prio :=
        CEPH_MSG_PRIO_LOW
        + ((CEPH_MSG_PRIO_HIGH - CEPH_MSG_PRIO_LOW)
           * Z.of_nat (size (expiring_segments s)))
          `quot` mds_log_max_expiring (g_conf e) in
      if count ls (expiring_segments s) || count ls (expired_segments s)
      then s1 = s0
      else try_expire e ls op_prio s0 = Done s1.
Proof.
  unfold trim_round. destruct p as [|ls p]; [discriminate|].
  destruct (negb _); [discriminate|].
  unfold ceph_clock_now. cbv zeta. cbn.
  destruct (bool_decide (stop < _)); [discriminate|].
  destruct (bool_decide (_ ≤ _)); [discriminate|].
  destruct (bool_decide (_ < ls_end ls)); [discriminate|].
  intros H. exists ls, p. split; [done|].
  unfold count in *. cbn in H.
  destruct (bool_decide (ls_addr ls ∈ expiring_segments s)); cbn in H |- *;
    [by injection H as <-|].
  destruct (bool_decide (ls_addr ls ∈ expired_segments s)); cbn in H |- *;
    [by injection H as <-|].
  inv_done H as s2 H2. by injection H as <-.
Qed.

(** The loop passes over the index in its order, a round for each
    segment, and ends at the first round that meets the stop condition. *)
Lemma trim_loop_visits e me ms stop p s :
  ∃ visited rest s_stop why s1,
    p = visited ++ rest
    ∧ trim_visits e me ms stop p s visited rest s_stop
    ∧ trim_round e me ms stop rest s_stop = Done (TrimStop why s1)
    ∧ trim_loop e me ms stop p s
      = Done (why,
              visited ++ (if decide (why = StopUnflushed) then take 1 rest else []),
              s1).
Proof.
  revert s. induction p as [|ls p IH]; intros s.
  { exists [], [], s, StopEnd, s. split; [done|]. split; [constructor; by left|]. done. }
  destruct (trim_round_total e me ms stop (ls :: p) s) as (step & Hstep & _).
  destruct step as [why s1|s1].
  - exists [], (ls :: p), s, why, s1. split; [done|].
    split; [constructor; apply trim_round_stop_iff; by eexists _, _|].
    split; [done|].
    cbn [trim_loop]. rewrite Hstep. cbn [mbind outcome_bind app].
    by destruct why.
  - destruct (IH s1) as (visited & rest & s_stop & why & s2 & Hp & Hv & Hr & Hl).
    exists (ls :: visited), rest, s_stop, why, s2.
    split; [by rewrite Hp|]. split.
    { econstructor; [|exact Hstep|exact Hv].
      intros Hc. apply trim_round_stop_iff in Hc as (why' & s' & Hc).
      rewrite Hc in Hstep. discriminate. }
    split; [done|].
    cbn [trim_loop]. rewrite Hstep. cbn [mbind outcome_bind]. rewrite Hl. done.
Qed.

(** The amended C3.  A call of [trim] on a non-empty index runs its loop
    over the index from the oldest segment on, in index order.  A round
    ends the loop exactly when the iterator is at the end of the index, or
    the live counts (all events, or segments, less the expiring and the
    expired ones) are within the configured maxima, or the clock is past
    two seconds after the start, or at least [mds_log_max_expiring]
    segments are expiring, or the segment under the iterator ends beyond
    the journal's safe position; a round that does not end the loop reads
    the clock and hands the segment under the iterator to [try_expire],
    unless it is expiring or expired already.  The loop passes the
    segments [visited], none of them under the stop condition, and ends
    at the first round that meets it, with [rest] still ahead: on an
    index that is a sorted map these are passed in ascending order of
    offset, each before all that are ahead.  [_trim_expired_segments]
    runs after the loop. *)
Theorem trim_loop_stops e m s :
  have_any_segments s = true →
  let max_segments := mds_log_max_segments (g_conf e) in
  let max_events := if bool_decide (0 ≤ m) then m else mds_log_max_events (g_conf e) in
  let stop := clock e (clock_reads s) + two_seconds in
  (∀ p st,
     (∃ why st', trim_round e max_events max_segments stop p st = Done (TrimStop why st'))
     ↔ trim_stop_cond e max_events max_segments stop p st)
  ∧ (∀ p st st',
       trim_round e max_events max_segments stop p st = Done (TrimNext st') →
       ∃ ls p', p = ls :: p'
         ∧ let st0 := with_clock_reads (S (clock_reads st)) st in
           let op_prio :=
             CEPH_MSG_PRIO_LOW
             + ((CEPH_MSG_PRIO_HIGH - CEPH_MSG_PRIO_LOW)
                * Z.of_nat (size (expiring_segments st)))
               `quot` mds_log_max_expiring (g_conf e) in
           if count ls (expiring_segments st) || count ls (expired_segments st)
           then st' = st0
           else try_expire e ls op_prio st0 = Done st')
  ∧ ∃ visited rest s_stop why s1,
      segments s = visited ++ rest
      ∧ (index_sorted s →
         StronglySorted Z.lt (ls_offset <$> visited)
         ∧ ∀ a b, a ∈ visited → b ∈ rest → ls_offset a < ls_offset b)
      ∧ trim_visits e max_events max_segments stop (segments s)
          (with_clock_reads (S (clock_reads s)) s) visited rest s_stop
      ∧ trim_stop_cond e max_events max_segments stop rest s_stop
      ∧ trim_round e max_events max_segments stop rest s_stop = Done (TrimStop why s1)
      ∧ trim_loop e max_events max_segments stop (segments s)
          (with_clock_reads (S (clock_reads s)) s)
        = Done (why,
                visited ++ (if decide (why = StopUnflushed) then take 1 rest else []),
                s1)
      ∧ trim e m s = Done (_trim_expired_segments s1).
Proof.
  intros Hany. cbv zeta. split; [intros p st; apply trim_round_stop_iff|].
  split; [intros p st st'; apply trim_round_next|].
  destruct (trim_loop_visits e
              (if bool_decide (0 ≤ m) then m else mds_log_max_events (g_conf e))
              (mds_log_max_segments (g_conf e)) (clock e (clock_reads s) + two_seconds)
              (segments s) (with_clock_reads (S (clock_reads s)) s))
    as (visited & rest & s_stop & why & s1 & Hp & Hv & Hr & Hloop).
  exists visited, rest, s_stop, why, s1. split; [done|]. split.
  { unfold index_sorted. cbn [segments with_clock_reads] in Hp.
    rewrite Hp, fmap_app. intros Hsorted. split.
    - by apply StronglySorted_app_1_l in Hsorted.
    - intros a b Ha Hb.
      apply (StronglySorted_app_1_elem_of Z.lt (ls_offset <$> visited)
               (ls_offset <$> rest));
        [done| |]; by apply list_elem_of_fmap_2. }
  split; [done|].
  split; [apply trim_round_stop_iff; by eexists _, _|]. split; [done|].
  split; [done|].
  unfold trim. rewrite Hany. simpl. unfold ceph_clock_now. cbv zeta.
  cbn [fst snd segments with_clock_reads]. rewrite Hloop. done.
Qed.

Lemma trim_loop_stops_witness :
  have_any_segments sample_idle = true
  ∧ ∃ visited s1,
      visited = segments sample_idle
      ∧ trim_visits tight_env (-1) 0 two_seconds (segments sample_idle)
          (with_clock_reads 1 sample_idle) visited [] s1
      ∧ trim tight_env (-1) sample_idle = Done (_trim_expired_segments s1).
Proof.
  split; [reflexivity|].
  destruct (trim_loop_stops tight_env (-1) sample_idle eq_refl)
    as (_ & _ & visited & rest & s_stop & why & s1 & Hp & _ & Hv & _ & Hr & Hloop & Ht).
  assert (why = StopEnd ∧ visited = segments sample_idle ∧ rest = []) as (-> & -> & ->).
  { match type of Hloop with
    | ?l = _ =>
        eassert (l = Done (StopEnd, [mkLogSegment 0 0 5000 2], _)) as E
          by (vm_compute; reflexivity)
    end.
    rewrite E in Hloop. injection Hloop as <- Hvis _.
    cbn in Hvis. rewrite app_nil_r in Hvis. subst visited.
    split; [done|]. split; [done|].
    cbn in Hp. destruct rest; [done|discriminate Hp]. }
  cbn in Hr. injection Hr as <-.
  exists (segments sample_idle), s_stop. split; [done|]. split; [exact Hv | exact Ht].
Defined.

(** C3 as stated fails: here the loop of [trim] ends because the
    iterator is at the end of the index, and none of the four conditions
    of the claim holds: one segment is live where none is allowed, the
    clock has not moved, nothing is expiring, and no segment is left to
    look at (the one there is ends at the safe position; it is the
    current segment of an uncapped log, which does not expire). *)
Lemma trim_loop_ends_at_end_of_index :
  ∃ seen s1,
    trim_loop tight_env (-1) 0 two_seconds (segments sample_idle)
      (with_clock_reads 1 sample_idle) = Done (StopEnd, seen, s1)
    ∧ trim tight_env (-1) sample_idle = Done (_trim_expired_segments s1)
    ∧ seen = segments sample_idle
    ∧ over_limits (-1) 0 s1 = true
    ∧ ¬ two_seconds < clock tight_env (clock_reads s1)
    ∧ ¬ mds_log_max_expiring (g_conf tight_env) ≤ Z.of_nat (size (expiring_segments s1))
    ∧ Forall (λ ls, ¬ get_write_safe_pos (journaler s1) < ls_end ls) (segments s1).
Proof.
  eexists _, _. split; [vm_compute; reflexivity|].
  split; [vm_compute; reflexivity|].
  split; [reflexivity|]. split; [vm_compute; reflexivity|].
  split; [vm_compute; intros H; discriminate H|].
  split; [vm_compute; intros H; by apply H|].
  repeat constructor. vm_compute. intros H; discriminate H.
Qed.

(** ** Errors during replay *)

Lemma standby_trim_loop_frame n pos b s b' s' :
  standby_trim_loop n pos b s = (b', s') →
  journaler s' = journaler s ∧ completed s' = completed s
  ∧ waitfor_replay s' = waitfor_replay s ∧ num_events s' = num_events s
  ∧ mdcache s' = mdcache s.
Proof.
  revert b s. induction n as [|n IH]; intros b s H; simpl in H.
  { by injection H as <- <-. }
  destruct (get_oldest_segment s) as [seg|]; [|by injection H as <- <-].
  destruct (bool_decide _); [by injection H as <- <-|].
  apply IH in H. simpl in H. done.
Qed.

Lemma standby_trim_segments_frame s :
  journaler (standby_trim_segments s) = journaler s
  ∧ completed (standby_trim_segments s) = completed s
  ∧ waitfor_replay (standby_trim_segments s) = waitfor_replay s
  ∧ num_events (standby_trim_segments s) = num_events s.
Proof.
  unfold standby_trim_segments.
  destruct (standby_trim_loop _ _ _ _) as [b s'] eqn:H.
  apply standby_trim_loop_frame in H as (? & ? & ? & ? & ?).
  destruct b; simpl; done.
Qed.

(** The status [replay_error] gives, case by case. *)
Lemma replay_error_cases e err s r s' :
  replay_error e err s = Done (r, s') →
  let j := journaler s in
  (err = - ENOENT → is_readonly j = true ∧ r = - EAGAIN ∧ s' = s)
  ∧ (err = - EINVAL → get_read_pos j < get_expire_pos j →
     is_readonly j = true ∧ r = - EAGAIN ∧ s' = s)
  ∧ (err = - EINVAL → ¬ get_read_pos j < get_expire_pos j →
     reread_head_err e = 0
     ∧ s' = standby_trim_segments
              (with_journaler
                 (j_reread_head (reread_head_write_pos e) (reread_head_expire_pos e) j) s)
     ∧ r = if bool_decide (get_read_pos j < reread_head_expire_pos e)
           then - EAGAIN else - EINVAL)
  ∧ (err ≠ - ENOENT → err ≠ - EINVAL → r = err ∧ s' = s).
Proof.
  unfold replay_error. cbv zeta. intros H.
  destruct (bool_decide (err = - ENOENT)) eqn:E1;
    [apply bool_decide_eq_true in E1 | apply bool_decide_eq_false in E1].
  { inv_done H as ? Hro. injection H as <- <-. subst err.
    repeat split; try done; intros; exfalso; unfold ENOENT, EINVAL in *; lia. }
  destruct (bool_decide (err = - EINVAL)) eqn:E2;
    [apply bool_decide_eq_true in E2 | apply bool_decide_eq_false in E2];
    [|injection H as <- <-; repeat split; done].
  destruct (bool_decide (get_read_pos (journaler s) < get_expire_pos (journaler s))) eqn:E3;
    [apply bool_decide_eq_true in E3 | apply bool_decide_eq_false in E3].
  { inv_done H as ? Hro. injection H as <- <-.
    repeat split; try done. }
  inv_done H as ? Hre. apply bool_decide_eq_true in Hre.
  split; [done|]. split; [done|]. split; [|done].
  intros _ _. split; [done|].
  set (s1 := with_journaler _ s) in *.
  destruct (standby_trim_segments_frame s1) as (Hj & _).
  rewrite Hj in H. subst s1. unfold get_read_pos, get_expire_pos in H. simpl in H.
  unfold get_read_pos.
  destruct (bool_decide (j_read_pos (journaler s) < reread_head_expire_pos e));
    injection H as <- <-; by subst err.
Qed.

Lemma replay_error_nonzero e err s r s' :
  err ≠ 0 → replay_error e err s = Done (r, s') → r ≠ 0.
Proof.
  intros Herr H. apply replay_error_cases in H as (C1 & C2 & C3 & C4). cbv zeta in *.
  destruct (decide (err = - ENOENT)) as [E1|E1].
  { destruct (C1 E1) as (_ & -> & _). unfold EAGAIN. lia. }
  destruct (decide (err = - EINVAL)) as [E2|E2].
  - destruct (decide (get_read_pos (journaler s) < get_expire_pos (journaler s)))
      as [E3|E3].
    + destruct (C2 E2 E3) as (_ & -> & _). unfold EAGAIN. lia.
    + destruct (C3 E2 E3) as (_ & _ & ->).
      case_bool_decide; unfold EAGAIN, EINVAL; lia.
  - by destruct (C4 E1 E2) as (-> & _).
Qed.

Lemma replay_error_frame e err s r s' :
  replay_error e err s = Done (r, s') →
  completed s' = completed s ∧ waitfor_replay s' = waitfor_replay s.
Proof.
  intros H. apply replay_error_cases in H as (C1 & C2 & C3 & C4). cbv zeta in *.
  destruct (decide (err = - ENOENT)) as [E1|E1].
  { by destruct (C1 E1) as (_ & _ & ->). }
  destruct (decide (err = - EINVAL)) as [E2|E2].
  - destruct (decide (get_read_pos (journaler s) < get_expire_pos (journaler s)))
      as [E3|E3].
    + by destruct (C2 E2 E3) as (_ & _ & ->).
    + destruct (C3 E2 E3) as (_ & -> & _).
      destruct (standby_trim_segments_frame
                  (with_journaler
                     (j_reread_head (reread_head_write_pos e) (reread_head_expire_pos e)
                        (journaler s)) s))
        as (_ & -> & -> & _). done.
  - by destruct (C4 E1 E2) as (_ & ->).
Qed.

(** [replay_error] goes through on a read-only journaler whose head can
    be re-read. *)
Lemma replay_error_total e err s :
  is_readonly (journaler s) = true → reread_head_err e = 0 →
  ∃ r s', replay_error e err s = Done (r, s').
Proof.
  intros Hro Hre. unfold replay_error. cbv zeta. rewrite Hro, Hre. simpl.
  repeat case_bool_decide; by eexists _, _.
Qed.

(** The amended C9.  When the journaler is in error [err] at a round of
    the replay loop, replay ends there: it completes its waiters with the
    status [r] that [replay_error] gives, which it does whenever the
    journaler is read-only and the head can be re-read.  For [-ENOENT],
    [r] is [-EAGAIN]; for [-EINVAL] with the read position below the
    expire position, [r] is [-EAGAIN] at once and nothing is re-read or
    trimmed; for [-EINVAL] otherwise, the head is re-read and
    [standby_trim_segments] runs, and [r] is [-EAGAIN] if the read
    position is then below the expire position and [-EINVAL] if not; for
    any other error [r] is that error. *)
Theorem replay_error_status e n s :
  let j := j_receive (journaler s) in
  let err := get_error j in
  let s0 := with_journaler j s in
  err ≠ 0 →
  replay_loop (S n) e s
  = ('(r, s1) ← replay_error e err s0; Done (Replayed r (finish_contexts r s1)))
  ∧ (is_readonly j = true → reread_head_err e = 0 →
     ∃ r s1, replay_error e err s0 = Done (r, s1))
  ∧ ∀ r s1, replay_error e err s0 = Done (r, s1) →
      completed (finish_contexts r s1)
      = completed s ++ ((λ c, (c, r)) <$> waitfor_replay s)
      ∧ (err = - ENOENT → is_readonly j = true ∧ r = - EAGAIN ∧ s1 = s0)
      ∧ (err = - EINVAL → get_read_pos j < get_expire_pos j →
         is_readonly j = true ∧ r = - EAGAIN ∧ s1 = s0)
      ∧ (err = - EINVAL → ¬ get_read_pos j < get_expire_pos j →
         reread_head_err e = 0
         ∧ s1 = standby_trim_segments
                  (with_journaler
                     (j_reread_head (reread_head_write_pos e) (reread_head_expire_pos e) j)
                     s0)
         ∧ r = if bool_decide (get_read_pos j < reread_head_expire_pos e)
               then - EAGAIN else - EINVAL)
      ∧ (err ≠ - ENOENT → err ≠ - EINVAL → r = err ∧ s1 = s0).
Proof.
  cbv zeta. intros Herr. split; [|split].
  - cbn [replay_loop]. unfold replay_round. cbv zeta.
    rewrite bool_decide_eq_true_2 by done.
    destruct (replay_error e _ _) as [[r s1]| |] eqn:Hre; [|done..].
    apply replay_error_nonzero in Hre; [|done]. cbn.
    rewrite (bool_decide_eq_true_2 (r ≠ 0)) by done. cbn.
    by rewrite bool_decide_eq_false_2.
  - intros Hro Hh. by apply replay_error_total.
  - intros r s1 Hre. split.
    + apply replay_error_frame in Hre as [Hc Hw].
      unfold finish_contexts. cbn. by rewrite Hc, Hw.
    + apply replay_error_cases in Hre. exact Hre.
Qed.

Lemma replay_error_status_witness :
  get_error (j_receive (journaler standby_log)) ≠ 0
  ∧ ∃ s1, replay_loop 1 (sample_env true false) standby_log
          = Done (Replayed (- EAGAIN) s1).
Proof.
  assert (Herr : get_error (j_receive (journaler standby_log)) ≠ 0)
    by (vm_compute; discriminate).
  split; [exact Herr|].
  destruct (replay_error_status (sample_env true false) 0 standby_log Herr)
    as (Hloop & Htot & Hcases).
  destruct (Htot eq_refl eq_refl) as (r & s1 & Hre).
  destruct (Hcases r s1 Hre) as (_ & _ & C2 & _).
  destruct C2 as (_ & Hr & _); [reflexivity | vm_compute; reflexivity |].
  exists (finish_contexts r s1). rewrite Hloop, Hre. cbn. by rewrite Hr.
Defined.

(** C9 as stated fails: with [-EINVAL] and the read position (100) below
    the expire position (6000), replay completes with [-EAGAIN] without
    re-reading the head and without calling [standby_trim_segments], which
    would have removed the segment that is still there. *)
Lemma replay_einval_behind_no_reread :
  get_error (journaler standby_log) = - EINVAL
  ∧ get_read_pos (journaler standby_log) < get_expire_pos (journaler standby_log)
  ∧ segments (standby_trim_segments standby_log) = []
  ∧ ∃ s', _replay_thread (sample_env true false) standby_log
          = Done (Replayed (- EAGAIN) s')
          ∧ completed s' = [(3%nat, - EAGAIN)]
          ∧ j_head_reads (journaler s') = j_head_reads (journaler standby_log)
          ∧ segments s' = segments standby_log
          ∧ mc_trims (mdcache s') = [].
Proof.
  split; [reflexivity|]. split; [reflexivity|]. split; [reflexivity|].
  eexists. split; [vm_compute; reflexivity|]. done.
Qed.

(** ** Recovery of the journal pointer *)

Import Recovery.

Lemma jp_save_proj sv jp w :
  let '(r, w') := jp_save sv jp w in
  r = save_result sv (saves w)
  ∧ trace w' = trace w ++ [IoSave jp]
  ∧ journals w' = journals w
  ∧ the_journaler w' = the_journaler w
  ∧ pointer_object w' = (if bool_decide (0 ≤ r) then Some jp else pointer_object w).
Proof. unfold jp_save. simpl. done. Qed.

Lemma erase_proj sv j w :
  let '(r, w') := erase sv j w in
  r = erase_status sv (j_ino j) w
  ∧ trace w' = trace w ++ [IoErase (j_ino j)]
  ∧ pointer_object w' = pointer_object w
  ∧ the_journaler w' = the_journaler w
  ∧ saves w' = saves w
  ∧ (∀ ino, ino ≠ j_ino j → journals w' !! ino = journals w !! ino)
  ∧ (r = 0 → journals w' !! j_ino j = None).
Proof.
  unfold erase, erase_status. simpl.
  destruct (bool_decide (erase_fault sv (j_ino j) ≠ 0)) eqn:Hf; simpl.
  { apply bool_decide_eq_true in Hf. repeat split; done. }
  destruct (journals w !! j_ino j) eqn:Hj; simpl; repeat split; try done;
    intros; rewrite ?lookup_delete_eq; try done;
    try (by rewrite lookup_delete_ne); unfold ENOENT in *; lia.
Qed.

Lemma recover_proj sv j w :
  let '(r, j', w') := recover sv j w in
  r = recover_result sv (j_ino j)
  ∧ trace w' = trace w ++ [IoRecover (j_ino j)]
  ∧ journals w' = journals w
  ∧ pointer_object w' = pointer_object w
  ∧ the_journaler w' = the_journaler w
  ∧ saves w' = saves w
  ∧ j_ino j' = j_ino j
  ∧ (r = 0 → j' = from_option (recovered j) j (journals w !! j_ino j)).
Proof.
  unfold recover. simpl.
  destruct (bool_decide (recover_result sv (j_ino j) ≠ 0)) eqn:Hf; simpl.
  - apply bool_decide_eq_true in Hf. repeat split; done.
  - apply bool_decide_eq_false in Hf. apply dec_stable in Hf. rewrite Hf.
    repeat split; try done. by destruct (journals w !! j_ino j).
Qed.


(** ** The loops that read a journal end *)

Lemma j_receive_unread j : (length (j_unread (j_receive j)) ≤ length (j_unread j))%nat.
Proof.
  unfold j_receive. destruct (j_unread j) as [|[] u] eqn:E; rewrite ?E; try done.
  destruct (bool_decide _); simpl; rewrite ?E; simpl; lia.
Qed.

Lemma try_read_entry_unread j :
  is_readable j = true →
  (length (j_unread (try_read_entry j).2) < length (j_unread j))%nat.
Proof.
  unfold is_readable, try_read_entry.
  destruct (j_unread j) as [|[] u]; simpl; try done; lia.
Qed.

Lemma transcribe_answers n k old_journal new_journal :
  (length (j_unread old_journal) < n)%nat →
  transcribe n k old_journal new_journal ≠ OutOfFuel.
Proof.
  revert k old_journal new_journal.
  induction n as [|n IH]; intros k old_journal new_journal Hlen; [lia|].
  cbn [transcribe]. cbv zeta.
  pose proof (j_receive_unread old_journal) as Hrec.
  destruct (bool_decide (get_error _ ≠ 0)); [done|].
  destruct (is_readable (j_receive old_journal)) eqn:Hread; cbn.
  2:{ repeat case_bool_decide; done. }
  pose proof (try_read_entry_unread _ Hread) as Hlt.
  destruct (try_read_entry (j_receive old_journal)) as [[bl|] old1]; cbn in Hlt.
  - unfold append_entry. destruct (j_readonly new_journal); cbn; [done|].
    apply IH. lia.
  - destruct (bool_decide _); cbn; [|done]. apply IH. lia.
Qed.

Lemma replay_entry_journaler e pos bl s s' :
  replay_entry e pos bl s = Done s' → journaler s' = journaler s.
Proof.
  unfold replay_entry. destruct (LogEvent_decode bl) as [le|].
  2:{ intros H. inv_done H. by injection H as <-. }
  cbv zeta. intros H. injection H as <-. cbn.
  destruct (_ || _); cbn.
  - pose proof (insert_new_segment_proj pos s) as P. cbv zeta in P.
    destruct P as (_ & _ & _ & Pj & _).
    destruct (have_any_segments _); cbn; done.
  - destruct (have_any_segments _); cbn; done.
Qed.

Lemma replay_entry_answers e pos bl s : replay_entry e pos bl s ≠ OutOfFuel.
Proof.
  unfold replay_entry. destruct (LogEvent_decode bl); [done|].
  by destruct (mds_log_skip_corrupt_events _).
Qed.

Lemma replay_error_answers e err s : replay_error e err s ≠ OutOfFuel.
Proof.
  unfold replay_error. cbv zeta.
  repeat case_bool_decide; try done;
    destruct (is_readonly (journaler s)); cbn; done.
Qed.

Lemma replay_loop_answers n e s :
  (length (j_unread (journaler s)) < n)%nat → replay_loop n e s ≠ OutOfFuel.
Proof.
  revert s. induction n as [|n IH]; intros s Hlen; [lia|].
  cbn [replay_loop]. unfold replay_round. cbv zeta.
  pose proof (j_receive_unread (journaler s)) as Hrec.
  destruct (bool_decide (get_error _ ≠ 0)).
  { destruct (replay_error e _ _) as [[r s1]| |] eqn:E; cbn; [|done|].
    - destruct (_ || _); cbn; done.
    - by apply replay_error_answers in E. }
  destruct (is_readable (j_receive (journaler s))) eqn:Hread; cbn.
  2:{ repeat case_bool_decide; cbn; try done.
      destruct (_ || _); cbn; done. }
  pose proof (try_read_entry_unread _ Hread) as Hlt.
  destruct (try_read_entry (j_receive (journaler s))) as [[bl|] j1]; cbn in Hlt.
  - destruct (replay_entry e _ bl _) as [s1| |] eqn:E; cbn; [|done|].
    + apply IH. apply replay_entry_journaler in E. rewrite E. cbn. lia.
    + by apply replay_entry_answers in E.
  - destruct (bool_decide _); cbn; [|done]. apply IH. cbn. lia.
Qed.

Lemma replay_answers e c s : replay e c s ≠ OutOfFuel.
Proof.
  unfold replay. cbv zeta.
  destruct (is_readonly _); cbn -[_replay_thread]; [|done].
  case_bool_decide; [done|].
  destruct (_ || _); cbn -[_replay_thread]; [|done]. unfold _replay_thread.
  apply replay_loop_answers. destruct c; cbn; lia.
Qed.

Lemma trim_answers e m s : trim e m s ≠ OutOfFuel.
Proof.
  unfold trim. destruct (negb _); [done|].
  unfold ceph_clock_now. cbv zeta. cbn [fst snd].
  match goal with
  | |- context [trim_loop ?e ?a ?b ?c ?p ?s0] =>
      destruct (trim_loop_total e a b c p s0) as (why & seen & s1 & -> & _)
  end.
  done.
Qed.

Lemma step_answers e o s : step e o s ≠ OutOfFuel.
Proof.
  destruct o; cbn; try done.
  - unfold start_entry. destruct (bool_decide _); cbn; [|done].
    apply submit_entry_answers.
  - destruct (negb _); cbn; [|done]. apply start_new_segment_answers.
  - apply trim_answers.
  - unfold _maybe_expired. destruct (deref a s) as [ls| |] eqn:E; cbn; try done.
    + destruct (count ls _); cbn; [|done].
      unfold try_expire. cbv zeta. destruct (gather_has_subs _ _); cbn; [|done].
      destruct (negb _); cbn; done.
    + unfold deref in E. by destruct (list_find _ _) as [[]|].
  - pose proof (replay_answers e c s).
    destruct (replay e c s) as [[]| |]; cbn; done.
Qed.

(** A run never ends for want of fuel. *)
Lemma run_answers ops s : run ops s ≠ OutOfFuel.
Proof.
  revert s. induction ops as [|[e o] ops IH]; intros s; cbn; [done|].
  pose proof (step_answers e o s).
  destruct (step e o s); cbn; [apply IH|done..].
Qed.

Lemma bind_answers {A B} (m : outcome A) (k : A → outcome B) :
  m ≠ OutOfFuel → (∀ a, k a ≠ OutOfFuel) → m ≫= k ≠ OutOfFuel.
Proof. destruct m; cbn; auto. Qed.

Lemma assert_answers b : assert b ≠ OutOfFuel.
Proof. by destruct b. Qed.

Lemma reformat_journal_answers sv jp old_journal w :
  _reformat_journal sv jp old_journal w ≠ OutOfFuel.
Proof.
  unfold _reformat_journal. cbv zeta.
  apply bind_answers; [apply assert_answers|intros _].
  destruct (jp_save sv _ w) as [wr1 w1].
  apply bind_answers; [apply assert_answers|intros _].
  destruct (write_head _ w1) as [nj1 w2].
  apply bind_answers; [apply transcribe_answers; lia|].
  intros [[[[r k'] old'] nj2]|]; [|done].
  destruct (flush_wait nj2 w2) as [nj3 w3].
  apply bind_answers; [apply assert_answers|intros _].
  destruct (jp_save sv _ w3) as [wr2 w4].
  apply bind_answers; [apply assert_answers|intros _].
  destruct (erase sv old' w4) as [er w5].
  apply bind_answers; [apply assert_answers|intros _].
  destruct (jp_save sv _ w5) as [wr3 w6].
  apply bind_answers; [apply assert_answers|intros _]. done.
Qed.

Lemma open_front_journal_answers sv jp w : open_front_journal sv jp w ≠ OutOfFuel.
Proof.
  unfold open_front_journal. cbv zeta.
  destruct (recover sv _ w) as [[r fj] w0].
  repeat case_bool_decide; try done. apply reformat_journal_answers.
Qed.

Lemma load_pointer_answers sv w : load_pointer sv w ≠ OutOfFuel.
Proof.
  unfold load_pointer. destruct (jp_load sv w) as [[r jp] w0].
  case_bool_decide.
  - cbv zeta. destruct (jp_save sv _ w0) as [wr w1].
    apply bind_answers; [apply assert_answers|done].
  - apply bind_answers; [apply assert_answers|done].
Qed.

Lemma erase_back_journal_answers sv jp w : erase_back_journal sv jp w ≠ OutOfFuel.
Proof.
  unfold erase_back_journal. case_bool_decide; [|done]. cbv zeta.
  destruct (recover sv _ w) as [[r bj] w0].
  apply bind_answers; [apply assert_answers|intros _].
  destruct (erase sv bj w0) as [er w1].
  destruct (_ && _); [done|].
  destruct (jp_save sv _ w1) as [wr w2].
  apply bind_answers; [apply assert_answers|done].
Qed.

(** The recovery thread never ends for want of fuel. *)
Lemma recovery_thread_answers sv w : _recovery_thread sv w ≠ OutOfFuel.
Proof.
  unfold _recovery_thread.
  apply bind_answers; [apply assert_answers|intros _].
  apply bind_answers; [apply load_pointer_answers|intros [jp w0]].
  apply bind_answers; [apply erase_back_journal_answers|intros [jp1 w1]].
  apply open_front_journal_answers.
Qed.

(** ** Cleaning up after a crashed reformat *)

(** The block that cleans up after a crashed reformat. *)
Lemma erase_back_journal_Done sv jp w jp1 w1 :
  back jp ≠ 0 →
  erase_back_journal sv jp w = Done (jp1, w1) →
  let erase_result := erase_status sv (back jp) w in
  let erased := bool_decide (erase_result = 0 ∨ erase_result = - ENOENT) in
  recover_result sv (back jp) = 0
  ∧ trace w1 = trace w ++ [IoRecover (back jp); IoErase (back jp)]
               ++ (if erased then [IoSave (mkJP (front jp) 0)] else [])
  ∧ jp1 = (if erased then mkJP (front jp) 0 else jp)
  ∧ pointer_object w1 = (if erased then Some (mkJP (front jp) 0) else pointer_object w)
  ∧ (∀ ino, ino ≠ back jp → journals w1 !! ino = journals w !! ino)
  ∧ (erase_result = 0 → journals w1 !! back jp = None)
  ∧ the_journaler w1 = the_journaler w.
Proof.
  intros Hback. unfold erase_back_journal.
  rewrite bool_decide_eq_true_2 by done.
  pose proof (recover_proj sv (new_Journaler (back jp)) w) as Hrec.
  destruct (recover sv (new_Journaler (back jp)) w) as [[r bj] w0].
  destruct Hrec as (Hr & Htr0 & Hj0 & Hp0 & Htj0 & Hs0 & Hino & _).
  cbn [j_ino new_Journaler] in Hr, Htr0, Hino.
  intros H. inv_done H as ? Hrr. apply bool_decide_eq_true in Hrr. subst r.
  pose proof (erase_proj sv bj w0) as Her.
  destruct (erase sv bj w0) as [er w2].
  destruct Her as (Her & Htr2 & Hp2 & Htj2 & Hs2 & Hj2 & Hj2').
  rewrite Hino in Her, Htr2, Hj2, Hj2'.
  assert (er = erase_status sv (back jp) w) as Her'.
  { rewrite Her. unfold erase_status. by rewrite Hj0. }
  cbv zeta. rewrite <- Her'. clear Her.
  destruct (bool_decide (er ≠ 0) && bool_decide (er ≠ - ENOENT)) eqn:Hfail.
  - injection H as <- <-.
    apply andb_true_iff in Hfail as [H1 H2].
    apply bool_decide_eq_true in H1, H2.
    rewrite bool_decide_eq_false_2 by (intros [?|?]; done).
    rewrite app_nil_r. split; [congruence|]. split; [by rewrite Htr2, Htr0, <- app_assoc|].
    split; [done|]. split; [congruence|].
    split; [intros ino Hne; rewrite Hj2 by done; by rewrite Hj0|].
    split; [done | congruence].
  - assert (er = 0 ∨ er = - ENOENT) as Hok.
    { apply andb_false_iff in Hfail as [H1|H1]; apply bool_decide_eq_false in H1;
        apply dec_stable in H1; auto. }
    rewrite bool_decide_eq_true_2 by done.
    pose proof (jp_save_proj sv (mkJP (front jp) 0) w2) as Hsv.
    destruct (jp_save sv (mkJP (front jp) 0) w2) as [wr w3].
    destruct Hsv as (Hwr & Htr3 & Hj3 & Htj3 & Hp3).
    inv_done H as ? Hw. apply bool_decide_eq_true in Hw. injection H as <- <-.
    rewrite bool_decide_eq_true_2 in Hp3 by done.
    split; [done|].
    split; [rewrite Htr3, Htr2, Htr0, <- !app_assoc; done|].
    split; [done|]. split; [done|].
    split; [intros ino Hne; rewrite Hj3, Hj2 by done; by rewrite Hj0|].
    split; [intros E; rewrite Hj3; by apply Hj2' | congruence].
Qed.

(** ** Reformat *)

Lemma j_receive_ino j : j_ino (j_receive j) = j_ino j.
Proof.
  unfold j_receive. destruct (j_unread j) as [|[]]; try done.
  by destruct (bool_decide _).
Qed.

Lemma try_read_entry_ino j : j_ino (try_read_entry j).2 = j_ino j.
Proof. unfold try_read_entry. by destruct (j_unread j) as [|[]]. Qed.

(** The transcription keeps both journals where they are, and the new
    one in its format. *)
Lemma transcribe_Done n k old_journal new_journal r k' old' new' :
  transcribe n k old_journal new_journal = Done (Some (r, k', old', new')) →
  j_ino old' = j_ino old_journal
  ∧ j_ino new' = j_ino new_journal
  ∧ j_stream_format new' = j_stream_format new_journal
  ∧ j_layout_period new' = j_layout_period new_journal.
Proof.
  revert k old_journal new_journal.
  induction n as [|n IH]; intros k old_journal new_journal H; [discriminate|].
  cbn [transcribe] in H. cbv zeta in H.
  pose proof (j_receive_ino old_journal) as Hino.
  destruct (bool_decide (get_error (j_receive old_journal) ≠ 0)).
  { injection H as <- <- <- <-. done. }
  destruct (negb (is_readable (j_receive old_journal))).
  { destruct (bool_decide (_ = _)); [injection H as <- <- <- <-; done|].
    destruct (bool_decide (_ < _)); discriminate. }
  pose proof (try_read_entry_ino (j_receive old_journal)) as Hino2.
  destruct (try_read_entry (j_receive old_journal)) as [[bl|] old1]; simpl in Hino2.
  - inv_done H as new1 Happ. unfold append_entry in Happ.
    inv_done Happ as ? Hro. injection Happ as <-.
    apply IH in H as (-> & -> & -> & ->). simpl. repeat split; congruence.
  - inv_done H as ? He. apply IH in H as (-> & -> & -> & ->).
    repeat split; congruence.
Qed.

Lemma write_head_proj j w :
  let '(j', w') := write_head j w in
  j_ino j' = j_ino j
  ∧ j_stream_format j' = j_stream_format j
  ∧ j_readonly j' = j_readonly j
  ∧ j_unread j' = j_unread j
  ∧ trace w' = trace w ++ [IoWriteHead (j_ino j) (j_stream_format j)]
  ∧ pointer_object w' = pointer_object w
  ∧ saves w' = saves w
  ∧ the_journaler w' = the_journaler w.
Proof. unfold write_head. simpl. done. Qed.

Lemma flush_wait_proj j w :
  let '(j', w') := flush_wait j w in
  j_ino j' = j_ino j
  ∧ j_stream_format j' = j_stream_format j
  ∧ trace w' = trace w ++ [IoFlush (j_ino j)]
  ∧ pointer_object w' = pointer_object w
  ∧ saves w' = saves w
  ∧ the_journaler w' = the_journaler w.
Proof. unfold flush_wait. simpl. done. Qed.

(** [_reformat_journal], when it completes: the requests it has made
    of the store, in order, and what it leaves. *)
Lemma reformat_journal_Finished sv jp_in old_journal w w' :
  _reformat_journal sv jp_in old_journal w = Done (Finished w') →
  let primary_ino := MDS_INO_LOG_OFFSET sv + nodeid sv in
  let secondary_ino := MDS_INO_LOG_BACKUP_OFFSET sv + nodeid sv in
  let chosen := if bool_decide (front jp_in = primary_ino)
                then secondary_ino else primary_ino in
  pointer_object w' = Some (mkJP chosen 0)
  ∧ (∃ j, the_journaler w' = Some j ∧ j_ino j = chosen
          ∧ j_stream_format j = journal_format sv)
  ∧ trace w' = trace w ++ [IoSave (mkJP (front jp_in) chosen);
                           IoWriteHead chosen (journal_format sv);
                           IoFlush chosen;
                           IoSave (mkJP chosen (front jp_in));
                           IoErase (j_ino old_journal);
                           IoSave (mkJP chosen 0);
                           IoComplete 0]
  ∧ (∃ old' w4 w5,
       erase sv old' w4 = (0, w5)
       ∧ j_ino old' = j_ino old_journal
       ∧ pointer_object w4 = Some (mkJP chosen (front jp_in))
       ∧ trace w4 = trace w ++ [IoSave (mkJP (front jp_in) chosen);
                                IoWriteHead chosen (journal_format sv);
                                IoFlush chosen;
                                IoSave (mkJP chosen (front jp_in))])
  ∧ journals w' !! j_ino old_journal = None.
Proof.
  unfold _reformat_journal. cbv zeta. intros H.
  set (chosen := if bool_decide (front jp_in = MDS_INO_LOG_OFFSET sv + nodeid sv)
                 then MDS_INO_LOG_BACKUP_OFFSET sv + nodeid sv
                 else MDS_INO_LOG_OFFSET sv + nodeid sv) in *.
  inv_done H as ? Hnull.
  pose proof (jp_save_proj sv (mkJP (front jp_in) chosen) w) as S1.
  destruct (jp_save sv (mkJP (front jp_in) chosen) w) as [wr1 w1].
  destruct S1 as (_ & T1 & _ & J1 & _).
  inv_done H as ? Hw1. cbn [back front] in H.
  set (nj := create (get_layout_period old_journal) (journal_format sv)
               (set_writeable (new_Journaler chosen))) in *.
  pose proof (write_head_proj nj w1) as S2.
  destruct (write_head nj w1) as [nj1 w2].
  destruct S2 as (I2 & F2 & _ & _ & T2 & _ & _ & J2).
  inv_done H as t Ht. destruct t as [[[[r k] old'] nj2]|]; [|discriminate].
  apply transcribe_Done in Ht as (Iold & I3 & F3 & _).
  pose proof (flush_wait_proj nj2 w2) as S4.
  destruct (flush_wait nj2 w2) as [nj3 w3].
  destruct S4 as (I4 & F4 & T4 & _ & _ & J4).
  inv_done H as ? Hr.
  pose proof (jp_save_proj sv (mkJP chosen (front jp_in)) w3) as S5.
  destruct (jp_save sv (mkJP chosen (front jp_in)) w3) as [wr2 w4].
  destruct S5 as (_ & T5 & _ & J5 & P5).
  inv_done H as ? Hw2. apply bool_decide_eq_true in Hw2. subst wr2.
  rewrite bool_decide_eq_true_2 in P5 by done.
  pose proof (erase_proj sv old' w4) as S6.
  destruct (erase sv old' w4) as [er w5] eqn:Herase.
  destruct S6 as (_ & T6 & _ & J6 & _ & _ & E6).
  inv_done H as ? Her. apply bool_decide_eq_true in Her. subst er.
  cbn [front back] in H.
  pose proof (jp_save_proj sv (mkJP chosen 0) w5) as S7.
  destruct (jp_save sv (mkJP chosen 0) w5) as [wr3 w6].
  destruct S7 as (_ & T7 & Jn7 & J7 & P7).
  inv_done H as ? Hw3. apply bool_decide_eq_true in Hw3. subst wr3.
  rewrite bool_decide_eq_true_2 in P7 by done.
  injection H as <-.
  assert (j_ino nj = chosen ∧ j_stream_format nj = journal_format sv) as [Inj Fnj]
    by done.
  assert (trace w4 = trace w ++ [IoSave (mkJP (front jp_in) chosen);
                                 IoWriteHead chosen (journal_format sv);
                                 IoFlush chosen;
                                 IoSave (mkJP chosen (front jp_in))]) as T4'.
  { rewrite T5, T4, T2, T1, I3, I2, Inj, Fnj, <- !app_assoc. done. }
  split; [done|]. split.
  { eexists. split; [done|]. simpl. split; congruence. }
  split.
  { simpl. rewrite T7, T6, T4', Iold, <- !app_assoc. done. }
  split; [by exists old', w4, w5|].
  simpl. rewrite Jn7, <- Iold. by apply E6.
Qed.

Lemma reformat_trace_extends sv jp old_journal w t :
  _reformat_journal sv jp old_journal w = Done t →
  ∃ tail, trace (world_of t) = trace w ++ tail.
Proof.
  destruct t as [w'|w'].
  { intros H. apply reformat_journal_Finished in H as (_ & _ & H & _).
    eexists. exact H. }
  unfold _reformat_journal. cbv zeta. intros H.
  inv_done H as ? Hnull.
  match type of H with
  | context [jp_save ?sv ?jp ?w] =>
      pose proof (jp_save_proj sv jp w) as P1; destruct (jp_save sv jp w) as [wr1 w1]
  end.
  destruct P1 as (_ & T1 & _).
  inv_done H as ? Hw1.
  match type of H with
  | context [write_head ?j ?w] =>
      pose proof (write_head_proj j w) as P2; destruct (write_head j w) as [nj1 w2]
  end.
  destruct P2 as (_ & _ & _ & _ & T2 & _).
  inv_done H as t Ht. destruct t as [[[[r k] old'] nj2]|].
  - destruct (flush_wait nj2 w2) as [nj3 w3].
    inv_done H as ? Hr.
    destruct (jp_save sv _ w3) as [wr2 w4]. inv_done H as ? Hw2.
    destruct (erase sv old' w4) as [er w5]. inv_done H as ? Her.
    destruct (jp_save sv _ w5) as [wr3 w6]. inv_done H as ? Hw3. discriminate.
  - injection H as <-. simpl. rewrite T2, T1, <- app_assoc. by eexists.
Qed.

Lemma open_front_journal_trace sv jp w t :
  open_front_journal sv jp w = Done t →
  ∃ tail, trace (world_of t) = trace w ++ IoRecover (front jp) :: tail.
Proof.
  unfold open_front_journal. cbv zeta.
  pose proof (recover_proj sv (new_Journaler (front jp)) w) as Hrec.
  destruct (recover sv (new_Journaler (front jp)) w) as [[r fj] w0].
  destruct Hrec as (_ & T0 & _). cbn [j_ino new_Journaler] in T0.
  destruct (bool_decide (r ≠ 0)).
  { intros H. injection H as <-. simpl. rewrite T0, <- app_assoc. by eexists. }
  destruct (bool_decide (_ ≤ _)).
  { intros H. injection H as <-. simpl. rewrite T0, <- app_assoc. by eexists. }
  intros H. apply reformat_trace_extends in H as [tail ->].
  rewrite T0, <- app_assoc. by eexists.
Qed.

(** [_reformat_journal], when it completes, step by step: every world
    is the one the step before it has left. *)
Lemma reformat_journal_steps sv jp_in old_journal w w' :
  _reformat_journal sv jp_in old_journal w = Done (Finished w') →
  let primary_ino := MDS_INO_LOG_OFFSET sv + nodeid sv in
  let secondary_ino := MDS_INO_LOG_BACKUP_OFFSET sv + nodeid sv in
  let chosen := if bool_decide (front jp_in = primary_ino)
                then secondary_ino else primary_ino in
  let swapped := mkJP chosen (front jp_in) in
  let nj := create (get_layout_period old_journal) (journal_format sv)
              (set_writeable (new_Journaler chosen)) in
  let w1 := (jp_save sv (mkJP (front jp_in) chosen) w).2 in
  let w2 := (write_head nj w1).2 in
  ∃ k old' nj2,
    transcribe (S (S (length (j_unread old_journal)))) 0 old_journal (write_head nj w1).1
    = Done (Some (0, k, old', nj2))
    ∧ let w3 := (flush_wait nj2 w2).2 in
      let w4 := (jp_save sv swapped w3).2 in
      let w5 := (erase sv old' w4).2 in
      let w6 := (jp_save sv (mkJP chosen 0) w5).2 in
      (jp_save sv (mkJP (front jp_in) chosen) w).1 = 0
      ∧ (jp_save sv swapped w3).1 = 0
      ∧ (erase sv old' w4).1 = 0
      ∧ (jp_save sv (mkJP chosen 0) w5).1 = 0
      ∧ w' = log (IoComplete 0) (install (set_readonly (flush_wait nj2 w2).1) w6).
Proof.
  unfold _reformat_journal. cbv zeta. intros H.
  set (chosen := if bool_decide (front jp_in = MDS_INO_LOG_OFFSET sv + nodeid sv)
                 then MDS_INO_LOG_BACKUP_OFFSET sv + nodeid sv
                 else MDS_INO_LOG_OFFSET sv + nodeid sv) in *.
  inv_done H as ? Hnull.
  destruct (jp_save sv (mkJP (front jp_in) chosen) w) as [wr1 w1] eqn:E1.
  inv_done H as ? Hw1. apply bool_decide_eq_true in Hw1. subst wr1.
  cbn [back front fst snd] in H |- *.
  set (nj := create (get_layout_period old_journal) (journal_format sv)
               (set_writeable (new_Journaler chosen))) in *.
  destruct (write_head nj w1) as [nj1 w2] eqn:E2.
  inv_done H as t Ht. destruct t as [[[[r k] old'] nj2]|]; [|discriminate].
  destruct (flush_wait nj2 w2) as [nj3 w3] eqn:E3.
  inv_done H as ? Hr. apply bool_decide_eq_true in Hr. subst r.
  destruct (jp_save sv (mkJP chosen (front jp_in)) w3) as [wr2 w4] eqn:E4.
  inv_done H as ? Hw2. apply bool_decide_eq_true in Hw2. subst wr2.
  destruct (erase sv old' w4) as [er w5] eqn:E5.
  inv_done H as ? Her. apply bool_decide_eq_true in Her. subst er.
  cbn [front back] in H.
  destruct (jp_save sv (mkJP chosen 0) w5) as [wr3 w6] eqn:E6.
  inv_done H as ? Hw3. apply bool_decide_eq_true in Hw3. subst wr3.
  injection H as <-.
  exists k, old', nj2. cbn [fst snd]. split; [exact Ht|].
  rewrite E3. cbn [fst snd]. rewrite E4. cbn [fst snd]. rewrite E5. cbn [fst snd].
  rewrite E6. done.
Qed.

(** C8.  The reformat of the front journal, of a format older than the
    configured one, never ends for want of fuel.  When it completes, the
    stored pointer has as [front] the inode chosen as [back] at the start
    (the secondary inode if the old front was the primary one, the
    primary one otherwise) and 0 as [back]; the journaler installed is the
    one at that inode, made with the configured format; and the old
    journal is erased (the store then has nothing at the old front
    inode) only after the pointer with front and back swapped has been
    persisted.  The requests go out in this order; the store has
    accepted the save of the swapped pointer, the second save of the
    run, with status 0; the erase is asked of the world that this save has
    left, in which the stored pointer is the swapped one; and the world
    the run ends in is the one that the erase and the last save make of
    it. *)
Theorem reformat_journal_flips_pointer sv jp_in old_journal w :
  j_ino old_journal = front jp_in →
  get_stream_format old_journal < journal_format sv →
  let primary_ino := MDS_INO_LOG_OFFSET sv + nodeid sv in
  let secondary_ino := MDS_INO_LOG_BACKUP_OFFSET sv + nodeid sv in
  let chosen := if bool_decide (front jp_in = primary_ino)
                then secondary_ino else primary_ino in
  let swapped := mkJP chosen (front jp_in) in
  let nj := create (get_layout_period old_journal) (journal_format sv)
              (set_writeable (new_Journaler chosen)) in
  let w1 := (jp_save sv (mkJP (front jp_in) chosen) w).2 in
  let w2 := (write_head nj w1).2 in
  _reformat_journal sv jp_in old_journal w ≠ OutOfFuel
  ∧ ∀ w', _reformat_journal sv jp_in old_journal w = Done (Finished w') →
      pointer_object w' = Some (mkJP chosen 0)
      ∧ (∃ j, the_journaler w' = Some j ∧ j_ino j = chosen
              ∧ j_stream_format j = journal_format sv)
      ∧ (∃ before after, trace w' = trace w ++ before ++ [IoSave swapped]
                                    ++ (IoErase (front jp_in) :: after)
                         ∧ (IoErase (front jp_in) ∉ before)
                         ∧ (IoWriteHead chosen (journal_format sv) ∈ before))
      ∧ (∃ k old' nj2,
           transcribe (S (S (length (j_unread old_journal)))) 0 old_journal
             (write_head nj w1).1 = Done (Some (0, k, old', nj2))
           ∧ j_ino old' = front jp_in
           ∧ let w3 := (flush_wait nj2 w2).2 in
             let w4 := (jp_save sv swapped w3).2 in
             let w5 := (erase sv old' w4).2 in
             let w6 := (jp_save sv (mkJP chosen 0) w5).2 in
             (jp_save sv swapped w3).1 = 0
             ∧ save_result sv (S (saves w)) = 0
             ∧ pointer_object w4 = Some swapped
             ∧ trace w4 = trace w ++ [IoSave (mkJP (front jp_in) chosen);
                                      IoWriteHead chosen (journal_format sv);
                                      IoFlush chosen;
                                      IoSave swapped]
             ∧ (erase sv old' w4).1 = 0
             ∧ trace w5 = trace w4 ++ [IoErase (front jp_in)]
             ∧ pointer_object w5 = Some swapped
             ∧ journals w5 !! front jp_in = None
             ∧ (jp_save sv (mkJP chosen 0) w5).1 = 0
             ∧ w' = log (IoComplete 0) (install (set_readonly (flush_wait nj2 w2).1) w6))
      ∧ journals w' !! front jp_in = None.
Proof.
  intros Hino _. cbv zeta. split; [apply reformat_journal_answers|]. intros w' H.
  pose proof (reformat_journal_steps _ _ _ _ _ H) as Hsteps. cbv zeta in Hsteps.
  apply reformat_journal_Finished in H as (Hp & Hj & Htr & _ & Hgone).
  cbv zeta in Hp, Hj, Htr. rewrite Hino in Htr, Hgone.
  split; [exact Hp|]. split; [exact Hj|]. split.
  { eexists [_; _; _], [_; _]. split; [exact Htr|]. split.
    + intros Hin. repeat (apply elem_of_cons in Hin as [Hin|Hin]; [discriminate|]).
      by apply elem_of_nil in Hin.
    + apply elem_of_cons. right. apply elem_of_cons. by left. }
  split; [|exact Hgone].
  set (chosen := if bool_decide (front jp_in = MDS_INO_LOG_OFFSET sv + nodeid sv)
                 then MDS_INO_LOG_BACKUP_OFFSET sv + nodeid sv
                 else MDS_INO_LOG_OFFSET sv + nodeid sv) in *.
  set (nj := create (get_layout_period old_journal) (journal_format sv)
               (set_writeable (new_Journaler chosen))) in *.
  destruct Hsteps as (k & old' & nj2 & Ht & Hs1 & Hs2 & Hs3 & Hs4 & Hw').
  exists k, old', nj2. split; [exact Ht|].
  pose proof (transcribe_Done _ _ _ _ _ _ _ _ Ht) as (Iold & Inew & Fnew & _).
  rewrite Hino in Iold. split; [exact Iold|].
  pose proof (jp_save_proj sv (mkJP (front jp_in) chosen) w) as S1.
  destruct (jp_save sv (mkJP (front jp_in) chosen) w) as [wr1 w1] eqn:E1.
  destruct S1 as (R1 & T1 & J1 & _ & P1).
  assert (saves w1 = S (saves w)) as N1.
  { unfold jp_save in E1. by injection E1 as _ <-. }
  cbn [fst snd] in *.
  pose proof (write_head_proj nj w1) as S2.
  destruct (write_head nj w1) as [nj1 w2] eqn:E2.
  destruct S2 as (I2 & F2 & _ & _ & T2 & _ & N2 & _).
  cbn [fst snd] in *.
  pose proof (flush_wait_proj nj2 w2) as S3.
  destruct (flush_wait nj2 w2) as [nj3 w3] eqn:E3.
  destruct S3 as (I3 & F3 & T3 & _ & N3 & _).
  cbn [fst snd] in *.
  pose proof (jp_save_proj sv (mkJP chosen (front jp_in)) w3) as S4.
  destruct (jp_save sv (mkJP chosen (front jp_in)) w3) as [wr2 w4] eqn:E4.
  destruct S4 as (R4 & T4 & _ & _ & P4).
  cbn [fst snd] in *. subst wr2.
  rewrite bool_decide_eq_true_2 in P4 by lia.
  pose proof (erase_proj sv old' w4) as S5.
  destruct (erase sv old' w4) as [er w5] eqn:E5.
  destruct S5 as (_ & T5 & P5 & _ & _ & _ & G5).
  cbn [fst snd] in *. subst er.
  assert (j_ino nj = chosen ∧ j_stream_format nj = journal_format sv) as [Inj Fnj]
    by done.
  split; [done|]. split; [rewrite <- N1, <- N2, <- N3; by symmetry|]. split; [exact P4|].
  split.
  { rewrite T4, T3, T2, T1, Inew, I2, Inj, Fnj, <- !app_assoc. done. }
  split; [done|]. split; [by rewrite T5, Iold|]. split; [by rewrite P5|].
  split; [rewrite <- Iold; by apply G5|]. split; [exact Hs4 | exact Hw'].
Qed.

Lemma reformat_journal_flips_pointer_witness :
  j_ino old_format_journal = front (mkJP 512 0)
  ∧ get_stream_format old_format_journal < journal_format sample_server
  ∧ ∃ w', _reformat_journal sample_server (mkJP 512 0) old_format_journal old_format_world
          = Done (Finished w')
          ∧ pointer_object w' = Some (mkJP 768 0)
          ∧ journals w' !! 512 = None.
Proof.
  split; [reflexivity|]. split; [reflexivity|].
  destruct (_reformat_journal sample_server (mkJP 512 0) old_format_journal
              old_format_world) as [[w'|w']| |] eqn:E; [|by vm_compute in E..].
  exists w'. split; [done|].
  destruct (reformat_journal_flips_pointer sample_server (mkJP 512 0) old_format_journal
              old_format_world eq_refl eq_refl) as [_ Hdone].
  destruct (Hdone w' E) as (Hp & _ & _ & _ & Hj).
  split; [exact Hp | exact Hj].
Defined.

Lemma erase_back_journal_total sv jp w :
  back jp ≠ 0 →
  recover_result sv (back jp) = 0 →
  (erase_status sv (back jp) w = 0 ∨ erase_status sv (back jp) w = - ENOENT →
   0 ≤ save_result sv (saves w)) →
  ∃ jp1 w1, erase_back_journal sv jp w = Done (jp1, w1).
Proof.
  intros Hback Hrr Hsave. unfold erase_back_journal.
  rewrite bool_decide_eq_true_2 by done.
  pose proof (recover_proj sv (new_Journaler (back jp)) w) as Hrec.
  destruct (recover sv (new_Journaler (back jp)) w) as [[r bj] w0].
  destruct Hrec as (Hr & _ & Hj0 & _ & _ & Hs0 & Hino & _).
  cbn [j_ino new_Journaler] in Hr, Hino. rewrite Hrr in Hr. subst r.
  rewrite bool_decide_eq_true_2 by done. cbn.
  pose proof (erase_proj sv bj w0) as Her.
  destruct (erase sv bj w0) as [er w2].
  destruct Her as (Her & _ & _ & _ & Hs2 & _). rewrite Hino in Her.
  assert (er = erase_status sv (back jp) w) as Her'.
  { rewrite Her. unfold erase_status. by rewrite Hj0. }
  destruct (bool_decide (er ≠ 0) && bool_decide (er ≠ - ENOENT)) eqn:Hfail;
    [by eexists _, _|].
  assert (er = 0 ∨ er = - ENOENT) as Hok.
  { apply andb_false_iff in Hfail as [H1|H1]; apply bool_decide_eq_false in H1;
      apply dec_stable in H1; auto. }
  unfold jp_save. cbn.
  rewrite bool_decide_eq_true_2; [by eexists _, _|].
  rewrite Hs2, Hs0. apply Hsave. by rewrite <- Her'.
Qed.

(** The amended C7.  When the pointer loaded at startup has a back
    journal, the recovery thread is the clean-up of the back journal
    followed by the opening of the front journal, and it ends.  The
    clean-up recovers the header of the journal at [back] (which must
    succeed) and asks for its erasure.  If the erasure succeeds or finds
    nothing ([-ENOENT]), it sets [back] to 0 and saves the pointer; if it
    fails otherwise, the pointer stays as it is, in memory and in the
    store.  The clean-up completes whenever the header is recovered and
    the store accepts the pointer.  No journal at another inode is
    touched, so the front journal is unchanged; and after that the front
    journal is recovered. *)
Theorem recovery_erases_back_journal sv w jp :
  the_journaler w = None →
  load_fault sv = 0 →
  pointer_object w = Some jp →
  back jp ≠ 0 →
  let erase_result := erase_status sv (back jp) w in
  let erased := bool_decide (erase_result = 0 ∨ erase_result = - ENOENT) in
  let jp1 := if erased then mkJP (front jp) 0 else jp in
  let w0 := log IoLoad w in
  _recovery_thread sv w
  = ('(jp', w1) ← erase_back_journal sv jp w0; open_front_journal sv jp' w1)
  ∧ _recovery_thread sv w ≠ OutOfFuel
  ∧ (recover_result sv (back jp) = 0 →
     (erased = true → 0 ≤ save_result sv (saves w)) →
     ∃ w1, erase_back_journal sv jp w0 = Done (jp1, w1))
  ∧ ∀ jp' w1,
      erase_back_journal sv jp w0 = Done (jp', w1) →
      jp' = jp1
      ∧ recover_result sv (back jp) = 0
      ∧ trace w1 = trace w ++ [IoLoad; IoRecover (back jp); IoErase (back jp)]
                   ++ (if erased then [IoSave (mkJP (front jp) 0)] else [])
      ∧ pointer_object w1 = Some jp1
      ∧ (erase_result = 0 → journals w1 !! back jp = None)
      ∧ (∀ ino, ino ≠ back jp → journals w1 !! ino = journals w !! ino)
      ∧ ∀ t, open_front_journal sv jp1 w1 = Done t →
             ∃ tail, trace (world_of t) = trace w1 ++ IoRecover (front jp) :: tail.
Proof.
  intros Hnone Hload Hptr Hback. cbv zeta.
  assert (erase_status sv (back jp) (log IoLoad w) = erase_status sv (back jp) w) as Hst
    by done.
  assert (∀ jp' w1,
      erase_back_journal sv jp (log IoLoad w) = Done (jp', w1) →
      jp' = (if bool_decide (erase_status sv (back jp) w = 0
                             ∨ erase_status sv (back jp) w = - ENOENT)
             then mkJP (front jp) 0 else jp)
      ∧ recover_result sv (back jp) = 0
      ∧ trace w1 = trace w ++ [IoLoad; IoRecover (back jp); IoErase (back jp)]
                   ++ (if bool_decide (erase_status sv (back jp) w = 0
                                       ∨ erase_status sv (back jp) w = - ENOENT)
                       then [IoSave (mkJP (front jp) 0)] else [])
      ∧ pointer_object w1 = Some jp'
      ∧ (erase_status sv (back jp) w = 0 → journals w1 !! back jp = None)
      ∧ (∀ ino, ino ≠ back jp → journals w1 !! ino = journals w !! ino)) as Hblock.
  { intros jp' w1 He.
    pose proof (erase_back_journal_Done _ _ _ _ _ Hback He) as Hb. cbv zeta in Hb.
    rewrite Hst in Hb. destruct Hb as (Hrec & Htr & Hjp & Hp & Hj & Hj0 & _).
    split; [exact Hjp|]. split; [exact Hrec|].
    split; [rewrite Htr; simpl; by rewrite <- app_assoc|].
    split; [|split; [exact Hj0 | exact Hj]].
    rewrite Hp, Hjp. case_bool_decide; [done | exact Hptr]. }
  split.
  { unfold _recovery_thread, load_pointer, jp_load.
    rewrite Hnone, Hload.
    rewrite (bool_decide_eq_true_2 (None = None)) by done.
    rewrite (bool_decide_eq_false_2 (0 ≠ 0)) by (intros E; by apply E).
    cbn [pointer_object log]. rewrite Hptr.
    rewrite (bool_decide_eq_false_2 (0 = - ENOENT)) by (unfold ENOENT; lia).
    rewrite (bool_decide_eq_true_2 (0 = 0)) by done. done. }
  split; [apply recovery_thread_answers|].
  split.
  { intros Hrr Hsave.
    destruct (erase_back_journal_total sv jp (log IoLoad w) Hback Hrr) as (jp' & w1 & He).
    { rewrite Hst. intros Hok. apply Hsave. by apply bool_decide_eq_true_2. }
    exists w1. rewrite He. by destruct (Hblock _ _ He) as (-> & _). }
  intros jp' w1 He.
  destruct (Hblock _ _ He) as (Hjp & Hrec & Htr & Hp & Hj0 & Hj).
  split; [exact Hjp|]. split; [exact Hrec|]. split; [exact Htr|].
  split; [by rewrite <- Hjp|]. split; [exact Hj0|]. split; [exact Hj|].
  intros t Ht. destruct (open_front_journal_trace _ _ _ _ Ht) as [tail Htail].
  exists tail. rewrite Htail. by case_bool_decide.
Qed.

Lemma recovery_erases_back_journal_witness :
  the_journaler crashed_world = None
  ∧ load_fault sample_server = 0
  ∧ pointer_object crashed_world = Some (mkJP 512 768)
  ∧ back (mkJP 512 768) ≠ 0
  ∧ ∃ w1, erase_back_journal sample_server (mkJP 512 768) (log IoLoad crashed_world)
          = Done (mkJP 512 0, w1)
          ∧ trace w1 = [IoLoad; IoRecover 768; IoErase 768; IoSave (mkJP 512 0)]
          ∧ pointer_object w1 = Some (mkJP 512 0)
          ∧ journals w1 !! 512 = journals crashed_world !! 512.
Proof.
  split; [reflexivity|]. split; [reflexivity|]. split; [reflexivity|].
  split; [discriminate|].
  destruct (recovery_erases_back_journal sample_server crashed_world (mkJP 512 768)
              eq_refl eq_refl eq_refl ltac:(discriminate))
    as (_ & _ & Htotal & Hblock).
  destruct (Htotal eq_refl ltac:(intros _; vm_compute; discriminate)) as [w1 He].
  destruct (Hblock _ _ He) as (_ & _ & Htr & Hp & _ & Hj & _).
  exists w1. split; [exact He|]. split; [exact Htr|]. split; [exact Hp|].
  apply Hj. discriminate.
Defined.

(** C7 as stated fails: when the store fails to erase the back journal
    (here with status -5) the recovery thread goes on to the front
    journal with the pointer as it was: [back] is still 768, in memory
    and in the store, the pointer is not saved, and the back journal is
    still there. *)
Lemma recovery_keeps_back_when_erase_fails :
  ∃ w', _recovery_thread failing_server crashed_world = Done (Finished w')
        ∧ pointer_object w' = Some (mkJP 512 768)
        ∧ trace w' = [IoLoad; IoRecover 768; IoErase 768; IoRecover 512; IoComplete 0]
        ∧ is_Some (journals w' !! 768).
Proof.
  eexists. split; [vm_compute; reflexivity|].
  split; [reflexivity|]. split; [reflexivity|]. by eexists.
Qed.

(** ** What holds throughout a run *)

Lemma wf_same_core s s' : same_core s s' → wf s → wf s'.
Proof.
  intros (Hro & Hrp & Hwp & Herr & Hun & Hseg & Hlk & Hexp & Hnum & Hcap & Hna) [].
  constructor; unfold peek_current_segment, ins_pos in *;
    rewrite ?Hro, ?Hrp, ?Hwp, ?Herr, ?Hun, ?Hseg, ?Hlk, ?Hexp, ?Hnum, ?Hcap, ?Hna;
    done.
Qed.

Lemma initial_wf s : initial s = true → wf s.
Proof.
  unfold initial. rewrite !andb_true_iff.
  intros ((((((((H1 & H2) & H3) & H4) & H5) & H6) & H7) & H8) & H9).
  apply bool_decide_eq_true in H1, H2, H3, H4, H5, H7, H9.
  apply negb_true_iff in H6.
  constructor; unfold peek_current_segment; rewrite ?H1, ?H2, ?H4, ?H5; try done.
  constructor.
Qed.

Lemma sum_events_snoc m v : sum_events (m ++ [v]) = sum_events m + ls_num_events v.
Proof. rewrite sum_events_app. unfold sum_events. simpl. lia. Qed.

Lemma wf_journal_entry e le c s le' s' :
  wf s → journal_entry e le c s = Done (le', s') → wf s'.
Proof.
  intros [] H. apply journal_entry_Done in H
    as (m & v & Hm & Hcap & Hro & _ & Hseg & Hnum & Hwp & _ & Hro' & Hrp & _ & _ & _
        & Hexp & _ & _ & Hcap' & Hlk & Hna & _ & _ & _ & Herr & Hun).
  pose proof (framed_pos (encode_with_header le')) as Hpos.
  unfold ins_pos, peek_current_segment in *. rewrite Hro in *.
  constructor; unfold ins_pos, peek_current_segment;
    rewrite ?Hseg, ?Hnum, ?Hro', ?Hwp, ?Hrp, ?Hexp, ?Hlk, ?Hna, ?Herr, ?Hun; try done.
  - rewrite wf_count0, Hm, !sum_events_snoc. simpl. lia.
  - intros _ cur Hcur. rewrite seg_rbegin_snoc in Hcur. injection Hcur as <-. simpl.
    apply wf_current0; [done|]. rewrite Hm. apply seg_rbegin_snoc.
  - rewrite Hm in wf_sorted0. by rewrite fmap_app in *.
  - rewrite Hm in wf_behind0. apply Forall_app in wf_behind0 as [Hb1 Hb2].
    apply Forall_app. split.
    + eapply Forall_impl; [exact Hb1|]. simpl. intros x [? ?]. split; lia.
    + apply Forall_singleton in Hb2 as [? ?]. apply Forall_singleton. simpl. split; lia.
  - lia.
  - rewrite Hm in wf_addrs0. rewrite <- !app_assoc in *.
    apply Forall_app in wf_addrs0 as [Ha1 Ha2]. apply Forall_app. split; [done|].
    simpl in *. apply Forall_cons in Ha2 as [? ?]. by constructor.
Qed.

(** [segments[pos] = new LogSegment(pos)] at a position behind which the
    index lies. *)
Lemma wf_insert_new_segment pos s :
  wf s →
  Forall (λ ls, ls_offset ls ≤ pos ∧ (ls_num_events ls ≠ 0 → ls_offset ls < pos))
    (segments s) →
  pos ≤ ins_pos s →
  wf (insert_new_segment pos s).
Proof.
  intros [] Hpos Hins.
  pose proof (insert_new_segment_proj pos s) as P. cbv zeta in P.
  destruct P as (Ps & Pl & Pn & Pj & Pnum & _ & Pexp & _ & _ & Pcap & _).
  destruct (seg_assign_last (new_LogSegment (next_addr s) pos) (segments s))
    as (m & rest & E1 & E2 & F1 & E3 & F2); [done| |].
  { eapply Forall_impl; [exact Hpos|]. simpl. by intros x [? _]. }
  simpl in F1, F2.
  assert (sum_events rest = 0) as Hrest.
  { rewrite E2 in Hpos. apply Forall_app in Hpos as [_ Hp].
    clear -Hp F2. induction rest as [|x rest IH]; [done|].
    apply Forall_cons in Hp as [[_ Hx] Hp]. apply Forall_cons in F2 as [Fx F2].
    unfold sum_events in *. simpl. rewrite IH by done.
    destruct (decide (ls_num_events x = 0)); [lia|]. specialize (Hx n). lia. }
  constructor; unfold ins_pos, peek_current_segment in *;
    rewrite ?Ps, ?Pl, ?Pn, ?Pj, ?Pnum, ?Pexp, ?Pcap, ?E1, ?E3; try done.
  - rewrite wf_count0, E2, sum_events_app, sum_events_snoc, Hrest. simpl. lia.
  - intros _ cur Hcur. rewrite seg_rbegin_snoc in Hcur. injection Hcur as <-. simpl.
    intros Hin. apply wf_expired_addrs0 in Hin. lia.
  - rewrite E2, fmap_app in wf_sorted0. apply StronglySorted_app_1_l in wf_sorted0.
    rewrite fmap_app. apply StronglySorted_app. split; [|split; [done|repeat constructor]].
    intros x1 x2 H1 H2. apply list_elem_of_fmap in H1 as (y & -> & Hy).
    apply list_elem_of_singleton in H2 as ->. simpl.
    rewrite Forall_forall in F1. by apply F1.
  - rewrite E2 in wf_behind0. apply Forall_app in wf_behind0 as [Hb1 _].
    apply Forall_app. split; [done|]. apply Forall_singleton. simpl. split; [lia|done].
  - assert (Forall (λ ls, (ls_addr ls < S (next_addr s))%nat) (m ++ rest ++ leaked s))
      as Hall.
    { rewrite E2, <- app_assoc in wf_addrs0.
      eapply Forall_impl; [exact wf_addrs0|]. simpl. lia. }
    apply Forall_app in Hall as [H1 H2]. apply Forall_app in H2 as [H2 H3].
    apply Forall_app. split.
    { apply Forall_app. split; [done|]. apply Forall_singleton. simpl. lia. }
    destruct rest as [|x rest]; simpl; [done|].
    apply Forall_cons in H2 as [? _]. by constructor.
  - intros a Ha. apply wf_expired_addrs0 in Ha. lia.
Qed.

Lemma wf_prepare_new_segment s :
  wf s → j_readonly (journaler s) = false → wf (prepare_new_segment s).
Proof.
  intros Hwf Hro.
  apply (wf_same_core (insert_new_segment (get_write_pos (journaler s)) s)).
  { unfold prepare_new_segment. cbv zeta. cbn. repeat split; done. }
  apply wf_insert_new_segment; [done| |].
  - pose proof (wf_behind s Hwf) as Hb. unfold ins_pos in Hb. by rewrite Hro in Hb.
  - unfold ins_pos, get_write_pos. by rewrite Hro.
Qed.

Lemma wf_with_cur_event x s : wf s → wf (with_cur_event x s).
Proof. apply wf_same_core. repeat split; done. Qed.

Lemma wf_complete c r s : wf s → wf (complete c r s).
Proof. apply wf_same_core. repeat split; done. Qed.

Lemma wf_flush s : wf s → wf (flush s).
Proof.
  apply wf_same_core. unfold flush. destruct (bool_decide _); repeat split; done.
Qed.

Lemma wf_wait_for_safe e c s : wf s → wf (wait_for_safe e c s).
Proof.
  apply wf_same_core. unfold wait_for_safe.
  destruct (mds_log (g_conf e)); repeat split; done.
Qed.

Lemma wf_create_subtree_map e s le s' :
  wf s → create_subtree_map e s = Done (le, s') →
  wf s' ∧ j_readonly (journaler s') = j_readonly (journaler s).
Proof.
  intros Hwf H. apply create_subtree_map_Done in H as (_ & _ & ->).
  split; [by apply wf_with_cur_event | done].
Qed.

Lemma wf_start_new_segment_with e submit onsync s s' :
  (∀ le c s s', wf s → submit le c s = Done s' → wf s') →
  wf s → j_readonly (journaler s) = false →
  start_new_segment_with e submit onsync s = Done s' → wf s'.
Proof.
  intros Hsub Hwf Hro H.
  apply start_new_segment_with_Done in H as (le & s2 & _ & H2 & ->).
  apply Hsub in H2; [|by apply wf_with_cur_event, wf_prepare_new_segment].
  destruct onsync; [by apply wf_flush, wf_wait_for_safe | done].
Qed.

Lemma wf_submit_entry_fuel e n le c s s' :
  wf s → submit_entry_fuel e n le c s = Done s' → wf s'.
Proof.
  revert le c s s'. induction n as [|n IH]; intros le c s s' Hwf H; [discriminate|].
  change (submit_entry_with e (submit_entry_fuel e n) le c s = Done s') in H.
  destruct (mds_log (g_conf e)) eqn:Hlog.
  - apply submit_entry_with_enabled in H as (_ & _ & le1 & s1 & cur & Hj & _ & H);
      [|done].
    assert (wf s1) as Hwf1.
    { eapply wf_journal_entry; [|exact Hj]. by apply wf_with_cur_event. }
    assert (j_readonly (journaler s1) = false) as Hro1.
    { apply journal_entry_Done in Hj. destruct Hj as (m & v & Hj).
      destruct Hj as (_&_&_&_&_&_&_&_&Hro&_). done. }
    destruct (suppress_rotation e le); [by subst|]. destruct H as [_ H].
    destruct (bool_decide _).
    { eapply wf_start_new_segment_with; [|exact Hwf1|exact Hro1|exact H]. apply IH. }
    destruct (_ && _); [|by subst].
    destruct H as (sle & s2 & Hc & H).
    apply wf_create_subtree_map in Hc as [Hwf2 _]; [|done].
    eapply IH; [|exact H]. by apply wf_with_cur_event.
  - unfold submit_entry_with in H. rewrite Hlog in H. simpl in H.
    inv_done H. inv_done H. injection H as <-.
    destruct c; [apply wf_complete|]; by apply wf_with_cur_event.
Qed.

Lemma wf_start_new_segment e onsync s s' :
  wf s → j_readonly (journaler s) = false →
  start_new_segment e onsync s = Done s' → wf s'.
Proof.
  intros Hwf Hro H. eapply wf_start_new_segment_with; [|exact Hwf|exact Hro|exact H].
  intros le c s1 s1'. apply wf_submit_entry_fuel.
Qed.

(** ** Expiry keeps the current segment of an uncapped log *)

Lemma wf__expired ls s :
  wf s → ls ∈ segments s ++ leaked s → wf (_expired ls s).
Proof.
  intros [] Hin.
  pose proof (_expired_proj ls s) as P. cbv zeta in P.
  destruct P as (Ps & Pj & Pn & _ & _ & Pcap & Plk & Pna & _ & _ & Pexp).
  pose proof (proj1 (Forall_forall _ _) wf_addrs0) as Haddr.
  constructor; unfold ins_pos, peek_current_segment in *;
    rewrite ?Ps, ?Pj, ?Pn, ?Pcap, ?Plk, ?Pna, ?Pexp; try done.
  - intros Hcap cur Hcur. rewrite Hcap, Hcur. simpl.
    destruct (bool_decide (Some (ls_addr cur) = Some (ls_addr ls))) eqn:E.
    + by apply wf_current0.
    + apply bool_decide_eq_false in E. intros Hx.
      apply elem_of_union in Hx as [Hx|Hx].
      * apply elem_of_singleton in Hx. by rewrite Hx in E.
      * by apply (wf_current0 Hcap cur Hcur).
  - intros a Ha. destruct (_ && _); [by apply wf_expired_addrs0|].
    apply elem_of_union in Ha as [Ha|Ha]; [|by apply wf_expired_addrs0].
    apply elem_of_singleton in Ha as ->. by apply Haddr.
Qed.

Lemma wf_try_expire e ls op_prio s s' :
  wf s → ls ∈ segments s ++ leaked s →
  try_expire e ls op_prio s = Done s' → wf s'.
Proof.
  intros Hwf Hin. unfold try_expire. cbv zeta. intros H.
  inv_done H as s1 H1.
  assert (wf s1) as Hwf1.
  { destruct (gather_has_subs e (expire_calls s)).
    - inv_done H1. injection H1 as <-. revert Hwf. apply wf_same_core.
      repeat split; done.
    - injection H1 as <-. apply wf__expired; [|done]. revert Hwf.
      apply wf_same_core. repeat split; done. }
  injection H as <-. revert Hwf1. apply wf_same_core. repeat split; done.
Qed.

Lemma deref_Done a s ls :
  deref a s = Done ls → ls ∈ segments s ++ leaked s ∧ ls_addr ls = a.
Proof.
  unfold deref. destruct (list_find _ _) as [[i x]|] eqn:E; [|discriminate].
  intros H. injection H as <-. apply list_find_Some in E as (Hi & Hx & _).
  split; [|done]. by eapply list_elem_of_lookup_2.
Qed.

Lemma wf__maybe_expired e a op_prio s s' :
  wf s → _maybe_expired e a op_prio s = Done s' → wf s'.
Proof.
  intros Hwf H. unfold _maybe_expired in H.
  inv_done H as ls Hd. apply deref_Done in Hd as [Hin _].
  inv_done H. eapply wf_try_expire; [| |exact H]; [|done].
  revert Hwf. apply wf_same_core. repeat split; done.
Qed.

Lemma wf_with_clock_reads n s : wf s → wf (with_clock_reads n s).
Proof. apply wf_same_core. repeat split; done. Qed.

Lemma wf_trim_round e me ms stop p s step :
  wf s → Forall (λ ls, ls ∈ segments s) p →
  trim_round e me ms stop p s = Done step →
  let s' := match step with TrimStop _ s' => s' | TrimNext s' => s' end in
  wf s' ∧ segments s' = segments s.
Proof.
  intros Hwf Hp H.
  destruct (trim_round_total e me ms stop p s) as (step' & H' & Hseg & _).
  rewrite H in H'. injection H' as <-. split; [|done]. clear Hseg.
  unfold trim_round in H. destruct p as [|ls p]; [by injection H as <-|].
  apply Forall_cons in Hp as [Hls _].
  destruct (negb _); [by injection H as <-|].
  unfold ceph_clock_now in H. cbv zeta in H. cbn [fst snd] in H.
  pose proof (wf_with_clock_reads (S (clock_reads s)) s Hwf) as Hwf1.
  destruct (bool_decide (stop < _)); [by injection H as <-|].
  destruct (bool_decide (_ ≤ _)); [by injection H as <-|].
  destruct (bool_decide (_ < ls_end ls)); [by injection H as <-|].
  inv_done H as s1 H1. injection H as <-. simpl.
  destruct (count ls _); [by injection H1 as <-|].
  destruct (count ls _); [by injection H1 as <-|].
  eapply wf_try_expire; [exact Hwf1| |exact H1].
  apply elem_of_app. by left.
Qed.

Lemma wf_trim_loop e me ms stop p s why seen s' :
  wf s → Forall (λ ls, ls ∈ segments s) p →
  trim_loop e me ms stop p s = Done (why, seen, s') → wf s'.
Proof.
  revert s why seen s'. induction p as [|ls p IH]; intros s why seen s' Hwf Hp H.
  { simpl in H. by injection H as <- <- <-. }
  cbn [trim_loop] in H. inv_done H as step Hstep.
  pose proof (wf_trim_round _ _ _ _ _ _ _ Hwf Hp Hstep) as [Hwf1 Hseg].
  destruct step as [why1 s1|s1]; simpl in Hwf1, Hseg.
  - destruct why1; injection H as <- <- <-; done.
  - inv_done H as [[why2 seen2] s2] Hloop. injection H as <- <- <-.
    eapply IH; [exact Hwf1| |exact Hloop].
    apply Forall_cons in Hp as [_ Hp]. by rewrite Hseg.
Qed.

Lemma wf__trim_expired_segments s : wf s → wf (_trim_expired_segments s).
Proof.
  intros []. unfold _trim_expired_segments.
  destruct (trim_expired_loop (length (segments s)) s) as [removed s1] eqn:Hloop.
  apply trim_expired_loop_spec in Hloop; [|done].
  destruct Hloop as (L1 & L2 & L3 & L4 & L5 & L6 & L7 & L8 & L9 & L10 & L11 & L12
                     & L13 & L14 & L15 & L16 & L17 & L18).
  apply (wf_same_core s1).
  { destruct (bool_decide _); repeat split; done. }
  constructor; unfold ins_pos, peek_current_segment in *;
    rewrite ?L9, ?L10, ?L11, ?L14, ?L15, ?L16, ?L17, ?L18; try done.
  - rewrite L6, wf_count0, L1, sum_events_app. lia.
  - intros Hcap cur Hcur. rewrite L4. intros Hin.
    apply elem_of_difference in Hin as [Hin _].
    apply (wf_current0 Hcap cur); [|done].
    rewrite L1. unfold seg_rbegin in *.
    destruct (segments s1) as [|x r] eqn:E; [discriminate|].
    rewrite last_app. by rewrite Hcur.
  - rewrite L1, fmap_app in wf_sorted0. by apply StronglySorted_app_1_r in wf_sorted0.
  - rewrite L1 in wf_behind0. by apply Forall_app in wf_behind0 as [_ ?].
  - rewrite L1, <- app_assoc in wf_addrs0. by apply Forall_app in wf_addrs0 as [_ ?].
  - intros a Ha. rewrite L4 in Ha. apply elem_of_difference in Ha as [Ha _].
    by apply wf_expired_addrs0.
Qed.

Lemma wf_trim e m s s' : wf s → trim e m s = Done s' → wf s'.
Proof.
  intros Hwf. unfold trim. destruct (negb (have_any_segments s)).
  { intros H. by injection H as <-. }
  unfold ceph_clock_now. cbv zeta. cbn [fst snd]. intros H.
  inv_done H as [[why seen] s1] Hloop. injection H as <-.
  apply wf__trim_expired_segments.
  eapply wf_trim_loop; [|
    |exact Hloop]; [by apply wf_with_clock_reads|].
  simpl. apply Forall_forall. auto.
Qed.

(** ** Replay of a journal that reads without error *)

Lemma j_receive_entries j :
  forallb is_entry (j_unread j) = true → j_receive j = j.
Proof. unfold j_receive. destruct (j_unread j) as [|[] u]; simpl; done. Qed.

(** The event just read joins the current segment. *)
Lemma wf_replay_attach s pos rp :
  wf s → have_any_segments s = true →
  Forall (λ ls, ls_offset ls ≤ pos) (segments s) → pos < ins_pos s →
  wf (with_num_events (num_events s + 1)
        (with_segments
           (seg_update_last (λ ls, ls_set_end rp (ls_inc_events ls)) (segments s)) s)).
Proof.
  intros [] Hany Hle Hpos.
  apply have_any_segments_rbegin in Hany as (m & v & Hm).
  constructor; unfold ins_pos, peek_current_segment in *; cbn;
    rewrite ?Hm, ?seg_update_last_snoc in *; try done.
  - rewrite wf_count0, !sum_events_snoc. simpl. lia.
  - intros Hcap cur Hcur. rewrite seg_rbegin_snoc in Hcur. injection Hcur as <-. simpl.
    apply (wf_current0 Hcap v). apply seg_rbegin_snoc.
  - by rewrite fmap_app in *.
  - apply Forall_app in wf_behind0 as [Hb1 Hb2]. apply Forall_app. split; [done|].
    apply Forall_app in Hle as [_ Hv]. rewrite Forall_singleton in Hv.
    apply Forall_singleton. simpl. split; lia.
  - rewrite <- !app_assoc in *. apply Forall_app in wf_addrs0 as [Ha1 Ha2].
    apply Forall_app. split; [done|]. simpl in *.
    apply Forall_cons in Ha2 as [? ?]. by constructor.
Qed.

Lemma wf_replay_entry e pos bl s s' :
  wf s →
  Forall (λ ls, ls_offset ls ≤ pos ∧ (ls_num_events ls ≠ 0 → ls_offset ls < pos))
    (segments s) →
  pos < ins_pos s →
  replay_entry e pos bl s = Done s' →
  wf s' ∧ journaler s' = journaler s.
Proof.
  intros Hwf Hbehind Hpos. unfold replay_entry.
  destruct (LogEvent_decode bl) as [le|].
  2:{ intros H. inv_done H. by injection H as <-. }
  cbv zeta. intros H. injection H as <-.
  set (s1 := if _ || _ then _ else s).
  assert (wf s1 ∧ journaler s1 = journaler s
          ∧ Forall (λ ls, ls_offset ls ≤ pos) (segments s1)) as (Hwf1 & Hj1 & Hle1).
  { subst s1. destruct (_ || _).
    - pose proof (insert_new_segment_proj pos s) as P. cbv zeta in P.
      destruct P as (Ps & _ & _ & Pj & _).
      split; [|split; [done|]].
      + apply (wf_same_core (insert_new_segment pos s)); [repeat split; done|].
        apply wf_insert_new_segment; [done..|lia].
      + cbn. rewrite Ps.
        destruct (seg_assign_last (new_LogSegment (next_addr s) pos) (segments s))
          as (m & rest & E1 & E2 & F1 & _ & _).
        { by apply wf_sorted. }
        { eapply Forall_impl; [exact Hbehind|]. simpl. by intros x [? _]. }
        rewrite E1. apply Forall_app. split.
        * eapply Forall_impl; [exact F1|]. simpl. lia.
        * apply Forall_singleton. simpl. lia.
    - split; [done|]. split; [done|].
      eapply Forall_impl; [exact Hbehind|]. simpl. by intros x [? _]. }
  clearbody s1.
  destruct (have_any_segments s1) eqn:Hany; simpl.
  - split; [|done].
    apply (wf_same_core
             (with_num_events (num_events s1 + 1)
                (with_segments
                   (seg_update_last
                      (λ ls, ls_set_end (get_read_pos (journaler s1)) (ls_inc_events ls))
                      (segments s1)) s1))); [repeat split; done|].
    apply wf_replay_attach with (pos := pos); try done.
    unfold ins_pos in *. by rewrite Hj1.
  - split; [|done]. revert Hwf1. apply wf_same_core. repeat split; done.
Qed.

(** A round of the replay loop on such a journal: no error branch. *)
Lemma wf_replay_round e s step :
  wf s → j_readonly (journaler s) = true →
  replay_round e s = Done step →
  let s' := match step with Continue s' | Break _ s' | Blocked s' => s' end in
  wf s' ∧ j_readonly (journaler s') = true
  ∧ match step with Break r _ => r = 0 | _ => True end.
Proof.
  intros Hwf Hro. unfold replay_round. cbv zeta.
  rewrite (j_receive_entries _ (wf_entries s Hwf)).
  assert (with_journaler (journaler s) s = s) as -> by (by destruct s).
  unfold get_error. rewrite (wf_no_error s Hwf).
  rewrite bool_decide_eq_false_2 by (intros E; by apply E).
  unfold is_readable, try_read_entry.
  pose proof (wf_entries s Hwf) as Hent.
  destruct (j_unread (journaler s)) as [|[bl|err|err] u] eqn:Hu; simpl in Hent;
    try discriminate; simpl.
  { destruct (bool_decide (_ = _)); [intros H; by injection H as <-|].
    destruct (bool_decide (_ < _)); [intros H; by injection H as <-|discriminate]. }
  destruct (bool_decide (j_read_pos (journaler s) + framed bl ≤ j_write_pos (journaler s)))
    eqn:Hfit; simpl.
  2:{ destruct (bool_decide (_ = _)); [intros H; by injection H as <-|].
      destruct (bool_decide (_ < _)); [intros H; by injection H as <-|discriminate]. }
  apply bool_decide_eq_true in Hfit.
  intros H. inv_done H as s1 Hent1. injection H as <-. simpl.
  pose proof (framed_pos bl) as Hfr.
  apply wf_replay_entry in Hent1 as [Hwf1 Hj1].
  - split; [done|]. rewrite Hj1. done.
  - destruct Hwf. constructor; unfold ins_pos, peek_current_segment in *; cbn;
      rewrite ?Hro in *; try done.
    eapply Forall_impl; [exact wf_behind0|]. simpl. intros x [? ?]. split; lia.
  - cbn. pose proof (wf_behind s Hwf) as Hb. unfold ins_pos in Hb. rewrite Hro in Hb.
    unfold get_read_pos. done.
  - unfold ins_pos. cbn. rewrite Hro. unfold get_read_pos. lia.
Qed.

Lemma wf_finish_contexts r s : wf s → wf (finish_contexts r s).
Proof. apply wf_same_core. repeat split; done. Qed.

Lemma wf_replay_loop n e s res :
  wf s → j_readonly (journaler s) = true →
  replay_loop n e s = Done res →
  wf (match res with Replayed _ s' | Stuck s' => s' end).
Proof.
  revert s. induction n as [|n IH]; intros s Hwf Hro H; [discriminate|].
  cbn [replay_loop] in H. inv_done H as step Hstep.
  apply wf_replay_round in Hstep as (Hwf1 & Hro1 & Hr); [|done..].
  destruct step as [s1|r s1|s1]; simpl in *.
  - by eapply IH.
  - inv_done H. injection H as <-. apply wf_finish_contexts.
    destruct (bool_decide (r = 0)); [|done].
    revert Hwf1. apply wf_same_core. repeat split; done.
  - by injection H as <-.
Qed.

Lemma wf_replay e c s res :
  wf s → replay e c s = Done res →
  wf (match res with Replayed _ s' | Stuck s' => s' end).
Proof.
  intros Hwf. unfold replay. cbv zeta. intros H. inv_done H as ? Hro.
  destruct (bool_decide (_ = _)).
  { injection H as <-. destruct c; [by apply wf_complete|done]. }
  inv_done H. unfold _replay_thread in H.
  eapply wf_replay_loop; [| |exact H].
  - revert Hwf. apply wf_same_core. destruct c; repeat split; done.
  - by destruct c.
Qed.

Lemma wf_append s : wf s → wf (append s).
Proof.
  intros []. unfold append. cbv zeta.
  apply (wf_same_core
           (with_journaler
              (set_writeable
                 (set_expire_pos (get_write_pos (journaler s))
                    (set_read_pos (get_write_pos (journaler s)) (journaler s)))) s));
    [repeat split; done|].
  constructor; unfold ins_pos, peek_current_segment, get_write_pos in *; cbn; try done.
  eapply Forall_impl; [exact wf_behind0|]. simpl.
  destruct (j_readonly (journaler s)); intros x [? ?]; split; lia.
Qed.

Lemma wf_cap s : wf s → wf (cap s).
Proof. intros []. constructor; try done. Qed.

(** Every operation keeps [wf], and so does every run. *)
Lemma step_wf e o s s' : wf s → step e o s = Done s' → wf s'.
Proof.
  intros Hwf. destruct o; simpl; intros H.
  - inv_done H as [le' s1] Hs. unfold start_entry in Hs. inv_done Hs.
    injection Hs as <- <-. eapply wf_submit_entry_fuel; [|exact H].
    by apply wf_with_cur_event.
  - inv_done H as ? Hro. apply negb_true_iff in Hro.
    by eapply wf_start_new_segment.
  - by eapply wf_trim.
  - by eapply wf__maybe_expired.
  - inv_done H as res Hr. apply wf_replay in Hr; [|done].
    destruct res; by injection H as <-.
  - injection H as <-. by apply wf_cap.
  - injection H as <-. by apply wf_append.
  - injection H as <-. by apply wf_flush.
  - injection H as <-. by apply wf_wait_for_safe.
  - injection H as <-. revert Hwf. apply wf_same_core. repeat split; done.
Qed.

Lemma run_wf ops s s' : wf s → run ops s = Done s' → wf s'.
Proof.
  revert s. induction ops as [|[e o] ops IH]; intros s Hwf H; simpl in H.
  { by injection H as <-. }
  inv_done H as s1 Hs. eapply IH; [|exact H]. by eapply step_wf.
Qed.

(** Throughout a run that starts from a fresh log, over a journal that
    reads without error, the counter is the sum over the index. *)
Lemma run_count ops s0 s :
  initial s0 = true → run ops s0 = Done s → num_events s = sum_events (segments s).
Proof.
  intros Hi Hrun. apply wf_count. eapply run_wf; [|exact Hrun]. by apply initial_wf.
Qed.

(** The index stays a sorted map with no key beyond the write position
    of a journal that is written. *)
Lemma run_index ops s0 s :
  initial s0 = true → run ops s0 = Done s →
  index_sorted s ∧ (j_readonly (journaler s) = false → index_behind s).
Proof.
  intros Hi Hrun.
  assert (wf s) as [] by (eapply run_wf; [|exact Hrun]; by apply initial_wf).
  split; [done|]. intros Hro. unfold index_behind, ins_pos in *. rewrite Hro in *.
  eapply Forall_impl; [exact wf_behind0|]. simpl. by intros x [? _].
Qed.

(** C5 fails on the code: a replay that ends in [-EINVAL] with the read
    position not below the expire position re-reads the head and calls
    [standby_trim_segments], which removes the first segment and leaves
    [num_events] as it is: 4 events are counted, and the segments of the
    index hold 2. *)
Lemma replay_standby_trim_breaks_count :
  segments following_log = [] ∧ num_events following_log = 0
  ∧ ∃ s', replay following_env (Some 3%nat) following_log
          = Done (Replayed (- EINVAL) s')
          ∧ num_events s' = 4
          ∧ segments s' = [mkLogSegment 1 216 432 2]
          ∧ sum_events (segments s') = 2.
Proof.
  split; [reflexivity|]. split; [reflexivity|].
  eexists. split; [vm_compute; reflexivity|]. done.
Qed.

(** ** The current segment of an uncapped log *)

(** C6.  Throughout a run, while the log is not capped the current
    segment, the last of the index, is not in the expired set: [_expired]
    on it changes nothing of that set, also when it is reached from
    [try_expire] with an empty gather.  Once [cap] has been called,
    [_expired] on the current segment puts it in the expired set. *)
Theorem current_segment_not_expired ops s0 s :
  initial s0 = true →
  run ops s0 = Done s →
  (capped s = false →
   ∀ cur, peek_current_segment s = Some cur → ls_addr cur ∉ expired_segments s)
  ∧ (∀ cur, peek_current_segment s = Some cur →
       (capped s = false →
        expired_segments (_expired cur s) = expired_segments s
        ∧ ∀ e op_prio, gather_has_subs e (expire_calls s) = false →
            ∃ s', try_expire e cur op_prio s = Done s'
                  ∧ expired_segments s' = expired_segments s)
       ∧ capped (cap s) = true
       ∧ ls_addr cur ∈ expired_segments (_expired cur (cap s)))
  ∧ (∀ e o s', step e o s = Done s' → capped s' = false →
       ∀ cur, peek_current_segment s' = Some cur → ls_addr cur ∉ expired_segments s').
Proof.
  intros Hi Hrun.
  assert (wf s) as Hwf by (eapply run_wf; [|exact Hrun]; by apply initial_wf).
  split; [by apply wf_current|]. split.
  - intros cur Hcur. split; [|split; [done|]].
    + intros Hcap.
      assert (expired_segments (_expired cur s) = expired_segments s) as Hsame.
      { pose proof (_expired_proj cur s) as P. cbv zeta in P.
        destruct P as (_ & _ & _ & _ & _ & _ & _ & _ & _ & _ & ->).
        rewrite Hcap, Hcur. simpl. by rewrite bool_decide_eq_true_2. }
      split; [done|]. intros e op_prio Hsubs.
      unfold try_expire. cbv zeta. rewrite Hsubs. cbn [mbind outcome_bind].
      eexists. split; [done|]. cbn.
      pose proof (_expired_proj cur (with_expire_calls (S (expire_calls s)) s)) as P.
      cbv zeta in P. destruct P as (_ & _ & _ & _ & _ & _ & _ & _ & _ & _ & ->).
      unfold peek_current_segment, seg_rbegin in *. cbn.
      rewrite Hcap, Hcur. simpl. by rewrite bool_decide_eq_true_2.
    + pose proof (_expired_proj cur (cap s)) as P. cbv zeta in P.
      destruct P as (_ & _ & _ & _ & _ & _ & _ & _ & _ & _ & ->).
      cbn. apply elem_of_union. left. by apply elem_of_singleton.
  - intros e o s' Hstep. apply wf_current. by eapply step_wf.
Qed.

Lemma current_segment_not_expired_witness :
  initial empty_log = true
  ∧ ∃ s, run [(tight_env, OpStartNewSegment None); (tight_env, OpSafe);
              (tight_env, OpTrim (-1))] empty_log = Done s
         ∧ capped s = false
         ∧ peek_current_segment s = Some (mkLogSegment 0 0 48 1)
         ∧ (0%nat ∉ expired_segments s).
Proof.
  split; [reflexivity|].
  destruct (run [(tight_env, OpStartNewSegment None); (tight_env, OpSafe);
                 (tight_env, OpTrim (-1))] empty_log) as [s| |] eqn:E;
    [|by vm_compute in E..].
  exists s.
  destruct (current_segment_not_expired _ empty_log s eq_refl E) as (Hinv & _).
  assert (capped s = false ∧ peek_current_segment s = Some (mkLogSegment 0 0 48 1))
    as [Hcap Hcur].
  { vm_compute in E. injection E as <-. split; reflexivity. }
  split; [done|]. split; [done|]. split; [done|].
  exact (Hinv Hcap _ Hcur).
Defined.

(** * Further properties *)

(** ** Entries in progress *)

Lemma submit_entry_fuel_requires e n le c s s' :
  submit_entry_fuel e n le c s = Done s' →
  is_any_replay e = false ∧ cur_event s = Some le.
Proof.
  destruct n as [|n]; [done|]. intros H.
  change (submit_entry_with e (submit_entry_fuel e n) le c s = Done s') in H.
  unfold submit_entry_with in H.
  inv_done H as ? Hr. inv_done H as ? Hc.
  apply bool_decide_eq_true in Hc. by apply negb_true_iff in Hr.
Qed.

Lemma flush_wait_for_safe_cur_event e c s :
  cur_event (flush (wait_for_safe e c s)) = cur_event s.
Proof.
  unfold flush, wait_for_safe.
  destruct (mds_log (g_conf e)); cbn; case_bool_decide; done.
Qed.

Lemma submit_entry_fuel_cur_event e n le c s s' :
  submit_entry_fuel e n le c s = Done s' → cur_event s' = None.
Proof.
  revert le c s s'. induction n as [|n IH]; intros le c s s' H; [done|].
  change (submit_entry_with e (submit_entry_fuel e n) le c s = Done s') in H.
  destruct (mds_log (g_conf e)) eqn:Hlog.
  - apply submit_entry_with_enabled in H as (_ & _ & le1 & s1 & cur & Hj & _ & H);
      [|done].
    assert (cur_event s1 = None) as Hc1.
    { apply journal_entry_Done in Hj as (m & v & Hj).
      destruct Hj as (_ & _ & _ & _ & _ & _ & _ & _ & _ & _ & _ & _ & _ & _ & _ & _
                      & _ & _ & _ & _ & Hc & _). by rewrite Hc. }
    destruct (suppress_rotation e le); [by subst|].
    destruct H as [_ H]. case_bool_decide.
    + apply start_new_segment_with_Done in H as (sle & s2 & _ & Hs & ->).
      by apply IH in Hs.
    + destruct (_ && _); [|by subst].
      destruct H as (sle & s2 & _ & Hs). by apply IH in Hs.
  - unfold submit_entry_with in H. inv_done H as ? Hr. inv_done H as ? Hc.
    rewrite Hlog in H. cbn in H. injection H as <-. by destruct c.
Qed.

(** X1.  [submit_entry] returns only for the entry in progress, outside
    replay, and leaves no entry in progress: the next [start_entry]
    goes through. *)
Theorem submit_entry_finishes_entry e le c s s' :
  submit_entry e le c s = Done s' →
  is_any_replay e = false
  ∧ cur_event s = Some le
  ∧ cur_event s' = None
  ∧ ∀ le2, ∃ le2' s2, start_entry le2 s' = Done (le2', s2)
                      ∧ cur_event s2 = Some le2'
                      ∧ ev_start_off le2' = get_write_pos (journaler s').
Proof.
  intros H.
  destruct (submit_entry_fuel_requires _ _ _ _ _ _ H) as [Hr Hc].
  pose proof (submit_entry_fuel_cur_event _ _ _ _ _ _ H) as Hn.
  split; [done|]. split; [done|]. split; [done|].
  intros le2. unfold start_entry. rewrite Hn. cbn. by eexists _, _.
Qed.

Lemma submit_entry_finishes_entry_witness :
  ∃ s', submit_entry (sample_env true false) sample_event None sample_log = Done s'
        ∧ cur_event sample_log = Some sample_event
        ∧ cur_event s' = None.
Proof.
  destruct (submit_entry (sample_env true false) sample_event None sample_log)
    as [s'| |] eqn:E; [|by vm_compute in E..].
  exists s'. split; [done|].
  destruct (submit_entry_finishes_entry _ _ _ _ _ E) as (_ & Hc & Hn & _).
  split; [exact Hc | exact Hn].
Defined.

(** ** A capped log *)

Lemma journal_entry_capped e le c s :
  capped s = true → journal_entry e le c s = Abort.
Proof.
  intros Hcap. unfold journal_entry.
  destruct (have_any_segments s); cbn; [|done]. by rewrite Hcap.
Qed.

Lemma submit_entry_with_capped e submit le c s :
  mds_log (g_conf e) = true → capped s = true →
  submit_entry_with e submit le c s = Abort.
Proof.
  intros Hlog Hcap. unfold submit_entry_with.
  destruct (negb (is_any_replay e)); cbn; [|done].
  destruct (bool_decide (cur_event s = Some le)); cbn; [|done].
  rewrite Hlog. cbn -[journal_entry]. by rewrite journal_entry_capped.
Qed.

(** X2.  Once [cap] has been called, a journalling log takes nothing more:
    [submit_entry] and [start_new_segment] end in a failed assertion,
    [assert(!capped)] if not one before it, whatever the event; and
    [cap] changes nothing but the flag. *)
Theorem capped_log_rejects_events e s :
  mds_log (g_conf e) = true →
  (∀ le c, submit_entry e le c (cap s) = Abort)
  ∧ (∀ onsync, start_new_segment e onsync (cap s) = Abort)
  ∧ segments (cap s) = segments s
  ∧ journaler (cap s) = journaler s
  ∧ num_events (cap s) = num_events s.
Proof.
  intros Hlog. split; [|split; [|done]].
  - intros le c. by apply submit_entry_with_capped.
  - intros onsync. unfold start_new_segment, start_new_segment_with,
      journal_segment_subtree_map_with.
    destruct (create_subtree_map e (prepare_new_segment (cap s)))
      as [[le s1]| |] eqn:E; cbn; [|done|by apply create_subtree_map_fuel in E].
    apply create_subtree_map_Done in E as (_ & _ & ->).
    change (submit_entry_fuel e 2 le None ?s0)
      with (submit_entry_with e (submit_entry_fuel e 1) le None s0).
    rewrite submit_entry_with_capped; [done..|].
    cbn. pose proof (prepare_new_segment_proj (cap s)) as P. cbv zeta in P.
    destruct P as (_ & _ & _ & _ & _ & _ & _ & _ & _ & -> & _). done.
Qed.

Lemma capped_log_rejects_events_witness :
  mds_log (g_conf (sample_env true false)) = true
  ∧ submit_entry (sample_env true false) sample_event None (cap sample_log) = Abort.
Proof.
  split; [reflexivity|].
  destruct (capped_log_rejects_events (sample_env true false) sample_log eq_refl)
    as [H _].
  apply H.
Defined.

(** ** What an event adds to the journal *)

Lemma lay_out_app pos a b :
  lay_out pos (a ++ b) = lay_out pos a ++ lay_out (laid_end pos a) b.
Proof.
  revert pos. induction a as [|bl a IH]; intros pos; cbn; [done|].
  by rewrite IH.
Qed.

Lemma laid_end_app pos a b : laid_end pos (a ++ b) = laid_end (laid_end pos a) b.
Proof. unfold laid_end. by rewrite foldl_app. Qed.

Lemma lay_out_length pos bls : length (lay_out pos bls) = length bls.
Proof. revert pos. induction bls as [|bl bls IH]; intros pos; cbn; [done|]. by rewrite IH. Qed.

Lemma lay_out_snd pos bls : (lay_out pos bls).*2 = bls.
Proof. revert pos. induction bls as [|bl bls IH]; intros pos; cbn; [done|]. by rewrite IH. Qed.

Lemma laid_end_le pos bls : pos ≤ laid_end pos bls.
Proof.
  revert pos. induction bls as [|bl bls IH]; intros pos; cbn; [lia|].
  pose proof (IH (pos + framed bl)). pose proof (framed_pos bl).
  unfold laid_end in *. lia.
Qed.

Lemma journal_entry_waiters e le c s le' s' :
  journal_entry e le c s = Done (le', s') →
  j_flush_waiters (journaler s')
  = j_flush_waiters (journaler s) ++ match c with Some c => [c] | None => [] end
  ∧ j_flushes (journaler s') = j_flushes (journaler s)
  ∧ j_head_writes (journaler s') = j_head_writes (journaler s)
  ∧ completed s' = completed s
  ∧ clock_reads s' = S (clock_reads s)
  ∧ logger s' l_mdl_ev = num_events s'
  ∧ logger s' l_mdl_wrpos = j_write_pos (journaler s').
Proof.
  unfold journal_entry, ceph_clock_now, append_entry. intros H.
  inv_done H as ? Hseg. cbn in H.
  destruct (capped s); cbn in H; [done|].
  destruct (j_readonly (journaler s)); cbn in H; [done|].
  destruct c; cbn in H; injection H as <- <-; cbn; rewrite ?app_nil_r; done.
Qed.

Lemma submit_entry_fuel_written e n le c s s' :
  mds_log (g_conf e) = true →
  submit_entry_fuel e n le c s = Done s' →
  ∃ rest,
    let bls := encode_with_header le :: rest in
    j_written (journaler s')
    = j_written (journaler s) ++ lay_out (j_write_pos (journaler s)) bls
    ∧ j_write_pos (journaler s') = laid_end (j_write_pos (journaler s)) bls
    ∧ num_events s' = num_events s + 1 + Z.of_nat (length rest)
    ∧ Forall (λ bl, bl_tag bl = Some EVENT_SUBTREEMAP
                    ∨ bl_tag bl = Some EVENT_SUBTREEMAP_TEST) rest
    ∧ (length rest < n)%nat.
Proof.
  intros Hlog. revert le c s s'.
  induction n as [|n IH]; intros le c s s' H; [done|].
  change (submit_entry_with e (submit_entry_fuel e n) le c s = Done s') in H.
  apply submit_entry_with_enabled in H as (_ & _ & le1 & s1 & cur & Hj & _ & H);
    [|done].
  apply journal_entry_Done in Hj as (m & v & Hj).
  destruct Hj as (_ & _ & _ & Hle1 & _ & Hn1 & Hw1 & Hwr1 & _).
  cbn in Hn1, Hw1, Hwr1.
  assert (encode_with_header le1 = encode_with_header le) as Henc by (by subst le1).
  rewrite Henc in Hw1, Hwr1.
  assert (∀ sle s2,
            ev_type sle = EVENT_SUBTREEMAP ∨ ev_type sle = EVENT_SUBTREEMAP_TEST →
            journaler s2 = journaler s1 → num_events s2 = num_events s1 →
            submit_entry_fuel e n sle None s2 = Done s' →
            ∃ rest,
              j_written (journaler s')
              = j_written (journaler s)
                ++ lay_out (j_write_pos (journaler s)) (encode_with_header le :: rest)
              ∧ j_write_pos (journaler s')
                = laid_end (j_write_pos (journaler s)) (encode_with_header le :: rest)
              ∧ num_events s' = num_events s + 1 + Z.of_nat (length rest)
              ∧ Forall (λ bl, bl_tag bl = Some EVENT_SUBTREEMAP
                              ∨ bl_tag bl = Some EVENT_SUBTREEMAP_TEST) rest
              ∧ (length rest < S n)%nat) as Hnest.
  { intros sle s2 Hty Hjs Hns Hs.
    apply IH in Hs as (rest & Hwr & Hw & Hn & Hall & Hlen). cbv zeta in Hwr, Hw.
    rewrite Hjs, Hwr1, Hw1 in Hwr. rewrite Hjs, Hw1 in Hw. rewrite Hns, Hn1 in Hn.
    exists (encode_with_header sle :: rest).
    split; [rewrite Hwr, <- app_assoc; done|]. split; [done|].
    split; [cbn [length]; lia|]. split; [|cbn [length]; lia].
    constructor; [|done]. cbn. destruct Hty as [-> | ->]; auto. }
  assert (∃ rest,
            j_written (journaler s1)
            = j_written (journaler s)
              ++ lay_out (j_write_pos (journaler s)) (encode_with_header le :: rest)
            ∧ j_write_pos (journaler s1)
              = laid_end (j_write_pos (journaler s)) (encode_with_header le :: rest)
            ∧ num_events s1 = num_events s + 1 + Z.of_nat (length rest)
            ∧ Forall (λ bl, bl_tag bl = Some EVENT_SUBTREEMAP
                            ∨ bl_tag bl = Some EVENT_SUBTREEMAP_TEST) rest
            ∧ (length rest < S n)%nat) as Hflat.
  { exists []. cbn. rewrite Hwr1, Hw1, Hn1. repeat split; [lia | done | lia]. }
  destruct (suppress_rotation e le); [by subst|].
  destruct H as [_ H]. case_bool_decide.
  - apply start_new_segment_with_Done in H as (sle & s2 & Hc & Hs & ->).
    apply create_subtree_map_Done in Hc as (_ & Hsle & _).
    pose proof (prepare_new_segment_proj s1) as P. cbv zeta in P.
    destruct P as (_ & _ & _ & Pj & Pn & _).
    eapply Hnest; [| | |exact Hs]; [left; by subst sle | done | done].
  - destruct (_ && _); [|by subst].
    destruct H as (sle & s2 & Hc & Hs).
    apply create_subtree_map_Done in Hc as (_ & Hsle & ->).
    eapply Hnest; [| | |exact Hs]; [by right | done | done].
Qed.

(** X3.  Submitting an event (with [mds_log] on) appends its record at the
    write position, where [start_entry] has put its start offset, and
    after it at most two records more, subtree maps that rotation or the
    debug mode add; the records lie one after the other, the write
    position ends after the last, and every record is counted. *)
Theorem submit_appends_records e le c s s' :
  mds_log (g_conf e) = true →
  step e (OpSubmit le c) s = Done s' →
  ∃ rest,
    let bls := encode_with_header le :: rest in
    j_written (journaler s')
    = j_written (journaler s) ++ lay_out (j_write_pos (journaler s)) bls
    ∧ j_write_pos (journaler s') = laid_end (j_write_pos (journaler s)) bls
    ∧ num_events s' = num_events s + Z.of_nat (length bls)
    ∧ Forall (λ bl, bl_tag bl = Some EVENT_SUBTREEMAP
                    ∨ bl_tag bl = Some EVENT_SUBTREEMAP_TEST) rest
    ∧ (length rest ≤ 2)%nat.
Proof.
  intros Hlog H. cbn [step] in H. inv_done H as [le0 s0] Hst.
  unfold start_entry in Hst. inv_done Hst as ? Hc. injection Hst as <- <-.
  apply submit_entry_fuel_written in H as (rest & Hwr & Hw & Hn & Hall & Hlen);
    [|done].
  exists rest. cbv zeta in *. cbn in Hwr, Hw, Hn.
  split; [done|]. split; [done|]. split; [cbn [length]; lia|]. split; [done | lia].
Qed.

Lemma submit_appends_records_witness :
  ∃ s' rest,
    step (sample_env true false) (OpSubmit sample_event None) sample_idle = Done s'
    ∧ j_written (journaler s')
      = lay_out 5000 (encode_with_header sample_event :: rest)
    ∧ num_events s' = 2 + Z.of_nat (length (encode_with_header sample_event :: rest)).
Proof.
  destruct (step (sample_env true false) (OpSubmit sample_event None) sample_idle)
    as [s'| |] eqn:E; [|by vm_compute in E..].
  destruct (submit_appends_records (sample_env true false) sample_event None
              sample_idle s' eq_refl E) as (rest & Hwr & _ & Hn & _).
  exists s', rest. split; [done|]. split; [exact Hwr | exact Hn].
Defined.

(** ** Callbacks and flushing *)

Lemma insert_new_segment_more pos s :
  completed (insert_new_segment pos s) = completed s
  ∧ unflushed (insert_new_segment pos s) = unflushed s
  ∧ clock_reads (insert_new_segment pos s) = clock_reads s
  ∧ waitfor_replay (insert_new_segment pos s) = waitfor_replay s
  ∧ already_replayed (insert_new_segment pos s) = already_replayed s
  ∧ logger (insert_new_segment pos s) = logger s
  ∧ expire_calls (insert_new_segment pos s) = expire_calls s.
Proof.
  unfold insert_new_segment.
  destruct (seg_assign _ _) as [m [old|]]; done.
Qed.

Lemma prepare_new_segment_more s :
  completed (prepare_new_segment s) = completed s
  ∧ unflushed (prepare_new_segment s) = unflushed s
  ∧ clock_reads (prepare_new_segment s) = clock_reads s.
Proof.
  unfold prepare_new_segment. cbn.
  destruct (insert_new_segment_more (get_write_pos (journaler s)) s)
    as (-> & -> & -> & _). done.
Qed.

Lemma submit_entry_fuel_flush e n le c s s' :
  mds_log (g_conf e) = true →
  submit_entry_fuel e n le c s = Done s' →
  j_flush_waiters (journaler s') = j_flush_waiters (journaler s) ++ option_list c
  ∧ j_flushes (journaler s') = j_flushes (journaler s)
  ∧ completed s' = completed s
  ∧ unflushed s < unflushed s'
  ∧ logger s' l_mdl_ev = num_events s'
  ∧ logger s' l_mdl_wrpos = j_write_pos (journaler s').
Proof.
  intros Hlog. revert le c s s'.
  induction n as [|n IH]; intros le c s s' H; [done|].
  change (submit_entry_with e (submit_entry_fuel e n) le c s = Done s') in H.
  apply submit_entry_with_enabled in H as (_ & _ & le1 & s1 & cur & Hj & _ & H);
    [|done].
  pose proof (journal_entry_waiters _ _ _ _ _ _ Hj) as (Hw & Hf & _ & Hc & _ & Hev & Hwp).
  apply journal_entry_Done in Hj as (m & v & Hj).
  destruct Hj as (_ & _ & _ & _ & _ & _ & _ & _ & _ & _ & _ & _ & _ & _ & _ & _
                  & _ & _ & _ & _ & _ & Hu & _).
  cbn in Hw, Hf, Hc, Hu.
  assert (option_list c = match c with Some c => [c] | None => [] end) as Hopt
    by (by destruct c).
  assert (∀ sle s2,
            journaler s2 = journaler s1 → completed s2 = completed s1 →
            unflushed s2 = unflushed s1 →
            submit_entry_fuel e n sle None s2 = Done s' →
            j_flush_waiters (journaler s') = j_flush_waiters (journaler s) ++ option_list c
            ∧ j_flushes (journaler s') = j_flushes (journaler s)
            ∧ completed s' = completed s
            ∧ unflushed s < unflushed s'
            ∧ logger s' l_mdl_ev = num_events s'
            ∧ logger s' l_mdl_wrpos = j_write_pos (journaler s')) as Hnest.
  { intros sle s2 Hjs Hcs Hus Hs.
    apply IH in Hs as (Hw2 & Hf2 & Hc2 & Hu2 & Hev2 & Hwp2).
    rewrite Hjs in Hw2, Hf2. rewrite Hcs in Hc2. rewrite Hus in Hu2.
    cbn in Hw2. rewrite app_nil_r in Hw2.
    rewrite Hw2, Hf2, Hc2, Hw, Hf, Hc, Hopt. repeat split; try done. lia. }
  assert (j_flush_waiters (journaler s1) = j_flush_waiters (journaler s) ++ option_list c
          ∧ j_flushes (journaler s1) = j_flushes (journaler s)
          ∧ completed s1 = completed s
          ∧ unflushed s < unflushed s1
          ∧ logger s1 l_mdl_ev = num_events s1
          ∧ logger s1 l_mdl_wrpos = j_write_pos (journaler s1)) as Hflat.
  { rewrite Hw, Hf, Hc, Hopt. repeat split; try done. lia. }
  destruct (suppress_rotation e le); [by subst|].
  destruct H as [_ H]. case_bool_decide.
  - apply start_new_segment_with_Done in H as (sle & s2 & _ & Hs & ->).
    pose proof (prepare_new_segment_proj s1) as P. cbv zeta in P.
    destruct P as (_ & _ & _ & Pj & _).
    destruct (prepare_new_segment_more s1) as (Pc & Pu & _).
    eapply Hnest; [| | |exact Hs]; done.
  - destruct (_ && _); [|by subst].
    destruct H as (sle & s2 & Hcm & Hs).
    apply create_subtree_map_Done in Hcm as (_ & _ & ->).
    eapply Hnest; [| | |exact Hs]; done.
Qed.

(** X4.  [start_new_segment] with a callback: with [mds_log] on, the
    callback is not completed; it waits on the journaler for the flush
    that the call starts, once, and nothing is left unflushed.  With
    [mds_log] off it is completed at once with status 0 and the journaler
    gets no waiter. *)
Theorem start_new_segment_onsync e c s s' :
  0 ≤ unflushed s →
  start_new_segment e (Some c) s = Done s' →
  unflushed s' = 0
  ∧ if mds_log (g_conf e) then
      j_flush_waiters (journaler s') = j_flush_waiters (journaler s) ++ [c]
      ∧ j_flushes (journaler s') = S (j_flushes (journaler s))
      ∧ completed s' = completed s
    else
      j_flush_waiters (journaler s') = j_flush_waiters (journaler s)
      ∧ completed s' = completed s ++ [(c, 0)]
      ∧ j_written (journaler s') = j_written (journaler s).
Proof.
  intros Hu H. unfold start_new_segment in H.
  apply start_new_segment_with_Done in H as (sle & s2 & _ & Hs & ->).
  pose proof (prepare_new_segment_proj s) as P. cbv zeta in P.
  destruct P as (_ & _ & _ & Pj & _).
  destruct (prepare_new_segment_more s) as (Pc & Pu & _).
  split; [done|].
  destruct (mds_log (g_conf e)) eqn:Hlog.
  - apply submit_entry_fuel_flush in Hs as (Hw & Hf & Hc & Hun & _); [|done].
    cbn in Hw, Hf, Hc, Hun. rewrite Pj, app_nil_r in Hw. rewrite Pj in Hf.
    rewrite Pc in Hc. rewrite Pu in Hun.
    unfold flush, wait_for_safe. rewrite Hlog. cbn.
    rewrite bool_decide_eq_true_2 by lia. cbn. rewrite Hw, Hf. done.
  - change (submit_entry_with e (submit_entry_fuel e 1) sle None
              (with_cur_event (Some sle) (prepare_new_segment s)) = Done s2) in Hs.
    unfold submit_entry_with in Hs. inv_done Hs as ? Hr. inv_done Hs as ? Hce.
    rewrite Hlog in Hs. cbn in Hs. injection Hs as <-.
    unfold flush, wait_for_safe. rewrite Hlog. cbn. rewrite Pu.
    destruct (bool_decide (unflushed s ≠ 0)); cbn; rewrite ?Pj, ?Pc; done.
Qed.

Lemma start_new_segment_onsync_witness :
  0 ≤ unflushed sample_idle
  ∧ ∃ s', start_new_segment (sample_env true false) (Some 7%nat) sample_idle = Done s'
          ∧ unflushed s' = 0
          ∧ j_flush_waiters (journaler s') = [7%nat]
          ∧ completed s' = [].
Proof.
  split; [done|].
  destruct (start_new_segment (sample_env true false) (Some 7%nat) sample_idle)
    as [s'| |] eqn:E; [|by vm_compute in E..].
  destruct (start_new_segment_onsync (sample_env true false) 7%nat sample_idle s'
              ltac:(done) E) as (Hu & Hw & _ & Hc).
  exists s'. split; [done|]. split; [exact Hu|]. split; [exact Hw | exact Hc].
Defined.

(** ** Trimming as a whole *)

Lemma trim_round_frame e me ms stop p s step :
  trim_round e me ms stop p s = Done step →
  let s' := match step with TrimStop _ s' => s' | TrimNext s' => s' end in
  segments s' = segments s ∧ journaler s' = journaler s
  ∧ num_events s' = num_events s ∧ capped s' = capped s
  ∧ leaked s' = leaked s ∧ cur_event s' = cur_event s.
Proof.
  unfold trim_round. destruct p as [|ls p]; [by intros [= <-]|].
  destruct (negb _); [by intros [= <-]|].
  unfold ceph_clock_now. cbv zeta. cbn.
  destruct (bool_decide (stop < _)); [by intros [= <-]|].
  destruct (bool_decide (_ ≤ _)); [by intros [= <-]|].
  destruct (bool_decide (_ < ls_end ls)); [by intros [= <-]|].
  unfold count at 1. cbn.
  destruct (bool_decide (ls_addr ls ∈ expiring_segments s)) eqn:Hing; cbn;
    [by intros [= <-]|].
  destruct (count ls _); cbn; [by intros [= <-]|].
  apply bool_decide_eq_false in Hing.
  destruct (try_expire_Done e ls
              (CEPH_MSG_PRIO_LOW
               + ((CEPH_MSG_PRIO_HIGH - CEPH_MSG_PRIO_LOW)
                  * Z.of_nat (size (expiring_segments s)))
                 `quot` mds_log_max_expiring (g_conf e))
              (with_clock_reads (S (clock_reads s)) s))
    as (s' & -> & Hs & Hj & Hn & Hc & Hl & _ & Hce & _); [done|].
  cbn. intros [= <-]. cbn. rewrite Hs, Hj, Hn, Hc, Hl, Hce. done.
Qed.

Lemma trim_loop_frame e me ms stop p s why seen s' :
  trim_loop e me ms stop p s = Done (why, seen, s') →
  segments s' = segments s ∧ journaler s' = journaler s
  ∧ num_events s' = num_events s ∧ capped s' = capped s
  ∧ leaked s' = leaked s ∧ cur_event s' = cur_event s.
Proof.
  revert s why seen s'. induction p as [|ls p IH]; intros s why seen s' H.
  { cbn in H. by injection H as <- <- <-. }
  cbn [trim_loop] in H. inv_done H as step Hstep.
  apply trim_round_frame in Hstep. cbv zeta in Hstep.
  destruct step as [w s1|s1].
  - destruct w; injection H as <- <- <-; exact Hstep.
  - inv_done H as [[w2 seen2] s2] Hloop. injection H as <- <- <-.
    apply IH in Hloop as (-> & -> & -> & -> & -> & ->). exact Hstep.
Qed.

Lemma trim_expired_loop_written n s :
  j_written (journaler (trim_expired_loop n s).2) = j_written (journaler s).
Proof.
  revert s. induction n as [|n IH]; intros s; cbn; [done|].
  destruct (trim_expired_step s) as [[ls s1]|] eqn:Hstep; [|done].
  specialize (IH s1). destruct (trim_expired_loop n s1) as [removed s2]. cbn in *.
  rewrite IH. unfold trim_expired_step in Hstep.
  destruct (seg_begin (segments s)); [|done].
  destruct (negb _); [done|]. injection Hstep as <- <-. cbn.
  by destruct (bool_decide _).
Qed.

(** The loop of [trim] takes nothing out of the expired set. *)
Lemma try_expire_expired_mono e ls op_prio s s' :
  try_expire e ls op_prio s = Done s' → expired_segments s ⊆ expired_segments s'.
Proof.
  unfold try_expire. cbv zeta.
  destruct (gather_has_subs e (expire_calls s)); cbn.
  - destruct (negb _); cbn; [|discriminate]. by intros [= <-].
  - intros [= <-]. cbn.
    pose proof (_expired_proj ls (with_expire_calls (S (expire_calls s)) s)) as H.
    cbv zeta in H. destruct H as (_&_&_&_&_&_&_&_&_&_& ->).
    cbn. destruct (_ && _); [done|]. apply union_subseteq_r.
Qed.

Lemma trim_round_expired_mono e me ms stop p s step :
  trim_round e me ms stop p s = Done step →
  expired_segments s
  ⊆ expired_segments (match step with TrimStop _ s' => s' | TrimNext s' => s' end).
Proof.
  destruct step as [why s1|s1]; intros H.
  - unfold trim_round in H. destruct p as [|ls p]; [by injection H as _ <-|].
    destruct (negb _); [by injection H as _ <-|].
    unfold ceph_clock_now in H. cbv zeta in H. cbn in H.
    destruct (bool_decide (stop < _)); [by injection H as _ <-|].
    destruct (bool_decide (_ ≤ _)); [by injection H as _ <-|].
    destruct (bool_decide (_ < ls_end ls)); [by injection H as _ <-|].
    destruct (if count ls _ then _ else _); discriminate.
  - apply trim_round_next in H as (ls & p' & _ & H). cbv zeta in H.
    destruct (_ || _); [by subst s1|].
    by apply try_expire_expired_mono in H.
Qed.

Lemma trim_loop_expired_mono e me ms stop p s why seen s' :
  trim_loop e me ms stop p s = Done (why, seen, s') →
  expired_segments s ⊆ expired_segments s'.
Proof.
  revert s why seen s'. induction p as [|ls p IH]; intros s why seen s' H.
  { cbn in H. by injection H as <- <- <-. }
  cbn [trim_loop] in H. inv_done H as step Hstep.
  apply trim_round_expired_mono in Hstep.
  destruct step as [w s1|s1].
  - destruct w; injection H as <- <- <-; exact Hstep.
  - inv_done H as [[w2 seen2] s2] Hloop. injection H as <- <- <-.
    apply IH in Hloop. etrans; done.
Qed.

(** X5.  [trim] always returns.  After its loop, which leaves the index,
    the journal and the event count alone and takes nothing out of the
    expired set, it removes from the front of the index exactly the
    segments that [_trim_expired_segments] finds expired: every segment
    removed is in the expired set then, the first segment left is not, and
    the events of the removed segments go off the count.  It appends
    nothing to the journal and moves neither the write nor the read
    position; it writes the journal head, once, exactly when it has
    removed a segment; and on an empty index it does nothing at all. *)
Theorem trim_removes_a_prefix e m s :
  let max_segments := mds_log_max_segments (g_conf e) in
  let max_events := if bool_decide (0 ≤ m) then m else mds_log_max_events (g_conf e) in
  let stop := clock e (clock_reads s) + two_seconds in
  ∃ s1,
    (if have_any_segments s
     then ∃ why seen,
            trim_loop e max_events max_segments stop (segments s)
              (with_clock_reads (S (clock_reads s)) s) = Done (why, seen, s1)
     else s1 = s)
    ∧ trim e m s = Done (_trim_expired_segments s1)
    ∧ segments s1 = segments s
    ∧ journaler s1 = journaler s
    ∧ num_events s1 = num_events s
    ∧ expired_segments s ⊆ expired_segments s1
    ∧ let removed := trimmed_segments s1 in
      let s' := _trim_expired_segments s1 in
      segments s = removed ++ segments s'
      ∧ Forall (λ ls, ls_addr ls ∈ expired_segments s1) removed
      ∧ match seg_begin (segments s') with
        | Some ls => ls_addr ls ∉ expired_segments s'
        | None => True
        end
      ∧ expired_segments s' = expired_segments s1 ∖ list_to_set (ls_addr <$> removed)
      ∧ num_events s' = num_events s - sum_events removed
      ∧ j_written (journaler s') = j_written (journaler s)
      ∧ j_write_pos (journaler s') = j_write_pos (journaler s)
      ∧ j_read_pos (journaler s') = j_read_pos (journaler s)
      ∧ j_head_writes (journaler s')
        = j_head_writes (journaler s)
          ++ (if bool_decide (removed ≠ []) then [j_expire_pos (journaler s')] else [])
      ∧ capped s' = capped s
      ∧ (segments s = [] → s' = s).
Proof.
  cbv zeta.
  assert (∃ s1,
            (if have_any_segments s
             then ∃ why seen,
                    trim_loop e
                      (if bool_decide (0 ≤ m) then m else mds_log_max_events (g_conf e))
                      (mds_log_max_segments (g_conf e))
                      (clock e (clock_reads s) + two_seconds) (segments s)
                      (with_clock_reads (S (clock_reads s)) s) = Done (why, seen, s1)
             else s1 = s)
            ∧ trim e m s = Done (_trim_expired_segments s1)
            ∧ segments s1 = segments s ∧ journaler s1 = journaler s
            ∧ num_events s1 = num_events s ∧ capped s1 = capped s
            ∧ expired_segments s ⊆ expired_segments s1) as (s1 & Htie & Ht & Hs & Hj & Hn & Hc & Hx).
  { destruct (have_any_segments s) eqn:Hany.
    2:{ exists s. split; [done|]. split; [|done].
        unfold trim. rewrite Hany. cbn [negb].
        unfold _trim_expired_segments, have_any_segments in *.
        destruct (segments s); [done|discriminate]. }
    destruct (trim_loop_total e
                (if bool_decide (0 ≤ m) then m else mds_log_max_events (g_conf e))
                (mds_log_max_segments (g_conf e)) (clock e (clock_reads s) + two_seconds)
                (segments s) (with_clock_reads (S (clock_reads s)) s))
      as (why & seen & s1 & Hloop & _).
    exists s1. split; [by eexists _, _|]. split.
    { unfold trim. rewrite Hany. simpl. unfold ceph_clock_now. cbv zeta.
      cbn [fst snd segments with_clock_reads]. rewrite Hloop. done. }
    pose proof (trim_loop_expired_mono _ _ _ _ _ _ _ _ _ Hloop) as Hmono.
    apply trim_loop_frame in Hloop as (Hs & Hj & Hn & Hc & _). done. }
  exists s1. split; [exact Htie|]. split; [exact Ht|].
  split; [done|]. split; [done|]. split; [done|]. split; [done|].
  unfold trimmed_segments, _trim_expired_segments.
  pose proof (trim_expired_loop_written (length (segments s1)) s1) as Lw.
  destruct (trim_expired_loop (length (segments s1)) s1) as [removed s2] eqn:Hloop.
  cbn [fst snd] in Lw |- *.
  pose proof Hloop as Hloop0.
  apply trim_expired_loop_spec in Hloop; [|done].
  destruct Hloop as (L1 & L2 & L3 & L4 & L5 & L6 & L7 & L8 & L9 & L10 & L11 & L12
                     & L13 & L14 & L15 & L16 & L17 & L18).
  rewrite <- Hs, <- Hn, <- Hj, <- Hc.
  assert (segments s = [] →
          (if bool_decide (removed ≠ [])
           then with_journaler (j_write_head (journaler s2)) s2 else s2) = s) as Hempty.
  { intros E. unfold have_any_segments in Htie. rewrite E in Htie. subst s1.
    rewrite E in Hloop0. cbn in Hloop0. by injection Hloop0 as <- <-. }
  revert Hempty.
  destruct (bool_decide (removed ≠ [])) eqn:Hr; cbn; intros Hempty;
    rewrite ?app_nil_r, ?L8; repeat split; try done;
    intros E; apply Hempty; by rewrite <- Hs.
Qed.

Lemma trim_removes_a_prefix_witness :
  ∃ s', trim (sample_env true false) (-1) expired_log = Done s'
        ∧ segments s' = [mkLogSegment 1 100 200 1]
        ∧ num_events s' = 1
        ∧ j_head_writes (journaler s') = [0].
Proof.
  destruct (trim_removes_a_prefix (sample_env true false) (-1) expired_log)
    as (s1 & _ & Ht & _).
  exists (_trim_expired_segments s1). split; [exact Ht|].
  eassert (trim (sample_env true false) (-1) expired_log = Done _) as E
    by (vm_compute; reflexivity).
  rewrite E in Ht. injection Ht as <-. done.
Defined.

(** X6.  In a run from a fresh log, [trim] on an uncapped log never takes the
    current segment away: the segment submissions go to is the same
    object before and after, so the next [submit_entry] finds it. *)
Theorem trim_keeps_current_segment ops s0 s e m :
  initial s0 = true →
  run ops s0 = Done s →
  capped s = false →
  ∃ s', trim e m s = Done s'
        ∧ peek_current_segment s' = peek_current_segment s
        ∧ have_any_segments s' = have_any_segments s
        ∧ capped s' = false.
Proof.
  intros Hi Hrun Hcap.
  assert (wf s) as Hwf by (eapply run_wf; [|exact Hrun]; by apply initial_wf).
  unfold trim. destruct (have_any_segments s) eqn:Hany; cbn [negb]; [|by exists s].
  unfold ceph_clock_now. cbv zeta. cbn [fst snd].
  match goal with
  | |- context [trim_loop ?e ?a ?b ?c ?p ?s0] =>
      destruct (trim_loop_total e a b c p s0) as (why & seen & s1 & Hloop & _)
  end.
  rewrite Hloop. cbn.
  assert (wf s1) as Hwf1.
  { eapply wf_trim_loop; [| |exact Hloop].
    - eapply wf_same_core; [|exact Hwf]. repeat split; done.
    - cbn. by apply Forall_forall. }
  apply trim_loop_frame in Hloop as (Hs & _ & _ & Hc & _). cbn in Hs, Hc.
  unfold _trim_expired_segments.
  destruct (trim_expired_loop (length (segments s1)) s1) as [removed s2] eqn:Hx.
  apply trim_expired_loop_spec in Hx; [|done].
  destruct Hx as (L1 & L2 & _ & _ & _ & _ & _ & _ & _ & _ & _ & _ & _ & L14 & _).
  assert (capped s1 = false) as Hcap1 by congruence.
  assert (segments s2 ≠ []) as Hne.
  { intros E. rewrite E, app_nil_r in L1.
    apply have_any_segments_rbegin in Hany as (m0 & v & Hm).
    destruct Hwf1 as [_ Hcur _ _ _ _ _ _ _].
    apply (Hcur Hcap1 v).
    - unfold peek_current_segment, seg_rbegin. rewrite Hs, Hm. apply last_snoc.
    - rewrite <- L1, Hs, Hm in L2. apply Forall_app in L2 as [_ L2].
      rewrite Forall_singleton in L2. exact L2. }
  eexists. split; [done|].
  assert (segments (if bool_decide (removed ≠ [])
                    then with_journaler (j_write_head (journaler s2)) s2 else s2)
          = segments s2) as Hseg by (by destruct (bool_decide _)).
  assert (capped (if bool_decide (removed ≠ [])
                  then with_journaler (j_write_head (journaler s2)) s2 else s2)
          = capped s2) as Hcp by (by destruct (bool_decide _)).
  unfold peek_current_segment, have_any_segments, seg_rbegin.
  rewrite Hseg, Hcp, L14, <- Hs, L1.
  destruct (segments s2) as [|x r] eqn:E; [done|].
  split; [|split; [by destruct removed | done]].
  rewrite last_app. destruct (last (x :: r)) eqn:El; [done | by apply last_None in El].
Qed.

Lemma trim_keeps_current_segment_witness :
  initial empty_log = true
  ∧ ∃ s s', run [(sample_env true false, OpStartNewSegment None)] empty_log = Done s
            ∧ capped s = false
            ∧ trim tight_env (-1) s = Done s'
            ∧ peek_current_segment s' = peek_current_segment s.
Proof.
  split; [reflexivity|].
  destruct (run [(sample_env true false, OpStartNewSegment None)] empty_log)
    as [s| |] eqn:E; [|by vm_compute in E..].
  assert (capped s = false) as Hcap.
  { vm_compute in E. injection E as <-. reflexivity. }
  destruct (trim_keeps_current_segment
              [(sample_env true false, OpStartNewSegment None)] empty_log s
              tight_env (-1) eq_refl E Hcap) as (s' & Ht & Hp & _).
  exists s, s'. split; [done|]. split; [exact Hcap|]. split; [exact Ht | exact Hp].
Defined.

(** ** An expiry that waits for its gather *)









(** ** Standby trim *)

Lemma standby_trim_loop_spec n pos b s b' s' :
  standby_trim_loop n pos b s = (b', s') →
  (length (segments s) ≤ n)%nat →
  ∃ removed,
    segments s = removed ++ segments s'
    ∧ Forall (λ ls, ls_end ls ≤ pos) removed
    ∧ match seg_begin (segments s') with
      | Some ls => pos < ls_end ls
      | None => True
      end
    ∧ b' = b || bool_decide (removed ≠ [])
    ∧ expiring_segments s' = expiring_segments s
    ∧ expired_segments s' = expired_segments s
    ∧ expiring_events s' = expiring_events s
    ∧ expired_events s' = expired_events s
    ∧ logger s' = logger s
    ∧ capped s' = capped s.
Proof.
  revert b s. induction n as [|n IH]; intros b s H Hlen.
  { cbn in H. injection H as <- <-. exists [].
    destruct (segments s); [|cbn in Hlen; lia].
    cbn. rewrite orb_false_r. repeat split; done. }
  cbn [standby_trim_loop] in H. unfold get_oldest_segment, seg_begin in H.
  destruct (segments s) as [|seg r] eqn:Hseg; cbn [head] in H.
  { injection H as <- <-. exists []. rewrite Hseg. cbn. rewrite orb_false_r.
    repeat split; done. }
  case_bool_decide as Hend.
  { injection H as <- <-. exists []. rewrite Hseg. cbn. rewrite orb_false_r.
    repeat split; done. }
  apply IH in H; [|unfold remove_oldest_segment; cbn; rewrite Hseg; cbn in *; lia].
  destruct H as (removed & H1 & H2 & H3 & H4 & H5 & H6 & H7 & H8 & H9 & H10).
  unfold remove_oldest_segment in H1. cbn in H1. rewrite Hseg in H1. cbn in H1.
  exists (seg :: removed). cbn. rewrite H1.
  split; [done|]. split; [constructor; [lia | done]|]. split; [done|].
  split; [by rewrite H4, orb_true_r|]. repeat split; done.
Qed.

(** X8.  [standby_trim_segments] takes from the front of the index the
    segments that end at or before the journal's expire position, and
    stops at the first one that ends after it.  It asks the cache to trim
    (with -1) exactly when it has removed a segment.  It touches neither
    the journaler, nor the sets of expiring and expired segments, nor any
    event count. *)
Theorem standby_trim_segments_spec s :
  let pos := get_expire_pos (journaler s) in
  let s' := standby_trim_segments s in
  ∃ removed,
    segments s = removed ++ segments s'
    ∧ Forall (λ ls, ls_end ls ≤ pos) removed
    ∧ match seg_begin (segments s') with
      | Some ls => pos < ls_end ls
      | None => True
      end
    ∧ mc_trims (mdcache s')
      = mc_trims (mdcache s) ++ (if bool_decide (removed ≠ []) then [-1] else [])
    ∧ mc_stray (mdcache s') = mc_stray (mdcache s)
    ∧ journaler s' = journaler s
    ∧ num_events s' = num_events s
    ∧ expiring_segments s' = expiring_segments s
    ∧ expired_segments s' = expired_segments s
    ∧ expiring_events s' = expiring_events s
    ∧ expired_events s' = expired_events s.
Proof.
  cbv zeta. unfold standby_trim_segments.
  destruct (standby_trim_loop (length (segments s)) (get_expire_pos (journaler s))
              false s) as [b s1] eqn:Hloop.
  pose proof (standby_trim_loop_frame _ _ _ _ _ _ Hloop) as (Fj & _ & _ & Fn & Fm).
  apply standby_trim_loop_spec in Hloop; [|done].
  destruct Hloop as (removed & H1 & H2 & H3 & H4 & H5 & H6 & H7 & H8 & _).
  cbn in H4. subst b. exists removed.
  destruct (bool_decide (removed ≠ [])); cbn; rewrite ?Fm, ?app_nil_r;
    repeat split; done.
Qed.

(** ** Recovery at startup *)

Lemma load_pointer_present sv w jp :
  load_fault sv = 0 → pointer_object w = Some jp →
  load_pointer sv w = Done (jp, log IoLoad w).
Proof.
  intros Hload Hptr. unfold load_pointer, jp_load. rewrite Hload.
  rewrite (bool_decide_eq_false_2 (0 ≠ 0)) by (intros E; by apply E).
  cbn [pointer_object log]. rewrite Hptr.
  rewrite (bool_decide_eq_false_2 (0 = - ENOENT)) by (unfold ENOENT; lia).
  by rewrite (bool_decide_eq_true_2 (0 = 0)).
Qed.

Lemma recovery_thread_clean sv w jp :
  the_journaler w = None → load_fault sv = 0 → pointer_object w = Some jp →
  back jp = 0 →
  _recovery_thread sv w = open_front_journal sv jp (log IoLoad w).
Proof.
  intros Hnone Hload Hptr Hback. unfold _recovery_thread.
  rewrite Hnone. rewrite (bool_decide_eq_true_2 (None = None)) by done.
  cbn [assert mbind outcome_bind]. rewrite (load_pointer_present sv w jp) by done.
  cbn [mbind outcome_bind]. unfold erase_back_journal.
  rewrite (bool_decide_eq_false_2 (back jp ≠ 0)) by (intros E; by apply E).
  done.
Qed.

(** What the recovery thread does with a pointer that has no back
    journal. *)
Lemma recovery_thread_front sv w jp :
  the_journaler w = None →
  load_fault sv = 0 →
  pointer_object w = Some jp →
  back jp = 0 →
  let r := recover_result sv (front jp) in
  let fj := from_option (recovered (new_Journaler (front jp))) (new_Journaler (front jp))
              (journals w !! front jp) in
  let w1 := log (IoRecover (front jp)) (log IoLoad w) in
  (r ≠ 0 →
   _recovery_thread sv w = Done (Finished (log (IoComplete r) w1)))
  ∧ (r = 0 → journal_format sv ≤ get_stream_format fj →
     _recovery_thread sv w = Done (Finished (log (IoComplete 0) (install fj w1))))
  ∧ (r = 0 → get_stream_format fj < journal_format sv →
     _recovery_thread sv w = _reformat_journal sv jp fj w1)
  ∧ the_journaler w1 = None
  ∧ pointer_object w1 = pointer_object w
  ∧ journals w1 = journals w
  ∧ saves w1 = saves w
  ∧ trace w1 = trace w ++ [IoLoad; IoRecover (front jp)].
Proof.
  intros Hnone Hload Hptr Hback. cbv zeta.
  rewrite (recovery_thread_clean sv w jp) by done.
  unfold open_front_journal, recover. cbv zeta. cbn [j_ino new_Journaler log journals].
  split; [|split; [|split]].
  - intros Hr. by rewrite !(bool_decide_eq_true_2 (recover_result sv (front jp) ≠ 0)).
  - intros Hr Hfmt. rewrite Hr.
    rewrite !(bool_decide_eq_false_2 (0 ≠ 0)) by (intros E; by apply E).
    by rewrite bool_decide_eq_true_2.
  - intros Hr Hfmt. rewrite Hr.
    rewrite !(bool_decide_eq_false_2 (0 ≠ 0)) by (intros E; by apply E).
    rewrite bool_decide_eq_false_2 by lia. done.
  - cbn. rewrite <- app_assoc. done.
Qed.

(** X9.  Startup over a store whose pointer has no back journal.  The
    recovery thread loads the pointer and recovers the front journal.
    If that fails, it completes with the error and installs no
    journaler.  If the journal is of the configured format or a newer
    one, it installs the recovered journaler and completes with 0,
    having written nothing; if the format is older, it hands the
    journal to [_reformat_journal]. *)
Theorem recovery_opens_front_journal sv w jp :
  the_journaler w = None →
  load_fault sv = 0 →
  pointer_object w = Some jp →
  back jp = 0 →
  let r := recover_result sv (front jp) in
  let fj := from_option (recovered (new_Journaler (front jp))) (new_Journaler (front jp))
              (journals w !! front jp) in
  let w1 := log (IoRecover (front jp)) (log IoLoad w) in
  (r ≠ 0 →
   _recovery_thread sv w = Done (Finished (log (IoComplete r) w1)))
  ∧ (r = 0 → journal_format sv ≤ get_stream_format fj →
     _recovery_thread sv w = Done (Finished (log (IoComplete 0) (install fj w1))))
  ∧ (r = 0 → get_stream_format fj < journal_format sv →
     _recovery_thread sv w = _reformat_journal sv jp fj w1)
  ∧ the_journaler w1 = None
  ∧ pointer_object w1 = pointer_object w
  ∧ journals w1 = journals w
  ∧ saves w1 = saves w
  ∧ trace w1 = trace w ++ [IoLoad; IoRecover (front jp)].
Proof.
  intros Hnone Hload Hptr Hback.
  exact (recovery_thread_front sv w jp Hnone Hload Hptr Hback).
Qed.

Lemma recovery_opens_front_journal_witness :
  the_journaler old_format_world = None
  ∧ load_fault sample_server = 0
  ∧ pointer_object old_format_world = Some (mkJP 512 0)
  ∧ back (mkJP 512 0) = 0
  ∧ _recovery_thread (mkServer 0 512 768 0 0 (λ _, 0) (λ _, 0) (λ _, 0)) old_format_world
    = Done (Finished
              (log (IoComplete 0)
                 (install (recovered (new_Journaler 512) old_format_journal)
                    (log (IoRecover 512) (log IoLoad old_format_world))))).
Proof.
  split; [reflexivity|]. split; [reflexivity|]. split; [reflexivity|].
  split; [reflexivity|].
  destruct (recovery_opens_front_journal
              (mkServer 0 512 768 0 0 (λ _, 0) (λ _, 0) (λ _, 0)) old_format_world
              (mkJP 512 0) eq_refl eq_refl eq_refl eq_refl) as (_ & H & _).
  apply H; [reflexivity | vm_compute; discriminate].
Defined.

(** X10.  Startup over a store with no pointer object.  The recovery thread
    makes a pointer with the default inode of this node as [front] and no
    back journal, saves it, and goes on to the front journal; it gives up
    (a failed assertion) when the store refuses the pointer.  It gives up
    as well when the load fails otherwise than with [-ENOENT], or when a
    journaler is there already. *)
Theorem recovery_without_pointer sv w :
  let jp := mkJP (MDS_INO_LOG_OFFSET sv + nodeid sv) 0 in
  (the_journaler w = None → load_fault sv = 0 → pointer_object w = None →
   (0 ≤ save_result sv (saves w) →
    ∃ w1, _recovery_thread sv w = open_front_journal sv jp w1
          ∧ pointer_object w1 = Some jp
          ∧ journals w1 = journals w
          ∧ trace w1 = trace w ++ [IoLoad; IoSave jp])
   ∧ (save_result sv (saves w) < 0 → _recovery_thread sv w = Abort))
  ∧ (load_fault sv ≠ 0 → load_fault sv ≠ - ENOENT → _recovery_thread sv w = Abort)
  ∧ (the_journaler w ≠ None → _recovery_thread sv w = Abort).
Proof.
  cbv zeta. split; [|split].
  - intros Hnone Hload Hptr. unfold _recovery_thread.
    rewrite Hnone. rewrite (bool_decide_eq_true_2 (None = None)) by done.
    cbn [assert mbind outcome_bind]. unfold load_pointer, jp_load. rewrite Hload.
    rewrite (bool_decide_eq_false_2 (0 ≠ 0)) by (intros E; by apply E).
    cbn [pointer_object log]. rewrite Hptr.
    rewrite (bool_decide_eq_true_2 (- ENOENT = - ENOENT)) by done.
    unfold jp_save. cbv zeta. cbn [saves log back].
    split.
    + intros Hsave. rewrite !(bool_decide_eq_true_2 (0 ≤ save_result sv (saves w))) by done.
      cbn [assert mbind outcome_bind]. unfold erase_back_journal. cbn [back].
      rewrite (bool_decide_eq_false_2 (0 ≠ 0)) by (intros E; by apply E).
      cbn [mbind outcome_bind]. eexists. split; [reflexivity|]. cbn.
      rewrite <- app_assoc. done.
    + intros Hsave. rewrite !(bool_decide_eq_false_2 (0 ≤ save_result sv (saves w))) by lia.
      done.
  - intros Hf Hne. unfold _recovery_thread.
    destruct (bool_decide (the_journaler w = None)); [|done].
    cbn [assert mbind outcome_bind]. unfold load_pointer, jp_load.
    rewrite (bool_decide_eq_true_2 (load_fault sv ≠ 0)) by done.
    rewrite (bool_decide_eq_false_2 (load_fault sv = - ENOENT)) by done.
    by rewrite (bool_decide_eq_false_2 (load_fault sv = 0)).
  - intros Hj. unfold _recovery_thread. by rewrite bool_decide_eq_false_2.
Qed.

Lemma recovery_without_pointer_witness :
  let w := mkWorld None ∅ 0 [] None in
  the_journaler w = None ∧ load_fault sample_server = 0 ∧ pointer_object w = None
  ∧ 0 ≤ save_result sample_server (saves w)
  ∧ ∃ w1, _recovery_thread sample_server w
          = open_front_journal sample_server (mkJP 512 0) w1
          ∧ pointer_object w1 = Some (mkJP 512 0).
Proof.
  cbv zeta. split; [reflexivity|]. split; [reflexivity|]. split; [reflexivity|].
  split; [done|].
  destruct (recovery_without_pointer sample_server (mkWorld None ∅ 0 [] None))
    as [H _].
  destruct (H eq_refl eq_refl eq_refl) as [H1 _].
  destruct (H1 ltac:(done)) as (w1 & Ht & Hp & _).
  exists w1. split; [exact Ht | exact Hp].
Defined.

(** ** What a reformat keeps *)

Lemma j_with_write_id j : j_with_write (j_write_pos j) (j_written j) j = j.
Proof. by destruct j. Qed.

(** The transcription loop over a journal that holds the records [bls],
    whole, and nothing else: every record goes to the new journal, in
    order, after what is there. *)
Lemma transcribe_entries bls n k old_journal new_journal :
  j_unread old_journal = InEntry <$> bls →
  j_error old_journal = 0 →
  laid_end (j_read_pos old_journal) bls = j_write_pos old_journal →
  j_readonly new_journal = false →
  0 ≤ k < 2 ^ 32 →
  (length bls < n)%nat →
  ∃ old',
    transcribe n k old_journal new_journal
    = Done (Some (0, (k + Z.of_nat (length bls)) `mod` 2 ^ 32, old',
                  j_with_write (laid_end (j_write_pos new_journal) bls)
                    (j_written new_journal ++ lay_out (j_write_pos new_journal) bls)
                    new_journal))
    ∧ j_ino old' = j_ino old_journal
    ∧ j_unread old' = []
    ∧ j_read_pos old' = j_write_pos old_journal.
Proof.
  revert n k old_journal new_journal.
  induction bls as [|bl bls IH]; intros n k old new Hun Herr Hend Hro Hk Hlen.
  - destruct n as [|n]; [cbn in Hlen; lia|]. cbn [transcribe]. cbv zeta.
    assert (j_receive old = old) as -> by (unfold j_receive; by rewrite Hun).
    unfold get_error. rewrite Herr.
    rewrite (bool_decide_eq_false_2 (0 ≠ 0)) by (intros E; by apply E).
    unfold is_readable. rewrite Hun. cbn [fmap list_fmap negb].
    cbn in Hend. unfold get_read_pos, get_write_pos.
    rewrite bool_decide_eq_true_2 by done.
    exists old. unfold laid_end. cbn [length lay_out foldl].
    rewrite app_nil_r, j_with_write_id.
    replace (k + Z.of_nat 0) with k by lia. rewrite Z.mod_small by lia.
    repeat split; done.
  - destruct n as [|n]; [cbn in Hlen; lia|]. cbn [transcribe]. cbv zeta.
    assert (j_receive old = old) as -> by (unfold j_receive; by rewrite Hun).
    unfold get_error. rewrite Herr.
    rewrite (bool_decide_eq_false_2 (0 ≠ 0)) by (intros E; by apply E).
    cbn in Hend.
    pose proof (laid_end_le (j_read_pos old + framed bl) bls) as Hle.
    unfold laid_end in Hle. 
    unfold is_readable, try_read_entry. rewrite Hun. cbn [fmap list_fmap].
    rewrite bool_decide_eq_true_2 by lia. cbn [negb].
    unfold append_entry. rewrite Hro. cbn [negb assert mbind outcome_bind].
    destruct (IH n ((k + 1) `mod` 2 ^ 32)
                (j_with_read (j_read_pos old + framed bl) (InEntry <$> bls)
                   (j_error old) old)
                (j_with_write (j_write_pos new + framed bl)
                   (j_written new ++ [(j_write_pos new, bl)]) new))
      as (old' & Ht & Hi & Hu & Hr); try done.
    { apply Z.mod_pos_bound. lia. }
    { cbn in Hlen. lia. }
    exists old'. rewrite Ht. unfold laid_end.
    cbn [j_write_pos j_written j_with_write lay_out foldl].
    rewrite <- app_assoc. cbn [app].
    replace (((k + 1) `mod` 2 ^ 32 + Z.of_nat (length bls)) `mod` 2 ^ 32)
      with ((k + Z.of_nat (length (bl :: bls))) `mod` 2 ^ 32).
    2:{ rewrite Zplus_mod_idemp_l. f_equal. cbn [length]. lia. }
    split; [done|]. done.
Qed.

Lemma lay_out_entries pos bls :
  (λ x : Z * bufferlist, InEntry x.2) <$> lay_out pos bls = InEntry <$> bls.
Proof.
  revert pos. induction bls as [|bl bls IH]; intros pos; cbn; [done|].
  by rewrite IH.
Qed.

Lemma jp_save_accepted sv jp w :
  save_result sv (saves w) = 0 →
  jp_save sv jp w
  = (0, mkWorld (Some jp) (journals w) (S (saves w)) (trace w ++ [IoSave jp])
          (the_journaler w)).
Proof.
  intros Hs. unfold jp_save. cbv zeta. rewrite Hs. cbn.
  by rewrite bool_decide_eq_true_2.
Qed.

Lemma erase_present sv j w st :
  erase_fault sv (j_ino j) = 0 → journals w !! j_ino j = Some st →
  erase sv j w
  = (0, mkWorld (pointer_object w) (delete (j_ino j) (journals w)) (saves w)
          (trace w ++ [IoErase (j_ino j)]) (the_journaler w)).
Proof.
  intros Hf Hj. unfold erase. cbv zeta. rewrite Hf. cbn [log journals].
  rewrite (bool_decide_eq_false_2 (0 ≠ 0)) by (intros E; by apply E).
  by rewrite Hj.
Qed.

(** The inode the reformat writes the new journal to is not the inode of
    the old one. *)
Lemma chosen_not_front sv jp :
  MDS_INO_LOG_OFFSET sv ≠ MDS_INO_LOG_BACKUP_OFFSET sv →
  (if bool_decide (front jp = MDS_INO_LOG_OFFSET sv + nodeid sv)
   then MDS_INO_LOG_BACKUP_OFFSET sv + nodeid sv
   else MDS_INO_LOG_OFFSET sv + nodeid sv) ≠ front jp.
Proof. intros Hne. case_bool_decide; lia. Qed.

(** X11.  A reformat over a store that does what it is asked keeps the
    events.  When the old journal holds the records [bls], whole, the
    reformat completes; the store then has, at the chosen inode, a
    journal of the configured format whose records are [bls] in the same
    order, written one after the other from position 0 and all safe, and
    nothing at the old inode; and a journaler that recovers the new
    journal reads exactly the records [bls]. *)
Theorem reformat_keeps_events sv jp_in old_journal w bls :
  is_null jp_in = false →
  j_ino old_journal = front jp_in →
  MDS_INO_LOG_OFFSET sv ≠ MDS_INO_LOG_BACKUP_OFFSET sv →
  j_unread old_journal = InEntry <$> bls →
  j_error old_journal = 0 →
  laid_end (j_read_pos old_journal) bls = j_write_pos old_journal →
  (∀ n, save_result sv n = 0) →
  erase_fault sv (front jp_in) = 0 →
  is_Some (journals w !! front jp_in) →
  let chosen := if bool_decide (front jp_in = MDS_INO_LOG_OFFSET sv + nodeid sv)
                then MDS_INO_LOG_BACKUP_OFFSET sv + nodeid sv
                else MDS_INO_LOG_OFFSET sv + nodeid sv in
  let nj := mkJournaler chosen false (laid_end 0 bls) 0 0 (laid_end 0 bls)
              (get_layout_period old_journal) (journal_format sv) 0
              (lay_out 0 bls) [] [] [0] 0 1 in
  ∃ w',
    _reformat_journal sv jp_in old_journal w = Done (Finished w')
    ∧ journals w' !! chosen = Some nj
    ∧ journals w' !! front jp_in = None
    ∧ (∀ ino, ino ≠ chosen → ino ≠ front jp_in → journals w' !! ino = journals w !! ino)
    ∧ pointer_object w' = Some (mkJP chosen 0)
    ∧ the_journaler w' = Some (set_readonly nj)
    ∧ recovered (new_Journaler chosen) nj
      = mkJournaler chosen true (laid_end 0 bls) 0 0 (laid_end 0 bls)
          (get_layout_period old_journal) (journal_format sv) 0 []
          (InEntry <$> bls) [] [] 0 0.
Proof.
  intros Hnull Hino Hinos Hun Herr Hend Hsave Hfault [st Hst]. cbv zeta.
  pose proof (chosen_not_front sv jp_in Hinos) as Hneq.
  set (chosen := if bool_decide (front jp_in = MDS_INO_LOG_OFFSET sv + nodeid sv)
                 then MDS_INO_LOG_BACKUP_OFFSET sv + nodeid sv
                 else MDS_INO_LOG_OFFSET sv + nodeid sv) in *.
  unfold _reformat_journal. cbv zeta. fold chosen. rewrite Hnull.
  cbn [negb assert mbind outcome_bind].
  rewrite jp_save_accepted by apply Hsave.
  rewrite (bool_decide_eq_true_2 (0 = 0)) by done.
  cbn [assert mbind outcome_bind back front].
  unfold write_head. cbv zeta.
  set (nj0 := create (get_layout_period old_journal) (journal_format sv)
                (set_writeable (new_Journaler chosen))).
  destruct (transcribe_entries bls (S (S (length (j_unread old_journal)))) 0
              old_journal (j_write_head nj0)) as (old' & Ht & Hi' & _); try done.
  { rewrite Hun, length_fmap. lia. }
  rewrite Ht. cbn [mbind outcome_bind]. unfold flush_wait. cbv zeta.
  rewrite (bool_decide_eq_true_2 (0 = 0)) by done.
  cbn [assert mbind outcome_bind].
  rewrite jp_save_accepted by apply Hsave.
  rewrite (bool_decide_eq_true_2 (0 = 0)) by done.
  cbn [assert mbind outcome_bind].
  erewrite erase_present; [| by rewrite Hi', Hino | ].
  2:{ rewrite Hi', Hino. cbn. rewrite !lookup_insert_ne by done. exact Hst. }
  rewrite (bool_decide_eq_true_2 (0 = 0)) by done.
  cbn [assert mbind outcome_bind front].
  rewrite jp_save_accepted by apply Hsave.
  rewrite (bool_decide_eq_true_2 (0 = 0)) by done.
  cbn [assert mbind outcome_bind].
  eexists. split; [reflexivity|]. cbn.
  rewrite Hi', Hino.
  split; [rewrite lookup_delete_ne by done; by rewrite lookup_insert_eq|].
  split; [by rewrite lookup_delete_eq|].
  split; [intros ino H1 H2; rewrite lookup_delete_ne by done;
          by rewrite !lookup_insert_ne|].
  split; [done|]. split; [done|].
  unfold recovered. cbn. by rewrite lay_out_entries.
Qed.

Lemma reformat_keeps_events_witness :
  let bls := [mkBl (Some EVENT_SUBTREEMAP) 100; mkBl (Some EVENT_OTHER) 100] in
  is_null (mkJP 512 0) = false
  ∧ j_ino old_format_journal = front (mkJP 512 0)
  ∧ MDS_INO_LOG_OFFSET sample_server ≠ MDS_INO_LOG_BACKUP_OFFSET sample_server
  ∧ j_unread old_format_journal = InEntry <$> bls
  ∧ j_error old_format_journal = 0
  ∧ laid_end (j_read_pos old_format_journal) bls = j_write_pos old_format_journal
  ∧ (∀ n, save_result sample_server n = 0)
  ∧ erase_fault sample_server (front (mkJP 512 0)) = 0
  ∧ is_Some (journals old_format_world !! front (mkJP 512 0))
  ∧ ∃ w', _reformat_journal sample_server (mkJP 512 0) old_format_journal
            old_format_world = Done (Finished w')
          ∧ (j_written <$> journals w' !! 768) = Some (lay_out 0 bls).
Proof.
  cbv zeta.
  assert (is_Some (journals old_format_world !! front (mkJP 512 0))) as Hsome
    by (vm_compute; by eexists).
  split; [reflexivity|]. split; [reflexivity|]. split; [discriminate|].
  split; [reflexivity|]. split; [reflexivity|]. split; [reflexivity|].
  split; [reflexivity|]. split; [reflexivity|]. split; [exact Hsome|].
  destruct (reformat_keeps_events sample_server (mkJP 512 0) old_format_journal
              old_format_world
              [mkBl (Some EVENT_SUBTREEMAP) 100; mkBl (Some EVENT_OTHER) 100]
              eq_refl eq_refl ltac:(discriminate) eq_refl eq_refl eq_refl
              (λ n, eq_refl) eq_refl Hsome) as (w' & Hr & Hj & _).
  exists w'. split; [exact Hr|].
  change (journals w' !! 768 = Some
            (mkJournaler 768 false 216 0 0 216 4096 1 0
               (lay_out 0 [mkBl (Some EVENT_SUBTREEMAP) 100; mkBl (Some EVENT_OTHER) 100])
               [] [] [0] 0 1)) in Hj.
  by rewrite Hj.
Defined.

Lemma flush_wait_journals j w :
  journals (flush_wait j w).2 !! j_ino j = Some (flush_wait j w).1
  ∧ j_stream_format (flush_wait j w).1 = j_stream_format j
  ∧ j_ino (flush_wait j w).1 = j_ino j
  ∧ j_written (flush_wait j w).1 = j_written j.
Proof. unfold flush_wait. cbn. by rewrite lookup_insert_eq. Qed.

(** After a completed reformat the store has the new journal, in the
    configured format, at the chosen inode. *)
Lemma reformat_journal_stored sv jp_in old_journal w w' :
  _reformat_journal sv jp_in old_journal w = Done (Finished w') →
  let chosen := if bool_decide (front jp_in = MDS_INO_LOG_OFFSET sv + nodeid sv)
                then MDS_INO_LOG_BACKUP_OFFSET sv + nodeid sv
                else MDS_INO_LOG_OFFSET sv + nodeid sv in
  chosen ≠ j_ino old_journal →
  ∃ nj, journals w' !! chosen = Some nj
        ∧ j_stream_format nj = journal_format sv
        ∧ j_ino nj = chosen.
Proof.
  unfold _reformat_journal. cbv zeta. intros H.
  set (chosen := if bool_decide (front jp_in = MDS_INO_LOG_OFFSET sv + nodeid sv)
                 then MDS_INO_LOG_BACKUP_OFFSET sv + nodeid sv
                 else MDS_INO_LOG_OFFSET sv + nodeid sv) in *.
  intros Hneq.
  inv_done H as ? Hnull.
  destruct (jp_save sv (mkJP (front jp_in) chosen) w) as [wr1 w1].
  inv_done H as ? Hw1. cbn [back front] in H.
  set (nj := create (get_layout_period old_journal) (journal_format sv)
               (set_writeable (new_Journaler chosen))) in *.
  pose proof (write_head_proj nj w1) as S2.
  destruct (write_head nj w1) as [nj1 w2].
  destruct S2 as (I2 & F2 & _).
  inv_done H as t Ht. destruct t as [[[[r k] old'] nj2]|]; [|discriminate].
  apply transcribe_Done in Ht as (Iold & I3 & F3 & _).
  pose proof (flush_wait_journals nj2 w2) as (J4 & F4 & I4 & _).
  destruct (flush_wait nj2 w2) as [nj3 w3]. cbn [fst snd] in J4, F4, I4.
  inv_done H as ? Hr.
  pose proof (jp_save_proj sv (mkJP chosen (front jp_in)) w3) as S5.
  destruct (jp_save sv (mkJP chosen (front jp_in)) w3) as [wr2 w4].
  destruct S5 as (_ & _ & J5 & _).
  inv_done H as ? Hw2.
  pose proof (erase_proj sv old' w4) as S6.
  destruct (erase sv old' w4) as [er w5].
  destruct S6 as (_ & _ & _ & _ & _ & J6 & _).
  inv_done H as ? Her. cbn [front back] in H.
  pose proof (jp_save_proj sv (mkJP chosen 0) w5) as S7.
  destruct (jp_save sv (mkJP chosen 0) w5) as [wr3 w6].
  destruct S7 as (_ & _ & J7 & _).
  inv_done H as ? Hw3. injection H as <-.
  assert (j_ino nj2 = chosen) as Hc by (rewrite I3, I2; done).
  exists nj3. cbn. rewrite J7, J6, J5 by (rewrite Iold; done).
  rewrite <- Hc. split; [exact J4|]. split; [|by rewrite I4].
  rewrite F4, F3, F2. done.
Qed.

(** X12.  A restart after a completed reformat.  The recovery thread finds
    the pointer at the new journal with no back journal, recovers that
    journal, finds it in the configured format and installs it: it
    reformats nothing again and writes nothing to the store. *)
Theorem recovery_after_reformat sv jp_in old_journal w w' :
  j_ino old_journal = front jp_in →
  MDS_INO_LOG_OFFSET sv ≠ MDS_INO_LOG_BACKUP_OFFSET sv →
  _reformat_journal sv jp_in old_journal w = Done (Finished w') →
  let chosen := if bool_decide (front jp_in = MDS_INO_LOG_OFFSET sv + nodeid sv)
                then MDS_INO_LOG_BACKUP_OFFSET sv + nodeid sv
                else MDS_INO_LOG_OFFSET sv + nodeid sv in
  load_fault sv = 0 →
  recover_result sv chosen = 0 →
  ∃ nj w2,
    journals w' !! chosen = Some nj
    ∧ j_stream_format nj = journal_format sv
    ∧ _recovery_thread sv (restart w') = Done (Finished w2)
    ∧ the_journaler w2 = Some (recovered (new_Journaler chosen) nj)
    ∧ trace w2 = trace w' ++ [IoLoad; IoRecover chosen; IoComplete 0]
    ∧ pointer_object w2 = Some (mkJP chosen 0)
    ∧ journals w2 = journals w'
    ∧ saves w2 = saves w'.
Proof.
  intros Hino Hinos H. cbv zeta. intros Hload Hrec.
  pose proof (chosen_not_front sv jp_in Hinos) as Hneq.
  pose proof (reformat_journal_stored _ _ _ _ _ H) as Hst. cbv zeta in Hst.
  destruct Hst as (nj & Hj & Hf & Hi); [by rewrite Hino|].
  apply reformat_journal_Finished in H as (Hp & _). cbv zeta in Hp.
  set (chosen := if bool_decide (front jp_in = MDS_INO_LOG_OFFSET sv + nodeid sv)
                 then MDS_INO_LOG_BACKUP_OFFSET sv + nodeid sv
                 else MDS_INO_LOG_OFFSET sv + nodeid sv) in *.
  destruct (recovery_thread_front sv (restart w') (mkJP chosen 0))
    as (_ & Hok & _ & _ & Hp1 & Hj1 & Hs1 & Ht1); try done.
  cbn [front] in Hok, Ht1. cbn [restart journals] in Hok. rewrite Hj in Hok.
  cbn [from_option] in Hok.
  exists nj. eexists. split; [exact Hj|]. split; [exact Hf|].
  split; [apply Hok; [done|]; unfold recovered, get_stream_format; cbn; lia|].
  cbn. rewrite <- !app_assoc. done.
Qed.

Lemma recovery_after_reformat_witness :
  j_ino old_format_journal = front (mkJP 512 0)
  ∧ MDS_INO_LOG_OFFSET sample_server ≠ MDS_INO_LOG_BACKUP_OFFSET sample_server
  ∧ load_fault sample_server = 0
  ∧ recover_result sample_server 768 = 0
  ∧ ∃ w' w2,
      _reformat_journal sample_server (mkJP 512 0) old_format_journal old_format_world
      = Done (Finished w')
      ∧ _recovery_thread sample_server (restart w') = Done (Finished w2)
      ∧ trace w2 = trace w' ++ [IoLoad; IoRecover 768; IoComplete 0].
Proof.
  split; [reflexivity|]. split; [discriminate|]. split; [reflexivity|].
  split; [reflexivity|].
  destruct (_reformat_journal sample_server (mkJP 512 0) old_format_journal
              old_format_world) as [[w'|w']| |] eqn:E; [|by vm_compute in E..].
  destruct (recovery_after_reformat sample_server (mkJP 512 0) old_format_journal
              old_format_world w' eq_refl ltac:(discriminate) E eq_refl eq_refl)
    as (nj & w2 & _ & _ & Hr & _ & Ht & _).
  exists w', w2. split; [done|]. split; [exact Hr | exact Ht].
Defined.

(** ** The index that records describe *)

Lemma nonempty_snoc {A} (l : list A) : l ≠ [] → ∃ m y, l = m ++ [y].
Proof.
  induction l as [|y m _] using rev_ind; intros H; [done|]. by exists m, y.
Qed.

Lemma update_last_snoc {A} (f : A → A) (m : list A) v :
  update_last f (m ++ [v]) = m ++ [f v].
Proof.
  induction m as [|x m IH]; [done|]. cbn [app update_last].
  rewrite IH. by destruct m.
Qed.

Lemma update_last_fmap {A B} (g : A → B) (f : A → A) (f' : B → B) m :
  (∀ v, g (f v) = f' (g v)) →
  g <$> update_last f m = update_last f' (g <$> m).
Proof.
  intros Hfg. induction m as [|x [|y m] IH]; cbn in *; [done| by rewrite Hfg |].
  by rewrite IH.
Qed.

Lemma seg_update_last_is_update_last f m : seg_update_last f m = update_last f m.
Proof. induction m as [|x [|y m] IH]; cbn in *; [done..|]. by rewrite IH. Qed.

Lemma seg_assign_append v m :
  Forall (λ ls, ls_offset ls < ls_offset v) m → seg_assign v m = (m ++ [v], None).
Proof.
  induction m as [|x m IH]; intros H; [done|].
  apply Forall_cons in H as [Hx Hm]. cbn [seg_assign].
  rewrite (proj2 (Z.ltb_ge _ _)) by lia. rewrite (proj2 (Z.eqb_neq _ _)) by lia.
  by rewrite IH.
Qed.

Lemma rebuild_app st a b : rebuild st (a ++ b) = rebuild (rebuild st a) b.
Proof. unfold rebuild. by rewrite foldl_app. Qed.

Lemma rebuild_pos idx pos bls : (rebuild (idx, pos) bls).2 = laid_end pos bls.
Proof.
  revert idx pos. induction bls as [|bl bls IH]; intros idx pos; [done|].
  cbn. unfold rebuild in IH. by rewrite IH.
Qed.

Lemma update_last_offsets next (idx : list (Z * Z * Z)) :
  (λ t : Z * Z * Z, t.1.1) <$> update_last (λ t, (t.1.1, next, t.2 + 1)) idx
  = (λ t : Z * Z * Z, t.1.1) <$> idx.
Proof. induction idx as [|x [|y m] IH]; cbn in *; [done..|]. by rewrite IH. Qed.

(** One segment for every record that opens one, at its position. *)
Lemma rebuild_offsets idx pos bls :
  (λ t : Z * Z * Z, t.1.1) <$> (rebuild (idx, pos) bls).1
  = ((λ t : Z * Z * Z, t.1.1) <$> idx)
    ++ (filter (λ x, starts_segment x.2 = true) (lay_out pos bls)).*1.
Proof.
  revert idx pos. induction bls as [|bl bls IH]; intros idx pos.
  { cbn. by rewrite app_nil_r. }
  cbn [rebuild foldl rebuild_step lay_out]. unfold rebuild in IH. rewrite IH.
  rewrite filter_cons. cbn [snd].
  destruct (starts_segment bl) eqn:Hst.
  - rewrite decide_True by done.
    assert (decodes bl = true) as ->.
    { unfold starts_segment, decodes in *. by destruct (LogEvent_decode bl). }
    rewrite update_last_offsets, fmap_app. cbn. by rewrite <- app_assoc.
  - rewrite decide_False by done.
    destruct (decodes bl); [by rewrite update_last_offsets | done].
Qed.

Lemma counts_app a b : counts (a ++ b) = counts a + counts b.
Proof. induction a as [|x a IH]; cbn; [done|]. unfold counts in *. cbn. rewrite IH. lia. Qed.

Lemma counts_shape m : counts (shape <$> m) = sum_events m.
Proof. induction m as [|x m IH]; [done|]. cbn. unfold counts, sum_events in *. cbn. by rewrite IH. Qed.

Lemma counts_update_last next (idx : list (Z * Z * Z)) :
  idx ≠ [] →
  counts (update_last (λ t, (t.1.1, next, t.2 + 1)) idx) = counts idx + 1.
Proof.
  intros Hne.
  destruct (nonempty_snoc idx Hne) as (m & v & ->).
  rewrite update_last_snoc, !counts_app. unfold counts. cbn. lia.
Qed.

Lemma update_last_nil_iff {A} (f : A → A) m : update_last f m = [] ↔ m = [].
Proof. destruct m as [|x [|y m]]; done. Qed.

Lemma rebuild_counts_nonempty idx pos bls :
  idx ≠ [] →
  counts (rebuild (idx, pos) bls).1
  = counts idx + Z.of_nat (length (filter (λ bl, decodes bl = true) bls))
  ∧ (rebuild (idx, pos) bls).1 ≠ [].
Proof.
  revert idx pos. induction bls as [|bl bls IH]; intros idx pos Hne.
  { rewrite filter_nil. cbn. unfold counts. split; [lia | done]. }
  cbn [rebuild foldl rebuild_step]. unfold rebuild in IH.
  rewrite filter_cons.
  set (idx1 := if starts_segment bl then idx ++ [(pos, pos, 0)] else idx).
  assert (idx1 ≠ []) as Hne1.
  { subst idx1. destruct (starts_segment bl); [|done]. by destruct idx. }
  assert (counts idx1 = counts idx) as Hc1.
  { subst idx1. destruct (starts_segment bl); [|done].
    rewrite counts_app. unfold counts. cbn. lia. }
  destruct (decodes bl) eqn:Hd.
  - rewrite decide_True by done.
    destruct (IH (update_last (λ t, (t.1.1, pos + framed bl, t.2 + 1)) idx1)
                (pos + framed bl)) as [-> Hn].
    { by rewrite update_last_nil_iff. }
    split; [|done]. rewrite counts_update_last by done. cbn [length]. lia.
  - rewrite decide_False by done.
    destruct (IH idx1 (pos + framed bl) Hne1) as [-> Hn]. split; [lia | done].
Qed.

(** Every record that decodes is counted, from the first one that opens
    a segment on. *)
Lemma rebuild_counts pos bls :
  counts (rebuild ([], pos) bls).1
  = Z.of_nat (length (from_first_start (filter (λ bl, decodes bl = true) bls))).
Proof.
  revert pos. induction bls as [|bl bls IH]; intros pos; [done|].
  cbn [rebuild foldl rebuild_step]. unfold rebuild in IH.
  rewrite filter_cons.
  destruct (starts_segment bl) eqn:Hst.
  - assert (decodes bl = true) as Hd.
    { unfold starts_segment, decodes in *. by destruct (LogEvent_decode bl). }
    rewrite Hd, decide_True by done. cbn [from_first_start]. rewrite Hst.
    cbn [app update_last].
    destruct (rebuild_counts_nonempty [(pos, pos + framed bl, 0 + 1)] (pos + framed bl) bls)
      as [Hc _]; [done|].
    unfold rebuild in Hc. cbn [fst snd]. rewrite Hc. unfold counts. cbn [foldr length].
    cbn. lia.
  - destruct (decodes bl) eqn:Hd.
    + rewrite decide_True by done. cbn [from_first_start update_last]. rewrite Hst.
      apply IH.
    + rewrite decide_False by done. apply IH.
Qed.

(** ** Replaying records *)

Lemma shape_segments_behind pos (m : segmap) :
  Forall (λ ls, ls_offset ls < pos) m ↔ Forall (λ t : Z * Z * Z, t.1.1 < pos) (shape <$> m).
Proof. rewrite Forall_fmap. done. Qed.

Lemma replay_entry_shape e pos bl s :
  Forall (λ ls, ls_offset ls < pos) (segments s) →
  get_read_pos (journaler s) = pos + framed bl →
  decodes bl = true ∨ mds_log_skip_corrupt_events (g_conf e) = true →
  ∃ s', replay_entry e pos bl s = Done s'
        ∧ shape <$> segments s' = (rebuild_step (shape <$> segments s, pos) bl).1
        ∧ Forall (λ ls, ls_offset ls < pos + framed bl) (segments s')
        ∧ journaler s' = journaler s
        ∧ completed s' = completed s
        ∧ waitfor_replay s' = waitfor_replay s
        ∧ num_events s' - sum_events (segments s')
          = num_events s - sum_events (segments s).
Proof.
  intros Hbehind Hrp Hok. unfold replay_entry, rebuild_step, starts_segment, decodes.
  pose proof (framed_pos bl) as Hfr.
  assert (Forall (λ ls, ls_offset ls < pos + framed bl) (segments s)) as Hbehind'.
  { eapply Forall_impl; [exact Hbehind|]. cbn. intros; lia. }
  destruct (LogEvent_decode bl) as [le|] eqn:Hdec.
  2:{ destruct Hok as [Hok|Hok]; [unfold decodes in Hok; by rewrite Hdec in Hok|].
      rewrite Hok. cbn. by exists s. }
  cbv zeta. cbn [ev_type set_start_off].
  destruct (bool_decide (ev_type le = EVENT_SUBTREEMAP)
            || bool_decide (ev_type le = EVENT_RESETJOURNAL)) eqn:Hst.
  - pose proof (insert_new_segment_proj pos s) as P. cbv zeta in P.
    destruct P as (Ps & _ & _ & Pj & _).
    destruct (insert_new_segment_more pos s) as (Pc & _ & _ & Pw & _).
    rewrite seg_assign_append in Ps by done. cbn [fst] in Ps.
    set (s1 := with_logger
                 (pc_set l_mdl_seg
                    (Z.of_nat (length (segments (insert_new_segment pos s))))
                    (logger (insert_new_segment pos s)))
                 (insert_new_segment pos s)).
    assert (segments s1 = segments s ++ [new_LogSegment (next_addr s) pos]) as Hs1
      by exact Ps.
    assert (have_any_segments s1 = true) as ->.
    { unfold have_any_segments. rewrite Hs1. by destruct (segments s). }
    cbn [negb]. eexists. split; [reflexivity|].
    destruct (insert_new_segment_proj pos s) as (_ & _ & _ & _ & Pn & _).
    cbn [segments with_logger with_num_events with_segments journaler completed
         waitfor_replay num_events].
    rewrite Hs1. subst s1.
    cbn [journaler with_logger completed waitfor_replay num_events].
    rewrite Pj, Hrp, seg_update_last_snoc, update_last_snoc, !fmap_app.
    split; [done|]. split; [|rewrite Pc, Pw, Pn, !sum_events_snoc; cbn; repeat split; lia].
    apply Forall_app. split; [done|]. apply Forall_singleton. cbn. lia.
  - unfold have_any_segments.
    destruct (segments s) as [|x r] eqn:E.
    { cbn [negb]. eexists. split; [reflexivity|]. cbn. rewrite E. repeat split; done. }
    cbn [negb]. eexists. split; [reflexivity|].
    cbn [segments with_logger with_num_events with_segments journaler completed
         waitfor_replay num_events].
    rewrite Hrp, seg_update_last_is_update_last.
    split; [by apply update_last_fmap|].
    rewrite <- E in *.
    destruct (nonempty_snoc (segments s)) as (m & y & Hm); [by rewrite E|].
    rewrite Hm in *.
    rewrite update_last_snoc. apply Forall_app in Hbehind' as [H1 H2].
    split; [|rewrite !sum_events_snoc; cbn; repeat split; lia].
    apply Forall_app. split; [done|]. apply Forall_singleton.
    rewrite Forall_singleton in H2. cbn. exact H2.
Qed.

Lemma replay_loop_entries bls n e s :
  j_unread (journaler s) = InEntry <$> bls →
  j_error (journaler s) = 0 →
  laid_end (j_read_pos (journaler s)) bls = j_write_pos (journaler s) →
  Forall (λ ls, ls_offset ls < j_read_pos (journaler s)) (segments s) →
  Forall (λ bl, decodes bl = true) bls
  ∨ mds_log_skip_corrupt_events (g_conf e) = true →
  (length bls < n)%nat →
  ∃ s', replay_loop n e s = Done (Replayed 0 s')
        ∧ shape <$> segments s'
          = (rebuild (shape <$> segments s, j_read_pos (journaler s)) bls).1
        ∧ j_read_pos (journaler s') = j_write_pos (journaler s)
        ∧ j_write_pos (journaler s') = j_write_pos (journaler s)
        ∧ j_unread (journaler s') = []
        ∧ j_error (journaler s') = 0
        ∧ completed s' = completed s ++ ((λ c, (c, 0)) <$> waitfor_replay s)
        ∧ waitfor_replay s' = []
        ∧ logger s' l_mdl_expos = j_expire_pos (journaler s)
        ∧ num_events s' - sum_events (segments s')
          = num_events s - sum_events (segments s).
Proof.
  revert n s. induction bls as [|bl bls IH]; intros n s Hun Herr Hend Hbehind Hok Hlen.
  - destruct n as [|n]; [cbn in Hlen; lia|]. cbn [replay_loop]. unfold replay_round.
    cbv zeta.
    assert (j_receive (journaler s) = journaler s) as ->
      by (unfold j_receive; by rewrite Hun).
    unfold get_error. rewrite Herr.
    rewrite (bool_decide_eq_false_2 (0 ≠ 0)) by (intros E; by apply E).
    unfold is_readable. rewrite Hun. cbn [fmap list_fmap negb].
    cbn in Hend. unfold get_read_pos, get_write_pos.
    rewrite (bool_decide_eq_true_2 (j_read_pos (journaler s) = j_write_pos (journaler s)))
      by done.
    cbn [mbind outcome_bind journaler with_journaler].
    rewrite (bool_decide_eq_true_2 (j_read_pos (journaler s) = j_write_pos (journaler s)))
      by done.
    rewrite orb_true_r. cbn [assert mbind outcome_bind].
    rewrite (bool_decide_eq_true_2 (0 = 0)) by done.
    eexists. split; [reflexivity|]. cbn. rewrite Hun. unfold pc_set.
    rewrite decide_True by done. repeat split; done.
  - destruct n as [|n]; [cbn in Hlen; lia|]. cbn [replay_loop]. unfold replay_round.
    cbv zeta.
    assert (j_receive (journaler s) = journaler s) as ->
      by (unfold j_receive; by rewrite Hun).
    unfold get_error. rewrite Herr.
    rewrite (bool_decide_eq_false_2 (0 ≠ 0)) by (intros E; by apply E).
    cbn in Hend.
    pose proof (laid_end_le (j_read_pos (journaler s) + framed bl) bls) as Hle.
    unfold laid_end in Hle.
    unfold is_readable, try_read_entry. rewrite Hun. cbn [fmap list_fmap].
    rewrite bool_decide_eq_true_2 by lia. cbn [negb].
    set (j1 := j_with_read (j_read_pos (journaler s) + framed bl) (InEntry <$> bls)
                 (j_error (journaler s)) (journaler s)).
    set (s0 := with_journaler j1 (with_journaler (journaler s) s)).
    destruct (replay_entry_shape e (get_read_pos (journaler s)) bl s0)
      as (s1 & Hre & Hsh & Hb1 & Hj1 & Hc1 & Hw1 & Hn1); [done | done | |].
    { destruct Hok as [Hok|Hok]; [left; by apply Forall_cons in Hok as [? _] | by right]. }
    rewrite Hre. cbn [mbind outcome_bind].
    destruct (IH n s1) as (s' & Hloop & H1 & H2 & H3 & H4 & H5 & H6 & H7 & H8 & H9).
    { rewrite Hj1. done. }
    { rewrite Hj1. done. }
    { rewrite Hj1. cbn. exact Hend. }
    { rewrite Hj1. exact Hb1. }
    { destruct Hok as [Hok|Hok]; [left; by apply Forall_cons in Hok as [_ ?] | by right]. }
    { cbn in Hlen. lia. }
    exists s'. split; [exact Hloop|]. rewrite Hj1 in *. cbn in H1, H2, H3, H8.
    rewrite H1, Hsh, Hc1, Hw1 in *. cbn [rebuild foldl].
    repeat split; try done. rewrite H9, Hn1. done.
Qed.

Lemma laid_end_lt pos bl bls : pos < laid_end pos (bl :: bls).
Proof.
  pose proof (laid_end_le (pos + framed bl) bls). pose proof (framed_pos bl).
  unfold laid_end in *. cbn. lia.
Qed.

(** Replay of the records [bls] into a fresh log: the index is the one
    the records describe. *)
Lemma replay_fresh e c s bls :
  is_readonly (journaler s) = true →
  segments s = [] →
  num_events s = 0 →
  waitfor_replay s = [] →
  j_unread (journaler s) = InEntry <$> bls →
  j_error (journaler s) = 0 →
  laid_end (j_read_pos (journaler s)) bls = j_write_pos (journaler s) →
  Forall (λ bl, decodes bl = true) bls
  ∨ mds_log_skip_corrupt_events (g_conf e) = true →
  ∃ s',
    replay e c s = Done (Replayed 0 s')
    ∧ shape <$> segments s' = (rebuild ([], j_read_pos (journaler s)) bls).1
    ∧ sum_events (segments s') = num_events s'
    ∧ j_read_pos (journaler s') = j_write_pos (journaler s)
    ∧ completed s' = completed s ++ ((λ c, (c, 0)) <$> option_list c)
    ∧ waitfor_replay s' = [].
Proof.
  intros Hro Hseg Hnum Hwait Hun Herr Hend Hok. unfold replay. cbv zeta.
  rewrite Hro. cbn [assert mbind outcome_bind].
  destruct bls as [|bl bls].
  { cbn in Hend. unfold get_read_pos, get_write_pos.
    rewrite bool_decide_eq_true_2 by done. eexists. split; [reflexivity|].
    destruct c; cbn; rewrite Hseg, Hnum, Hwait, ?app_nil_r;
      repeat split; done. }
  pose proof (laid_end_lt (j_read_pos (journaler s)) bl bls) as Hlt.
  unfold get_read_pos, get_write_pos. rewrite bool_decide_eq_false_2 by lia.
  set (s1 := match c with
             | Some c0 => with_waitfor_replay (waitfor_replay s ++ [c0]) s
             | None => s
             end).
  assert (journaler s1 = journaler s ∧ segments s1 = segments s
          ∧ num_events s1 = num_events s ∧ completed s1 = completed s
          ∧ waitfor_replay s1 = option_list c) as (Hj1 & Hs1 & Hn1 & Hc1 & Hw1).
  { subst s1. destruct c; cbn; rewrite ?Hwait; done. }
  rewrite Hn1, Hnum. cbn [bool_decide assert mbind outcome_bind orb].
  rewrite (bool_decide_eq_true_2 (0 = 0)) by done.
  cbn [orb assert mbind outcome_bind]. unfold _replay_thread.
  destruct (replay_loop_entries (bl :: bls)
              (S (S (length (j_unread (journaler s)))))
              e (with_already_replayed true s1))
    as (s' & Hloop & H1 & H2 & H3 & H4 & H5 & H6 & H7 & H8 & H9);
    cbn [journaler with_already_replayed segments]; rewrite ?Hj1, ?Hs1, ?Hseg; try done.
  { rewrite Hun, length_fmap. lia. }
  exists s'. split; [exact Hloop|].
  cbn [journaler with_already_replayed segments num_events completed waitfor_replay]
    in H1, H2, H6, H9.
  rewrite Hj1 in H1, H2. rewrite Hs1, Hseg in H1, H9. rewrite Hn1, Hnum in H9.
  rewrite Hc1, Hw1 in H6. cbn in H9.
  split; [exact H1|]. split; [lia|]. repeat split; done.
Qed.

(** X13.  Replay of a journal that holds the records [bls], whole, into a
    fresh log.  It completes with status 0, having read to the write
    position.  The index gets one segment for every record that opens
    one (a subtree map or a journal reset), at that record's position;
    the records counted are those that decode, from the first one that
    opens a segment on (a record that does not decode is skipped, when
    the configuration allows it), and they are counted in the segments
    too; the callback is completed with 0. *)
Theorem replay_rebuilds_index e c s bls :
  is_readonly (journaler s) = true →
  segments s = [] →
  num_events s = 0 →
  waitfor_replay s = [] →
  j_unread (journaler s) = InEntry <$> bls →
  j_error (journaler s) = 0 →
  laid_end (j_read_pos (journaler s)) bls = j_write_pos (journaler s) →
  Forall (λ bl, decodes bl = true) bls
  ∨ mds_log_skip_corrupt_events (g_conf e) = true →
  ∃ s',
    replay e c s = Done (Replayed 0 s')
    ∧ ls_offset <$> segments s'
      = (filter (λ x, starts_segment x.2 = true)
           (lay_out (j_read_pos (journaler s)) bls)).*1
    ∧ num_events s'
      = Z.of_nat (length (from_first_start (filter (λ bl, decodes bl = true) bls)))
    ∧ sum_events (segments s') = num_events s'
    ∧ j_read_pos (journaler s') = j_write_pos (journaler s)
    ∧ completed s' = completed s ++ ((λ c, (c, 0)) <$> option_list c)
    ∧ waitfor_replay s' = [].
Proof.
  intros Hro Hseg Hnum Hwait Hun Herr Hend Hok.
  destruct (replay_fresh e c s bls) as (s' & Hr & Hsh & Hsum & Hrp & Hc & Hw);
    try done.
  exists s'. split; [exact Hr|]. split.
  { pose proof (rebuild_offsets [] (j_read_pos (journaler s)) bls) as Ho.
    rewrite <- Hsh, <- list_fmap_compose in Ho. exact Ho. }
  split.
  { rewrite <- Hsum, <- counts_shape, Hsh. apply rebuild_counts. }
  repeat split; done.
Qed.

Lemma replay_rebuilds_index_witness :
  let s := reader_log old_format_journal in
  let bls := [mkBl (Some EVENT_SUBTREEMAP) 100; mkBl (Some EVENT_OTHER) 100] in
  is_readonly (journaler s) = true
  ∧ j_unread (journaler s) = InEntry <$> bls
  ∧ laid_end (j_read_pos (journaler s)) bls = j_write_pos (journaler s)
  ∧ Forall (λ bl, decodes bl = true) bls
  ∧ ∃ s', replay (sample_env true false) (Some 3%nat) s = Done (Replayed 0 s')
          ∧ ls_offset <$> segments s' = [0]
          ∧ num_events s' = 2
          ∧ completed s' = [(3%nat, 0)].
Proof.
  cbv zeta.
  assert (Forall (λ bl, decodes bl = true)
            [mkBl (Some EVENT_SUBTREEMAP) 100; mkBl (Some EVENT_OTHER) 100]) as Hd
    by (repeat constructor).
  split; [reflexivity|]. split; [reflexivity|]. split; [reflexivity|].
  split; [exact Hd|].
  destruct (replay_rebuilds_index (sample_env true false) (Some 3%nat)
              (reader_log old_format_journal)
              [mkBl (Some EVENT_SUBTREEMAP) 100; mkBl (Some EVENT_OTHER) 100]
              eq_refl eq_refl eq_refl eq_refl eq_refl eq_refl eq_refl (or_introl Hd))
    as (s' & Hr & Ho & Hn & _ & _ & Hc & _).
  exists s'. split; [exact Hr|]. split; [exact Ho|]. split; [exact Hn | exact Hc].
Defined.

(** ** A record that does not decode *)

(** X14.  A record that does not decode ends the replay in a failed assertion,
    unless [mds_log_skip_corrupt_events] is set. *)
Theorem replay_corrupt_event_aborts e c s bl u :
  is_readonly (journaler s) = true →
  num_events s = 0 ∨ already_replayed s = true →
  j_error (journaler s) = 0 →
  j_unread (journaler s) = InEntry bl :: u →
  j_read_pos (journaler s) + framed bl ≤ j_write_pos (journaler s) →
  decodes bl = false →
  mds_log_skip_corrupt_events (g_conf e) = false →
  replay e c s = Abort.
Proof.
  intros Hro Hnum Herr Hun Hfit Hdec Hskip. unfold replay. cbv zeta.
  rewrite Hro. cbn [assert mbind outcome_bind].
  pose proof (framed_pos bl) as Hfr.
  unfold get_read_pos, get_write_pos. rewrite bool_decide_eq_false_2 by lia.
  set (s1 := match c with
             | Some c0 => with_waitfor_replay (waitfor_replay s ++ [c0]) s
             | None => s
             end).
  assert (journaler s1 = journaler s ∧ num_events s1 = num_events s
          ∧ already_replayed s1 = already_replayed s) as (Hj1 & Hn1 & Ha1).
  { subst s1. by destruct c. }
  rewrite Hn1, Ha1.
  assert (bool_decide (num_events s = 0) || already_replayed s = true) as ->.
  { destruct Hnum as [->| ->]; [done | by rewrite orb_true_r]. }
  cbn [assert mbind outcome_bind]. unfold _replay_thread.
  cbn [replay_loop journaler with_already_replayed]. rewrite Hj1.
  unfold replay_round. cbv zeta. cbn [journaler with_already_replayed]. rewrite Hj1.
  assert (j_receive (journaler s) = journaler s) as ->
    by (unfold j_receive; by rewrite Hun).
  unfold get_error. rewrite Herr.
  rewrite (bool_decide_eq_false_2 (0 ≠ 0)) by (intros E; by apply E).
  unfold is_readable, try_read_entry. rewrite Hun.
  rewrite bool_decide_eq_true_2 by done. cbn [negb].
  unfold replay_entry. unfold decodes in Hdec.
  destruct (LogEvent_decode bl); [done|]. rewrite Hskip. done.
Qed.

Lemma replay_corrupt_event_aborts_witness :
  let j := mkJournaler 512 true 108 0 0 108 4096 1 0 [] [InEntry (mkBl None 100)]
             [] [] 0 0 in
  decodes (mkBl None 100) = false
  ∧ replay (sample_env true false) None (reader_log j) = Abort.
Proof.
  cbv zeta. split; [reflexivity|].
  apply (replay_corrupt_event_aborts (sample_env true false) None
           (reader_log (mkJournaler 512 true 108 0 0 108 4096 1 0 []
                          [InEntry (mkBl None 100)] [] [] 0 0))
           (mkBl None 100) []);
    [reflexivity | by left | reflexivity | reflexivity | vm_compute; discriminate
    | reflexivity | reflexivity].
Defined.

(** ** Writing records *)

Lemma writes_records_refl s :
  Forall (λ ls, ls_offset ls < j_write_pos (journaler s)) (segments s) →
  writes_records s s [].
Proof. intros H. unfold writes_records. cbn. rewrite app_nil_r. repeat split; done. Qed.

Lemma writes_records_trans s1 s2 s3 a b :
  writes_records s1 s2 a → writes_records s2 s3 b → writes_records s1 s3 (a ++ b).
Proof.
  intros (A1 & A2 & A3 & A4 & A5 & A6 & A7 & A8 & A9 & A10)
         (B1 & B2 & B3 & B4 & B5 & B6 & B7 & B8 & B9 & B10).
  unfold writes_records.
  rewrite B1, A1, B2, A2, B3, A3, B6, A6, B7, A7, B8, A8, B9, A9, B10, A10.
  rewrite lay_out_app, laid_end_app, rebuild_app, <- app_assoc.
  repeat split; try done.
  - f_equal. f_equal.
    destruct (rebuild (shape <$> segments s1, j_write_pos (journaler s1)) a)
      as [idx pos] eqn:E.
    pose proof (rebuild_pos (shape <$> segments s1) (j_write_pos (journaler s1)) a) as Hp.
    rewrite E in Hp. cbn in *. rewrite A2. by subst.
  - by apply Forall_app.
  - rewrite <- A2, <- B2. exact B5.
Qed.

Lemma writes_records_same s s1 s' new :
  writes_records s s1 new →
  journaler s' = journaler s1 → segments s' = segments s1 →
  writes_records s s' new.
Proof. unfold writes_records. intros H -> ->. exact H. Qed.

Lemma decodes_encode le : decodes (encode_with_header le) = true.
Proof. done. Qed.

Lemma starts_segment_encode le :
  starts_segment (encode_with_header le)
  = bool_decide (ev_type le = EVENT_SUBTREEMAP)
    || bool_decide (ev_type le = EVENT_RESETJOURNAL).
Proof. done. Qed.

Lemma journal_entry_format e le c s le' s' :
  journal_entry e le c s = Done (le', s') →
  j_stream_format (journaler s') = j_stream_format (journaler s)
  ∧ j_ino (journaler s') = j_ino (journaler s).
Proof.
  unfold journal_entry, ceph_clock_now, append_entry. intros H.
  inv_done H as ? Hseg. cbn in H.
  destruct (capped s); cbn in H; [done|].
  destruct (j_readonly (journaler s)); cbn in H; [done|].
  destruct c; cbn in H; injection H as <- <-; done.
Qed.

(** An event that opens no segment is counted in the current one. *)
Lemma journal_entry_writes e le c s le' s' :
  journal_entry e le c s = Done (le', s') →
  ev_type le ≠ EVENT_SUBTREEMAP → ev_type le ≠ EVENT_RESETJOURNAL →
  Forall (λ ls, ls_offset ls < j_write_pos (journaler s)) (segments s) →
  writes_records s s' [encode_with_header le].
Proof.
  intros H Hty1 Hty2 Hbehind.
  pose proof (journal_entry_format _ _ _ _ _ _ H) as [Hfmt _].
  apply journal_entry_Done in H as (m & v & Hm & _ & _ & Hle & Hs & _ & Hw & Hwr & _
                                    & Hr & Hx & Hp & _ & _ & _ & _ & _ & _ & _ & _ & _
                                    & _ & _ & Hun).
  assert (encode_with_header le' = encode_with_header le) as Henc by (by subst le').
  rewrite Henc in *. pose proof (framed_pos (encode_with_header le)) as Hfr.
  unfold writes_records. cbn [lay_out laid_end foldl rebuild rebuild_step fst].
  rewrite starts_segment_encode, decodes_encode.
  rewrite (bool_decide_eq_false_2 (ev_type le = EVENT_SUBTREEMAP)) by done.
  rewrite (bool_decide_eq_false_2 (ev_type le = EVENT_RESETJOURNAL)) by done.
  cbn [orb]. rewrite Hs, Hm, !fmap_app. cbn [fmap list_fmap].
  rewrite update_last_snoc. cbn.
  rewrite Hm in Hbehind. apply Forall_app in Hbehind as [Hb1 Hb2].
  rewrite Forall_singleton in Hb2.
  repeat split; try done.
  - by constructor.
  - rewrite Hw. apply Forall_app. split.
    + eapply Forall_impl; [exact Hb1|]. cbn. intros; lia.
    + apply Forall_singleton. cbn. lia.
Qed.

Lemma flush_wait_for_safe_journal e c s :
  j_unread (journaler (flush (wait_for_safe e c s))) = j_unread (journaler s)
  ∧ j_layout_period (journaler (flush (wait_for_safe e c s)))
    = j_layout_period (journaler s)
  ∧ j_stream_format (journaler (flush (wait_for_safe e c s)))
    = j_stream_format (journaler s)
  ∧ j_error (journaler (flush (wait_for_safe e c s))) = j_error (journaler s).
Proof.
  unfold flush, wait_for_safe.
  destruct (mds_log (g_conf e)); cbn; destruct (bool_decide _); done.
Qed.

Lemma writes_records_flush e c s s1 new :
  writes_records s s1 new → writes_records s (flush (wait_for_safe e c s1)) new.
Proof.
  intros (A1 & A2 & A3 & A4 & A5 & A6 & A7 & A8 & A9 & A10).
  pose proof (flush_wait_for_safe_proj e c s1) as P. cbv zeta in P.
  destruct P as (Ps & _ & _ & _ & _ & _ & _ & _ & _ & _ & Pw & Pp & Pr & Px & _).
  destruct (flush_wait_for_safe_journal e c s1) as (Pu & Pl & Pf & _).
  unfold writes_records. rewrite Ps, Pw, Pp, Pr, Px, Pu, Pl, Pf. repeat split; done.
Qed.

(** A new segment and its subtree map: the record opens a segment at
    the position it is written at. *)
Lemma start_new_segment_with_writes e n onsync s s' :
  mds_log (g_conf e) = true →
  Forall (λ ls, ls_offset ls < j_write_pos (journaler s)) (segments s) →
  start_new_segment_with e (submit_entry_fuel e n) onsync s = Done s' →
  writes_records s s' [mkBl (Some EVENT_SUBTREEMAP) (subtree_map_payload e)].
Proof.
  intros Hlog Hbehind H.
  apply start_new_segment_with_Done in H as (le & s2 & Hc & Hs & ->).
  apply create_subtree_map_Done in Hc as (_ & Hle & _).
  destruct n as [|n]; [done|].
  apply submit_subtree_map_enabled in Hs as (le1 & Hj); [|done|by subst le].
  assert (writes_records s s2 [mkBl (Some EVENT_SUBTREEMAP) (subtree_map_payload e)])
    as Hw; [|destruct onsync; [by apply writes_records_flush | done]].
  pose proof (journal_entry_format _ _ _ _ _ _ Hj) as [Hfmt _].
  apply journal_entry_Done in Hj as (m & v & Hm & _ & _ & Hle1 & Hseg & _ & Hw & Hwr & _
                                     & Hr & Hx & Hp & _ & _ & _ & _ & _ & _ & _ & _ & _
                                     & _ & _ & Hun).
  pose proof (prepare_new_segment_proj s) as P. cbv zeta in P.
  destruct P as (Ps & _ & _ & Pj & _).
  cbn [segments journaler with_cur_event] in Hm, Hw, Hwr, Hr, Hx, Hp, Hun, Hfmt, Hseg.
  rewrite Pj in *. unfold get_write_pos in *.
  rewrite seg_assign_append in Ps by done. cbn [fst] in Ps. rewrite Ps in Hm.
  apply app_inj_tail in Hm as [<- <-].
  assert (encode_with_header le1 = mkBl (Some EVENT_SUBTREEMAP) (subtree_map_payload e))
    as Henc by (by subst le1 le).
  rewrite Henc in *.
  pose proof (framed_pos (mkBl (Some EVENT_SUBTREEMAP) (subtree_map_payload e))) as Hfr.
  unfold writes_records. cbn [lay_out laid_end foldl rebuild rebuild_step fst].
  assert (starts_segment (mkBl (Some EVENT_SUBTREEMAP) (subtree_map_payload e)) = true)
    as -> by done.
  assert (decodes (mkBl (Some EVENT_SUBTREEMAP) (subtree_map_payload e)) = true)
    as -> by done.
  rewrite update_last_snoc, Hseg, !fmap_app. cbn.
  repeat split; try done.
  - by constructor.
  - rewrite Hw. apply Forall_app. split.
    + eapply Forall_impl; [exact Hbehind|]. cbn. intros; lia.
    + apply Forall_singleton. cbn. lia.
Qed.

(** Every event a writer submits, and what rotation and the debug mode
    add after it. *)
Lemma submit_entry_fuel_writes e n le c s s' :
  mds_log (g_conf e) = true →
  ev_type le ≠ EVENT_SUBTREEMAP → ev_type le ≠ EVENT_RESETJOURNAL →
  Forall (λ ls, ls_offset ls < j_write_pos (journaler s)) (segments s) →
  submit_entry_fuel e n le c s = Done s' →
  ∃ new, writes_records s s' new.
Proof.
  intros Hlog. revert le c s s'.
  induction n as [|n IH]; intros le c s s' Hty1 Hty2 Hbehind H; [done|].
  change (submit_entry_with e (submit_entry_fuel e n) le c s = Done s') in H.
  apply submit_entry_with_enabled in H as (_ & _ & le1 & s1 & cur & Hj & _ & H);
    [|done].
  apply journal_entry_writes in Hj; [|done..].
  assert (Forall (λ ls, ls_offset ls < j_write_pos (journaler s1)) (segments s1))
    as Hbehind1 by (by destruct Hj as (_ & _ & _ & _ & ? & _)).
  apply (writes_records_same s _ s1) in Hj; [|done..].
  destruct (suppress_rotation e le); [subst; by eexists|].
  destruct H as [_ H]. case_bool_decide.
  - apply start_new_segment_with_writes in H; [|done..].
    eexists. eapply writes_records_trans; [exact Hj | exact H].
  - destruct (_ && _); [|subst; by eexists].
    destruct H as (sle & s2 & Hc & Hs).
    apply create_subtree_map_Done in Hc as (_ & Hsle & ->).
    apply IH in Hs as [new Hs]; [| by subst sle | by subst sle | done].
    eexists. eapply writes_records_trans; [exact Hj|].
    eapply writes_records_same; [|reflexivity..].
    destruct Hs as (B1 & B2 & B3 & B4 & B5 & B6 & B7 & B8 & B9 & B10).
    repeat split; done.
Qed.

Lemma step_writes e o s s' :
  writer_op (e, o) = true →
  Forall (λ ls, ls_offset ls < j_write_pos (journaler s)) (segments s) →
  step e o s = Done s' →
  ∃ new, writes_records s s' new.
Proof.
  unfold writer_op. cbn [fst snd]. intros Hop Hbehind H.
  apply andb_true_iff in Hop as [Hlog Hop].
  destruct o; try done; cbn [step] in H.
  - apply andb_true_iff in Hop as [H1 H2].
    apply negb_true_iff, bool_decide_eq_false in H1, H2.
    inv_done H as [le0 s0] Hst. unfold start_entry in Hst.
    inv_done Hst as ? Hc. injection Hst as <- <-.
    apply submit_entry_fuel_writes in H as [new H]; [|done..].
    exists new. exact H.
  - inv_done H as ? Hro.
    apply start_new_segment_with_writes in H; [|done..]. by eexists.
  - injection H as <-. exists [].
    destruct (writes_records_refl s Hbehind) as (A1 & A2 & A3 & A4 & A5 & _).
    unfold writes_records, flush. destruct (bool_decide _); repeat split; done.
  - injection H as <-. exists [].
    destruct (writes_records_refl s Hbehind) as (A1 & A2 & A3 & A4 & A5 & _).
    unfold writes_records, wait_for_safe. destruct (mds_log _); repeat split; done.
  - injection H as <-. exists [].
    destruct (writes_records_refl s Hbehind) as (A1 & A2 & A3 & A4 & A5 & _).
    repeat split; done.
Qed.

Lemma run_writes ops s s' :
  Forall (λ x, writer_op x = true) ops →
  Forall (λ ls, ls_offset ls < j_write_pos (journaler s)) (segments s) →
  run ops s = Done s' →
  ∃ new, writes_records s s' new.
Proof.
  revert s. induction ops as [|[e o] ops IH]; intros s Hops Hbehind H.
  { cbn in H. injection H as <-. exists []. by apply writes_records_refl. }
  apply Forall_cons in Hops as [Hop Hops]. cbn [run] in H.
  inv_done H as s1 Hstep.
  apply step_writes in Hstep as [new1 H1]; [|done..].
  apply IH in H as [new2 H2]; [|done|by destruct H1 as (_ & _ & _ & _ & ? & _)].
  exists (new1 ++ new2). by eapply writes_records_trans.
Qed.

Lemma lay_out_within pos bls :
  Forall (λ x, x.1 + framed x.2 ≤ laid_end pos bls) (lay_out pos bls).
Proof.
  revert pos. induction bls as [|bl bls IH]; intros pos; cbn; [constructor|].
  constructor.
  - cbn. apply (laid_end_le (pos + framed bl) bls).
  - apply IH.
Qed.

Lemma filter_all {A} (P : A → Prop) `{!∀ x, Decision (P x)} (l : list A) :
  Forall P l → filter P l = l.
Proof.
  induction 1 as [|x l Hx _ IH]; [done|].
  rewrite filter_cons_True by done. by rewrite IH.
Qed.

(** X15.  What a writer journals, a reader rebuilds.  A server starts from a
    fresh log at the end of its journal and, with [mds_log] on, starts
    segments, submits events (other than subtree maps and journal resets,
    which the log writes itself), flushes, and hears from the backend.
    Once all it has appended is safe, a standby that recovers what the
    store holds of the journal and replays it into a fresh log completes
    with status 0, and comes to the same index: segment by segment the
    same start, the same end and the same number of events, and the same
    event count in all. *)
Theorem replay_rebuilds_written_index ops s0 s e c ino :
  initial s0 = true →
  j_written (journaler s0) = [] →
  j_unread (journaler s0) = [] →
  j_read_pos (journaler s0) = j_write_pos (journaler s0) →
  Forall (λ x, writer_op x = true) ops →
  run ops s0 = Done s →
  j_safe_pos (journaler s) = j_write_pos (journaler s) →
  ∃ r,
    replay e c (reader_log (recovered (new_Journaler ino) (durable (journaler s))))
    = Done (Replayed 0 r)
    ∧ shape <$> segments r = shape <$> segments s
    ∧ num_events r = num_events s
    ∧ j_read_pos (journaler r) = j_write_pos (journaler s).
Proof.
  intros Hi Hw0 Hu0 Hp0 Hops Hrun Hsafe.
  pose proof (run_count _ _ _ Hi Hrun) as Hcount.
  assert (segments s0 = []) as Hseg0.
  { unfold initial in Hi. repeat (apply andb_true_iff in Hi as [Hi ?]).
    by apply bool_decide_eq_true in Hi. }
  destruct (run_writes ops s0 s Hops) as (new & A1 & A2 & A3 & A4 & A5 & A6 & A7 & _);
    [by rewrite Hseg0 | done |].
  rewrite Hw0 in A1. cbn [app] in A1. rewrite Hseg0 in A3. cbn [fmap list_fmap] in A3.
  assert (j_written (durable (journaler s)) = j_written (journaler s)) as Hdur.
  { unfold durable. cbn [j_written]. apply filter_all.
    rewrite Hsafe, A1, A2. apply lay_out_within. }
  destruct (replay_fresh e c
              (reader_log (recovered (new_Journaler ino) (durable (journaler s))))
              new) as (r & Hr & Hsh & Hsum & Hrp & _); try done.
  - cbn [reader_log journaler recovered j_unread durable]. rewrite A7, Hu0.
    cbn [app]. fold (durable (journaler s)).
    change (filter _ (j_written (journaler s))) with (j_written (durable (journaler s))).
    rewrite Hdur, A1. apply lay_out_entries.
  - cbn. by rewrite A6, Hp0, Hsafe.
  - by left.
  - exists r. split; [exact Hr|]. cbn in Hsh, Hrp. rewrite A6, Hp0 in Hsh.
    rewrite Hsafe in Hrp.
    split; [by rewrite Hsh, A3|]. split; [|exact Hrp].
    rewrite <- Hsum, Hcount, <- !counts_shape. by rewrite Hsh, A3.
Qed.

Lemma replay_rebuilds_written_index_witness :
  let e := sample_env true false in
  let ops := [(e, OpStartNewSegment None); (e, OpSubmit sample_event (Some 1%nat));
              (e, OpFlush); (e, OpSafe)] in
  initial empty_log = true
  ∧ Forall (λ x, writer_op x = true) ops
  ∧ ∃ s r, run ops empty_log = Done s
           ∧ j_safe_pos (journaler s) = j_write_pos (journaler s)
           ∧ replay e None
               (reader_log (recovered (new_Journaler 512) (durable (journaler s))))
             = Done (Replayed 0 r)
           ∧ shape <$> segments r = shape <$> segments s
           ∧ num_events r = num_events s.
Proof.
  cbv zeta.
  assert (Forall (λ x, writer_op x = true)
            [(sample_env true false, OpStartNewSegment None);
             (sample_env true false, OpSubmit sample_event (Some 1%nat));
             (sample_env true false, OpFlush); (sample_env true false, OpSafe)]) as Hops
    by (repeat constructor).
  split; [reflexivity|]. split; [exact Hops|].
  destruct (run [(sample_env true false, OpStartNewSegment None);
                 (sample_env true false, OpSubmit sample_event (Some 1%nat));
                 (sample_env true false, OpFlush); (sample_env true false, OpSafe)]
              empty_log)
    as [s| |] eqn:E; [|by vm_compute in E..].
  assert (j_safe_pos (journaler s) = j_write_pos (journaler s)) as Hsafe.
  { vm_compute in E. by injection E as <-. }
  destruct (replay_rebuilds_written_index _ empty_log s (sample_env true false) None 512
              eq_refl eq_refl eq_refl eq_refl Hops E Hsafe) as (r & Hr & Hsh & Hn & _).
  exists s, r. split; [done|]. split; [exact Hsafe|]. split; [exact Hr|].
  split; [exact Hsh | exact Hn].
Defined.

(** ** Starting to write *)

Lemma start_new_segment_ready e onsync s s' :
  mds_log (g_conf e) = true →
  get_layout_period (journaler s) ≠ 0 →
  start_new_segment e onsync s = Done s' →
  ready s' ∧ cur_event s' = None.
Proof.
  intros Hlog Hper H. unfold start_new_segment in H.
  apply start_new_segment_with_Done in H as (le & s2 & Hc & Hs & ->).
  apply create_subtree_map_Done in Hc as (_ & Hle & _).
  apply submit_subtree_map_enabled in Hs as (le1 & Hj); [|done|by subst le].
  pose proof (prepare_new_segment_proj s) as P. cbv zeta in P.
  destruct P as (_ & _ & _ & Pj & _).
  apply journal_entry_ready in Hj as [Hready Hcur]; [|cbn; by rewrite Pj].
  cbn in Hcur. destruct onsync as [c|]; [|done].
  rewrite flush_wait_for_safe_cur_event. split; [|done].
  pose proof (flush_wait_for_safe_proj e c s2) as Q. cbv zeta in Q.
  destruct Q as (Qs & _ & _ & _ & _ & _ & _ & _ & _ & Qc & _ & _ & _ & _ & Qr).
  destruct (flush_wait_for_safe_journal e c s2) as (_ & Ql & _).
  destruct Hready as (R1 & R2 & R3 & R4).
  unfold ready, have_any_segments, get_layout_period in *.
  rewrite Qs, Qc, Qr, Ql. done.
Qed.

Lemma start_new_segment_num_events e onsync s s' :
  mds_log (g_conf e) = true →
  start_new_segment e onsync s = Done s' →
  num_events s' = num_events s + 1.
Proof.
  intros Hlog H. unfold start_new_segment in H.
  apply start_new_segment_with_Done in H as (le & s2 & Hc & Hs & ->).
  apply create_subtree_map_Done in Hc as (_ & Hle & _).
  apply submit_subtree_map_enabled in Hs as (le1 & Hj); [|done|by subst le].
  pose proof (prepare_new_segment_proj s) as P. cbv zeta in P.
  destruct P as (_ & _ & _ & _ & Pn & _).
  apply journal_entry_Done in Hj as (m & v & _ & _ & _ & _ & _ & Hn & _).
  cbn in Hn. rewrite Pn in Hn.
  destruct onsync as [c|]; [|done].
  pose proof (flush_wait_for_safe_proj e c s2) as Q. cbv zeta in Q.
  destruct Q as (_ & Qn & _). by rewrite Qn.
Qed.

(** X16.  A new log.  [create] always goes through: it leaves an empty,
    writeable journaler at this node's log inode, with the given layout
    and the configured format, all positions at the start, the head
    written once, and the position counters set; the callback is with the
    journaler.  [start_new_segment] then opens the first segment, at
    the start of the journal, with its subtree map as the one event, and
    the log takes events. *)
Theorem create_then_first_segment sv e default_log_layout c onsync s :
  mds_log (g_conf e) = true →
  is_any_replay e = false →
  default_log_layout ≠ 0 →
  segments s = [] →
  cur_event s = None →
  capped s = false →
  let j := mkJournaler (MDS_INO_LOG_OFFSET sv + nodeid sv) false 0 0 0 0
             default_log_layout (mds_journal_format (g_conf e)) 0 [] [] [] [0] 0 0 in
  let bl := mkBl (Some EVENT_SUBTREEMAP) (subtree_map_payload e) in
  ∃ s1 s2,
    mdlog_create sv e default_log_layout c s = Done (s1, c)
    ∧ journaler s1 = j
    ∧ logger s1 l_mdl_expos = 0
    ∧ logger s1 l_mdl_wrpos = 0
    ∧ segments s1 = []
    ∧ completed s1 = completed s
    ∧ start_new_segment e onsync s1 = Done s2
    ∧ shape <$> segments s2 = [(0, framed bl, 1)]
    ∧ j_written (journaler s2) = [(0, bl)]
    ∧ num_events s2 = num_events s + 1
    ∧ ready s2
    ∧ cur_event s2 = None.
Proof.
  intros Hlog Hrep Hper Hseg Hcur Hcap. cbv zeta.
  unfold mdlog_create, init_journaler. cbn [is_readonly new_Journaler j_readonly].
  cbn [assert mbind outcome_bind]. cbv zeta.
  cbn [journaler with_journaler set_writeable j_with_readonly create j_write_head
       j_ino j_readonly j_write_pos j_read_pos j_expire_pos j_safe_pos j_layout_period
       j_stream_format j_error j_written j_unread j_flush_waiters j_head_writes
       j_head_reads j_flushes get_expire_pos get_write_pos app].
  eexists. 
  match goal with
  | |- ∃ s2, Done (?st, c) = _ ∧ _ => set (s1 := st)
  end.
  destruct (start_new_segment_with_total e 1 onsync s1) as [s2 Hs2]; try done.
  change (start_new_segment e onsync s1 = Done s2) in Hs2.
  exists s2. split; [reflexivity|]. split; [reflexivity|].
  split; [reflexivity|]. split; [reflexivity|]. split; [exact Hseg|].
  split; [reflexivity|]. split; [exact Hs2|].
  pose proof (start_new_segment_ready e onsync s1 s2 Hlog Hper Hs2) as [Hready Hc2].
  pose proof (start_new_segment_num_events e onsync s1 s2 Hlog Hs2) as Hn2.
  apply start_new_segment_with_writes in Hs2 as (A1 & A2 & A3 & _); [|done|].
  2:{ subst s1. cbn. rewrite Hseg. constructor. }
  subst s1. cbn in A1, A2, A3. rewrite Hseg in A3. cbn in A3.
  split; [exact A3|]. split; [exact A1|]. split; [exact Hn2 | done].
Qed.

Lemma create_then_first_segment_witness :
  mds_log (g_conf (sample_env true false)) = true
  ∧ (4096 : Z) ≠ 0
  ∧ ∃ s1 s2,
      mdlog_create sample_server (sample_env true false) 4096 5%nat empty_log
      = Done (s1, 5%nat)
      ∧ start_new_segment (sample_env true false) None s1 = Done s2
      ∧ shape <$> segments s2 = [(0, 48, 1)]
      ∧ ready s2.
Proof.
  split; [reflexivity|]. split; [discriminate|].
  destruct (create_then_first_segment sample_server (sample_env true false) 4096
              5%nat None empty_log eq_refl eq_refl ltac:(discriminate) eq_refl eq_refl
              eq_refl)
    as (s1 & s2 & H1 & _ & _ & _ & _ & _ & H2 & H3 & _ & _ & H4 & _).
  exists s1, s2. split; [exact H1|]. split; [exact H2|]. split; [exact H3 | exact H4].
Defined.

(** X17.  [append] puts the read and the expire position at the write
    position and makes the journaler writeable, and leaves the index as
    replay built it.  After it a replay fails its assertion (the journaler
    is no longer read-only), and [start_new_segment] opens a segment at
    the write position, behind the segments that replay has left (in the
    place of one that was at that position): a new object that holds one
    event, the subtree map appended there, and ends where that record
    ends; after that the log takes events. *)
Theorem append_then_start_new_segment e onsync s :
  mds_log (g_conf e) = true →
  is_any_replay e = false →
  cur_event s = None →
  capped s = false →
  get_layout_period (journaler s) ≠ 0 →
  index_sorted s →
  index_behind s →
  let wp := j_write_pos (journaler s) in
  let bl := mkBl (Some EVENT_SUBTREEMAP) (subtree_map_payload e) in
  j_read_pos (journaler (append s)) = wp
  ∧ j_expire_pos (journaler (append s)) = wp
  ∧ j_write_pos (journaler (append s)) = wp
  ∧ j_readonly (journaler (append s)) = false
  ∧ logger (append s) l_mdl_expos = wp
  ∧ segments (append s) = segments s
  ∧ num_events (append s) = num_events s
  ∧ (∀ e2 c, replay e2 c (append s) = Abort)
  ∧ ∃ s' m rest,
      start_new_segment e onsync (append s) = Done s'
      ∧ segments s = m ++ rest
      ∧ Forall (λ ls, ls_offset ls < wp) m
      ∧ Forall (λ ls, ls_offset ls = wp) rest
      ∧ segments s' = m ++ [mkLogSegment (next_addr s) wp (wp + framed bl) 1]
      ∧ peek_current_segment s'
        = Some (mkLogSegment (next_addr s) wp (wp + framed bl) 1)
      ∧ ready s'
      ∧ cur_event s' = None
      ∧ num_events s' = num_events s + 1
      ∧ j_written (journaler s') = j_written (journaler s) ++ [(wp, bl)]
      ∧ j_write_pos (journaler s') = wp + framed bl.
Proof.
  intros Hlog Hrep Hcur Hcap Hper Hsorted Hbehind. cbv zeta.
  split; [done|]. split; [done|]. split; [done|]. split; [done|].
  split; [unfold append, pc_set; cbn; by rewrite decide_True|].
  split; [done|]. split; [done|]. split; [done|].
  destruct (start_new_segment_with_total e 1 onsync (append s)) as [s' Hs']; try done.
  change (start_new_segment e onsync (append s) = Done s') in Hs'.
  pose proof (start_new_segment_ready e onsync (append s) s' Hlog Hper Hs') as [Hr Hc].
  destruct (start_new_segment_inserts e onsync (append s) s')
    as (m & rest & Hm & Hlt & Heq & _ & _ & _ & H); [done|done|exact Hs'|].
  rewrite Hlog in H. destruct H as (Hseg & Hwr & Hwp & Hn).
  exists s', m, rest. split; [exact Hs'|]. split; [exact Hm|].
  split; [exact Hlt|]. split; [exact Heq|]. split; [exact Hseg|].
  split; [unfold peek_current_segment, seg_rbegin; rewrite Hseg; apply last_snoc|].
  split; [exact Hr|]. split; [exact Hc|]. split; [exact Hn|].
  split; [exact Hwr | exact Hwp].
Qed.

Lemma append_then_start_new_segment_witness :
  let s := reader_log old_format_journal in
  mds_log (g_conf (sample_env true false)) = true
  ∧ get_layout_period (journaler s) ≠ 0
  ∧ index_sorted s
  ∧ index_behind s
  ∧ replay (sample_env true false) None (append s) = Abort
  ∧ ∃ s', start_new_segment (sample_env true false) None (append s) = Done s'
          ∧ segments s' = [mkLogSegment 0 216 264 1]
          ∧ ready s'.
Proof.
  cbv zeta. split; [reflexivity|]. split; [discriminate|].
  assert (Hs : index_sorted (reader_log old_format_journal)) by constructor.
  assert (Hb : index_behind (reader_log old_format_journal)) by constructor.
  split; [exact Hs|]. split; [exact Hb|].
  destruct (append_then_start_new_segment (sample_env true false) None
              (reader_log old_format_journal) eq_refl eq_refl eq_refl eq_refl
              ltac:(discriminate) Hs Hb)
    as (_ & _ & _ & _ & _ & _ & _ & Hrep & s' & m & rest & Hst & Hm & _ & _ & Hseg & _
        & Hr & _).
  split; [apply Hrep|]. exists s'. split; [exact Hst|]. split; [|exact Hr].
  cbn in Hm. symmetry in Hm. apply app_eq_nil in Hm as [-> _]. exact Hseg.
Defined.

(** ** What every run keeps *)

(** X18.  The invariant [wf] of the log: the event count is the sum of
    the counts of the segments in the index; the offsets of the index are
    in strictly ascending order; no segment starts beyond the position
    where the next one would start (the read position while the journaler
    is read-only, the write position once it is writeable); and the read
    position is not beyond the write position.  A fresh log over a
    journal that reads without error has it, and every entry point of
    the log keeps it when it returns: [start_entry] and [submit_entry],
    [trim], [_maybe_expired], [replay], [cap], [append], [flush],
    [wait_for_safe], and [start_new_segment] when the journaler is
    writeable.  ([start_new_segment] itself does not look at the
    journaler: on a read-only one, with [mds_log] off, it puts a segment
    at the write position, beyond the read position.) *)
Theorem operations_keep_index_in_order e s :
  (initial s = true → wf s)
  ∧ (wf s →
     (num_events s = sum_events (segments s)
      ∧ StronglySorted Z.lt (ls_offset <$> segments s)
      ∧ Forall (λ ls, ls_offset ls ≤ ins_pos s) (segments s)
      ∧ j_read_pos (journaler s) ≤ j_write_pos (journaler s))
     ∧ (∀ le le' s1, start_entry le s = Done (le', s1) → wf s1)
     ∧ (∀ le c s', submit_entry e le c s = Done s' → wf s')
     ∧ (∀ onsync s',
          j_readonly (journaler s) = false →
          start_new_segment e onsync s = Done s' → wf s')
     ∧ (∀ m s', trim e m s = Done s' → wf s')
     ∧ (∀ a op_prio s', _maybe_expired e a op_prio s = Done s' → wf s')
     ∧ (∀ c r s', replay e c s = Done (Replayed r s') → wf s')
     ∧ (∀ c s', replay e c s = Done (Stuck s') → wf s')
     ∧ wf (cap s)
     ∧ wf (append s)
     ∧ wf (flush s)
     ∧ (∀ c, wf (wait_for_safe e c s))).
Proof.
  split; [apply initial_wf|]. intros Hwf. split.
  { destruct Hwf as [W1 _ W3 W4 W5 _ _ _ _]. split; [done|]. split; [done|].
    split; [|done]. eapply Forall_impl; [exact W4|]. by intros x [? _]. }
  split.
  { intros le le' s1 H. unfold start_entry in H. inv_done H. injection H as <- <-.
    by apply wf_with_cur_event. }
  split; [intros le c s'; by apply wf_submit_entry_fuel|].
  split; [intros onsync s' Hro; by apply wf_start_new_segment|].
  split; [intros m s'; by apply wf_trim|].
  split; [intros a op_prio s'; by apply wf__maybe_expired|].
  split; [intros c r s' H; by apply (wf_replay e c s (Replayed r s'))|].
  split; [intros c s' H; by apply (wf_replay e c s (Stuck s'))|].
  split; [by apply wf_cap|]. split; [by apply wf_append|].
  split; [by apply wf_flush|]. intros c. by apply wf_wait_for_safe.
Qed.

Lemma operations_keep_index_in_order_witness :
  wf empty_log
  ∧ ∃ s', start_new_segment (sample_env true false) None empty_log = Done s'
          ∧ wf s'
          ∧ num_events s' = sum_events (segments s').
Proof.
  destruct (operations_keep_index_in_order (sample_env true false) empty_log)
    as [Hinit Hkeep].
  assert (wf empty_log) as Hwf by (by apply Hinit).
  split; [exact Hwf|].
  destruct (Hkeep Hwf) as (_ & _ & _ & Hstart & _).
  destruct (start_new_segment (sample_env true false) None empty_log)
    as [s'| |] eqn:E; [|by vm_compute in E..].
  exists s'. split; [done|].
  assert (wf s') as Hwf' by (by apply (Hstart None s')).
  split; [exact Hwf'|].
  destruct (operations_keep_index_in_order (sample_env true false) s') as [_ Hkeep'].
  by destruct (Hkeep' Hwf') as ((Hc & _) & _).
Defined.

(** [start_new_segment] on a read-only journaler, with the log disabled:
    the call returns, and the segment it has put at the write position,
    216, is beyond the read position, 0, where replay would put the
    next one. *)
Lemma start_new_segment_readonly_breaks_order :
  let s := reader_log old_format_journal in
  wf s
  ∧ j_readonly (journaler s) = true
  ∧ ∃ s', start_new_segment (sample_env false false) None s = Done s'
          ∧ segments s' = [mkLogSegment 0 216 216 0]
          ∧ ins_pos s' = 0
          ∧ ¬ wf s'.
Proof.
  cbv zeta. split; [by apply initial_wf|]. split; [done|].
  eexists. split; [vm_compute; reflexivity|]. split; [done|]. split; [done|].
  intros [_ _ _ W4 _ _ _ _ _]. apply Forall_cons in W4 as [[W4 _] _].
  cbn in W4. lia.
Qed.

(** ** How deep the submit path nests *)

(** X19.  [submit_entry], [start_new_segment] and
    [journal_segment_subtree_map] call each other, and the calls end:
    a subtree map never rotates, so its [submit_entry] calls nothing
    further; the test subtree map of the debug mode can rotate but injects
    no further test map; so the calls nest three deep at most, and a
    deeper bound changes no result. *)
Theorem submit_entry_nests_three_deep e le c s :
  (∀ n, submit_entry_fuel e (3 + n) le c s = submit_entry e le c s)
  ∧ submit_entry e le c s ≠ OutOfFuel
  ∧ (∀ onsync n, start_new_segment_with e (submit_entry_fuel e (1 + n)) onsync s
                 = start_new_segment_with e (submit_entry_fuel e 1) onsync s)
  ∧ (ev_type le = EVENT_SUBTREEMAP →
     ∀ n, submit_entry_fuel e (1 + n) le c s = submit_entry_fuel e 1 le c s)
  ∧ (ev_type le = EVENT_SUBTREEMAP_TEST →
     ∀ n, submit_entry_fuel e (2 + n) le c s = submit_entry_fuel e 2 le c s).
Proof.
  split; [intros n; apply submit_entry_fuel_ge|].
  split; [apply submit_entry_answers|].
  split.
  { intros onsync n. unfold start_new_segment_with, journal_segment_subtree_map_with.
    destruct (create_subtree_map e (prepare_new_segment s)) as [[sle s1]| |] eqn:E;
      [|done..].
    cbn [mbind outcome_bind].
    rewrite (submit_subtree_map_fuel e n); [done|].
    by apply create_subtree_map_type in E. }
  split.
  { intros Hty n. by apply submit_subtree_map_fuel. }
  intros Hty n. induction n as [|n IH]; [done|].
  replace (2 + S n)%nat with (S (2 + n)) by lia.
  rewrite submit_entry_fuel_S; [done|]. rewrite IH.
  apply submit_entry_fuel_2. by right.
Qed.

(** * crushtool: the layers of a built map *)

Lemma int32_small z : - 2 ^ 31 ≤ z < 2 ^ 31 → Crushtool.int32 z = z.
Proof. intros H. unfold Crushtool.int32. rewrite Z.mod_small; lia. Qed.

Lemma fill_spec num_osds size j lower items weights weight :
  0 ≤ size → 0 ≤ j →
  j + Z.of_nat (length lower) ≤ num_osds → num_osds < 2 ^ 31 →
  let n := if size =? 0 then length lower else Z.to_nat (size - j) in
  Crushtool.fill num_osds size j lower items weights weight
  = Done (j + Z.of_nat (length (take n lower)),
          items ++ (take n lower).*1, weights ++ (take n lower).*2,
          foldl (λ a w, Crushtool.int32 (a + w)) weight (take n lower).*2,
          drop n lower).
Proof.
  intros Hsize. revert j items weights weight.
  induction lower as [|[item w] lower IH]; intros j items weights weight Hj Hlen Hosds.
  - cbn. rewrite !take_nil, drop_nil. cbn. rewrite !app_nil_r, Z.add_0_r.
    by destruct (_ || _).
  - cbn [Crushtool.fill]. cbv zeta.
    destruct (size =? 0) eqn:Hz.
    + rewrite orb_true_r. cbn [length] in Hlen.
      rewrite bool_decide_eq_true_2 by lia. cbn [assert mbind outcome_bind].
      rewrite int32_small by lia.
      rewrite IH; [|lia|cbn [length] in *; lia|done].
      cbn [length take drop]. rewrite !firstn_all, !drop_all.
      cbn [fmap list_fmap length foldl].
      rewrite <- !app_assoc. cbn [app fst snd].
      replace (j + 1 + Z.of_nat (length lower)) with (j + Z.of_nat (S (length lower)))
        by lia.
      done.
    + rewrite orb_false_r.
      destruct (j <? size) eqn:Hlt.
      * apply Z.ltb_lt in Hlt. cbn [length] in Hlen.
        rewrite bool_decide_eq_true_2 by lia. cbn [assert mbind outcome_bind].
        rewrite int32_small by lia.
        rewrite IH; [|lia|cbn [length] in *; lia|done].
        replace (Z.to_nat (size - j)) with (S (Z.to_nat (size - (j + 1)))) by lia.
        cbn [take drop fmap list_fmap length foldl].
        rewrite <- !app_assoc. cbn [app fst snd].
        replace (j + 1 + Z.of_nat (length (take (Z.to_nat (size - (j + 1))) lower)))
          with (j + Z.of_nat (S (length (take (Z.to_nat (size - (j + 1))) lower))))
          by lia.
        done.
      * apply Z.ltb_ge in Hlt.
        replace (Z.to_nat (size - j)) with 0%nat by lia.
        cbn. rewrite !app_nil_r, Z.add_0_r. done.
Qed.

Lemma ceil_div_step len size :
  0 < size → 0 < len →
  (len + size - 1) / size = 1 + (Z.max 0 (len - size) + size - 1) / size.
Proof.
  intros Hs Hl. destruct (Z.le_gt_cases len size) as [Hle|Hgt].
  - rewrite Z.max_l by lia. replace (0 + size - 1) with (size - 1) by lia.
    rewrite (Z.div_small (size - 1)) by lia.
    replace (len + size - 1) with ((len - 1) + 1 * size) by lia.
    rewrite Z.div_add by lia. rewrite Z.div_small by lia. lia.
  - rewrite Z.max_r by lia.
    replace (len + size - 1) with ((len - size + size - 1) + 1 * size) by lia.
    rewrite Z.div_add by lia. lia.
Qed.

(** One layer: the buckets made cut the lower items, in their order,
    into runs. *)
Lemma layer_loop_spec make add num_osds fuel alg type size lower crush cur :
  (∀ a t j i w, make a t j i w = true) →
  (∀ n, is_Some (add n)) →
  0 ≤ size →
  Z.of_nat (length lower) ≤ num_osds →
  num_osds < 2 ^ 31 →
  (length lower < fuel)%nat →
  ∃ made,
    Crushtool.layer_loop make add num_osds fuel alg type size lower crush cur
    = Done (crush ++ made,
            cur ++ ((λ b, (Crushtool.b_id b, Crushtool.int_sum (Crushtool.b_weights b)))
                      <$> made))
    ∧ concat (Crushtool.b_items <$> made) = lower.*1
    ∧ concat (Crushtool.b_weights <$> made) = lower.*2
    ∧ Forall (λ b, Crushtool.b_alg b = alg
                   ∧ Crushtool.b_type b = type
                   ∧ Crushtool.b_size b = Z.of_nat (length (Crushtool.b_items b))
                   ∧ length (Crushtool.b_weights b) = length (Crushtool.b_items b)
                   ∧ Crushtool.b_items b ≠ []
                   ∧ (0 < size → Z.of_nat (length (Crushtool.b_items b)) ≤ size)) made
    ∧ Some <$> (Crushtool.b_id <$> made) = add <$> seq (length crush) (length made)
    ∧ (if size =? 0
       then length made = (match lower with [] => 0 | _ => 1 end)%nat
       else Z.of_nat (length made) = (Z.of_nat (length lower) + size - 1) / size).
Proof.
  intros Hmake Hadd Hsize. revert lower crush cur.
  induction fuel as [|fuel IH]; intros lower crush cur Hlen Hosds Hfuel; [lia|].
  cbn [Crushtool.layer_loop].
  destruct lower as [|x lower'] eqn:Hlower.
  { exists []. cbn. rewrite !app_nil_r. repeat split; try done.
    destruct (size =? 0) eqn:Hz; [done|]. apply Z.eqb_neq in Hz.
    cbn. rewrite Z.div_small; lia. }
  rewrite <- Hlower in *.
  assert (lower ≠ []) as Hne by (by rewrite Hlower).
  rewrite fill_spec; [|done|done|lia|done]. cbv zeta.
  set (n := if size =? 0 then length lower else Z.to_nat (size - 0)).
  assert (1 ≤ n)%nat as Hn.
  { subst n. destruct (size =? 0) eqn:Hz; [rewrite Hlower; cbn; lia|].
    apply Z.eqb_neq in Hz. lia. }
  cbn [mbind outcome_bind app]. rewrite Hmake. cbn [assert].
  destruct (Hadd (length crush)) as [id Hid]. rewrite Hid. cbv zeta.
  assert (length (take n lower) = Nat.min n (length lower)) as Htake
    by apply length_take.
  assert (length (drop n lower) = (length lower - n)%nat) as Hdrop
    by apply length_drop.
  assert (0 < length lower)%nat as Hpos by (rewrite Hlower; cbn; lia).
  set (b := Crushtool.mkBucket id alg type
              (0 + Z.of_nat (length (take n lower))) (take n lower).*1
              (take n lower).*2).
  destruct (IH (drop n lower) (crush ++ [b])
              (cur ++ [(id, foldl (λ a w, Crushtool.int32 (a + w)) 0 (take n lower).*2)]))
    as (made & Hloop & Hitems & Hweights & Hall & Hids & Hcount); [lia..|].
  exists (b :: made). rewrite Hloop.
  split; [by rewrite <- !app_assoc|].
  split.
  { cbn. rewrite Hitems, <- fmap_app, take_drop. done. }
  split.
  { cbn. rewrite Hweights, <- fmap_app, take_drop. done. }
  split.
  { constructor; [|done]. subst b. cbn.
    rewrite !length_fmap. repeat split; try done.
    - intros E. apply fmap_nil_inv in E.
      assert (length (take n lower) = 0)%nat by (by rewrite E). lia.
    - intros Hs. subst n. destruct (size =? 0) eqn:Hz; [apply Z.eqb_eq in Hz; lia|].
      lia. }
  split.
  { cbn. rewrite Hids, length_app. cbn. rewrite Nat.add_1_r. by rewrite Hid. }
  destruct (size =? 0) eqn:Hz.
  - subst n. rewrite drop_all in Hcount. cbn. rewrite Hcount.
    by destruct lower.
  - apply Z.eqb_neq in Hz. subst n. cbn [length].
    rewrite Nat2Z.inj_succ, Hcount, Hdrop.
    rewrite (ceil_div_step (Z.of_nat (length lower)) size) by lia.
    replace (Z.of_nat (length lower - Z.to_nat (size - 0)))
      with (Z.max 0 (Z.of_nat (length lower) - size)) by lia.
    lia.
Qed.

Lemma total_cons w ws : Crushtool.total (w :: ws) = w + Crushtool.total ws.
Proof. reflexivity. Qed.

Lemma total_nonneg ws : Forall (λ w, 0 ≤ w) ws → 0 ≤ Crushtool.total ws.
Proof. induction 1; [done|]. rewrite total_cons. lia. Qed.

Lemma total_app ws vs :
  Crushtool.total (ws ++ vs) = Crushtool.total ws + Crushtool.total vs.
Proof.
  induction ws as [|w ws IH]; [done|].
  cbn [app]. rewrite !total_cons, IH. lia.
Qed.

Lemma foldl_int32_exact ws a :
  0 ≤ a → Forall (λ w, 0 ≤ w) ws → a + Crushtool.total ws < 2 ^ 31 →
  foldl (λ a w, Crushtool.int32 (a + w)) a ws = a + Crushtool.total ws.
Proof.
  revert a. induction ws as [|w ws IH]; intros a Ha Hall Hsum.
  { cbn [foldl]. change (Crushtool.total []) with 0. lia. }
  apply Forall_cons in Hall as [Hw Hall].
  pose proof (total_nonneg _ Hall) as Hnn.
  rewrite total_cons in Hsum |- *. cbn [foldl].
  rewrite int32_small by lia. rewrite IH by (done || lia). lia.
Qed.

Lemma int_sum_exact ws :
  Forall (λ w, 0 ≤ w) ws → Crushtool.total ws < 2 ^ 31 →
  Crushtool.int_sum ws = Crushtool.total ws.
Proof.
  intros Hall Hsum. unfold Crushtool.int_sum.
  rewrite foldl_int32_exact by (done || lia). lia.
Qed.

Lemma sums_of_runs ls :
  Forall (λ w, 0 ≤ w) (concat ls) → Crushtool.total (concat ls) < 2 ^ 31 →
  Crushtool.total (Crushtool.int_sum <$> ls) = Crushtool.total (concat ls)
  ∧ Forall (λ w, 0 ≤ w) (Crushtool.int_sum <$> ls).
Proof.
  induction ls as [|l ls IH]; intros Hall Hsum; [done|].
  cbn [concat] in Hall, Hsum |- *. rewrite fmap_cons, total_cons.
  apply Forall_app in Hall as [Hl Hls].
  rewrite total_app in Hsum |- *.
  pose proof (total_nonneg _ Hl). pose proof (total_nonneg _ Hls).
  destruct IH as [IH1 IH2]; [done|lia|].
  rewrite int_sum_exact by (done || lia).
  split; [lia|]. constructor; [lia|done].
Qed.

Lemma nonempty_runs_length {A} (ls : list (list A)) :
  Forall (λ l, l ≠ []) ls → (length ls ≤ length (concat ls))%nat.
Proof.
  induction 1 as [|l ls Hl _ IH]; cbn; [lia|].
  rewrite length_app. destruct l; [done|]. cbn. lia.
Qed.

Lemma run_length_le {A} (ls : list (list A)) l :
  l ∈ ls → (length l ≤ length (concat ls))%nat.
Proof.
  induction ls as [|l' ls IH]; [by intros ?%elem_of_nil|].
  intros [->|Hin]%elem_of_cons; cbn; rewrite length_app; [lia|].
  specialize (IH Hin). lia.
Qed.

Lemma find_bucket_type_known bt alg :
  Crushtool.find_bucket_type Crushtool.bucket_types bt = Some alg →
  bt ∈ ["uniform"; "list"; "straw"; "tree"]%string.
Proof.
  unfold Crushtool.bucket_types. cbn [Crushtool.find_bucket_type].
  destruct (String.eqb bt "uniform") eqn:E1;
    [apply String.eqb_eq in E1; subst bt; intros _; set_solver|].
  destruct (String.eqb bt "list") eqn:E2;
    [apply String.eqb_eq in E2; subst bt; intros _; set_solver|].
  destruct (String.eqb bt "straw") eqn:E3;
    [apply String.eqb_eq in E3; subst bt; intros _; set_solver|].
  destruct (String.eqb bt "tree") eqn:E4;
    [apply String.eqb_eq in E4; subst bt; intros _; set_solver|].
  done.
Qed.

(** The loop over the layers: every layer is built, no array is
    overrun, and the weight of the devices goes up through the layers. *)
Lemma build_layers_spec make add num_osds layers type crush lower :
  (∀ a t j i w, make a t j i w = true) →
  (∀ n, is_Some (add n)) →
  num_osds < 2 ^ 31 →
  Forall (λ l, is_Some (Crushtool.find_bucket_type Crushtool.bucket_types
                          (Crushtool.buckettype l))
               ∧ 0 ≤ Crushtool.size l) layers →
  Z.of_nat (length lower) ≤ num_osds →
  Forall (λ w, 0 ≤ w) lower.*2 →
  Crushtool.total lower.*2 < 2 ^ 31 →
  ∃ made top,
    Crushtool.build_layers make add num_osds layers type crush lower
    = Done (crush ++ made, top)
    ∧ Crushtool.total top.*2 = Crushtool.total lower.*2
    ∧ Forall (λ w, 0 ≤ w) top.*2
    ∧ (length top ≤ length lower)%nat
    ∧ (lower ≠ [] → top ≠ [])
    ∧ Forall (λ b, 1 ≤ Z.of_nat (length (Crushtool.b_items b)) ≤ num_osds
                   ∧ Crushtool.b_size b = Z.of_nat (length (Crushtool.b_items b)))
        made
    ∧ (∀ l, last layers = Some l → Crushtool.size l = 0 → lower ≠ [] →
            length top = 1%nat).
Proof.
  intros Hmake Hadd Hosds Hlayers. revert type crush lower.
  induction Hlayers as [|l layers [[alg Halg] Hsize] _ IH];
    intros type crush lower Hlen Hnn Hsum.
  { exists [], lower. cbn. rewrite app_nil_r. repeat split; done. }
  cbn [Crushtool.build_layers]. rewrite Halg.
  destruct (layer_loop_spec make add num_osds (S (length lower)) alg type
              (Crushtool.size l) lower crush [] Hmake Hadd Hsize Hlen Hosds)
    as (made & Hloop & Hitems & Hweights & Hall & _ & Hcount); [lia|].
  rewrite Hloop. cbn [mbind outcome_bind app].
  set (cur := (λ b, (Crushtool.b_id b, Crushtool.int_sum (Crushtool.b_weights b)))
                <$> made) in *.
  assert (cur.*2 = Crushtool.int_sum <$> (Crushtool.b_weights <$> made)) as Hcur2.
  { subst cur. rewrite <- !list_fmap_compose. done. }
  assert (length cur = length made) as Hcurlen by (subst cur; by rewrite length_fmap).
  destruct (sums_of_runs (Crushtool.b_weights <$> made)) as [Hs1 Hs2].
  { by rewrite Hweights. }
  { by rewrite Hweights. }
  rewrite Hweights in Hs1.
  assert (length made ≤ length lower)%nat as Hmadelen.
  { rewrite <- (length_fmap fst lower), <- Hitems, <- (length_fmap Crushtool.b_items made).
    apply nonempty_runs_length. apply Forall_fmap.
    eapply Forall_impl; [exact Hall|]. cbn. intros b Hb. apply Hb. }
  assert (lower ≠ [] → made ≠ []) as Hmadene.
  { intros Hne ->. cbn in Hitems. symmetry in Hitems.
    apply fmap_nil_inv in Hitems. done. }
  destruct (IH (Crushtool.int32 (type + 1)) (crush ++ made) cur)
    as (made' & top & Hrest & Ht1 & Ht2 & Ht3 & Ht4 & Ht5 & Ht6).
  { lia. }
  { by rewrite Hcur2. }
  { rewrite Hcur2, Hs1. done. }
  exists (made ++ made'), top. rewrite Hrest, app_assoc.
  split; [done|].
  split; [by rewrite Ht1, Hcur2|].
  split; [done|].
  split; [lia|].
  split.
  { intros Hne. apply Ht4. intros E. apply Hmadene; [done|].
    apply nil_length_inv. rewrite <- Hcurlen, E. done. }
  split.
  { apply Forall_app. split; [|done].
    apply Forall_forall. intros b Hb.
    pose proof (proj1 (Forall_forall _ _) Hall b Hb) as (_ & _ & Hbsize & _ & Hbne & _).
    split; [|done]. split.
    - destruct (Crushtool.b_items b); [done|]. cbn. lia.
    - assert (length (Crushtool.b_items b) ≤ length (concat (Crushtool.b_items <$> made)))%nat
        as Hle by (apply run_length_le, list_elem_of_fmap_2, Hb).
      rewrite Hitems, length_fmap in Hle. lia. }
  intros l' Hlast Hsz Hne.
  destruct layers as [|l2 layers'].
  - cbn in Hlast. injection Hlast as <-.
    cbn in Hrest. injection Hrest as _ <-.
    rewrite Hcurlen. apply Z.eqb_eq in Hsz. rewrite Hsz in Hcount.
    rewrite Hcount. by destruct lower.
  - apply (Ht6 l'); [done|done|].
    intros E. apply Hmadene; [done|].
    apply nil_length_inv. rewrite <- Hcurlen, E. done.
Qed.

Lemma total_devices n k :
  Crushtool.total ((λ i : nat, (Z.of_nat i, 65536)) <$> seq k n).*2 = Z.of_nat n * 65536.
Proof.
  revert k. induction n as [|n IH]; intros k; [done|].
  cbn [seq]. rewrite !fmap_cons, total_cons, IH. cbn [snd]. lia.
Qed.

(** X20.  One layer of [--build]: a layer of size [n > 0] over [len] lower
    items makes the buckets that cut them, in their order, into runs of
    at most [n]: ceil(len / n) buckets, none of them empty; a layer of
    size 0 puts all of them in one bucket.  The loop ends within the
    rounds that [len] allows, with each bucket's weight the sum of its
    items' weights as [int] adds them. *)
Theorem layer_cuts_lower_items make add num_osds alg type size lower crush :
  (∀ a t j i w, make a t j i w = true) →
  (∀ n, is_Some (add n)) →
  0 ≤ size →
  Z.of_nat (length lower) ≤ num_osds →
  num_osds < 2 ^ 31 →
  ∃ made,
    Crushtool.layer_loop make add num_osds (S (length lower)) alg type size lower crush []
    = Done (crush ++ made,
            (λ b, (Crushtool.b_id b, Crushtool.int_sum (Crushtool.b_weights b))) <$> made)
    ∧ concat (Crushtool.b_items <$> made) = lower.*1
    ∧ concat (Crushtool.b_weights <$> made) = lower.*2
    ∧ Forall (λ b, Crushtool.b_alg b = alg
                   ∧ Crushtool.b_type b = type
                   ∧ Crushtool.b_size b = Z.of_nat (length (Crushtool.b_items b))
                   ∧ length (Crushtool.b_weights b) = length (Crushtool.b_items b)
                   ∧ Crushtool.b_items b ≠ []
                   ∧ (0 < size → Z.of_nat (length (Crushtool.b_items b)) ≤ size)) made
    ∧ Some <$> (Crushtool.b_id <$> made) = add <$> seq (length crush) (length made)
    ∧ (if size =? 0
       then length made = (match lower with [] => 0 | _ => 1 end)%nat
       else Z.of_nat (length made) = (Z.of_nat (length lower) + size - 1) / size).
Proof.
  intros Hmake Hadd Hsize Hlen Hosds.
  destruct (layer_loop_spec make add num_osds (S (length lower)) alg type size lower
              crush [] Hmake Hadd Hsize Hlen Hosds) as (made & H); [lia|].
  exists made. exact H.
Qed.

Lemma layer_cuts_lower_items_witness :
  ∃ made,
    Crushtool.layer_loop Crushtool.sample_make Crushtool.sample_add 5 6
      Crushtool.CRUSH_BUCKET_STRAW 1 2
      [(0, 65536); (1, 65536); (2, 65536); (3, 65536); (4, 65536)] [] []
    = Done ([] ++ made,
            (λ b, (Crushtool.b_id b, Crushtool.int_sum (Crushtool.b_weights b))) <$> made)
    ∧ concat (Crushtool.b_items <$> made) = [0; 1; 2; 3; 4]
    ∧ Z.of_nat (length made) = 3.
Proof.
  destruct (layer_cuts_lower_items Crushtool.sample_make Crushtool.sample_add 5
              Crushtool.CRUSH_BUCKET_STRAW 1 2
              [(0, 65536); (1, 65536); (2, 65536); (3, 65536); (4, 65536)] [])
    as (made & H1 & H2 & _ & _ & _ & H6).
  - done.
  - intros n. by eexists.
  - lia.
  - cbn. lia.
  - lia.
  - exists made. split; [exact H1|]. split; [exact H2|]. exact H6.
Defined.

(** X21.  The layers of [--build], as far as [main] makes the buckets
    (their naming apart, which the model leaves out), under these
    conditions: [crush_make_bucket] and [crush_add_bucket] succeed on
    every call, there is at least one layer, every layer has a known
    bucket type and a size that is not negative, [num_osds] is not
    negative, and the device weights fit an [int]
    (num_osds * 0x10000 < 2^31).  Then the loop of every layer ends; no
    bucket is empty or larger than the arrays of num_osds entries it is
    filled through, so no write goes beyond them; the weights of the top
    layer add up to num_osds * 0x10000; and when the last layer has size 0
    and there is a device, the top layer is a single root. *)
Theorem build_layers_within_bounds make add num_osds layers :
  (∀ a t j i w, make a t j i w = true) →
  (∀ n, is_Some (add n)) →
  0 ≤ num_osds →
  num_osds * 65536 < 2 ^ 31 →
  layers ≠ [] →
  Forall (λ l, Crushtool.buckettype l ∈ ["uniform"; "list"; "straw"; "tree"]%string
               ∧ 0 ≤ Crushtool.size l) layers →
  ∃ crush top,
    Crushtool.build make add num_osds layers = Done (crush, top)
    ∧ Crushtool.total top.*2 = num_osds * 65536
    ∧ Forall (λ b, 1 ≤ Z.of_nat (length (Crushtool.b_items b)) ≤ num_osds
                   ∧ Crushtool.b_size b = Z.of_nat (length (Crushtool.b_items b)))
        crush
    ∧ (∀ l, last layers = Some l → Crushtool.size l = 0 → 0 < num_osds →
            length top = 1%nat).
Proof.
  intros Hmake Hadd Hn Hw Hne Hlayers.
  unfold Crushtool.build. destruct layers as [|l0 layers0] eqn:El; [done|].
  rewrite <- El in *. cbv zeta.
  set (lower := (λ i : nat, (Z.of_nat i, 65536)) <$> seq 0 (Z.to_nat num_osds)).
  assert (length lower = Z.to_nat num_osds) as Hlen
    by (subst lower; by rewrite length_fmap, length_seq).
  assert (Crushtool.total lower.*2 = num_osds * 65536) as Htot
    by (subst lower; rewrite total_devices; lia).
  destruct (build_layers_spec make add num_osds layers 1 [] lower)
    as (made & top & Hb & Ht1 & _ & _ & _ & Ht5 & Ht6); try done.
  - lia.
  - eapply Forall_impl; [exact Hlayers|]. cbn. intros l [Hin Hs]. split; [|done].
    repeat (apply elem_of_cons in Hin as [->|Hin]; [by eexists|]).
    by apply elem_of_nil in Hin.
  - lia.
  - subst lower. rewrite <- list_fmap_compose. apply Forall_fmap, Forall_forall.
    intros i _. cbn. lia.
  - lia.
  - exists made, top. cbn [app] in Hb. rewrite Hb.
    split; [done|]. split; [by rewrite Ht1|]. split; [done|].
    intros l Hl Hs Hpos. apply (Ht6 l Hl Hs).
    intros E. rewrite E in Hlen. cbn in Hlen. lia.
Qed.

Lemma build_layers_within_bounds_witness :
  ∃ crush top,
    Crushtool.build Crushtool.sample_make Crushtool.sample_add 6 Crushtool.sample_layers
    = Done (crush, top)
    ∧ Crushtool.total top.*2 = 6 * 65536
    ∧ length top = 1%nat.
Proof.
  destruct (build_layers_within_bounds Crushtool.sample_make Crushtool.sample_add 6
              Crushtool.sample_layers)
    as (crush & top & H1 & H2 & _ & H4).
  - done.
  - intros n. by eexists.
  - lia.
  - lia.
  - done.
  - repeat constructor; cbn; try lia;
      repeat (first [by apply list_elem_of_here | apply list_elem_of_further]).
  - exists crush, top. split; [exact H1|]. split; [exact H2|].
    apply (H4 (Crushtool.mkLayer "root" "straw" 0)); [done|done|lia].
Defined.

(** X22.  In [--build], a layer whose size is negative never
    finishes once there is an item below it: each round of the
    [while (1)] loop makes an empty bucket and leaves [lower_pos] where
    it was, so no number of rounds is enough. *)
Theorem negative_layer_size_never_ends make add num_osds alg type size lower fuel :
  (∀ a t, make a t 0 [] [] = true) →
  (∀ n, is_Some (add n)) →
  size < 0 →
  lower ≠ [] →
  ∀ crush cur,
    Crushtool.layer_loop make add num_osds fuel alg type size lower crush cur = OutOfFuel.
Proof.
  intros Hmake Hadd Hsize Hne.
  induction fuel as [|fuel IH]; intros crush cur; [done|].
  cbn [Crushtool.layer_loop]. destruct lower as [|x lower']; [done|].
  assert (Crushtool.fill num_osds size 0 (x :: lower') [] [] 0
          = Done (0, [], [], 0, x :: lower')) as ->.
  { cbn [Crushtool.fill].
    replace (0 <? size) with false by (symmetry; apply Z.ltb_ge; lia).
    replace (size =? 0) with false by (symmetry; apply Z.eqb_neq; lia).
    done. }
  cbn [mbind outcome_bind]. rewrite Hmake. cbn [assert].
  destruct (Hadd (length crush)) as [id ->]. cbv zeta. apply IH.
Qed.

Lemma negative_layer_size_never_ends_witness :
  Crushtool.layer_loop Crushtool.sample_make Crushtool.sample_add 2 1000
    Crushtool.CRUSH_BUCKET_STRAW 1 (-1) [(0, 65536); (1, 65536)] [] [] = OutOfFuel.
Proof.
  apply (negative_layer_size_never_ends Crushtool.sample_make Crushtool.sample_add 2
           Crushtool.CRUSH_BUCKET_STRAW 1 (-1) [(0, 65536); (1, 65536)] 1000).
  - done.
  - intros n. by eexists.
  - lia.
  - done.
Defined.

(** X23.  A [--build] that completes has met only the
    bucket types uniform, list, straw and tree, and at least one layer:
    with no layer, or a layer of another type, the tool exits. *)
Theorem build_needs_known_bucket_types make add num_osds layers r :
  Crushtool.build make add num_osds layers = Done r →
  layers ≠ []
  ∧ Forall (λ l, Crushtool.buckettype l ∈ ["uniform"; "list"; "straw"; "tree"]%string)
      layers.
Proof.
  unfold Crushtool.build. intros H.
  split; [by destruct layers|].
  assert (∃ type crush lower,
            Crushtool.build_layers make add num_osds layers type crush lower = Done r)
    as (type & crush & lower & Hb).
  { destruct layers; [done|]. by eexists _, _, _. }
  clear H. revert type crush lower Hb.
  induction layers as [|l layers IH]; intros type crush lower Hb; [done|].
  cbn [Crushtool.build_layers] in Hb.
  destruct (Crushtool.find_bucket_type _ _) as [alg|] eqn:Halg; [|done].
  destruct (Crushtool.layer_loop _ _ _ _ _ _ _ _ _ _) as [[crush' cur]| |]; try done.
  cbn [mbind outcome_bind] in Hb.
  constructor; [by eapply find_bucket_type_known|]. by eapply IH.
Qed.

Lemma build_needs_known_bucket_types_witness :
  Crushtool.sample_layers ≠ []
  ∧ Forall (λ l, Crushtool.buckettype l ∈ ["uniform"; "list"; "straw"; "tree"]%string)
      Crushtool.sample_layers.
Proof.
  eapply (build_needs_known_bucket_types Crushtool.sample_make Crushtool.sample_add 6
            Crushtool.sample_layers).
  vm_compute. reflexivity.
Defined.
